(** * SecretSage: the credential storage and synchronisation engine

    A shallow embedding of the TypeScript sources of SecretSage
    ([sources/local/index.ts], [sources/registry.ts], [core/service.ts],
    [config/paths.ts], [config/loader.ts], [encryption/age.ts]) together with
    the properties of the vault store, the source registry and the grant/revoke
    reconciler.

    Conventions of the embedding.
    - A JavaScript string is a [string] holding its UTF-8 bytes; the files the
      program reads are taken to be well-formed UTF-8.
    - [async] functions run to completion one after the other, so a method is
      a function from the state of the world to a result and a new world; a
      thrown exception is the result [Throw], and the effects made before the
      throw stay.
    - Objects used as dictionaries are property lists in creation order. *)

From Stdlib Require Import Strings.String Strings.Ascii Lists.List.
From Stdlib Require Import NArith.NArith ZArith.ZArith Bool.Bool Arith.PeanoNat Lia.
Import ListNotations.

Set Warnings "-register-all,-abstract-large-number".

Open Scope list_scope.
Open Scope string_scope.

(** ** Strings *)

Module Str.

Definition code (c : ascii) : N := N_of_ascii c.

Definition chr (n : N) : ascii := ascii_of_N n.

(** Characters that cannot be written inside a literal here. *)
Definition dquote : ascii := chr 34.
Definition backslash : ascii := chr 92.
Definition squote : ascii := chr 39.
Definition LF : ascii := chr 10.

Definition str1 (c : ascii) : string := String c EmptyString.

Definition bytes (l : list N) : string :=
  fold_right (fun n s => String (chr n) s) EmptyString l.

Definition isEmpty (s : string) : bool :=
  match s with EmptyString => true | _ => false end.

Fixpoint rev_append (s acc : string) : string :=
  match s with
  | EmptyString => acc
  | String c r => rev_append r (String c acc)
  end.

Definition rev (s : string) : string := rev_append s EmptyString.

(** [startsWith s p]: String.prototype.startsWith. *)
Fixpoint startsWith (s p : string) : bool :=
  match p, s with
  | EmptyString, _ => true
  | String a p', String b s' => Ascii.eqb a b && startsWith s' p'
  | String _ _, EmptyString => false
  end.

(** [strip_prefix p s]: what follows [p] at the head of [s]. *)
Fixpoint strip_prefix (p s : string) : option string :=
  match p, s with
  | EmptyString, _ => Some s
  | String a p', String b s' =>
      if Ascii.eqb a b then strip_prefix p' s' else None
  | String _ _, EmptyString => None
  end.

(** [includes s p]: String.prototype.includes. *)
Fixpoint includes (s p : string) : bool :=
  startsWith s p ||
  match s with
  | EmptyString => false
  | String _ r => includes r p
  end.

(** [join sep l]: Array.prototype.join on an array of strings. *)
Fixpoint join (sep : string) (l : list string) : string :=
  match l with
  | [] => EmptyString
  | [x] => x
  | x :: r => x ++ sep ++ join sep r
  end.

(** [split_on c s]: [s.split(c)] for a one-character separator. *)
Fixpoint split_on (c : ascii) (s : string) : list string :=
  match s with
  | EmptyString => [EmptyString]
  | String a r =>
      if Ascii.eqb a c then EmptyString :: split_on c r
      else match split_on c r with
           | [] => [str1 a]
           | x :: l => String a x :: l
           end
  end.

(** The white space of ECMAScript ([\s] in a regular expression, and what
    [trim] removes), each code point in UTF-8:
    U+0009..U+000D, U+0020, U+00A0, U+1680, U+2000..U+200A, U+2028, U+2029,
    U+202F, U+205F, U+3000 and U+FEFF. *)
Definition ws1 (a : N) : bool :=
  ((9 <=? a) && (a <=? 13) || (a =? 32))%N.

Definition ws2 (a b : N) : bool :=
  ((a =? 194) && (b =? 160))%N.

Definition ws3 (a b c : N) : bool :=
  (((a =? 225) && (b =? 154) && (c =? 128))
   || ((a =? 226) && (b =? 128)
         && (((128 <=? c) && (c <=? 138)) || (c =? 168) || (c =? 169) || (c =? 175)))
   || ((a =? 226) && (b =? 129) && (c =? 159))
   || ((a =? 227) && (b =? 128) && (c =? 128))
   || ((a =? 239) && (b =? 187) && (c =? 191)))%N.

(** [ws_prefix s]: the rest of [s] after one leading white space character. *)
Definition ws_prefix (s : string) : option string :=
  match s with
  | EmptyString => None
  | String a r =>
      if ws1 (code a) then Some r
      else match r with
           | EmptyString => None
           | String b r2 =>
               if ws2 (code a) (code b) then Some r2
               else match r2 with
                    | EmptyString => None
                    | String c r3 =>
                        if ws3 (code a) (code b) (code c) then Some r3 else None
                    end
           end
  end.

(** The same, from the end: [s] is given reversed. *)
Definition ws_suffix_rev (s : string) : option string :=
  match s with
  | EmptyString => None
  | String c r =>
      if ws1 (code c) then Some r
      else match r with
           | EmptyString => None
           | String b r2 =>
               if ws2 (code b) (code c) then Some r2
               else match r2 with
                    | EmptyString => None
                    | String a r3 =>
                        if ws3 (code a) (code b) (code c) then Some r3 else None
                    end
           end
  end.

Fixpoint strip (step : string -> option string) (fuel : nat) (s : string) : string :=
  match fuel with
  | O => s
  | S n => match step s with
           | Some r => strip step n r
           | None => s
           end
  end.

Definition trimStart (s : string) : string := strip ws_prefix (String.length s) s.

Definition trimEnd (s : string) : string :=
  rev (strip ws_suffix_rev (String.length s) (rev s)).

(** String.prototype.trim *)
Definition trim (s : string) : string := trimEnd (trimStart s).

End Str.

(** ** Objects used as dictionaries

    An ordinary object whose prototype is [Object.prototype], holding
    enumerable data properties with string keys.  The list keeps the
    properties in creation order, each key once. *)

Module JsObject.

Section Props.
Context {V : Type}.

Definition t := list (string * V).

Definition empty : t := [].

Fixpoint getOwn (k : string) (o : t) : option V :=
  match o with
  | [] => None
  | (k', v) :: r => if String.eqb k' k then Some v else getOwn k r
  end.

Definition hasOwn (k : string) (o : t) : bool :=
  match getOwn k o with Some _ => true | None => false end.

(** CreateDataProperty: the value of an own key is replaced where it stands,
    a new key goes last. *)
Fixpoint define (k : string) (v : V) (o : t) : t :=
  match o with
  | [] => [(k, v)]
  | (k', v') :: r =>
      if String.eqb k' k then (k', v) :: r else (k', v') :: define k v r
  end.

(** [delete o[k]] *)
Fixpoint delete (k : string) (o : t) : t :=
  match o with
  | [] => []
  | (k', v') :: r =>
      if String.eqb k' k then delete k r else (k', v') :: delete k r
  end.

Definition keys (o : t) : list string := map fst o.

End Props.

Arguments t : clear implicits.

(** The property names every such object inherits from [Object.prototype]. *)
Definition prototype_keys : list string :=
  [ "constructor"; "__defineGetter__"; "__defineSetter__"; "hasOwnProperty";
    "__lookupGetter__"; "__lookupSetter__"; "isPrototypeOf";
    "propertyIsEnumerable"; "toString"; "valueOf"; "__proto__";
    "toLocaleString" ].

Definition inherited (k : string) : bool :=
  existsb (String.eqb k) prototype_keys.

(** [k in o]: own properties and the prototype chain. *)
Definition has_in {V} (k : string) (o : t V) : bool :=
  hasOwn k o || inherited k.

(** [o[k] = v] for a primitive [v]: [__proto__] is an accessor of the
    prototype whose setter ignores a value that is not an object, so no own
    property appears; every other key is created or overwritten. *)
Definition assign {V} (k : string) (v : V) (o : t V) : t V :=
  if hasOwn k o then define k v o
  else if String.eqb k "__proto__" then o
  else define k v o.

(** *** Property order

    [Object.entries], [for..in] and [JSON.stringify] list the keys that are
    array indices first, in ascending numeric order, and then the other keys
    in creation order.  An array index is the canonical decimal form of an
    integer below 2^32 - 1. *)

Definition digit (c : ascii) : option N :=
  let n := Str.code c in
  if ((48 <=? n) && (n <=? 57))%N then Some (n - 48)%N else None.

Fixpoint digits (s : string) (acc : N) : option N :=
  match s with
  | EmptyString => Some acc
  | String c r =>
      match digit c with
      | Some d => digits r (acc * 10 + d)%N
      | None => None
      end
  end.

Definition array_index (k : string) : option N :=
  match k with
  | EmptyString => None
  | String c r =>
      if Ascii.eqb c "0" && negb (Str.isEmpty r) then None
      else if (10 <? String.length k)%nat then None
      else match digits k 0 with
           | Some n => if (n <? 4294967295)%N then Some n else None
           | None => None
           end
  end.

Section Order.
Context {V : Type}.

Fixpoint insert_index (n : N) (kv : string * V) (l : list (N * (string * V)))
  : list (N * (string * V)) :=
  match l with
  | [] => [(n, kv)]
  | (m, kv') :: r =>
      if (n <? m)%N then (n, kv) :: l else (m, kv') :: insert_index n kv r
  end.

Fixpoint index_props (o : t V) : list (N * (string * V)) :=
  match o with
  | [] => []
  | kv :: r =>
      match array_index (fst kv) with
      | Some n => insert_index n kv (index_props r)
      | None => index_props r
      end
  end.

Definition named_props (o : t V) : t V :=
  filter (fun kv => match array_index (fst kv) with
                    | Some _ => false | None => true end) o.

(** [Object.entries(o)] *)
Definition entries (o : t V) : list (string * V) :=
  (map snd (index_props o) ++ named_props o)%list.

End Order.

End JsObject.

(** ** Results, exceptions and the sequencing of effects *)

Inductive exn : Type :=
| SyntaxError                 (* JSON.parse on a malformed document *)
| TypeError                   (* a property of null, a call of a non-function *)
| DecryptionError             (* the age library rejects the ciphertext or key *)
| ENOENT (path : string)      (* reading a file that does not exist *)
| EIO (path : string)         (* any other failure of the file system *)
| Error (message : string)    (* [throw new Error(message)] *)
| Untyped.                    (* the run left the declared TypeScript types:
                                 the embedding does not follow it further *)

Inductive Result (A : Type) : Type :=
| Ok (a : A)
| Throw (e : exn).

Arguments Ok {A} a.
Arguments Throw {A} e.

(** A computation over a state [S]: what an awaited [async] call does. *)
Definition M (S A : Type) : Type := S -> Result A * S.

Definition ret {S A} (a : A) : M S A := fun s => (Ok a, s).

Definition throw {S A} (e : exn) : M S A := fun s => (Throw e, s).

Definition bind {S A B} (m : M S A) (k : A -> M S B) : M S B :=
  fun s => match m s with
           | (Ok a, s') => k a s'
           | (Throw e, s') => (Throw e, s')
           end.

(** [try { m } catch { h }] *)
Definition try_catch {S A} (m : M S A) (h : exn -> M S A) : M S A :=
  fun s => match m s with
           | (Ok a, s') => (Ok a, s')
           | (Throw e, s') => h e s'
           end.

Definition lift_result {S A} (r : Result A) : M S A := fun s => (r, s).

Declare Scope js_scope.
Delimit Scope js_scope with js.
Notation "x <- m ;; k" := (bind m (fun x => k))
  (at level 61, m at next level, right associativity) : js_scope.
Notation "m ;; k" := (bind m (fun _ => k))
  (at level 61, right associativity) : js_scope.
Open Scope js_scope.

(** ** The world: files, clock, process environment *)

Inductive Node : Type :=
| Absent
| File (content : string)
| Unreadable.       (* a directory, or a file the process may not open *)

Record World : Type := mkWorld {
  files : string -> Node;
  clock : Z;          (* milliseconds since the epoch: what [new Date()] reads *)
  entropy : N;        (* the randomness the encryption library draws from *)
  cwd : string;       (* process.cwd() *)
  homedir : string    (* os.homedir() *)
}.

Definition set_files (f : string -> Node) (w : World) : World :=
  mkWorld f (clock w) (entropy w) (cwd w) (homedir w).

Definition set_clock (t : Z) (w : World) : World :=
  mkWorld (files w) t (entropy w) (cwd w) (homedir w).

Definition set_entropy (n : N) (w : World) : World :=
  mkWorld (files w) (clock w) n (cwd w) (homedir w).

Definition put_file (p : string) (n : Node) (w : World) : World :=
  set_files (fun q => if String.eqb q p then n else files w q) w.

Module fs.

(** fs.pathExists *)
Definition pathExists (p : string) : M World bool :=
  fun w => match files w p with
           | Absent => (Ok false, w)
           | _ => (Ok true, w)
           end.

(** fs.readFile(p, 'utf8') *)
Definition readFile (p : string) : M World string :=
  fun w => match files w p with
           | File c => (Ok c, w)
           | Absent => (Throw (ENOENT p), w)
           | Unreadable => (Throw (EIO p), w)
           end.

(** fs.writeFile(p, content) *)
Definition writeFile (p content : string) : M World unit :=
  fun w => match files w p with
           | Unreadable => (Throw (EIO p), w)
           | _ => (Ok tt, put_file p (File content) w)
           end.

(** fs.copyFile(src, dst) *)
Definition copyFile (src dst : string) : M World unit :=
  c <- readFile src ;; writeFile dst c.

(** fs.ensureDir: directories are not part of the model. *)
Definition ensureDir (p : string) : M World unit := ret tt.

End fs.

Module path.

(** path.join of a directory and a file name *)
Definition join (dir name : string) : string := dir ++ "/" ++ name.

End path.

(** ** Dates *)

Module Date.

Local Open Scope Z_scope.

(** A [Date] is its time value. *)
Definition t := Z.

(** [new Date()] *)
Definition now : M World t := fun w => (Ok (clock w), w).

Definition digit_char (d : Z) : ascii := Str.chr (Z.to_N (48 + d)).

(** [n] in decimal on [width] digits, zero padded. *)
Fixpoint pad (width : nat) (n : Z) : string :=
  match width with
  | O => EmptyString
  | S k => pad k (n / 10) ++ Str.str1 (digit_char (n mod 10))
  end.

(** Year, month and day of a day number (days since 1970-01-01), in the
    proleptic Gregorian calendar. *)
Definition civil (days : Z) : Z * Z * Z :=
  let z := days + 719468 in
  let era := z / 146097 in
  let doe := z - era * 146097 in
  let yoe := (doe - doe / 1460 + doe / 36524 - doe / 146096) / 365 in
  let doy := doe - (365 * yoe + yoe / 4 - yoe / 100) in
  let mp := (5 * doy + 2) / 153 in
  let d := doy - (153 * mp + 2) / 5 + 1 in
  let m := if mp <? 10 then mp + 3 else mp - 9 in
  let y := yoe + era * 400 + (if m <=? 2 then 1 else 0) in
  (y, m, d).

Definition year_string (y : Z) : string :=
  if (0 <=? y) && (y <=? 9999) then pad 4 y
  else if y <? 0 then "-" ++ pad 6 (- y)
  else "+" ++ pad 6 y.

(** Date.prototype.toISOString, which is also what [JSON.stringify] writes
    for a [Date]. *)
Definition toISOString (t : t) : string :=
  let days := t / 86400000 in
  let ms := t mod 86400000 in
  let '(y, m, d) := civil days in
  year_string y ++ "-" ++ pad 2 m ++ "-" ++ pad 2 d ++ "T"
    ++ pad 2 (ms / 3600000) ++ ":" ++ pad 2 (ms / 60000 mod 60) ++ ":"
    ++ pad 2 (ms / 1000 mod 60) ++ "." ++ pad 3 (ms mod 1000) ++ "Z".

End Date.

(** ** JSON

    [JSON.parse] and [JSON.stringify(v, null, 2)], on the values a JSON
    document can hold.  A number is kept as the text it was written with. *)

Module JSON.

Import Str.

Inductive value : Type :=
| VNull
| VBool (b : bool)
| VNumber (lexeme : string)
| VString (s : string)
| VArray (items : list value)
| VObject (props : JsObject.t value).

(** [e.p] for a property name [p] that is not one of the built-in
    properties of arrays, strings, numbers and booleans ([length], an index,
    a method): [None] is [undefined].  Reading a property of [null] throws. *)
Definition prop (p : string) (e : value) : Result (option value) :=
  match e with
  | VNull => Throw TypeError
  | VObject props => Ok (JsObject.getOwn p props)
  | _ => Ok None
  end.

(** *** Writing *)

Definition hex_digit (n : N) : ascii :=
  if (n <? 10)%N then chr (48 + n) else chr (87 + n).

(** QuoteJSONString, one character at a time. *)
Definition escape_char (c : ascii) : string :=
  let n := code c in
  if (n =? 34)%N then String backslash (str1 dquote)
  else if (n =? 92)%N then String backslash (str1 backslash)
  else if (n =? 8)%N then String backslash "b"
  else if (n =? 9)%N then String backslash "t"
  else if (n =? 10)%N then String backslash "n"
  else if (n =? 12)%N then String backslash "f"
  else if (n =? 13)%N then String backslash "r"
  else if (n <? 32)%N then
    String backslash
      (String "u" (String "0" (String "0"
         (String (hex_digit (n / 16)) (str1 (hex_digit (n mod 16)))))))
  else str1 c.

Fixpoint escape (s : string) : string :=
  match s with
  | EmptyString => EmptyString
  | String c r => escape_char c ++ escape r
  end.

Definition quote (s : string) : string :=
  String dquote (escape s ++ str1 dquote).

Definition sep (ind : string) : string := "," ++ String LF ind.

(** [print ind v]: the text of [v] when the current indentation is [ind];
    the gap is two spaces. *)
Fixpoint print (ind : string) (v : value) : string :=
  match v with
  | VNull => "null"
  | VBool true => "true"
  | VBool false => "false"
  | VNumber lexeme => lexeme
  | VString s => quote s
  | VArray [] => "[]"
  | VArray items =>
      let ind' := ind ++ "  " in
      "[" ++ String LF ind'
          ++ join (sep ind') (map (print ind') items)
          ++ String LF ind ++ "]"
  | VObject props =>
      let ind' := ind ++ "  " in
      let printed := map (fun kv => (fst kv, print ind' (snd kv))) props in
      match JsObject.entries printed with
      | [] => "{}"
      | es =>
          "{" ++ String LF ind'
              ++ join (sep ind')
                   (map (fun kv => quote (fst kv) ++ ": " ++ snd kv) es)
              ++ String LF ind ++ "}"
      end
  end.

(** JSON.stringify(v, null, 2) *)
Definition stringify (v : value) : string := print EmptyString v.

(** *** Reading *)

Definition is_ws (c : ascii) : bool :=
  let n := code c in ((n =? 32) || (n =? 9) || (n =? 10) || (n =? 13))%N.

Fixpoint skip_ws (s : string) : string :=
  match s with
  | String c r => if is_ws c then skip_ws r else s
  | EmptyString => s
  end.

Definition hexval (c : ascii) : option N :=
  let n := code c in
  if ((48 <=? n) && (n <=? 57))%N then Some (n - 48)%N
  else if ((97 <=? n) && (n <=? 102))%N then Some (n - 87)%N
  else if ((65 <=? n) && (n <=? 70))%N then Some (n - 55)%N
  else None.

Definition hex4 (a b c d : ascii) : option N :=
  match hexval a, hexval b, hexval c, hexval d with
  | Some x, Some y, Some z, Some t => Some (((x * 16 + y) * 16 + z) * 16 + t)%N
  | _, _, _, _ => None
  end.

(** The UTF-8 bytes of a code point. *)
Definition utf8 (cp : N) : string :=
  (if cp <? 128 then bytes [cp]
   else if cp <? 2048 then bytes [192 + cp / 64; 128 + cp mod 64]
   else if cp <? 65536 then
     bytes [224 + cp / 4096; 128 + (cp / 64) mod 64; 128 + cp mod 64]
   else
     bytes [240 + cp / 262144; 128 + (cp / 4096) mod 64;
            128 + (cp / 64) mod 64; 128 + cp mod 64])%N.

Definition simple_escape (c : ascii) : option ascii :=
  let n := code c in
  if (n =? 34)%N then Some dquote
  else if (n =? 92)%N then Some backslash
  else if (n =? 47)%N then Some "/"%char
  else if (n =? 98)%N then Some (chr 8)
  else if (n =? 102)%N then Some (chr 12)
  else if (n =? 110)%N then Some (chr 10)
  else if (n =? 114)%N then Some (chr 13)
  else if (n =? 116)%N then Some (chr 9)
  else None.

Definition is_high (u : N) : bool := ((55296 <=? u) && (u <=? 56319))%N.
Definition is_low (u : N) : bool := ((56320 <=? u) && (u <=? 57343))%N.

(** The code point of a surrogate pair. *)
Definition pair_point (hi lo : N) : N :=
  (65536 + (hi - 55296) * 1024 + (lo - 56320))%N.

(** A high surrogate that no low surrogate followed stays alone. *)
Definition flush (pending : option N) : string :=
  match pending with
  | Some hi => utf8 hi
  | None => EmptyString
  end.

Definition prepend (p : string) (r : option (string * string))
  : option (string * string) :=
  match r with
  | Some (s, rest) => Some (p ++ s, rest)
  | None => None
  end.

(** The characters of a string literal, after its opening quote: the decoded
    string and the text after the closing quote.  [pending] is a high
    surrogate just read from an escape, waiting for its low surrogate. *)
Fixpoint parse_chars (pending : option N) (s : string) : option (string * string) :=
  match s with
  | EmptyString => None
  | String c r =>
      let n := code c in
      if (n =? 34)%N then Some (flush pending, r)
      else if (n <? 32)%N then None
      else if (n =? 92)%N then
        match r with
        | EmptyString => None
        | String e r1 =>
            match simple_escape e with
            | Some x => prepend (flush pending ++ str1 x) (parse_chars None r1)
            | None =>
                if Ascii.eqb e "u" then
                  match r1 with
                  | String h1 (String h2 (String h3 (String h4 r5))) =>
                      match hex4 h1 h2 h3 h4 with
                      | Some u =>
                          match pending with
                          | Some hi =>
                              if is_low u
                              then prepend (utf8 (pair_point hi u)) (parse_chars None r5)
                              else if is_high u
                              then prepend (utf8 hi) (parse_chars (Some u) r5)
                              else prepend (utf8 hi ++ utf8 u) (parse_chars None r5)
                          | None =>
                              if is_high u then parse_chars (Some u) r5
                              else prepend (utf8 u) (parse_chars None r5)
                          end
                      | None => None
                      end
                  | _ => None
                  end
                else None
            end
        end
      else prepend (flush pending ++ str1 c) (parse_chars None r)
  end.

Definition is_digit (c : ascii) : bool :=
  let n := code c in ((48 <=? n) && (n <=? 57))%N.

Fixpoint take_digits (s : string) : string * string :=
  match s with
  | String c r =>
      if is_digit c then let '(d, rest) := take_digits r in (String c d, rest)
      else (EmptyString, s)
  | EmptyString => (EmptyString, s)
  end.

(** One or more digits. *)
Definition digits1 (s : string) : option (string * string) :=
  match take_digits s with
  | (EmptyString, _) => None
  | (d, rest) => Some (d, rest)
  end.

Definition opt_char (p : ascii -> bool) (s : string) : string * string :=
  match s with
  | String c r => if p c then (str1 c, r) else (EmptyString, s)
  | EmptyString => (EmptyString, s)
  end.

(** The JSON number at the head of [s]: its text and what follows. *)
Definition parse_number (s : string) : option (string * string) :=
  let '(sign, s1) := opt_char (Ascii.eqb "-") s in
  match s1 with
  | EmptyString => None
  | String c r =>
      let int :=
        if Ascii.eqb c "0" then Some ("0", r)
        else digits1 s1 in
      match int with
      | None => None
      | Some (i, s2) =>
          let frac :=
            match s2 with
            | String "." r2 =>
                match digits1 r2 with
                | Some (d, s3) => Some ("." ++ d, s3)
                | None => None
                end
            | _ => Some (EmptyString, s2)
            end in
          match frac with
          | None => None
          | Some (f, s3) =>
              match s3 with
              | String e r3 =>
                  if Ascii.eqb e "e" || Ascii.eqb e "E" then
                    let '(sg, s4) :=
                      opt_char (fun c => Ascii.eqb c "+" || Ascii.eqb c "-") r3 in
                    match digits1 s4 with
                    | Some (d, s5) => Some (sign ++ i ++ f ++ str1 e ++ sg ++ d, s5)
                    | None => None
                    end
                  else Some (sign ++ i ++ f, s3)
              | EmptyString => Some (sign ++ i ++ f, s3)
              end
          end
      end
  end.

Definition literal (word : string) (v : value) (s : string)
  : option (value * string) :=
  match strip_prefix word s with
  | Some rest => Some (v, rest)
  | None => None
  end.

Fixpoint parse_value (fuel : nat) (s : string) : option (value * string) :=
  match fuel with
  | O => None
  | S n =>
      match skip_ws s with
      | EmptyString => None
      | String c r =>
          if Ascii.eqb c "{" then
            match skip_ws r with
            | String c' r' =>
                if Ascii.eqb c' "}" then Some (VObject [], r')
                else parse_members n [] r
            | EmptyString => None
            end
          else if Ascii.eqb c "[" then
            match skip_ws r with
            | String c' r' =>
                if Ascii.eqb c' "]" then Some (VArray [], r')
                else match parse_elements n r with
                     | Some (l, rest) => Some (VArray l, rest)
                     | None => None
                     end
            | EmptyString => None
            end
          else if Ascii.eqb c dquote then
            match parse_chars None r with
            | Some (str, rest) => Some (VString str, rest)
            | None => None
            end
          else if Ascii.eqb c "t" then literal "true" (VBool true) (String c r)
          else if Ascii.eqb c "f" then literal "false" (VBool false) (String c r)
          else if Ascii.eqb c "n" then literal "null" VNull (String c r)
          else match parse_number (String c r) with
               | Some (lexeme, rest) => Some (VNumber lexeme, rest)
               | None => None
               end
      end
  end

with parse_elements (fuel : nat) (s : string) : option (list value * string) :=
  match fuel with
  | O => None
  | S n =>
      match parse_value n s with
      | None => None
      | Some (v, r) =>
          match skip_ws r with
          | EmptyString => None
          | String c r' =>
              if Ascii.eqb c "," then
                match parse_elements n r' with
                | Some (l, rest) => Some (v :: l, rest)
                | None => None
                end
              else if Ascii.eqb c "]" then Some ([v], r')
              else None
          end
      end
  end

with parse_members (fuel : nat) (acc : JsObject.t value) (s : string)
  : option (value * string) :=
  match fuel with
  | O => None
  | S n =>
      match skip_ws s with
      | EmptyString => None
      | String q r =>
          if Ascii.eqb q dquote then
            match parse_chars None r with
            | None => None
            | Some (k, r1) =>
                match skip_ws r1 with
                | EmptyString => None
                | String c r2 =>
                    if Ascii.eqb c ":" then
                      match parse_value n r2 with
                      | None => None
                      | Some (v, r3) =>
                          match skip_ws r3 with
                          | EmptyString => None
                          | String d r4 =>
                              if Ascii.eqb d "," then
                                parse_members n (JsObject.define k v acc) r4
                              else if Ascii.eqb d "}" then
                                Some (VObject (JsObject.define k v acc), r4)
                              else None
                          end
                      end
                    else None
                end
            end
          else None
      end
  end.

(** JSON.parse(text) *)
Definition parse (text : string) : Result value :=
  match parse_value (S (S (String.length text))) text with
  | Some (v, rest) =>
      if isEmpty (skip_ws rest) then Ok v else Throw SyntaxError
  | None => Throw SyntaxError
  end.

End JSON.

(** ** core/types.ts *)

(** [CredentialMetadata]: the object [{ name, ...metadata }]; [md_props] are
    all its properties in creation order, [name] first. *)
Record CredentialMetadata : Type := mkMetadata {
  md_name : string;
  md_props : JsObject.t JSON.value
}.

(** [Credential]: a credential with its decrypted value; [cred_metadata] is
    [None] for [undefined]. *)
Record Credential : Type := mkCredential {
  cred_name : string;
  cred_value : string;
  cred_source : string;
  cred_metadata : option JSON.value
}.

(** ** The age library (an external collaborator)

    [age-encryption] generates identities, derives the recipient of an
    identity, encrypts for a recipient and decrypts with an identity.  The
    ciphertext is kept in the base64 text the provider stores.  Encryption
    draws randomness, passed here as a number. *)
Class AgeLibrary : Type := {
  age_generateIdentity : N -> string;
  age_identityToRecipient : string -> string;
  age_encrypt : string -> N -> string -> Result string;
  age_decrypt : string -> string -> Result string
}.

(** What the encryption capability promises: a text encrypted for the
    recipient of an identity decrypts with that identity to the same text. *)
Class AgeContract `{AgeLibrary} : Prop := {
  age_encrypts :
    forall identity seed plaintext,
    exists c, age_encrypt (age_identityToRecipient identity) seed plaintext = Ok c;
  age_roundtrip :
    forall identity seed plaintext c,
      age_encrypt (age_identityToRecipient identity) seed plaintext = Ok c ->
      age_decrypt identity c = Ok plaintext
}.

(** ** encryption/age.ts *)

Module AgeProvider.

Section Provider.
Context `{AgeLibrary}.

Definition fresh_entropy : M World N :=
  fun w => (Ok (entropy w), set_entropy (N.succ (entropy w)) w).

Definition generateKeyPair : M World (string * string) :=
  seed <- fresh_entropy ;;
  let identity := age_generateIdentity seed in
  let recipient := age_identityToRecipient identity in
  ret (recipient, identity).

Definition encrypt (plaintext recipient : string) : M World string :=
  seed <- fresh_entropy ;;
  lift_result (age_encrypt recipient seed plaintext).

Definition decrypt (ciphertext privateKey : string) : M World string :=
  lift_result (age_decrypt privateKey ciphertext).

(** The first line that, trimmed, starts with [tag]. *)
Fixpoint key_line (tag : string) (lines : list string) : option string :=
  match lines with
  | [] => None
  | line :: rest =>
      let trimmed := Str.trim line in
      if Str.startsWith trimmed tag then Some trimmed else key_line tag rest
  end.

Definition loadIdentity (identityPath : string) : M World string :=
  content <- fs.readFile identityPath ;;
  match key_line "AGE-SECRET-KEY-" (Str.split_on Str.LF content) with
  | Some key => ret key
  | None => throw (Error ("No valid age identity found in " ++ identityPath))
  end.

Definition loadRecipient (recipientPath : string) : M World string :=
  content <- fs.readFile recipientPath ;;
  match key_line "age1" (Str.split_on Str.LF content) with
  | Some key => ret key
  | None => throw (Error ("No valid age recipient found in " ++ recipientPath))
  end.

Definition nl : string := Str.str1 Str.LF.

Definition saveIdentity (privateKey identityPath : string) : M World unit :=
  fs.ensureDir identityPath ;;
  now <- Date.now ;;
  let content :=
    "# created: " ++ Date.toISOString now ++ nl
    ++ "# SecretSage identity file" ++ nl
    ++ "# public key: (run 'secretsage config --show' to see)" ++ nl
    ++ privateKey ++ nl in
  fs.writeFile identityPath content.

Definition saveRecipient (publicKey recipientPath : string) : M World unit :=
  fs.ensureDir recipientPath ;;
  let content :=
    "# SecretSage recipient (public key)" ++ nl
    ++ "# Share this key to allow others to encrypt credentials for you" ++ nl
    ++ publicKey ++ nl in
  fs.writeFile recipientPath content.

End Provider.

End AgeProvider.

(** ** sources/local/index.ts: the vault store *)

Module LocalSource.

Import JSON.

Record t : Type := mkLocalSource {
  vaultPath : string;
  identityPath : string;
  recipientPath : string
}.

Definition id : string := "local".
Definition name : string := "Local Vault".
Definition priority : Z := 1.

(** [e.name === name] *)
Definition named (name : string) (e : value) : Result bool :=
  match prop "name" e with
  | Ok (Some (VString s)) => Ok (String.eqb s name)
  | Ok _ => Ok false
  | Throw x => Throw x
  end.

(** [entries.findIndex((e) => e.name === name)]; [None] stands for -1. *)
Fixpoint findIndex (name : string) (entries : list value) : Result (option nat) :=
  match entries with
  | [] => Ok None
  | e :: rest =>
      match named name e with
      | Throw x => Throw x
      | Ok true => Ok (Some O)
      | Ok false =>
          match findIndex name rest with
          | Ok (Some i) => Ok (Some (S i))
          | r => r
          end
      end
  end.

(** The methods of [Array.prototype] exist on arrays only: [entries.find],
    [entries.map], [entries.findIndex] on anything else is a call of
    [undefined]. *)
Definition as_array (entries : value) : Result (list value) :=
  match entries with
  | VArray l => Ok l
  | _ => Throw TypeError
  end.

(** [entries[i] = e] *)
Fixpoint replace_at (i : nat) (e : value) (l : list value) : list value :=
  match l, i with
  | [], _ => []
  | _ :: r, O => e :: r
  | x :: r, S j => x :: replace_at j e r
  end.

(** [entries.splice(i, 1)] *)
Fixpoint remove_at (i : nat) (l : list value) : list value :=
  match l, i with
  | [], _ => []
  | _ :: r, O => r
  | x :: r, S j => x :: remove_at j r
  end.

(** [{ ...m }] for a stored metadata value: the own properties of an object
    in enumeration order; nothing for [undefined], [null], a number or a
    boolean.  A string or an array is outside the declared type. *)
Definition spread (m : option value) : Result (list (string * value)) :=
  match m with
  | Some (VObject props) => Ok (JsObject.entries props)
  | Some (VString _) | Some (VArray _) => Throw Untyped
  | _ => Ok []
  end.

(** [{ name: entry.name, ...entry.metadata }] *)
Definition metadata_of (entry : value) : Result CredentialMetadata :=
  match prop "name" entry, prop "metadata" entry with
  | Throw x, _ | _, Throw x => Throw x
  | Ok n, Ok m =>
      match spread m with
      | Throw x => Throw x
      | Ok ps =>
          let final := match JsObject.getOwn "name" ps with
                       | Some v => Some v
                       | None => n
                       end in
          match final with
          | Some (VString s) =>
              Ok (mkMetadata s (("name", VString s) :: JsObject.delete "name" ps))
          | _ => Throw Untyped
          end
      end
  end.

Fixpoint map_result {A B} (f : A -> Result B) (l : list A) : Result (list B) :=
  match l with
  | [] => Ok []
  | a :: r =>
      match f a with
      | Throw x => Throw x
      | Ok b => match map_result f r with
                | Ok bs => Ok (b :: bs)
                | Throw x => Throw x
                end
      end
  end.

Definition drop_undefined (ps : list (string * option value)) : JsObject.t value :=
  flat_map (fun kv => match snd kv with
                      | Some v => [(fst kv, v)]
                      | None => []
                      end) ps.

Section Methods.
Context `{AgeLibrary}.
Variable this : t.

Definition isAvailable : M World bool :=
  try_catch (fs.pathExists (identityPath this)) (fun _ => ret false).

(** Read vault entries from file: the parsed document, taken as it is to be
    a [VaultEntry[]]. *)
Definition readVault : M World value :=
  try_catch
    (exists_ <- fs.pathExists (vaultPath this) ;;
     if negb exists_ then ret (VArray [])
     else
       content <- fs.readFile (vaultPath this) ;;
       if Str.isEmpty (Str.trim content) then ret (VArray [])
       else lift_result (JSON.parse content))
    (fun _ => ret (VArray [])).

(** Write vault entries to file. *)
Definition writeVault (entries : list value) : M World unit :=
  fs.ensureDir (vaultPath this) ;;
  let content := JSON.stringify (VArray entries) in
  fs.writeFile (vaultPath this) content.

Definition initialize : M World unit :=
  keyPair <- AgeProvider.generateKeyPair ;;
  AgeProvider.saveIdentity (snd keyPair) (identityPath this) ;;
  AgeProvider.saveRecipient (fst keyPair) (recipientPath this) ;;
  writeVault [].

(** [entry.encryptedValue], declared a string. *)
Definition encryptedValue (entry : value) : Result string :=
  match prop "encryptedValue" entry with
  | Ok (Some (VString c)) => Ok c
  | Ok _ => Throw Untyped
  | Throw x => Throw x
  end.

Definition get (name : string) : M World (option Credential) :=
  entries <- readVault ;;
  l <- lift_result (as_array entries) ;;
  i <- lift_result (findIndex name l) ;;
  match i with
  | None => ret None
  | Some i =>
      let entry := nth i l VNull in
      privateKey <- AgeProvider.loadIdentity (identityPath this) ;;
      ciphertext <- lift_result (encryptedValue entry) ;;
      value <- AgeProvider.decrypt ciphertext privateKey ;;
      metadata <- lift_result (prop "metadata" entry) ;;
      ret (Some (mkCredential name value id metadata))
  end.

(** [entries[i].metadata?.createdAt] *)
Definition createdAt_of (entry : value) : option value :=
  match prop "metadata" entry with
  | Ok (Some (VObject m)) => JsObject.getOwn "createdAt" m
  | _ => None
  end.

(** The entry [set] builds, as [JSON.stringify] writes it: a [Date] becomes
    its ISO text and a property that is [undefined] is left out. *)
Definition newEntry (name encrypted : string) (createdAt : option value)
    (now : Date.t) (metadata : option (list (string * value))) : value :=
  let base : list (string * option value) :=
    [ ("name", Some (VString name));
      ("createdAt", createdAt);
      ("updatedAt", Some (VString (Date.toISOString now))) ] in
  let merged :=
    fold_left (fun o kv => JsObject.define (fst kv) (Some (snd kv)) o)
      (match metadata with Some m => m | None => [] end) base in
  VObject [ ("name", VString name);
            ("encryptedValue", VString encrypted);
            ("metadata", VObject (drop_undefined merged)) ].

Definition set (name value : string) (metadata : option (list (string * JSON.value)))
  : M World unit :=
  entries <- readVault ;;
  publicKey <- AgeProvider.loadRecipient (recipientPath this) ;;
  encrypted <- AgeProvider.encrypt value publicKey ;;
  l <- lift_result (as_array entries) ;;
  existingIndex <- lift_result (findIndex name l) ;;
  now <- Date.now ;;
  match existingIndex with
  | Some i =>
      let created := createdAt_of (nth i l VNull) in
      writeVault (replace_at i (newEntry name encrypted created now metadata) l)
  | None =>
      let created := Some (VString (Date.toISOString now)) in
      writeVault (l ++ [newEntry name encrypted created now metadata])%list
  end.

Definition delete (name : string) : M World bool :=
  entries <- readVault ;;
  l <- lift_result (as_array entries) ;;
  index <- lift_result (findIndex name l) ;;
  match index with
  | None => ret false
  | Some i => writeVault (remove_at i l) ;; ret true
  end.

(** The loop of [getAll]: decrypt every entry in turn. *)
Fixpoint decrypt_all (privateKey : string) (entries : list JSON.value)
  : M World (list Credential) :=
  match entries with
  | [] => ret []
  | entry :: rest =>
      ciphertext <- lift_result (encryptedValue entry) ;;
      value <- AgeProvider.decrypt ciphertext privateKey ;;
      n <- lift_result (prop "name" entry) ;;
      metadata <- lift_result (prop "metadata" entry) ;;
      match n with
      | Some (VString name) =>
          credentials <- decrypt_all privateKey rest ;;
          ret (mkCredential name value id metadata :: credentials)
      | _ => throw Untyped
      end
  end.

(** [for (const entry of entries)]: an array is iterated, an empty string
    has nothing to iterate, the other values are not iterable. *)
Definition iterate (entries : JSON.value) : Result (list JSON.value) :=
  match entries with
  | VArray l => Ok l
  | VString EmptyString => Ok []
  | VString _ => Throw Untyped
  | _ => Throw TypeError
  end.

Definition getAll : M World (list Credential) :=
  entries <- readVault ;;
  privateKey <- AgeProvider.loadIdentity (identityPath this) ;;
  l <- lift_result (iterate entries) ;;
  decrypt_all privateKey l.

Definition getPublicKey : M World string :=
  AgeProvider.loadRecipient (recipientPath this).

Definition list : M World (list CredentialMetadata) :=
  entries <- readVault ;;
  l <- lift_result (as_array entries) ;;
  lift_result (map_result metadata_of l).

End Methods.

End LocalSource.

(** ** sources/types.ts: the credential source interface *)

Module Source.

(** A call of a method of a credential source: which source, which method,
    which arguments; and how it ended: with a value that is truthy or not
    (the boolean returned, a credential rather than [null]), or with an
    exception.  The registry records the calls it makes; the record is a
    ghost of the embedding, used to state which back ends an operation
    reaches. *)
Inductive Call : Type :=
| CallIsAvailable (source : string)
| CallGet (source name : string)
| CallList (source : string)
| CallSet (source name value : string)
| CallDelete (source name : string).

Inductive Outcome : Type :=
| Returned (truthy : bool)
| Threw.

Section Sources.
Context {W : Type}.

(** [ICredentialSource]; [set] and [delete] are optional methods. *)
Record ICredentialSource : Type := mkSource {
  id : string;
  name : string;
  priority : Z;
  isAvailable : M W bool;
  get : string -> M W (option Credential);
  list : M W (Datatypes.list CredentialMetadata);
  set : option (string -> string -> M W unit);
  delete : option (string -> M W bool)
}.

Record Traced : Type := mkTraced {
  world : W;
  calls : Datatypes.list (Call * Outcome)
}.

(** Await a method of a source, and record the call. *)
Definition outcome {A} (truthy : A -> bool) (r : Result A) : Outcome :=
  match r with
  | Ok a => Returned (truthy a)
  | Throw _ => Threw
  end.

Definition invoke {A} (c : Call) (truthy : A -> bool) (m : M W A) : M Traced A :=
  fun s => let '(r, w') := m (world s) in
           (r, mkTraced w' (calls s ++ [(c, outcome truthy r)])%list).

Definition non_null {A} (o : option A) : bool :=
  match o with Some _ => true | None => false end.

Definition done {A} (_ : A) : bool := true.

End Sources.

Arguments ICredentialSource : clear implicits.
Arguments Traced : clear implicits.

End Source.

(** ** sources/registry.ts: the source registry *)

Module CredentialSourceRegistry.

Import Source.

Section Registry.
Context {W : Type}.

Local Abbreviation ICredentialSource := (Source.ICredentialSource W).
Local Abbreviation Traced := (Source.Traced W).

(** [private sources: Map<string, ICredentialSource>], in insertion order. *)
Definition t : Type := Datatypes.list (string * ICredentialSource).

Definition empty : t := [].

(** Map.prototype.set: the value of a present key is replaced where it
    stands, a new key goes last. *)
Fixpoint Map_set (k : string) (v : ICredentialSource) (m : t) : t :=
  match m with
  | [] => [(k, v)]
  | (k', v') :: r =>
      if String.eqb k' k then (k', v) :: r else (k', v') :: Map_set k v r
  end.

Fixpoint Map_delete (k : string) (m : t) : t :=
  match m with
  | [] => []
  | (k', v') :: r =>
      if String.eqb k' k then r else (k', v') :: Map_delete k r
  end.

Fixpoint Map_get (k : string) (m : t) : option ICredentialSource :=
  match m with
  | [] => None
  | (k', v') :: r => if String.eqb k' k then Some v' else Map_get k r
  end.

Definition register (source : ICredentialSource) (this : t) : t :=
  Map_set (id source) source this.

Definition unregister (sourceId : string) (this : t) : t :=
  Map_delete sourceId this.

Definition getSource (sourceId : string) (this : t) : option ICredentialSource :=
  Map_get sourceId this.

Definition getAllSources (this : t) : Datatypes.list ICredentialSource :=
  map snd this.

(** [available.sort((a, b) => a.priority - b.priority)]: the sort of an
    array is stable, so sources of equal priority keep their order. *)
Fixpoint insert (s : ICredentialSource) (l : Datatypes.list ICredentialSource)
  : Datatypes.list ICredentialSource :=
  match l with
  | [] => [s]
  | x :: r =>
      if (priority x <? priority s)%Z then x :: insert s r else s :: l
  end.

Fixpoint sort (l : Datatypes.list ICredentialSource) : Datatypes.list ICredentialSource :=
  match l with
  | [] => []
  | s :: r => insert s (sort r)
  end.

(** The loop of [getAvailableSources]. *)
Fixpoint probe (sources : Datatypes.list ICredentialSource)
  : M Traced (Datatypes.list ICredentialSource) :=
  match sources with
  | [] => ret []
  | source :: rest =>
      ok <- invoke (CallIsAvailable (id source)) (fun b => b) (Source.isAvailable source) ;;
      available <- probe rest ;;
      ret (if ok then source :: available else available)
  end.

Definition getAvailableSources (this : t) : M Traced (Datatypes.list ICredentialSource) :=
  available <- probe (getAllSources this) ;;
  ret (sort available).

(** The loop of [get]. *)
Fixpoint get_first (name : string) (sources : Datatypes.list ICredentialSource)
  : M Traced (option Credential) :=
  match sources with
  | [] => ret None
  | source :: rest =>
      credential <- invoke (CallGet (id source) name) non_null (Source.get source name) ;;
      match credential with
      | Some c => ret (Some c)
      | None => get_first name rest
      end
  end.

Definition get (name : string) (this : t) : M Traced (option Credential) :=
  sources <- getAvailableSources this ;;
  get_first name sources.

Definition Set_has (x : string) (seen : Datatypes.list string) : bool :=
  existsb (String.eqb x) seen.

(** The inner loop of [list]: [seen] and [result] are updated in place. *)
Fixpoint collect (credentials : Datatypes.list CredentialMetadata)
    (acc : Datatypes.list string * Datatypes.list CredentialMetadata)
  : Datatypes.list string * Datatypes.list CredentialMetadata :=
  match credentials with
  | [] => acc
  | cred :: rest =>
      let '(seen, result) := acc in
      if negb (Set_has (md_name cred) seen)
      then collect rest ((seen ++ [md_name cred])%list, (result ++ [cred])%list)
      else collect rest acc
  end.

(** The outer loop of [list]. *)
Fixpoint list_from (sources : Datatypes.list ICredentialSource)
    (acc : Datatypes.list string * Datatypes.list CredentialMetadata)
  : M Traced (Datatypes.list CredentialMetadata) :=
  match sources with
  | [] => ret (snd acc)
  | source :: rest =>
      credentials <- invoke (CallList (id source)) done (Source.list source) ;;
      list_from rest (collect credentials acc)
  end.

Definition list (this : t) : M Traced (Datatypes.list CredentialMetadata) :=
  sources <- getAvailableSources this ;;
  list_from sources ([], []).

(** [if (sourceId)]: an absent or empty identifier is falsy. *)
Definition given (sourceId : option string) : option string :=
  match sourceId with
  | Some EmptyString => None
  | other => other
  end.

Definition q (s : string) : string := "'" ++ s ++ "'".

(** The loop of [set]: the first available source that can write. *)
Fixpoint set_first (name value : string) (sources : Datatypes.list ICredentialSource)
  : M Traced unit :=
  match sources with
  | [] => throw (Error "No writable credential source available")
  | source :: rest =>
      match Source.set source with
      | Some write => invoke (CallSet (id source) name value) done (write name value)
      | None => set_first name value rest
      end
  end.

Definition set (name value : string) (sourceId : option string) (this : t)
  : M Traced unit :=
  match given sourceId with
  | Some sid =>
      match Map_get sid this with
      | None => throw (Error ("Source " ++ q sid ++ " not found"))
      | Some source =>
          match Source.set source with
          | None => throw (Error ("Source " ++ q sid ++ " is read-only"))
          | Some write => invoke (CallSet (id source) name value) done (write name value)
          end
      end
  | None =>
      sources <- getAvailableSources this ;;
      set_first name value sources
  end.

(** The loop of [delete]: every available source that can delete. *)
Fixpoint delete_all (name : string) (sources : Datatypes.list ICredentialSource)
    (deleted : bool) : M Traced bool :=
  match sources with
  | [] => ret deleted
  | source :: rest =>
      match Source.delete source with
      | Some remove =>
          result <- invoke (CallDelete (id source) name) (fun b => b) (remove name) ;;
          delete_all name rest (deleted || result)
      | None => delete_all name rest deleted
      end
  end.

Definition delete (name : string) (sourceId : option string) (this : t)
  : M Traced bool :=
  match given sourceId with
  | Some sid =>
      match Map_get sid this with
      | None => throw (Error ("Source " ++ q sid ++ " not found"))
      | Some source =>
          match Source.delete source with
          | None => throw (Error ("Source " ++ q sid ++ " doesn't support deletion"))
          | Some remove => invoke (CallDelete (id source) name) (fun b => b) (remove name)
          end
      end
  | None =>
      sources <- getAvailableSources this ;;
      delete_all name sources false
  end.

End Registry.

Arguments t : clear implicits.

End CredentialSourceRegistry.

(** ** config/paths.ts *)

Module paths.

Definition read {A} (f : World -> A) : M World A := fun w => (Ok (f w), w).

Definition getHomeDir : M World string := read homedir.

Definition getGlobalDir : M World string :=
  home <- getHomeDir ;; ret (path.join home ".secretsage").

Definition getLocalDir : M World string :=
  dir <- read cwd ;; ret (path.join dir ".secretsage").

Definition hasLocalVault : M World bool :=
  dir <- getLocalDir ;; fs.pathExists (path.join dir "identity.txt").

Definition hasGlobalVault : M World bool :=
  dir <- getGlobalDir ;; fs.pathExists (path.join dir "identity.txt").

Definition getActiveDir : M World string :=
  has_local <- hasLocalVault ;;
  if has_local then getLocalDir else getGlobalDir.

Definition getConfigPath (local : bool) : M World string :=
  dir <- (if local then getLocalDir else getGlobalDir) ;;
  ret (path.join dir "config.yaml").

Definition getEnvPath : M World string :=
  dir <- read cwd ;; ret (path.join dir ".env").

(** [s.replace(/[:.]/g, '-')] *)
Fixpoint dashes (s : string) : string :=
  match s with
  | EmptyString => EmptyString
  | String c r =>
      String (if Ascii.eqb c ":" || Ascii.eqb c "." then "-"%char else c) (dashes r)
  end.

Definition getEnvBackupPath : M World string :=
  now <- Date.now ;;
  let timestamp := dashes (Date.toISOString now) in
  dir <- read cwd ;;
  ret (path.join dir (".env.backup." ++ timestamp)).

End paths.

(** ** config/types.ts and config/loader.ts

    A configuration is the value its YAML document denotes.  The YAML reader
    is an external collaborator. *)

Class YamlLibrary : Type := {
  yaml_parse : string -> Result JSON.value
}.

Module config.

Import JSON.

Definition getDefaultConfig : JsObject.t value :=
  [ ("version", VString "1");
    ("vault", VObject [("defaultLocation", VString "global")]);
    ("encryption", VObject [("provider", VString "age")]);
    ("sources", VArray [VObject [("type", VString "local");
                                 ("enabled", VBool true);
                                 ("priority", VNumber "1")]]);
    ("agent", VObject [("autoGitignore", VBool true);
                       ("backupEnvOnGrant", VBool true);
                       ("requireConfirmation", VBool true)]) ].

(** One step of [deepMerge], for the key of a source whose value is [sv]
    and whose value in the target is [tv]: two objects merge, anything else
    overrides. *)
Fixpoint merge_value (tv : option value) (sv : value) : value :=
  match sv, tv with
  | VObject sps, Some (VObject tps) =>
      let merged := map (fun kv => (fst kv, merge_value (JsObject.getOwn (fst kv) tps) (snd kv))) sps in
      VObject (fold_left (fun o kv => JsObject.define (fst kv) (snd kv) o)
                 (JsObject.entries merged) tps)
  | _, _ => sv
  end.

(** [deepMerge(target, source)] *)
Definition deepMerge (target source : JsObject.t value) : JsObject.t value :=
  match merge_value (Some (VObject target)) (VObject source) with
  | VObject ps => ps
  | _ => target
  end.

(** [yaml.parse(content) || {}], taken as a partial configuration: a
    document that is not a mapping contributes no key. *)
Definition as_partial (v : value) : JsObject.t value :=
  match v with
  | VObject ps => ps
  | _ => []
  end.

Section Loader.
Context `{YamlLibrary}.

(** The [try { readFile; yaml.parse } catch { }] of one configuration file. *)
Definition readPartial (configPath : string) : M World (JsObject.t value) :=
  exists_ <- fs.pathExists configPath ;;
  if exists_ then
    try_catch
      (content <- fs.readFile configPath ;;
       doc <- lift_result (yaml_parse content) ;;
       ret (as_partial doc))
      (fun _ => ret [])
  else ret [].

Definition loadConfig : M World (JsObject.t value) :=
  globalConfigPath <- paths.getConfigPath false ;;
  globalConfig <- readPartial globalConfigPath ;;
  localConfigPath <- paths.getConfigPath true ;;
  localConfig <- readPartial localConfigPath ;;
  ret (deepMerge (deepMerge getDefaultConfig globalConfig) localConfig).

End Loader.

(** [config.vault.p] *)
Definition vault_prop (p : string) (config : JsObject.t value) : Result (option value) :=
  match JsObject.getOwn "vault" config with
  | None => Throw TypeError
  | Some v => prop p v
  end.

End config.

(** ** dotenv (an external collaborator)

    [parse] reads the text of an env document into an object of strings. *)
Class DotenvLibrary : Type := {
  parseEnv : string -> JsObject.t string
}.

(** ** core/service.ts: the credential service *)

Module CredentialService.

Import Source.

(** The local source seen through the source interface; the registry calls
    [set] with a name and a value only. *)
Definition as_source `{AgeLibrary} (ls : LocalSource.t) : ICredentialSource World :=
  mkSource LocalSource.id LocalSource.name LocalSource.priority
    (LocalSource.isAvailable ls)
    (LocalSource.get ls)
    (LocalSource.list ls)
    (Some (fun name value => LocalSource.set ls name value None))
    (Some (LocalSource.delete ls)).

(** The fields of the service object. *)
Record t : Type := mkService {
  registry : CredentialSourceRegistry.t World;
  localSource : option LocalSource.t;
  initialized : bool
}.

(** [new CredentialService()] *)
Definition new : t := mkService CredentialSourceRegistry.empty None false.

(** The state a method of the service runs in: the service object and the
    world, with the record of the calls made to the sources. *)
Definition St : Type := (t * Traced World)%type.

Definition this : M St t := fun s => (Ok (fst s), s).

Definition update (f : t -> t) : M St unit := fun s => (Ok tt, (f (fst s), snd s)).

(** A computation on the world, run from a method of the service. *)
Definition io {A} (m : M World A) : M St A :=
  fun s => let '(r, w') := m (world (snd s)) in
           (r, (fst s, mkTraced w' (calls (snd s)))).

(** A method of the registry, run from a method of the service. *)
Definition reg {A} (m : CredentialSourceRegistry.t World -> M (Traced World) A) : M St A :=
  fun s => let '(r, tw) := m (registry (fst s)) (snd s) in (r, (fst s, tw)).

(** The test of the regular expression of [stringifyEnv]: a white space
    character, a hash, a double quote, a single quote or a backslash occurs
    in [value]. *)
Fixpoint test_special (value : string) : bool :=
  match value with
  | EmptyString => false
  | String c r =>
      Ascii.eqb c "#" || Ascii.eqb c Str.dquote || Ascii.eqb c Str.squote
      || Ascii.eqb c Str.backslash
      || (match Str.ws_prefix value with Some _ => true | None => false end)
      || test_special r
  end.

(** The global replacement of [stringifyEnv]: a backslash is put before
    every double quote. *)
Fixpoint escape_quotes (value : string) : string :=
  match value with
  | EmptyString => EmptyString
  | String c r =>
      if Ascii.eqb c Str.dquote
      then String Str.backslash (String Str.dquote (escape_quotes r))
      else String c (escape_quotes r)
  end.

Definition needsQuotes (value : string) : bool :=
  test_special value || Str.includes value "=".

Definition quotedValue (value : string) : string :=
  if needsQuotes value
  then String Str.dquote (escape_quotes value ++ Str.str1 Str.dquote)
  else value.

Definition env_line (kv : string * string) : string :=
  fst kv ++ "=" ++ quotedValue (snd kv).

(** Convert env object to string format. *)
Definition stringifyEnv (env : JsObject.t string) : string :=
  Str.join (Str.str1 Str.LF) (map env_line (JsObject.entries env)) ++ Str.str1 Str.LF.

Section Methods.
Context `{AgeLibrary} `{YamlLibrary} `{DotenvLibrary}.

(** [options?.local ?? config.vault.defaultLocation === 'local'] *)
Definition useLocal (local : option bool) (config : JsObject.t JSON.value) : Result bool :=
  match local with
  | Some b => Ok b
  | None =>
      match config.vault_prop "defaultLocation" config with
      | Throw x => Throw x
      | Ok (Some (JSON.VString s)) => Ok (String.eqb s "local")
      | Ok _ => Ok false
      end
  end.

Definition init (local : option bool) : M St unit :=
  self <- this ;;
  if initialized self then ret tt
  else
    config <- io config.loadConfig ;;
    use_local <- lift_result (useLocal local config) ;;
    dir <- io (if use_local then paths.getLocalDir else paths.getGlobalDir) ;;
    let source := LocalSource.mkLocalSource
                    (path.join dir "vault.json")
                    (path.join dir "identity.txt")
                    (path.join dir "recipient.txt") in
    update (fun s => mkService
                       (CredentialSourceRegistry.register (as_source source) (registry s))
                       (Some source) true).

Definition hasVault : M St (bool * bool) :=
  l <- io paths.hasLocalVault ;;
  g <- io paths.hasGlobalVault ;;
  ret (l, g).

(** [config.vault.defaultLocation === 'custom' && config.vault.customPath]:
    the custom path when that condition is truthy. *)
Definition customPath (config : JsObject.t JSON.value) : Result (option JSON.value) :=
  match config.vault_prop "defaultLocation" config with
  | Throw x => Throw x
  | Ok (Some (JSON.VString s)) =>
      if String.eqb s "custom" then
        match config.vault_prop "customPath" config with
        | Ok (Some (JSON.VString EmptyString)) | Ok (Some JSON.VNull)
        | Ok (Some (JSON.VBool false)) | Ok None => Ok None
        | other => other
        end
      else Ok None
  | Ok _ => Ok None
  end.

(** Get the active vault directory path; the configured custom path is
    declared a string. *)
Definition getVaultPath : M St string :=
  has_local <- io paths.hasLocalVault ;;
  if has_local then io paths.getLocalDir
  else
    config <- io config.loadConfig ;;
    custom <- lift_result (customPath config) ;;
    match custom with
    | Some (JSON.VString p) => ret p
    | Some _ => throw Untyped
    | None => io paths.getGlobalDir
    end.

Definition ensureInitialized : M St unit :=
  self <- this ;;
  if initialized self then ret tt else init None.

Definition add (name value : string) : M St unit :=
  ensureInitialized ;;
  reg (CredentialSourceRegistry.set name value None).

Definition get (name : string) : M St (option Credential) :=
  ensureInitialized ;;
  reg (CredentialSourceRegistry.get name).

Definition list : M St (Datatypes.list CredentialMetadata) :=
  ensureInitialized ;;
  reg CredentialSourceRegistry.list.

Definition delete (name : string) : M St bool :=
  ensureInitialized ;;
  reg (CredentialSourceRegistry.delete name None).

(** The loop of [grant]: [existingEnv] and [granted] are updated in place. *)
Fixpoint grant_loop (names : Datatypes.list string)
    (existingEnv : JsObject.t string) (granted : Datatypes.list string)
  : M St (JsObject.t string * Datatypes.list string) :=
  match names with
  | [] => ret (existingEnv, granted)
  | name :: rest =>
      cred <- reg (CredentialSourceRegistry.get name) ;;
      match cred with
      | Some c =>
          grant_loop rest (JsObject.assign name (cred_value c) existingEnv)
            (granted ++ [name])%list
      | None => grant_loop rest existingEnv granted
      end
  end.

(** [grant(names, options)]; [backup] is [options?.backup]. *)
Definition grant (names : Datatypes.list string) (backup : option bool)
  : M St (Datatypes.list string * string) :=
  ensureInitialized ;;
  envPath <- io paths.getEnvPath ;;
  exists_ <- io (fs.pathExists envPath) ;;
  existingEnv <-
    (if exists_ then
       content <- io (fs.readFile envPath) ;;
       (match backup with
        | Some false => ret tt
        | _ => backupPath <- io paths.getEnvBackupPath ;;
               io (fs.copyFile envPath backupPath)
        end) ;;
       ret (parseEnv content)
     else ret JsObject.empty) ;;
  r <- grant_loop names existingEnv [] ;;
  let envContent := stringifyEnv (fst r) in
  io (fs.writeFile envPath envContent) ;;
  ret (snd r, envPath).

(** The loop of [revoke]. *)
Fixpoint revoke_loop (names : Datatypes.list string)
    (existingEnv : JsObject.t string) (revoked : Datatypes.list string)
  : JsObject.t string * Datatypes.list string :=
  match names with
  | [] => (existingEnv, revoked)
  | name :: rest =>
      if JsObject.has_in name existingEnv
      then revoke_loop rest (JsObject.delete name existingEnv) (revoked ++ [name])%list
      else revoke_loop rest existingEnv revoked
  end.

Definition revoke (names : Datatypes.list string) : M St (Datatypes.list string * string) :=
  envPath <- io paths.getEnvPath ;;
  exists_ <- io (fs.pathExists envPath) ;;
  if negb exists_ then ret ([], envPath)
  else
    content <- io (fs.readFile envPath) ;;
    let existingEnv := parseEnv content in
    let r := revoke_loop names existingEnv [] in
    let envContent := stringifyEnv (fst r) in
    io (fs.writeFile envPath envContent) ;;
    ret (snd r, envPath).

Definition getAll : M St (Datatypes.list Credential) :=
  ensureInitialized ;;
  self <- this ;;
  match localSource self with
  | Some source => io (LocalSource.getAll source)
  | None => ret []
  end.

End Methods.

End CredentialService.

(** ** Stand-ins for the external libraries

    The development is parametric in the age, YAML and dotenv libraries.
    The instances below are small stand-ins used to run the examples. *)

Module Examples.

(** A cipher that is not one: the ciphertext names the recipient in clear
    and decrypts only under the identity of that recipient. *)
Definition toy_recipient (identity : string) : string :=
  match Str.strip_prefix "AGE-SECRET-KEY-" identity with
  | Some rest => "age1" ++ rest
  | None => "age1" ++ identity
  end.

Definition toy_decrypt (identity ciphertext : string) : Result string :=
  match Str.strip_prefix (toy_recipient identity ++ ":") ciphertext with
  | Some plaintext => Ok plaintext
  | None => Throw DecryptionError
  end.

#[export] Instance ToyAge : AgeLibrary := {|
  age_generateIdentity seed := "AGE-SECRET-KEY-" ++ Date.pad 6 (Z.of_N seed);
  age_identityToRecipient := toy_recipient;
  age_encrypt recipient seed plaintext := Ok (recipient ++ ":" ++ plaintext);
  age_decrypt := toy_decrypt
|}.

(** Configuration documents written in the JSON subset of YAML. *)
#[export] Instance JsonYaml : YamlLibrary := {|
  yaml_parse := JSON.parse
|}.

(** The two-character escapes of a line feed and of a carriage return,
    turned into the characters they name; every other backslash stays. *)
Fixpoint expand_newlines (s : string) : string :=
  match s with
  | EmptyString => EmptyString
  | String c r =>
      match r with
      | String d r' =>
          if Ascii.eqb c Str.backslash && Ascii.eqb d "n"
          then String Str.LF (expand_newlines r')
          else if Ascii.eqb c Str.backslash && Ascii.eqb d "r"
          then String (Str.chr 13) (expand_newlines r')
          else String c (expand_newlines r)
      | EmptyString => String c EmptyString
      end
  end.

(** The value of an env line: what stands between a leading and a final
    double quote, with the escapes of line breaks expanded and a backslash
    before a double quote left where it is; or the text as it is. *)
Definition read_value (text : string) : string :=
  match text with
  | String c r =>
      if Ascii.eqb c Str.dquote then
        match Str.rev r with
        | String d inner =>
            if Ascii.eqb d Str.dquote then expand_newlines (Str.rev inner)
            else text
        | EmptyString => text
        end
      else text
  | EmptyString => text
  end.

(** The key and the value of a [KEY=value] line. *)
Fixpoint split_line (line : string) : option (string * string) :=
  match line with
  | EmptyString => None
  | String c r =>
      if Ascii.eqb c "=" then Some (EmptyString, r)
      else match split_line r with
           | Some (k, v) => Some (String c k, v)
           | None => None
           end
  end.

Definition read_line (env : JsObject.t string) (line : string) : JsObject.t string :=
  if Str.isEmpty (Str.trim line) || Str.startsWith line "#" then env
  else match split_line line with
       | Some (EmptyString, _) | None => env
       | Some (k, v) => JsObject.assign k (read_value v) env
       end.

(** A reader of env documents whose values hold no line break: one
    [KEY=value] per line, comment lines and blank lines skipped. *)
Definition read_env (content : string) : JsObject.t string :=
  fold_left read_line (Str.split_on Str.LF content) JsObject.empty.

#[export] Instance LineDotenv : DotenvLibrary := {|
  parseEnv := read_env
|}.

End Examples.

(** ** Back ends held in memory

    Two stores of names and values, each seen through the source interface,
    to run the registry on. *)

Module Backends.

Import Source.

Local Abbreviation list := Datatypes.list.

Definition store : Type := list (string * string).

Definition stores : Type := (store * store)%type.

Fixpoint lookup (name : string) (s : store) : option string :=
  match s with
  | [] => None
  | (k, v) :: r => if String.eqb k name then Some v else lookup name r
  end.

Definition without (name : string) (s : store) : store :=
  filter (fun kv => negb (String.eqb (fst kv) name)) s.

Definition holds (name : string) (s : store) : bool :=
  match lookup name s with Some _ => true | None => false end.

Definition memory (ident : string) (prio : Z)
    (read : stores -> store) (write : store -> stores -> stores)
  : ICredentialSource stores :=
  mkSource ident ident prio
    (fun w => (Ok true, w))
    (fun name w =>
       (Ok (option_map (fun v => mkCredential name v ident None) (lookup name (read w))), w))
    (fun w =>
       (Ok (map (fun kv => mkMetadata (fst kv) [("name", JSON.VString (fst kv))]) (read w)), w))
    (Some (fun name value w =>
             (Ok tt, write ((name, value) :: without name (read w)) w)))
    (Some (fun name w =>
             (Ok (holds name (read w)), write (without name (read w)) w))).

Definition keychain : ICredentialSource stores :=
  memory "keychain" 1 fst (fun s w => (s, snd w)).

Definition cloud : ICredentialSource stores :=
  memory "cloud" 2 snd (fun s w => (fst w, s)).

(** The cloud back end is registered first; the keychain sorts first. *)
Definition both : CredentialSourceRegistry.t stores :=
  CredentialSourceRegistry.register keychain
    (CredentialSourceRegistry.register cloud CredentialSourceRegistry.empty).

Definition filled : stores :=
  ([("API_KEY", "from-keychain")], [("API_KEY", "from-cloud"); ("OTHER", "x")]).

End Backends.

(** ** A project directory and a global vault, to run the service on *)

Module Scenario.

Import Examples.

(** A world with nothing but the env document of the project. *)
Definition project (env : Node) : World :=
  mkWorld (fun p => if String.eqb p "/proj/.env" then env else Absent)
    1764584430123 7 "/proj" "/home/u".

Definition global_source : LocalSource.t :=
  LocalSource.mkLocalSource "/home/u/.secretsage/vault.json"
    "/home/u/.secretsage/identity.txt" "/home/u/.secretsage/recipient.txt".

Definition local_source : LocalSource.t :=
  LocalSource.mkLocalSource "/proj/.secretsage/vault.json"
    "/proj/.secretsage/identity.txt" "/proj/.secretsage/recipient.txt".

(** The world after [initialize] of a vault. *)
Definition initialised (source : LocalSource.t) (w : World) : World :=
  snd (LocalSource.initialize source w).

(** The world after [set] on a vault. *)
Definition holding (source : LocalSource.t) (name value : string) (w : World) : World :=
  snd (LocalSource.set source name value None w).

(** A new service object in a world, no call recorded yet. *)
Definition start (w : World) : CredentialService.St :=
  (CredentialService.new, Source.mkTraced w []).

Definition lines (l : list string) : string :=
  fold_right (fun line rest => line ++ Str.str1 Str.LF ++ rest) EmptyString l.

End Scenario.

Module ScenarioEnv.

Import Examples Scenario.

(** A project whose env document has a comment, a blank line and two keys,
    and a global vault that holds [BAZ]. *)
Definition prior : string := lines ["# local settings"; "FOO=bar"; ""; "BAZ=old"].

Definition world0 : World :=
  holding global_source "BAZ" "new"
    (initialised global_source (project (File prior))).

Definition state0 : CredentialService.St := start world0.

(** The state after [grant(["BAZ"])]. *)
Definition state1 : CredentialService.St :=
  snd (CredentialService.grant ["BAZ"] None state0).

(** The state after [revoke(["BAZ"])] on that. *)
Definition state2 : CredentialService.St :=
  snd (CredentialService.revoke ["BAZ"] state1).

End ScenarioEnv.

Module ScenarioVaults.

Import Examples Scenario.

(** A local and a global vault, both initialised and empty; no
    configuration file. *)
Definition both_vaults : World :=
  initialised local_source (initialised global_source (project Absent)).

Definition state0 : CredentialService.St := start both_vaults.

(** The state after [add("API_KEY", "sk-test")]. *)
Definition state1 : CredentialService.St :=
  snd (CredentialService.add "API_KEY" "sk-test" state0).

End ScenarioVaults.

Module ScenarioVault.

Import Examples Scenario.

(** A global vault on disk whose record file was overwritten with text
    that is not a record list. *)
Definition corrupted : World :=
  put_file (LocalSource.vaultPath global_source) (File "{ not a record list")
    (holding global_source "API_KEY" "sk-test"
       (initialised global_source (project Absent))).

(** A global vault with two records, the second encrypted for another
    recipient than the one of the identity on disk. *)
Definition mixed : World :=
  holding global_source "SECOND" "two"
    (put_file (LocalSource.recipientPath global_source)
       (File (lines ["age1999999"]))
       (holding global_source "FIRST" "one"
          (initialised global_source (project Absent)))).

End ScenarioVault.

(** ** The rules as the specification words them

    Definitions that follow the text of the specification rather than the
    sources, to be compared with the embedding. *)

Module Spec.

(** Serialisation step 4: values containing whitespace, quote characters,
    backslashes, or an embedded equals sign are double-quoted. *)
Fixpoint needsQuotes (value : string) : bool :=
  match value with
  | EmptyString => false
  | String c r =>
      Ascii.eqb c Str.dquote || Ascii.eqb c Str.squote
      || Ascii.eqb c Str.backslash || Ascii.eqb c "="
      || (match Str.ws_prefix value with Some _ => true | None => false end)
      || needsQuotes r
  end.

End Spec.

(** ** Vocabulary of the statements *)

Module Stmt.

(** The character [c], followed by [rest], makes [stringifyEnv] quote the
    value it occurs in: a hash, a double or single quote, a backslash, an
    equals sign, or the first byte of a white space character. *)
Definition forces_quotes (c : ascii) (rest : string) : Prop :=
  c = "#"%char \/ c = Str.dquote \/ c = Str.squote \/ c = Str.backslash
  \/ c = "="%char \/ Str.ws_prefix (String c rest) <> None.

(** A string made of white space only. *)
Inductive blank : string -> Prop :=
| blank_nil : blank EmptyString
| blank_ws s r : Str.ws_prefix s = Some r -> blank r -> blank s.

End Stmt.

(** ** Env mappings *)

Module EnvMap.

(** The assignments [env[name] = value], in turn. *)
Definition assign_all (nvs : list (string * string)) (env : JsObject.t string)
  : JsObject.t string :=
  fold_left (fun o nv => JsObject.assign (fst nv) (snd nv) o) nvs env.

Definition mem (k : string) (names : list string) : bool :=
  existsb (String.eqb k) names.

(** The mapping without the keys in [names]. *)
Definition remove_keys {V} (names : list string) (env : JsObject.t V) : JsObject.t V :=
  filter (fun kv => negb (mem (fst kv) names)) env.

End EnvMap.

(** ** Registries and their sources *)

Module RegistryStmt.

Import Source.

Local Abbreviation list := Datatypes.list.

Section Sources.
Context {W : Type}.

(** A registry as [register] builds it: the key of a source is its
    identifier, and no identifier occurs twice. *)
Definition well_keyed (reg : CredentialSourceRegistry.t W) : Prop :=
  NoDup (map fst reg) /\ forall k s, In (k, s) reg -> k = id s.

(** In the world [w], the source answers [true] to the availability probe. *)
Definition available (w : W) (s : ICredentialSource W) : bool :=
  match fst (isAvailable s w) with
  | Ok true => true
  | _ => false
  end.

(** In the world [w], what the source returns for [name]; [None] for
    [null]. *)
Definition reports (w : W) (name : string) (s : ICredentialSource W)
  : option Credential :=
  match fst (get s name w) with
  | Ok r => r
  | Throw _ => None
  end.

(** In the world [w], the list of the source. *)
Definition listing (w : W) (s : ICredentialSource W) : list CredentialMetadata :=
  match fst (Source.list s w) with
  | Ok l => l
  | Throw _ => []
  end.

(** The first entry of a list with a given name. *)
Fixpoint first_named (name : string) (l : list CredentialMetadata)
  : option CredentialMetadata :=
  match l with
  | [] => None
  | m :: r => if String.eqb (md_name m) name then Some m else first_named name r
  end.

(** The first answer along a list of sources. *)
Fixpoint first_some {A} (f : ICredentialSource W -> option A)
    (l : list (ICredentialSource W)) : option A :=
  match l with
  | [] => None
  | s :: r => match f s with
              | Some c => Some c
              | None => first_some f r
              end
  end.

Definition by_priority (x y : ICredentialSource W) : Prop :=
  (priority x <= priority y)%Z.

(** The record of an availability probe. *)
Definition probed (w : W) (s : ICredentialSource W) : Call * Outcome :=
  (CallIsAvailable (id s), Returned (available w s)).



End Sources.

End RegistryStmt.

(** ** States of the credential service *)

Module ServiceStmt.

Section Service.
Context `{AgeLibrary}.

(** The service objects its own methods produce: as constructed, or
    initialised with its local source registered. *)
Definition consistent (this : CredentialService.t) : Prop :=
  (CredentialService.registry this = []
   /\ CredentialService.localSource this = None
   /\ CredentialService.initialized this = false)
  \/ exists source,
       CredentialService.registry this
       = [(LocalSource.id, CredentialService.as_source source)]
       /\ CredentialService.localSource this = Some source
       /\ CredentialService.initialized this = true.

End Service.

(** The env document of a state: the node at [.env] in the working
    directory. *)
Definition envPath (s : CredentialService.St) : string :=
  path.join (cwd (Source.world (snd s))) ".env".

Definition envFile (s : CredentialService.St) : Node :=
  files (Source.world (snd s)) (envPath s).

(** The mapping an env document denotes; the empty mapping when there is
    no document. *)
Definition mapping `{DotenvLibrary} (n : Node) : JsObject.t string :=
  match n with
  | File content => parseEnv content
  | _ => JsObject.empty
  end.

(** The text of an env document for a mapping: one line per entry, joined by
    line feeds, and a final line feed. *)
Definition document (env : JsObject.t string) : string :=
  Str.join (Str.str1 Str.LF)
    (map (fun kv => fst kv ++ "=" ++ CredentialService.quotedValue (snd kv))
       (JsObject.entries env))
  ++ Str.str1 Str.LF.

End ServiceStmt.

(** ** Vault directories *)

Module VaultStmt.

(** The local source whose three files are in the directory [dir]. *)
Definition vault_in (dir : string) : LocalSource.t :=
  LocalSource.mkLocalSource (path.join dir "vault.json")
    (path.join dir "identity.txt") (path.join dir "recipient.txt").

Definition local_dir (w : World) : string := path.join (cwd w) ".secretsage".

Definition global_dir (w : World) : string := path.join (homedir w) ".secretsage".

(** A vault exists in a directory when its identity file does. *)
Definition vault_exists (dir : string) (w : World) : Prop :=
  files w (path.join dir "identity.txt") <> Absent.

End VaultStmt.

(** ** Decryption of one record *)

Module RecordStmt.

Import JSON.

(** The credential [getAll] makes of one record of the vault, with the
    private key [key]; the first thing that throws decides. *)
Definition decrypted `{AgeLibrary} (key : string) (entry : value) : Result Credential :=
  match LocalSource.encryptedValue entry with
  | Throw x => Throw x
  | Ok ciphertext =>
      match age_decrypt key ciphertext with
      | Throw x => Throw x
      | Ok plaintext =>
          match prop "name" entry, prop "metadata" entry with
          | Throw x, _ | _, Throw x => Throw x
          | Ok (Some (VString name)), Ok metadata =>
              Ok (mkCredential name plaintext LocalSource.id metadata)
          | Ok _, Ok _ => Throw Untyped
          end
      end
  end.

End RecordStmt.

(** ** JSON values that read back as written *)

Module JsonStmt.

Import JSON.

(** Values the store writes and reads back unchanged: no number (JavaScript
    prints a number in its shortest form, whatever text it was read from),
    and objects whose keys are distinct and are not array indices (which
    JavaScript would list first). *)
Fixpoint writable (v : value) : Prop :=
  match v with
  | VNull | VBool _ | VString _ => True
  | VNumber _ => False
  | VArray items => fold_right (fun x acc => writable x /\ acc) True items
  | VObject props =>
      NoDup (map fst props)
      /\ (forall k, In k (map fst props) -> JsObject.array_index k = None)
      /\ fold_right (fun kv acc => writable (snd kv) /\ acc) True props
  end.

(** The depth of calls the reader needs for a value. *)
Fixpoint cost (v : value) : nat :=
  match v with
  | VArray items => S (fold_right (fun x acc => S (Nat.max (cost x) acc)) O items)
  | VObject props =>
      S (fold_right (fun kv acc => S (Nat.max (cost (snd kv)) acc)) O props)
  | _ => 1
  end.

(** A string of spaces: an indentation. *)
Fixpoint spaces (s : string) : Prop :=
  match s with
  | EmptyString => True
  | String c r => c = " "%char /\ spaces r
  end.

Definition cost_items (items : list value) : nat :=
  fold_right (fun x acc => S (Nat.max (cost x) acc)) O items.

Definition cost_props (props : JsObject.t value) : nat :=
  fold_right (fun kv acc => S (Nat.max (cost (snd kv)) acc)) O props.

(** The text of [v], at any indentation and before any other text, reads
    back as [v]. *)
Definition reads_back (v : value) : Prop :=
  forall ind rest fuel,
    spaces ind -> (cost v <= fuel)%nat ->
    parse_value fuel (print ind v ++ rest) = Some (v, rest).

(** A text that begins with a character that is no white space and closes
    nothing. *)
Definition opens (s : string) : Prop :=
  exists c t, s = String c t /\ is_ws c = false
              /\ Ascii.eqb c "]" = false /\ Ascii.eqb c "}" = false
              /\ Ascii.eqb c "," = false.

End JsonStmt.
(** ** The records of a vault *)

Module StoreStmt.

Import JSON.

Local Abbreviation list := Datatypes.list.

(** The name a record of the vault file carries. *)
Definition entry_name (e : value) : option string :=
  match prop "name" e with
  | Ok (Some (VString s)) => Some s
  | _ => None
  end.

(** A record of the declared type: it carries a name, and [list] reports it
    under that name. *)
Definition entry_ok (e : value) : Prop :=
  exists n md,
    entry_name e = Some n /\ LocalSource.metadata_of e = Ok md /\ md_name md = n.

(** A vault as the store keeps it: a document that reads back as written,
    made of records of the declared type, each name once. *)
Definition vault_ok (es : list value) : Prop :=
  JsonStmt.writable (VArray es)
  /\ Forall entry_ok es
  /\ NoDup (map entry_name es).

(** The records [set] writes for [name], with the ciphertext [c], at the
    time [now], over the records [es]. *)
Definition stored (name c : string) (now : Date.t) (es : list value) : list value :=
  match LocalSource.findIndex name es with
  | Ok (Some i) =>
      LocalSource.replace_at i
        (LocalSource.newEntry name c
           (LocalSource.createdAt_of (nth i es VNull)) now None) es
  | _ =>
      (es ++ [LocalSource.newEntry name c
                (Some (VString (Date.toISOString now))) now None])%list
  end.

(** The key files of the store hold the identity [identity] and its
    recipient. *)
Definition keyed `{AgeLibrary} (ls : LocalSource.t) (identity : string) (w : World)
  : Prop :=
  AgeProvider.loadIdentity (LocalSource.identityPath ls) w = (Ok identity, w)
  /\ AgeProvider.loadRecipient (LocalSource.recipientPath ls) w
     = (Ok (age_identityToRecipient identity), w).

(** [credential.metadata?.createdAt] and [credential.metadata?.updatedAt] *)
Definition stamp (key : string) (c : Credential) : option value :=
  match cred_metadata c with
  | Some (VObject m) => JsObject.getOwn key m
  | _ => None
  end.

Definition createdAt : Credential -> option value := stamp "createdAt".
Definition updatedAt : Credential -> option value := stamp "updatedAt".

(** The records of a listing that go by [name]. *)
Definition records_named (name : string) (mds : list CredentialMetadata)
  : list CredentialMetadata :=
  filter (fun md => String.eqb (md_name md) name) mds.

End StoreStmt.


(** ** What a computation leaves unchanged *)

Module Frame.

(** A computation that leaves the state as it found it. *)
Definition readonly {S A} (m : M S A) : Prop := forall s, snd (m s) = s.

(** A method of the service that leaves the world and the record of calls
    as they were. *)
Definition quiet {A} (m : M CredentialService.St A) : Prop :=
  forall s, snd (snd (m s)) = snd s.

(** A computation on the world that leaves the working directory alone. *)
Definition keeps_cwd {A} (m : M World A) : Prop :=
  forall w, cwd (snd (m w)) = cwd w.

(** A method that, run by a consistent service, changes neither the service
    object nor the working directory. *)
Definition steady `{AgeLibrary} {A} (m : M CredentialService.St A) : Prop :=
  forall s, ServiceStmt.consistent (fst s) ->
    fst (snd (m s)) = fst s
    /\ cwd (Source.world (snd (snd (m s)))) = cwd (Source.world (snd s)).

End Frame.
(** ** Further statements about the vault store and its key files *)

Module StoreMore.

Import JSON.

Local Abbreviation list := Datatypes.list.

(** A record of a listing that goes by another name than [name]. *)
Definition other_than (name : string) (md : CredentialMetadata) : bool :=
  negb (String.eqb (md_name md) name).

(** A key as the age library prints it: it begins with [tag], stands on one
    line and has no white space around it. *)
Definition key_text (tag key : string) : Prop :=
  Str.startsWith key tag = true
  /\ Str.trim key = key
  /\ Str.includes key (Str.str1 Str.LF) = false.

End StoreMore.

(** ** More scenes *)

Module ScenarioMore.

Import Examples Scenario.

(** A global vault that holds [OTHER] and [API_KEY]. *)
Definition two : World :=
  holding global_source "API_KEY" "one"
    (holding global_source "OTHER" "x"
       (initialised global_source (project Absent))).

Definition two_records : Datatypes.list JSON.value :=
  StoreStmt.stored "API_KEY" "age1000007:one" 1764584430123%Z
    (StoreStmt.stored "OTHER" "age1000007:x" 1764584430123%Z []).

(** An initialised global vault whose identity file was taken away: only
    the recipient is on the machine. *)
Definition public_only : World :=
  put_file (LocalSource.identityPath global_source) Absent
    (initialised global_source (project Absent)).

End ScenarioMore.

(** ** Statements about the routing of the registry *)

Module RoutingStmt.

Import Source.

Local Abbreviation list := Datatypes.list.

Section Sources.
Context {W : Type}.

Definition can_set (s : ICredentialSource W) : bool :=
  match set s with Some _ => true | None => false end.


(** The record of a call of [set]. *)
Definition writing (name value : string) (s : ICredentialSource W)
    (r : Result unit) : Call * Outcome :=
  (CallSet (id s) name value, outcome done r).

(** The record of a call of [delete]. *)
Definition removal (name : string) (s : ICredentialSource W)
    (r : Result bool) : Call * Outcome :=
  (CallDelete (id s) name, outcome (fun b => b) r).

(** The record of a call of [get]. *)
Definition asking (name : string) (s : ICredentialSource W)
    (r : Result (option Credential)) : Call * Outcome :=
  (CallGet (id s) name, outcome non_null r).

End Sources.

End RoutingStmt.

(** ** More back ends held in memory *)

Module BackendsMore.

Import Source Backends.

Local Abbreviation list := Datatypes.list.

(** A back end that cannot write or delete, of the highest priority. *)
Definition archive : ICredentialSource stores :=
  mkSource "archive" "archive" 0
    (fun w => (Ok true, w))
    (fun name w => (Ok None, w))
    (fun w => (Ok [], w))
    None None.

(** A back end that is not available. *)
Definition offline : ICredentialSource stores :=
  mkSource "offline" "offline" 0
    (fun w => (Ok false, w))
    (Source.get cloud) (Source.list cloud) (Source.set cloud) (Source.delete cloud).

(** A back end whose [get] fails, of the highest priority. *)
Definition broken : ICredentialSource stores :=
  mkSource "broken" "broken" 0
    (fun w => (Ok true, w))
    (fun name w => (Throw (Error "locked"), w))
    (fun w => (Ok [], w))
    None None.

Definition with_archive : CredentialSourceRegistry.t stores :=
  CredentialSourceRegistry.register archive both.

Definition with_offline : CredentialSourceRegistry.t stores :=
  CredentialSourceRegistry.register offline both.

Definition with_broken : CredentialSourceRegistry.t stores :=
  CredentialSourceRegistry.register broken both.

End BackendsMore.

(** ** core/service.ts: the ignore file

    [updateGitignore] reads no field of the service and calls no source: it
    is a computation on the file system. *)

Module Gitignore.

Local Abbreviation list := Datatypes.list.

(** config/paths.ts: the [.gitignore] of the working directory. *)
Definition getGitignorePath : M World string :=
  dir <- paths.read cwd ;; ret (path.join dir ".gitignore").

Definition entriesToAdd : list string := [".env"; ".env.*"; ".secretsage/"].

(** [lines.includes(entry)] *)
Definition Array_includes (lines : list string) (entry : string) : bool :=
  existsb (String.eqb entry) lines.

(** [content.split('\n').map((l) => l.trim())] *)
Definition trimmed_lines (content : string) : list string :=
  map Str.trim (Str.split_on Str.LF content).

(** The entries that are not yet a line of [content]. *)
Definition additions_for (content : string) : list string :=
  filter (fun entry => negb (Array_includes (trimmed_lines content) entry)) entriesToAdd.

Definition nl : string := Str.str1 Str.LF.

Definition updateGitignore : M World bool :=
  gitignorePath <- getGitignorePath ;;
  exists_ <- fs.pathExists gitignorePath ;;
  content <- (if exists_ then fs.readFile gitignorePath else ret EmptyString) ;;
  let additions := additions_for content in
  if Nat.eqb (length additions) 0 then ret false
  else
    let newContent :=
      Str.trimEnd content ++ nl ++ nl ++ "# SecretSage" ++ nl
      ++ Str.join nl additions ++ nl in
    fs.writeFile gitignorePath newContent ;;
    ret true.

End Gitignore.

(** ** Statements about the service *)

Module ServiceMore.

(** The name [getEnvBackupPath] gives in the world [w]. *)
Definition backupPath (w : World) : string :=
  path.join (cwd w) (".env.backup." ++ paths.dashes (Date.toISOString (clock w))).

(** The ignore file of a world. *)
Definition gitignorePath (w : World) : string := path.join (cwd w) ".gitignore".

(** The text of the ignore file; nothing for a missing file. *)
Definition gitignore (w : World) : string :=
  match files w (gitignorePath w) with
  | File content => content
  | _ => EmptyString
  end.

(** A white space character, in its UTF-8 bytes. *)
Definition ws_char (s : string) : Prop := Str.ws_prefix s = Some EmptyString.

End ServiceMore.

(** ** Scenes with a configuration file *)

Module ScenarioConfig.

Import Examples Scenario.

Definition document (v : JSON.value) : Node := File (JSON.stringify v).

(** A configuration that names a custom vault directory. *)
Definition custom : JSON.value :=
  JSON.VObject
    [("vault", JSON.VObject [("defaultLocation", JSON.VString "custom");
                             ("customPath", JSON.VString "/mnt/vault")])].

(** A global vault, and a global configuration that selects a custom one. *)
Definition with_custom : World :=
  put_file "/home/u/.secretsage/config.yaml" (document custom)
    (initialised global_source (project Absent)).

(** A global configuration that sets the custom path and turns a switch of
    the agent off, and a local one that selects the local vault. *)
Definition global_document : JSON.value :=
  JSON.VObject
    [("vault", JSON.VObject [("customPath", JSON.VString "/mnt/vault")]);
     ("agent", JSON.VObject [("autoGitignore", JSON.VBool false)])].

Definition local_document : JSON.value :=
  JSON.VObject [("vault", JSON.VObject [("defaultLocation", JSON.VString "local")])].

Definition layered : World :=
  put_file "/proj/.secretsage/config.yaml" (document local_document)
    (put_file "/home/u/.secretsage/config.yaml" (document global_document)
       (project Absent)).

(** A global configuration file that is not a YAML document of the reader. *)
Definition damaged : World :=
  put_file "/home/u/.secretsage/config.yaml" (File "vault: [") (project Absent).

End ScenarioConfig.

(** ** Statements about the configuration *)

Module ConfigStmt.

Import JSON.

(** A configuration file that contributes nothing: it is missing, cannot be
    read, is not a document of the YAML reader, or is the empty document. *)
Definition silent `{YamlLibrary} (n : Node) : Prop :=
  match n with
  | Absent | Unreadable => True
  | File content =>
      (exists e, yaml_parse content = Throw e) \/ yaml_parse content = Ok VNull
  end.

(** What [deepMerge] leaves under a key that the source sets to [sv], when
    the target has [tv] there: two objects merge, anything else is
    overridden. *)
Definition layered (tv : option value) (sv : value) : value :=
  match sv, tv with
  | VObject sps, Some (VObject tps) => VObject (config.deepMerge tps sps)
  | _, _ => sv
  end.

End ConfigStmt.

(** ** A scene with an ignore file *)

Module ScenarioIgnore.

Import Scenario.

(** A project whose ignore file lists [.env] already, with white space
    around it. *)
Definition tracked : World :=
  put_file "/proj/.gitignore" (File (lines ["node_modules"; "  .env  "]))
    (project Absent).

End ScenarioIgnore.

(** ** The record of calls is written, never read *)

Module Trace.

Import Source.

(** A computation that runs on the world and adds to the record of calls:
    what it does and answers does not depend on the calls recorded so far. *)
Definition appending {W A} (m : M (Traced W) A) : Prop :=
  forall w log,
    m (mkTraced w log)
    = let '(r, tw) := m (mkTraced w []) in
      (r, mkTraced (world tw) (log ++ calls tw)%list).

End Trace.

(** ** Statements about what [grant] writes *)

Module GrantStmt.

Import Source.

Local Abbreviation list := Datatypes.list.

(** The world in which [grant] looks the credentials up: the backup of the
    env document is made by then, the document is not yet rewritten. *)
Definition lookup_world (s : CredentialService.St) (backup : option bool) : World :=
  let w := world (snd s) in
  match ServiceStmt.envFile s, backup with
  | File content, Some false => w
  | File content, _ => put_file (ServiceMore.backupPath w) (File content) w
  | _, _ => w
  end.

(** What the registry answers for [name] in the world [w]; nothing when it
    throws. *)
Definition resolved (reg : CredentialSourceRegistry.t World) (w : World)
    (name : string) : option Credential :=
  match fst (CredentialSourceRegistry.get name reg (mkTraced w [])) with
  | Ok found => found
  | Throw _ => None
  end.

(** The names of a list that resolve, and the assignments they give. *)
Definition found_names (found : string -> option Credential) (names : list string)
  : list string :=
  filter (fun n => match found n with Some _ => true | None => false end) names.

Definition found_values (found : string -> option Credential) (names : list string)
  : list (string * string) :=
  flat_map (fun n => match found n with
                     | Some c => [(n, cred_value c)]
                     | None => []
                     end) names.

End GrantStmt.

(** ** core/service.ts: setting a vault up

    Node's [path.resolve] and the normalising [path.join], applied to a path
    the user gives, are external collaborators: [path_resolve cwd p] stands
    for [path.resolve(p)] in the working directory [cwd]. *)

Class PathLibrary : Type := {
  path_resolve : string -> string -> string;
  path_join : string -> string -> string
}.

Module VaultSetup.

Import Source CredentialService.

Section Methods.
Context `{AgeLibrary} `{PathLibrary}.

(** [s.slice(1)] of a string whose first character is one byte. *)
Definition slice1 (s : string) : string :=
  match s with
  | EmptyString => EmptyString
  | String _ r => r
  end.

(** The directory [initializeVault] chooses. *)
Definition vaultDir (local : option bool) (customPath : option string) : M World string :=
  match customPath with
  | Some (String a r) =>
      let p := String a r in
      dir <- paths.read cwd ;;
      if Str.startsWith p "~"
      then home <- paths.getHomeDir ;;
           ret (path_resolve dir (path_join home (slice1 p)))
      else ret (path_resolve dir p)
  | _ =>
      match local with
      | Some true => paths.getLocalDir
      | _ => paths.getGlobalDir
      end
  end.

(** [initializeVault(options)]; [local] is [options?.local] and
    [customPath] is [options?.customPath]. *)
Definition initializeVault (local : option bool) (customPath : option string)
  : M St (string * string) :=
  dir <- io (vaultDir local customPath) ;;
  let source := LocalSource.mkLocalSource
                  (path.join dir "vault.json")
                  (path.join dir "identity.txt")
                  (path.join dir "recipient.txt") in
  update (fun s => mkService (registry s) (Some source) (initialized s)) ;;
  io (LocalSource.initialize source) ;;
  publicKey <- io (LocalSource.getPublicKey source) ;;
  ret (publicKey, dir).

End Methods.

End VaultSetup.


(** * Properties *)

(** ** Strings *)

Module StrFacts.

Import Str Stmt.

Lemma append_nil_r (s : string) : s ++ EmptyString = s.
Proof. induction s; simpl; congruence. Qed.

Lemma append_assoc (a b c : string) : (a ++ b) ++ c = a ++ b ++ c.
Proof. induction a; simpl; congruence. Qed.

Lemma rev_append_spec (s acc : string) :
  rev_append s acc = rev s ++ acc.
Proof.
  unfold rev. revert acc.
  induction s as [|c s IH]; intros acc; simpl; [reflexivity|].
  rewrite IH, (IH (String c EmptyString)), append_assoc. reflexivity.
Qed.

Lemma rev_cons (c : ascii) (s : string) : rev (String c s) = rev s ++ str1 c.
Proof. unfold rev at 1. simpl. apply rev_append_spec. Qed.

Lemma rev_snoc (s : string) (c : ascii) : rev (s ++ str1 c) = String c (rev s).
Proof.
  induction s as [|a s IH]; simpl; [reflexivity|].
  rewrite !rev_cons, IH. reflexivity.
Qed.

Lemma rev_involutive (s : string) : rev (rev s) = s.
Proof.
  induction s as [|c s IH]; [reflexivity|].
  rewrite rev_cons, rev_snoc, IH. reflexivity.
Qed.

Lemma startsWith_append (p s : string) : startsWith (p ++ s) p = true.
Proof.
  induction p as [|c p IH]; simpl; [destruct s; reflexivity|].
  rewrite Ascii.eqb_refl. exact IH.
Qed.

Lemma startsWith_inv (s p : string) :
  startsWith s p = true -> exists r, s = p ++ r.
Proof.
  revert s. induction p as [|c p IH]; intros s Hs.
  - exists s. reflexivity.
  - destruct s as [|b s]; simpl in Hs; [discriminate|].
    apply andb_true_iff in Hs. destruct Hs as [Hc Hs].
    apply Ascii.eqb_eq in Hc. subst b.
    destruct (IH _ Hs) as [r ->]. exists r. reflexivity.
Qed.

(** [includes] finds exactly the occurrences. *)
Lemma includes_spec (s p : string) :
  includes s p = true <-> exists pre post, s = pre ++ p ++ post.
Proof.
  split.
  - induction s as [|c s IH]; simpl; intros Hs.
    + rewrite orb_false_r in Hs. destruct p; [|discriminate].
      exists EmptyString, EmptyString. reflexivity.
    + apply orb_true_iff in Hs. destruct Hs as [Hs|Hs].
      * destruct (startsWith_inv (String c s) p Hs) as [r Hr].
        exists EmptyString, r. exact Hr.
      * destruct (IH Hs) as (pre & post & ->).
        exists (String c pre), post. reflexivity.
  - intros (pre & post & ->).
    induction pre as [|c pre IH]; simpl.
    + assert (Hu : forall s, startsWith s p = true -> includes s p = true).
      { intros s Hs. destruct s; simpl in *; rewrite Hs; reflexivity. }
      apply Hu, startsWith_append.
    + rewrite IH. apply orb_true_r.
Qed.

Lemma strip_prefix_append (p s : string) :
  strip_prefix p (p ++ s) = Some s.
Proof.
  induction p as [|c p IH]; simpl; [reflexivity|].
  rewrite Ascii.eqb_refl. exact IH.
Qed.

Lemma ws_prefix_shorter (s r : string) :
  ws_prefix s = Some r -> (String.length r < String.length s)%nat.
Proof.
  unfold ws_prefix. intros Hs.
  destruct s as [|a [|b [|c s]]]; simpl in *;
    repeat match type of Hs with
           | (if ?b then _ else _) = _ => destruct b
           | Some _ = Some _ => injection Hs as <-
           | _ => discriminate
           end; simpl; lia.
Qed.

Lemma strip_blank (fuel : nat) (s : string) :
  blank s -> (String.length s <= fuel)%nat -> strip ws_prefix fuel s = EmptyString.
Proof.
  revert s. induction fuel as [|n IH]; intros s Hb Hn.
  - destruct s; [reflexivity|simpl in Hn; lia].
  - simpl. destruct Hb as [|s r Hr Hb]; [reflexivity|].
    rewrite Hr. apply IH; [exact Hb|].
    apply ws_prefix_shorter in Hr. lia.
Qed.

(** [trim] leaves nothing of a blank string. *)
Lemma trim_blank (s : string) : blank s -> trim s = EmptyString.
Proof.
  intros Hb. unfold trim, trimStart.
  rewrite (strip_blank _ _ Hb (Nat.le_refl _)). reflexivity.
Qed.

End StrFacts.

(** ** The env document writer *)

Module EnvFacts.

Import Str StrFacts CredentialService.

Lemma test_special_spec (value : string) :
  test_special value = true <->
  exists pre c post, value = pre ++ String c post /\
    (c = "#"%char \/ c = dquote \/ c = squote \/ c = backslash
     \/ ws_prefix (String c post) <> None).
Proof.
  split.
  - induction value as [|c r IH]; [discriminate|].
    cbn [test_special]. intros Hv.
    destruct (Ascii.eqb c "#") eqn:E1.
    { apply Ascii.eqb_eq in E1. exists EmptyString, c, r. split; [reflexivity|tauto]. }
    destruct (Ascii.eqb c dquote) eqn:E2.
    { apply Ascii.eqb_eq in E2. exists EmptyString, c, r. split; [reflexivity|tauto]. }
    destruct (Ascii.eqb c squote) eqn:E3.
    { apply Ascii.eqb_eq in E3. exists EmptyString, c, r. split; [reflexivity|tauto]. }
    destruct (Ascii.eqb c backslash) eqn:E4.
    { apply Ascii.eqb_eq in E4. exists EmptyString, c, r. split; [reflexivity|tauto]. }
    destruct (ws_prefix (String c r)) eqn:E5.
    { exists EmptyString, c, r. split; [reflexivity|].
      do 4 right. rewrite E5. discriminate. }
    simpl in Hv. destruct (IH Hv) as (pre & c' & post & -> & Hc).
    exists (String c pre), c', post. split; [reflexivity|exact Hc].
  - intros (pre & c & post & -> & Hc).
    induction pre as [|a pre IH].
    + cbn [append test_special].
      destruct Hc as [->|[->|[->|[->|Hc]]]];
        rewrite ?Ascii.eqb_refl, ?orb_true_r; try reflexivity.
      destruct (ws_prefix (String c post)); [|congruence].
      rewrite ?orb_true_r. reflexivity.
    + change (test_special (String a (pre ++ String c post)) = true).
      cbn [test_special]. rewrite IH. apply orb_true_r.
Qed.

Lemma needsQuotes_spec (value : string) :
  needsQuotes value = true <->
  exists pre c post, value = pre ++ String c post /\ Stmt.forces_quotes c post.
Proof.
  unfold needsQuotes, Stmt.forces_quotes.
  rewrite orb_true_iff, test_special_spec, includes_spec. split.
  - intros [(pre & c & post & -> & Hc)|(pre & post & ->)].
    + exists pre, c, post. split; [reflexivity|]. tauto.
    + exists pre, "="%char, post. split; [reflexivity|]. tauto.
  - intros (pre & c & post & -> & Hc).
    destruct Hc as [Hc|[Hc|[Hc|[Hc|[Hc|Hc]]]]].
    5: { right. exists pre, post. subst c. reflexivity. }
    all: left; exists pre, c, post; split; [reflexivity|tauto].
Qed.

(** The escaping goes through the value character by character. *)
Lemma escape_quotes_app (a b : string) :
  escape_quotes (a ++ b) = escape_quotes a ++ escape_quotes b.
Proof.
  induction a as [|c a IH]; [reflexivity|].
  cbn [append escape_quotes]. rewrite IH.
  destruct (Ascii.eqb c dquote); reflexivity.
Qed.

Lemma escape_quotes_at (pre : string) (c : ascii) (post : string) :
  escape_quotes (pre ++ String c post)
  = escape_quotes pre
    ++ (if Ascii.eqb c dquote then String backslash (str1 dquote) else str1 c)
    ++ escape_quotes post.
Proof.
  rewrite escape_quotes_app. cbn [escape_quotes].
  destruct (Ascii.eqb c dquote); reflexivity.
Qed.

(** A text that does not begin with a double quote was written bare. *)
Lemma quotedValue_bare (value : string) (c : ascii) (r : string) :
  quotedValue value = String c r -> c <> dquote -> value = String c r.
Proof.
  unfold quotedValue. destruct (needsQuotes value); intros E Hc; [|exact E].
  injection E as E _. symmetry in E. contradiction.
Qed.

End EnvFacts.

(** C4 (as amended).  [stringifyEnv] writes a value between double quotes
    exactly when it holds a white space character, a hash, a double or a
    single quote, a backslash or an equals sign; any other value is written
    bare.  Between the quotes stands the value with a backslash put before
    each of its double quotes and nothing else changed. *)
Theorem stringifyEnv_quoting (value : string) :
  (CredentialService.needsQuotes value = true <->
     exists pre c post, value = pre ++ String c post /\ Stmt.forces_quotes c post)
  /\ CredentialService.quotedValue value
     = (if CredentialService.needsQuotes value
        then String Str.dquote
               (CredentialService.escape_quotes value ++ Str.str1 Str.dquote)
        else value)
  /\ (forall pre c post,
        CredentialService.escape_quotes (pre ++ String c post)
        = CredentialService.escape_quotes pre
          ++ (if Ascii.eqb c Str.dquote
              then String Str.backslash (Str.str1 Str.dquote)
              else Str.str1 c)
          ++ CredentialService.escape_quotes post).
Proof.
  split; [apply EnvFacts.needsQuotes_spec|].
  split; [reflexivity|].
  apply EnvFacts.escape_quotes_at.
Qed.

(** C4, as the specification words it, fails: a value with a hash and none
    of the characters the specification lists is written between quotes. *)
Lemma stringifyEnv_quotes_hash :
  Spec.needsQuotes "a#b" = false
  /\ CredentialService.quotedValue "a#b"
     = String Str.dquote ("a#b" ++ Str.str1 Str.dquote)
  /\ ~ (forall value, CredentialService.needsQuotes value = Spec.needsQuotes value).
Proof.
  split; [reflexivity|]. split; [reflexivity|].
  intros Hall. specialize (Hall "a#b"). discriminate Hall.
Qed.

(** The example of the specification: a value with a space and double
    quotes, and the line written for it.  What stands between the quotes is
    not the value: each of its double quotes has a backslash before it. *)
Example stringifyEnv_example :
  let value := "a " ++ String Str.dquote ("b" ++ String Str.dquote " c") in
  CredentialService.stringifyEnv [("KEY", value)]
  = "KEY=" ++ String Str.dquote
       ("a " ++ String Str.backslash (String Str.dquote
          ("b" ++ String Str.backslash (String Str.dquote
             (" c" ++ String Str.dquote (Str.str1 Str.LF))))))
  /\ CredentialService.escape_quotes value <> value.
Proof. split; [reflexivity|discriminate]. Qed.

(** Read back by a reader that takes off the surrounding quotes and leaves
    a backslash before a double quote where it is, the example comes back
    with its two backslashes. *)
Example stringifyEnv_example_read_back :
  let value := "a " ++ String Str.dquote ("b" ++ String Str.dquote " c") in
  Examples.read_env (CredentialService.stringifyEnv [("KEY", value)])
  = [("KEY", "a " ++ String Str.backslash (String Str.dquote
               ("b" ++ String Str.backslash (String Str.dquote " c"))))].
Proof. vm_compute. reflexivity. Qed.

(** ** Sequencing *)

Module MonadFacts.

Export Frame.

Lemma bind_Ok {S A B} (m : M S A) (k : A -> M S B) s b s' :
  bind m k s = (Ok b, s') ->
  exists a s1, m s = (Ok a, s1) /\ k a s1 = (Ok b, s').
Proof.
  unfold bind. destruct (m s) as [[a|e] s1]; intros Hk; [eauto|discriminate].
Qed.

Lemma bind_run {S A B} (m : M S A) (k : A -> M S B) s a s1 :
  m s = (Ok a, s1) -> bind m k s = k a s1.
Proof. unfold bind. intros ->. reflexivity. Qed.

Lemma bind_throw {S A B} (m : M S A) (k : A -> M S B) s e s1 :
  m s = (Throw e, s1) -> bind m k s = (Throw e, s1).
Proof. unfold bind. intros ->. reflexivity. Qed.

Lemma readonly_run {S A} (m : M S A) s r s' :
  readonly m -> m s = (r, s') -> s' = s.
Proof. intros Hm Hs. specialize (Hm s). rewrite Hs in Hm. exact Hm. Qed.

Lemma readonly_ret {S A} (a : A) : readonly (@ret S A a).
Proof. intros s. reflexivity. Qed.

Lemma readonly_throw {S A} (e : exn) : readonly (@throw S A e).
Proof. intros s. reflexivity. Qed.

Lemma readonly_lift {S A} (r : Result A) : readonly (@lift_result S A r).
Proof. intros s. reflexivity. Qed.

Lemma readonly_bind {S A B} (m : M S A) (k : A -> M S B) :
  readonly m -> (forall a, readonly (k a)) -> readonly (bind m k).
Proof.
  intros Hm Hk s. unfold bind.
  destruct (m s) as [[a|e] s1] eqn:E; apply (readonly_run _ _ _ _ Hm) in E; subst s1.
  - apply Hk.
  - reflexivity.
Qed.

Lemma readonly_try {S A} (m : M S A) (h : exn -> M S A) :
  readonly m -> (forall e, readonly (h e)) -> readonly (try_catch m h).
Proof.
  intros Hm Hh s. unfold try_catch.
  destruct (m s) as [[a|e] s1] eqn:E; apply (readonly_run _ _ _ _ Hm) in E; subst s1.
  - reflexivity.
  - apply Hh.
Qed.

Lemma readonly_if {S A} (b : bool) (m1 m2 : M S A) :
  readonly m1 -> readonly m2 -> readonly (if b then m1 else m2).
Proof. destruct b; auto. Qed.

Lemma readonly_pathExists p : readonly (fs.pathExists p).
Proof. intros w. unfold fs.pathExists. destruct (files w p); reflexivity. Qed.

Lemma readonly_readFile p : readonly (fs.readFile p).
Proof. intros w. unfold fs.readFile. destruct (files w p); reflexivity. Qed.

Lemma readonly_read {A} (f : World -> A) : readonly (paths.read f).
Proof. intros w. reflexivity. Qed.

Lemma readonly_now : readonly Date.now.
Proof. intros w. reflexivity. Qed.

Create HintDb readonly.

#[export] Hint Resolve readonly_ret readonly_throw readonly_lift readonly_pathExists
  readonly_readFile readonly_read readonly_now : readonly.

#[export] Hint Extern 2 (readonly (bind _ _)) =>
  apply readonly_bind; [|intro] : readonly.
#[export] Hint Extern 2 (readonly (try_catch _ _)) =>
  apply readonly_try; [|intro] : readonly.
#[export] Hint Extern 2 (readonly (if _ then _ else _)) =>
  apply readonly_if : readonly.
#[export] Hint Extern 3 (readonly (match ?x with _ => _ end)) =>
  destruct x : readonly.

Ltac readonly := auto 30 with readonly.

Lemma readonly_getLocalDir : readonly paths.getLocalDir.
Proof. unfold paths.getLocalDir. readonly. Qed.

Lemma readonly_getGlobalDir : readonly paths.getGlobalDir.
Proof. unfold paths.getGlobalDir, paths.getHomeDir. readonly. Qed.

#[export] Hint Resolve readonly_getLocalDir readonly_getGlobalDir : readonly.

Lemma readonly_getConfigPath b : readonly (paths.getConfigPath b).
Proof. unfold paths.getConfigPath. readonly. Qed.

Lemma readonly_getEnvPath : readonly paths.getEnvPath.
Proof. unfold paths.getEnvPath. readonly. Qed.

Lemma readonly_hasLocalVault : readonly paths.hasLocalVault.
Proof. unfold paths.hasLocalVault. readonly. Qed.

Lemma readonly_hasGlobalVault : readonly paths.hasGlobalVault.
Proof. unfold paths.hasGlobalVault. readonly. Qed.

#[export] Hint Resolve readonly_getConfigPath readonly_getEnvPath
  readonly_hasLocalVault readonly_hasGlobalVault : readonly.

Lemma readonly_loadConfig `{YamlLibrary} : readonly config.loadConfig.
Proof. unfold config.loadConfig, config.readPartial. readonly. Qed.

#[export] Hint Resolve readonly_loadConfig : readonly.

End MonadFacts.

(** ** What only reads *)

Module ReadFacts.

Import MonadFacts.

Section Local.
Context `{AgeLibrary}.
Variable ls : LocalSource.t.

Lemma readonly_loadIdentity p : readonly (AgeProvider.loadIdentity p).
Proof. unfold AgeProvider.loadIdentity. readonly. Qed.

Lemma readonly_loadRecipient p : readonly (AgeProvider.loadRecipient p).
Proof. unfold AgeProvider.loadRecipient. readonly. Qed.

Lemma readonly_decrypt c k : readonly (AgeProvider.decrypt c k).
Proof. unfold AgeProvider.decrypt. readonly. Qed.

Hint Resolve readonly_loadIdentity readonly_loadRecipient readonly_decrypt : readonly.

Lemma readonly_isAvailable : readonly (LocalSource.isAvailable ls).
Proof. unfold LocalSource.isAvailable. readonly. Qed.

Lemma readonly_readVault : readonly (LocalSource.readVault ls).
Proof. unfold LocalSource.readVault. readonly. Qed.

Hint Resolve readonly_readVault : readonly.

Lemma readonly_get name : readonly (LocalSource.get ls name).
Proof. unfold LocalSource.get. readonly. Qed.

Lemma readonly_list : readonly (LocalSource.list ls).
Proof. unfold LocalSource.list. readonly. Qed.

Lemma readonly_decrypt_all key entries : readonly (LocalSource.decrypt_all key entries).
Proof.
  induction entries as [|e r IH]; cbn [LocalSource.decrypt_all]; readonly.
Qed.

Hint Resolve readonly_decrypt_all : readonly.

Lemma readonly_getAll : readonly (LocalSource.getAll ls).
Proof. unfold LocalSource.getAll. readonly. Qed.

End Local.

#[export] Hint Resolve readonly_loadIdentity readonly_loadRecipient readonly_decrypt
  readonly_isAvailable readonly_readVault readonly_get readonly_list
  readonly_getAll : readonly.

End ReadFacts.

(** ** The source registry *)

From Stdlib Require Import Sorting.Sorted Sorting.Permutation.

Module RegistryFacts.

Import Source CredentialSourceRegistry RegistryStmt MonadFacts.

Section Facts.
Context {W : Type}.

Local Abbreviation list := Datatypes.list.
Local Abbreviation source := (ICredentialSource W).
Local Abbreviation registry := (CredentialSourceRegistry.t W).

Lemma insert_perm (s : source) l : Permutation (insert s l) (s :: l).
Proof.
  induction l as [|x r IH]; simpl; [reflexivity|].
  destruct (priority x <? priority s)%Z; [|reflexivity].
  rewrite IH. apply perm_swap.
Qed.

Lemma sort_perm (l : list source) : Permutation (sort l) l.
Proof.
  induction l as [|s r IH]; simpl; [reflexivity|].
  rewrite insert_perm, IH. reflexivity.
Qed.

Lemma sort_In (l : list source) s : In s (sort l) <-> In s l.
Proof.
  split; apply Permutation_in; [|symmetry]; apply sort_perm.
Qed.

Lemma insert_sorted (s : source) l :
  StronglySorted by_priority l -> StronglySorted by_priority (insert s l).
Proof.
  induction 1 as [|x r Hr IH Hx]; simpl.
  - constructor; constructor.
  - destruct (priority x <? priority s)%Z eqn:E.
    + constructor; [exact IH|].
      apply Z.ltb_lt in E.
      rewrite Forall_forall in *. intros y Hy.
      apply (Permutation_in _ (insert_perm s r)) in Hy.
      destruct Hy as [<-|Hy]; [unfold by_priority; lia|auto].
    + apply Z.ltb_ge in E.
      constructor; [constructor; assumption|].
      constructor; [exact E|].
      rewrite Forall_forall in *. intros y Hy.
      specialize (Hx y Hy). unfold by_priority in *. lia.
Qed.

Lemma sort_sorted (l : list source) : StronglySorted by_priority (sort l).
Proof.
  induction l as [|s r IH]; simpl; [constructor|].
  apply insert_sorted, IH.
Qed.

(** *** The availability probe *)

Lemma probe_run (w : W) (l : list source) log :
  (forall s, In s l -> exists b, isAvailable s w = (Ok b, w)) ->
  probe l (mkTraced w log)
  = (Ok (filter (available w) l),
     mkTraced w (log ++ map (probed w) l)%list).
Proof.
  revert log. induction l as [|s r IH]; intros log Hl.
  - simpl. rewrite app_nil_r. reflexivity.
  - cbn [probe].
    destruct (Hl s (or_introl eq_refl)) as [b Hb].
    assert (Ha : available w s = b).
    { unfold available. rewrite Hb. destruct b; reflexivity. }
    erewrite bind_run.
    2:{ unfold invoke. cbn [world calls]. rewrite Hb. reflexivity. }
    erewrite bind_run.
    2:{ apply IH. intros x Hx. apply Hl. right. exact Hx. }
    unfold ret. cbn [filter map outcome]. unfold probed at 2.
    rewrite Ha, <- app_assoc. cbn [app]. destruct b; reflexivity.
Qed.

Lemma getAvailableSources_run (w : W) (reg : registry) log :
  (forall s, In s (getAllSources reg) -> exists b, isAvailable s w = (Ok b, w)) ->
  getAvailableSources reg (mkTraced w log)
  = (Ok (sort (filter (available w) (getAllSources reg))),
     mkTraced w (log ++ map (probed w) (getAllSources reg))%list).
Proof.
  intros Hl. unfold getAvailableSources.
  erewrite bind_run by (apply probe_run; exact Hl). reflexivity.
Qed.

(** *** First match *)

Lemma first_some_None {A} (f : source -> option A) l :
  first_some f l = None <-> forall s, In s l -> f s = None.
Proof.
  induction l as [|s r IH]; simpl.
  - split; [intros _ s []|reflexivity].
  - destruct (f s) eqn:E.
    + split; [discriminate|]. intros Hall.
      rewrite (Hall s (or_introl eq_refl)) in E. discriminate.
    + rewrite IH. split.
      * intros Hall x [<-|Hx]; auto.
      * intros Hall x Hx. apply Hall. right. exact Hx.
Qed.

(** In a list sorted by priority, the first answer is the answer of lowest
    priority number. *)
Lemma first_some_lowest {A} (f : source -> option A) l a ca :
  StronglySorted by_priority l ->
  In a l -> f a = Some ca ->
  (forall s, In s l -> id s = id a -> s = a) ->
  (forall s, In s l -> f s <> None -> id s <> id a ->
             (priority a < priority s)%Z) ->
  first_some f l = Some ca.
Proof.
  induction 1 as [|x r Hr IH Hx]; intros Ha Hca Hid Hlow; [destruct Ha|].
  cbn [first_some].
  destruct (f x) as [c|] eqn:E.
  - destruct (String.eqb (id x) (id a)) eqn:Ei.
    + apply String.eqb_eq in Ei.
      rewrite (Hid x (or_introl eq_refl) Ei) in E. congruence.
    + apply String.eqb_neq in Ei.
      assert (Hlt : (priority a < priority x)%Z).
      { apply Hlow; [left; reflexivity| congruence |exact Ei]. }
      destruct Ha as [->|Ha]; [lia|].
      rewrite Forall_forall in Hx. specialize (Hx a Ha).
      unfold by_priority in Hx. lia.
  - destruct Ha as [->|Ha]; [congruence|].
    apply IH; auto.
    + intros s Hs. apply Hid. right. exact Hs.
    + intros s Hs. apply Hlow. right. exact Hs.
Qed.

Lemma get_first_run (w : W) (name : string) (l : list source) log :
  (forall s, In s l -> exists r, Source.get s name w = (Ok r, w)) ->
  exists log',
    get_first name l (mkTraced w log)
    = (Ok (first_some (reports w name) l), mkTraced w log').
Proof.
  revert log. induction l as [|s r IH]; intros log Hl.
  - exists log. reflexivity.
  - cbn [get_first first_some].
    destruct (Hl s (or_introl eq_refl)) as [c Hc].
    unfold reports at 1. rewrite Hc. cbn [fst].
    erewrite bind_run.
    2:{ unfold invoke. cbn [world calls]. rewrite Hc. reflexivity. }
    destruct c as [c|].
    + eexists. reflexivity.
    + apply IH. intros x Hx. apply Hl. right. exact Hx.
Qed.

(** *** The union of the lists *)

Lemma first_named_app n (l1 l2 : list CredentialMetadata) :
  first_named n (l1 ++ l2)%list
  = match first_named n l1 with
    | Some m => Some m
    | None => first_named n l2
    end.
Proof.
  induction l1 as [|m r IH]; simpl; [reflexivity|].
  destruct (String.eqb (md_name m) n); [reflexivity|exact IH].
Qed.

Lemma first_named_In n (l : list CredentialMetadata) :
  first_named n l <> None <-> In n (map md_name l).
Proof.
  induction l as [|m r IH]; simpl; [tauto|].
  destruct (String.eqb (md_name m) n) eqn:E.
  - apply String.eqb_eq in E. split; [auto|discriminate].
  - apply String.eqb_neq in E. rewrite IH. tauto.
Qed.

Lemma first_named_name n (l : list CredentialMetadata) m :
  first_named n l = Some m -> md_name m = n.
Proof.
  induction l as [|x r IH]; simpl; [discriminate|].
  destruct (String.eqb (md_name x) n) eqn:E; [|exact IH].
  intros [= <-]. apply String.eqb_eq. exact E.
Qed.

Lemma Set_has_In x seen : Set_has x seen = true <-> In x seen.
Proof.
  unfold Set_has. rewrite existsb_exists. split.
  - intros (y & Hy & E). apply String.eqb_eq in E. subst. exact Hy.
  - intros Hx. exists x. split; [exact Hx|apply String.eqb_refl].
Qed.

(** The inner loop keeps the first entry of each name. *)
Lemma collect_spec (l : list CredentialMetadata) seen result :
  seen = map md_name result -> NoDup seen ->
  let out := collect l (seen, result) in
  fst out = map md_name (snd out)
  /\ NoDup (fst out)
  /\ forall n, first_named n (snd out) = first_named n (result ++ l)%list.
Proof.
  revert seen result. induction l as [|m r IH]; intros seen result Hs Hnd.
  - simpl. rewrite app_nil_r. auto.
  - cbn [collect]. destruct (Set_has (md_name m) seen) eqn:E; cbn [negb].
    + destruct (IH seen result Hs Hnd) as (H1 & H2 & H3).
      split; [exact H1|]. split; [exact H2|].
      intros n. rewrite H3, !first_named_app. cbn [first_named].
      destruct (first_named n result) eqn:En; [reflexivity|].
      destruct (String.eqb (md_name m) n) eqn:Em; [|reflexivity].
      apply String.eqb_eq in Em. subst n.
      apply Set_has_In in E. rewrite Hs in E.
      apply first_named_In in E. congruence.
    + assert (Hm : ~ In (md_name m) seen).
      { intros Hin. apply Set_has_In in Hin. congruence. }
      destruct (IH (seen ++ [md_name m])%list (result ++ [m])%list) as (H1 & H2 & H3).
      * rewrite map_app, Hs. reflexivity.
      * apply NoDup_app; [exact Hnd|repeat constructor; intros []|].
        intros x Hx [<-|[]]. exact (Hm Hx).
      * split; [exact H1|]. split; [exact H2|].
        intros n. rewrite H3, <- app_assoc. reflexivity.
Qed.

Lemma list_from_run (w : W) (l : list source) log seen result :
  (forall s, In s l -> exists r, Source.list s w = (Ok r, w)) ->
  seen = map md_name result -> NoDup seen ->
  exists ms log',
    list_from l (seen, result) (mkTraced w log) = (Ok ms, mkTraced w log')
    /\ NoDup (map md_name ms)
    /\ forall n, first_named n ms
                 = first_named n (result ++ concat (map (listing w) l))%list.
Proof.
  revert log seen result. induction l as [|s r IH]; intros log seen result Hl Hs Hnd.
  - exists result, log. cbn. rewrite app_nil_r, <- Hs. auto.
  - cbn [list_from].
    destruct (Hl s (or_introl eq_refl)) as [c Hc].
    erewrite bind_run.
    2:{ unfold invoke. cbn [world calls]. rewrite Hc. reflexivity. }
    pose proof (collect_spec c seen result Hs Hnd) as Hcol.
    destruct (collect c (seen, result)) as [seen' result'].
    cbn [fst snd] in Hcol. destruct Hcol as (H1 & H2 & H3).
    destruct (IH (calls (mkTraced w (log ++ [(CallList (id s), outcome done (Ok c))]))%list)
                seen' result') as (ms & log' & Hrun & Hnd' & Hfirst); auto.
    { intros x Hx. apply Hl. right. exact Hx. }
    exists ms, log'. split; [exact Hrun|]. split; [exact Hnd'|].
    intros n. rewrite Hfirst. cbn [map concat].
    unfold listing at 2. rewrite Hc. cbn [fst].
    rewrite !first_named_app, H3, first_named_app.
    destruct (first_named n result); [reflexivity|].
    destruct (first_named n c); reflexivity.
Qed.

Lemma first_named_concat (w : W) n (l : list source) :
  first_named n (concat (map (listing w) l))
  = first_some (fun s => first_named n (listing w s)) l.
Proof.
  induction l as [|s r IH]; [reflexivity|].
  cbn [map concat first_some]. rewrite first_named_app, IH. reflexivity.
Qed.

(** *** Deletion everywhere *)


Lemma same_id_same_source (reg : registry) a s :
  well_keyed reg ->
  In a (getAllSources reg) -> In s (getAllSources reg) -> id s = id a -> s = a.
Proof.
  intros [Hnd Hkey]. unfold getAllSources.
  induction reg as [|[k x] r IH]; [intros []|].
  cbn [map fst snd] in *. inversion Hnd as [|? ? Hk Hnd']; subst.
  assert (Hr : forall y, In y (map snd r) -> In (id y) (map fst r)).
  { intros y Hy. apply in_map_iff in Hy. destruct Hy as ([k' y'] & <- & Hy).
    simpl. rewrite <- (Hkey k' y' (or_intror Hy)).
    apply in_map_iff. exists (k', y'). auto. }
  assert (Hkx : k = id x) by (apply Hkey; left; reflexivity).
  intros [<-|Ha] [<-|Hs] He; try reflexivity.
  - exfalso. apply Hk. rewrite Hkx, <- He. apply Hr, Hs.
  - exfalso. apply Hk. rewrite Hkx, He. apply Hr, Ha.
  - apply IH; auto. intros k' s' Hin. apply Hkey. right. exact Hin.
Qed.

End Facts.

End RegistryFacts.

Module RegistryMore.

Import Source CredentialSourceRegistry RegistryStmt MonadFacts RegistryFacts.

Section Facts.
Context {W : Type}.

Local Abbreviation list := Datatypes.list.
Local Abbreviation source := (ICredentialSource W).

Lemma first_some_Some {A} (f : source -> option A) l :
  first_some f l <> None <-> exists s, In s l /\ f s <> None.
Proof.
  induction l as [|s r IH]; simpl.
  - split; [congruence|intros (s & [] & _)].
  - destruct (f s) eqn:E.
    + split; [|discriminate]. intros _. exists s. split; [auto|congruence].
    + rewrite IH. split.
      * intros (x & Hx & Hf). exists x. auto.
      * intros (x & [<-|Hx] & Hf); [congruence|]. exists x. auto.
Qed.

Lemma In_available (w : W) (l : list source) s :
  In s (sort (filter (available w) l)) <-> In s l /\ available w s = true.
Proof. rewrite sort_In, filter_In. reflexivity. Qed.

End Facts.

End RegistryMore.

(** C6.  The registry resolves a name by first match over the available
    back ends in ascending order of priority.  [get] returns [null] exactly
    when no available back end reports the name; of two available back ends
    that report it, the one with the lower priority number wins (every other
    available back end reporting the name having a higher number).  [list]
    holds each name once: the entry of the first back end, in priority
    order, that lists it. *)
Theorem registry_priority {W : Type} (reg : CredentialSourceRegistry.t W)
    (w : W) (log : list (Source.Call * Source.Outcome)) (name : string) :
  let sources := CredentialSourceRegistry.getAllSources reg in
  let answers s := RegistryStmt.available w s = true in
  RegistryStmt.well_keyed reg ->
  (forall s, In s sources -> exists b, Source.isAvailable s w = (Ok b, w)) ->
  (forall s, In s sources -> answers s ->
             exists r, Source.get s name w = (Ok r, w)) ->
  (forall s, In s sources -> answers s ->
             exists l, Source.list s w = (Ok l, w)) ->
  exists result ms,
    fst (CredentialSourceRegistry.get name reg (Source.mkTraced w log)) = Ok result
    /\ fst (CredentialSourceRegistry.list reg (Source.mkTraced w log)) = Ok ms
    /\ (result = None <->
        forall s, In s sources -> answers s -> RegistryStmt.reports w name s = None)
    /\ (forall a b ca cb,
          In a sources -> In b sources -> answers a -> answers b ->
          RegistryStmt.reports w name a = Some ca ->
          RegistryStmt.reports w name b = Some cb ->
          (Source.priority a < Source.priority b)%Z ->
          (forall s, In s sources -> answers s ->
                     RegistryStmt.reports w name s <> None ->
                     Source.id s <> Source.id a ->
                     (Source.priority a < Source.priority s)%Z) ->
          result = Some ca)
    /\ NoDup (map md_name ms)
    /\ (forall n, In n (map md_name ms) <->
                  exists s, In s sources /\ answers s
                            /\ In n (map md_name (RegistryStmt.listing w s)))
    /\ (forall a m n,
          In a sources -> answers a ->
          RegistryStmt.first_named n (RegistryStmt.listing w a) = Some m ->
          (forall s, In s sources -> answers s ->
                     In n (map md_name (RegistryStmt.listing w s)) ->
                     Source.id s <> Source.id a ->
                     (Source.priority a < Source.priority s)%Z) ->
          RegistryStmt.first_named n ms = Some m).
Proof.
  intros sources answers Hwf Hprobe Hget Hlist.
  set (avail := CredentialSourceRegistry.sort (filter (RegistryStmt.available w) sources)).
  assert (Hin : forall s, In s avail <-> In s sources /\ answers s).
  { intros s. apply RegistryMore.In_available. }
  assert (Hsorted : StronglySorted RegistryStmt.by_priority avail).
  { apply RegistryFacts.sort_sorted. }
  assert (Hsame : forall a s, In a avail -> In s avail -> Source.id s = Source.id a -> s = a).
  { intros a s Ha Hs. apply (RegistryFacts.same_id_same_source reg); auto.
    - apply Hin, Ha.
    - apply Hin, Hs. }
  destruct (RegistryFacts.get_first_run w name avail
              (log ++ map (RegistryStmt.probed w) sources)%list) as [log1 Hg].
  { intros s Hs. apply Hin in Hs. destruct Hs. auto. }
  destruct (RegistryFacts.list_from_run w avail
              (log ++ map (RegistryStmt.probed w) sources)%list [] [])
    as (ms & log2 & Hl & Hnd & Hfirst); [|reflexivity|constructor|].
  { intros s Hs. apply Hin in Hs. destruct Hs. auto. }
  exists (RegistryStmt.first_some (RegistryStmt.reports w name) avail), ms.
  split.
  { unfold CredentialSourceRegistry.get.
    erewrite MonadFacts.bind_run
      by (apply RegistryFacts.getAvailableSources_run; exact Hprobe).
    fold sources. fold avail. rewrite Hg. reflexivity. }
  split.
  { unfold CredentialSourceRegistry.list.
    erewrite MonadFacts.bind_run
      by (apply RegistryFacts.getAvailableSources_run; exact Hprobe).
    fold sources. fold avail. rewrite Hl. reflexivity. }
  split.
  { rewrite RegistryFacts.first_some_None. split.
    - intros Hall s Hs Ha. apply Hall, Hin. auto.
    - intros Hall s Hs. apply Hin in Hs. destruct Hs. auto. }
  split.
  { intros a b ca cb Ha _ Haa _ Hca _ _ Hlow.
    apply RegistryFacts.first_some_lowest with (a := a); auto.
    - apply Hin. auto.
    - intros s Hs He. apply (Hsame a s); auto. apply Hin. auto.
    - intros s Hs. apply Hin in Hs. destruct Hs. auto. }
  split; [exact Hnd|].
  split.
  { intros n. rewrite <- RegistryFacts.first_named_In, Hfirst.
    cbn [app]. rewrite RegistryFacts.first_named_concat, RegistryMore.first_some_Some.
    split.
    - intros (s & Hs & Hn). exists s. apply Hin in Hs. destruct Hs.
      rewrite <- RegistryFacts.first_named_In. auto.
    - intros (s & Hs & Ha & Hn). exists s. split; [apply Hin; auto|].
      apply RegistryFacts.first_named_In. exact Hn. }
  intros a m n Ha Haa Hm Hlow.
  rewrite Hfirst. cbn [app]. rewrite RegistryFacts.first_named_concat.
  apply RegistryFacts.first_some_lowest with (a := a); auto.
  - apply Hin. auto.
  - intros s Hs He. apply (Hsame a s); auto. apply Hin. auto.
  - intros s Hs Hn. apply Hin in Hs. destruct Hs.
    apply Hlow; auto. apply RegistryFacts.first_named_In. exact Hn.
Qed.

Lemma both_well_keyed : RegistryStmt.well_keyed Backends.both.
Proof.
  split.
  - repeat constructor; simpl; intuition discriminate.
  - intros k s [Hs|[Hs|[]]]; inversion Hs; reflexivity.
Qed.

(** The two back ends of the example both hold [API_KEY]; the keychain, of
    priority 1, answers, although the cloud was registered first. *)
Lemma registry_priority_witness :
  RegistryStmt.well_keyed Backends.both
  /\ fst (CredentialSourceRegistry.get "API_KEY" Backends.both
            (Source.mkTraced Backends.filled []))
     = Ok (Some (mkCredential "API_KEY" "from-keychain" "keychain" None)).
Proof.
  split; [exact both_well_keyed|].
  destruct (registry_priority Backends.both Backends.filled [] "API_KEY")
    as (result & ms & Hget & _ & _ & Hpair & _).
  - exact both_well_keyed.
  - intros s [<-|[<-|[]]]; eexists; reflexivity.
  - intros s [<-|[<-|[]]] _; eexists; reflexivity.
  - intros s [<-|[<-|[]]] _; eexists; reflexivity.
  - rewrite Hget. f_equal.
    apply (Hpair Backends.keychain Backends.cloud _
             (mkCredential "API_KEY" "from-cloud" "cloud" None)).
    + right; left; reflexivity.
    + left; reflexivity.
    + reflexivity.
    + reflexivity.
    + reflexivity.
    + reflexivity.
    + reflexivity.
    + intros s [<-|[<-|[]]] _ _ Hid.
      * reflexivity.
      * exfalso. apply Hid. reflexivity.
Defined.



Module RegistryReads.

Import Source CredentialSourceRegistry MonadFacts.

Section Facts.
Context {W : Type}.

Local Abbreviation list := Datatypes.list.
Local Abbreviation source := (ICredentialSource W).

Lemma invoke_world {A} c (t : A -> bool) (m : M W A) tw :
  readonly m -> world (snd (invoke c t m tw)) = world tw.
Proof.
  intros Hm. unfold invoke. destruct (m (world tw)) as [r w'] eqn:E.
  apply (readonly_run _ _ _ _ Hm) in E. subst. reflexivity.
Qed.

Lemma bind_world {A B} (m : M (Traced W) A) (k : A -> M (Traced W) B) tw :
  world (snd (m tw)) = world tw ->
  (forall a tw', world tw' = world tw -> world (snd (k a tw')) = world tw) ->
  world (snd (bind m k tw)) = world tw.
Proof.
  intros Hm Hk. unfold bind. destruct (m tw) as [[a|e] tw1]; cbn [snd] in *.
  - apply Hk. exact Hm.
  - exact Hm.
Qed.

Lemma probe_world (l : list source) tw :
  (forall s, In s l -> readonly (isAvailable s)) ->
  world (snd (probe l tw)) = world tw
  /\ forall r, fst (probe l tw) = Ok r -> incl r l.
Proof.
  revert tw. induction l as [|s r IH]; intros tw Hl.
  - split; [reflexivity|]. cbn. intros x [= <-]. apply incl_refl.
  - cbn [probe].
    assert (Hs : readonly (isAvailable s)) by (apply Hl; left; reflexivity).
    assert (Hr : forall x, In x r -> readonly (isAvailable x)).
    { intros x Hx. apply Hl. right. exact Hx. }
    pose proof (invoke_world (CallIsAvailable (id s)) (fun b => b) _ tw Hs) as Hw.
    unfold bind. destruct (invoke _ _ _ tw) as [[ok|e] tw1]; cbn [snd] in Hw.
    2:{ split; [exact Hw|cbn; intros x Hx; discriminate Hx]. }
    destruct (IH tw1 Hr) as [Hw1 Hi1].
    destruct (probe r tw1) as [[av|e] tw2]; cbn [fst snd] in *.
    2:{ split; [congruence|intros x Hx; discriminate Hx]. }
    unfold ret. cbn [fst snd]. split; [congruence|].
    intros x [= <-]. specialize (Hi1 av eq_refl).
    destruct ok; [apply incl_cons; [left; reflexivity|]|]; apply incl_tl; exact Hi1.
Qed.

Lemma get_first_world name (l : list source) tw :
  (forall s, In s l -> readonly (Source.get s name)) ->
  world (snd (get_first name l tw)) = world tw.
Proof.
  revert tw. induction l as [|s r IH]; intros tw Hl; [reflexivity|].
  cbn [get_first]. apply bind_world.
  - apply invoke_world, Hl. left. reflexivity.
  - intros [c|] tw' Hw; [exact Hw|].
    rewrite IH; [exact Hw|]. intros x Hx. apply Hl. right. exact Hx.
Qed.

Lemma get_world name (reg : CredentialSourceRegistry.t W) tw :
  (forall s, In s (getAllSources reg) ->
             readonly (isAvailable s) /\ readonly (Source.get s name)) ->
  world (snd (CredentialSourceRegistry.get name reg tw)) = world tw.
Proof.
  intros Hl. unfold CredentialSourceRegistry.get, getAvailableSources.
  destruct (probe_world (getAllSources reg) tw) as [Hw Hi].
  { intros s Hs. apply Hl, Hs. }
  unfold bind at 1 2.
  destruct (probe (getAllSources reg) tw) as [[av|e] tw1]; cbn [fst snd] in *.
  2:{ exact Hw. }
  unfold ret. rewrite get_first_world; [exact Hw|].
  intros s Hs. apply Hl. apply (Hi av eq_refl).
  apply (Permutation.Permutation_in _ (RegistryFacts.sort_perm av)). exact Hs.
Qed.

End Facts.

End RegistryReads.

(** ** The credential service *)

Module ServiceFacts.

Import Source CredentialService ServiceStmt MonadFacts.

Local Abbreviation list := Datatypes.list.

Lemma quiet_run {A} (m : M St A) s r s' :
  quiet m -> m s = (r, s') -> snd s' = snd s.
Proof. intros Hm Hs. specialize (Hm s). rewrite Hs in Hm. exact Hm. Qed.

Lemma quiet_ret {A} (a : A) : quiet (ret a).
Proof. intros s. reflexivity. Qed.

Lemma quiet_throw {A} (e : exn) : quiet (@throw St A e).
Proof. intros s. reflexivity. Qed.

Lemma quiet_lift {A} (r : Result A) : quiet (lift_result r).
Proof. intros s. reflexivity. Qed.

Lemma quiet_this : quiet this.
Proof. intros s. reflexivity. Qed.

Lemma quiet_update f : quiet (update f).
Proof. intros s. reflexivity. Qed.

Lemma quiet_io {A} (m : M World A) : readonly m -> quiet (io m).
Proof.
  intros Hm [t [w log]]. unfold io. cbn [fst snd world calls].
  destruct (m w) as [r w'] eqn:E. apply (readonly_run _ _ _ _ Hm) in E.
  subst w'. reflexivity.
Qed.

Lemma quiet_bind {A B} (m : M St A) (k : A -> M St B) :
  quiet m -> (forall a, quiet (k a)) -> quiet (bind m k).
Proof.
  intros Hm Hk s. unfold bind.
  destruct (m s) as [[a|e] s1] eqn:E; apply (quiet_run _ _ _ _ Hm) in E.
  - rewrite Hk. exact E.
  - exact E.
Qed.

Lemma quiet_if {A} (b : bool) (m1 m2 : M St A) :
  quiet m1 -> quiet m2 -> quiet (if b then m1 else m2).
Proof. destruct b; auto. Qed.

Lemma io_fst {A} (m : M World A) s r s' : io m s = (r, s') -> fst s' = fst s.
Proof.
  unfold io. destruct (m (world (snd s))). intros [= _ <-]. reflexivity.
Qed.

Lemma io_run {A} (m : M World A) t w log r w' :
  m w = (r, w') -> io m (t, mkTraced w log) = (r, (t, mkTraced w' log)).
Proof. unfold io. cbn [fst snd world calls]. intros ->. reflexivity. Qed.

Lemma io_inv {A} (m : M World A) t w log r s' :
  io m (t, mkTraced w log) = (r, s') ->
  exists w', m w = (r, w') /\ s' = (t, mkTraced w' log).
Proof.
  unfold io. cbn [fst snd world calls]. destruct (m w) as [r' w'].
  intros [= <- <-]. eauto.
Qed.

Create HintDb quiet.

#[export] Hint Resolve quiet_ret quiet_throw quiet_lift quiet_this quiet_update : quiet.
#[export] Hint Extern 2 (quiet (io _)) => apply quiet_io; readonly : quiet.
#[export] Hint Extern 2 (quiet (bind _ _)) => apply quiet_bind; [|intro] : quiet.
#[export] Hint Extern 2 (quiet (if _ then _ else _)) => apply quiet_if : quiet.

Section Methods.
Context `{AgeLibrary} `{YamlLibrary} `{DotenvLibrary}.

Lemma quiet_init local : quiet (init local).
Proof. unfold init. auto 20 with quiet. Qed.

Lemma quiet_ensureInitialized : quiet ensureInitialized.
Proof. unfold ensureInitialized. pose proof quiet_init. auto 20 with quiet. Qed.

Lemma init_consistent local s s' :
  consistent (fst s) -> init local s = (Ok tt, s') ->
  consistent (fst s') /\ initialized (fst s') = true.
Proof.
  intros Hc. unfold init. intros Hi.
  apply bind_Ok in Hi. destruct Hi as (self & s1 & Hself & Hi).
  injection Hself as <- <-.
  destruct (initialized (fst s)) eqn:Einit.
  - injection Hi as <-. auto.
  - apply bind_Ok in Hi. destruct Hi as (config & s1 & Hcfg & Hi).
    apply bind_Ok in Hi. destruct Hi as (use_local & s2 & Hul & Hi).
    apply bind_Ok in Hi. destruct Hi as (dir & s3 & Hdir & Hi).
    assert (E1 : fst s1 = fst s) by exact (io_fst _ _ _ _ Hcfg).
    assert (E2 : fst s2 = fst s1).
    { unfold lift_result in Hul. injection Hul as _ <-. reflexivity. }
    assert (E3 : fst s3 = fst s2) by exact (io_fst _ _ _ _ Hdir).
    unfold update in Hi. injection Hi as <-. cbn [fst].
    split; [|reflexivity]. right.
    destruct Hc as [(Hr & Hl & _)|(source & _ & _ & Ht)].
    2:{ congruence. }
    rewrite E3, E2, E1, Hr. eexists. cbn. repeat split; reflexivity.
Qed.

Lemma ensureInitialized_Ok s s' :
  consistent (fst s) -> ensureInitialized s = (Ok tt, s') ->
  consistent (fst s') /\ initialized (fst s') = true /\ snd s' = snd s.
Proof.
  intros Hc He.
  pose proof (quiet_run _ _ _ _ quiet_ensureInitialized He) as Hq.
  unfold ensureInitialized in He.
  apply bind_Ok in He. destruct He as (self & s1 & Hself & He).
  injection Hself as <- <-.
  destruct (initialized (fst s)) eqn:Einit.
  - injection He as <-. auto.
  - destruct (init_consistent _ _ _ Hc He). auto.
Qed.

End Methods.

End ServiceFacts.

Module GrantFacts.

Import Source CredentialService ServiceStmt MonadFacts ServiceFacts.

Local Abbreviation list := Datatypes.list.

Lemma reg_fst {A} (m : CredentialSourceRegistry.t World -> M (Traced World) A) s r s' :
  reg m s = (r, s') -> fst s' = fst s.
Proof.
  unfold reg. destruct (m (registry (fst s)) (snd s)). intros [= _ <-]. reflexivity.
Qed.

Section Methods.
Context `{AgeLibrary} `{YamlLibrary} `{DotenvLibrary}.

Lemma grant_loop_Ok names : forall env granted s r s',
  grant_loop names env granted s = (Ok r, s') ->
  fst s' = fst s
  /\ exists nvs, fst r = EnvMap.assign_all nvs env
                 /\ snd r = (granted ++ map fst nvs)%list
                 /\ incl (map fst nvs) names.
Proof.
  induction names as [|name rest IH]; intros env granted s r s' Hr.
  - injection Hr as <- <-. split; [reflexivity|].
    exists []. cbn. rewrite app_nil_r. repeat split. apply incl_refl.
  - cbn [grant_loop] in Hr.
    apply bind_Ok in Hr. destruct Hr as (cred & s1 & Hc & Hr).
    apply reg_fst in Hc.
    destruct cred as [c|].
    + apply IH in Hr. destruct Hr as (Hs & nvs & E1 & E2 & E3).
      split; [congruence|].
      exists ((name, cred_value c) :: nvs). cbn [EnvMap.assign_all fold_left map fst snd].
      split; [exact E1|]. split.
      * rewrite E2, <- app_assoc. reflexivity.
      * apply incl_cons; [left; reflexivity|apply incl_tl; exact E3].
    + apply IH in Hr. destruct Hr as (Hs & nvs & E1 & E2 & E3).
      split; [congruence|].
      exists nvs. repeat split; auto. apply incl_tl. exact E3.
Qed.

(** With the local source alone in the registry, resolving a name only
    reads. *)
Lemma reg_get_world name s :
  consistent (fst s) ->
  world (snd (snd (reg (CredentialSourceRegistry.get name) s))) = world (snd s).
Proof.
  intros Hc. unfold reg.
  destruct (CredentialSourceRegistry.get name (registry (fst s)) (snd s))
    as [r' tw'] eqn:Eg.
  cbn [snd]. change tw' with (snd (r', tw')). rewrite <- Eg.
  apply RegistryReads.get_world.
  intros x Hx. destruct Hc as [(Hr & _)|(source & Hr & _)];
    rewrite Hr in Hx; [destruct Hx|].
  destruct Hx as [<-|[]]. cbn [as_source isAvailable Source.get].
  split; [apply ReadFacts.readonly_isAvailable|apply ReadFacts.readonly_get].
Qed.

Lemma grant_loop_world names : forall env granted s,
  consistent (fst s) ->
  world (snd (snd (grant_loop names env granted s))) = world (snd s).
Proof.
  induction names as [|name rest IH]; intros env granted s Hc; [reflexivity|].
  cbn [grant_loop]. unfold bind.
  pose proof (reg_get_world name s Hc) as Hw.
  destruct (reg (CredentialSourceRegistry.get name) s) as [[cred|e] s1] eqn:E;
    cbn [snd] in Hw; [|exact Hw].
  assert (Hc1 : consistent (fst s1)).
  { apply reg_fst in E. rewrite E. exact Hc. }
  destruct cred; rewrite IH; auto.
Qed.

End Methods.

End GrantFacts.

(** ** Env mappings *)

Module EnvMapFacts.

Import EnvMap.

Section Maps.
Context {V : Type}.

Lemma mem_In k names : mem k names = true <-> In k names.
Proof.
  unfold mem. rewrite existsb_exists. split.
  - intros (x & Hx & E). apply String.eqb_eq in E. subst. exact Hx.
  - intros Hk. exists k. split; [exact Hk|apply String.eqb_refl].
Qed.

Lemma delete_remove k (env : JsObject.t V) :
  JsObject.delete k env = remove_keys [k] env.
Proof.
  induction env as [|[k' v] r IH]; [reflexivity|].
  cbn [JsObject.delete remove_keys filter fst mem existsb].
  rewrite orb_false_r, String.eqb_sym.
  destruct (String.eqb k k'); cbn [negb]; [exact IH|].
  f_equal. exact IH.
Qed.

Lemma mem_app k names1 names2 :
  mem k (names1 ++ names2)%list = mem k names1 || mem k names2.
Proof. unfold mem. apply existsb_app. Qed.

Lemma remove_remove names1 names2 (env : JsObject.t V) :
  remove_keys names1 (remove_keys names2 env) = remove_keys (names2 ++ names1) env.
Proof.
  unfold remove_keys.
  induction env as [|[k v] r IH]; [reflexivity|].
  cbn [filter fst]. rewrite mem_app.
  destruct (mem k names2); cbn [negb orb]; [exact IH|].
  cbn [filter fst].
  destruct (mem k names1); cbn [negb]; [exact IH|f_equal; exact IH].
Qed.

Lemma remove_define names k v (env : JsObject.t V) :
  In k names -> remove_keys names (JsObject.define k v env) = remove_keys names env.
Proof.
  intros Hk. apply mem_In in Hk.
  induction env as [|[k' v'] r IH].
  - cbn. rewrite Hk. reflexivity.
  - cbn [JsObject.define]. destruct (String.eqb k' k) eqn:E.
    + apply String.eqb_eq in E. subst k'.
      cbn [remove_keys filter fst]. rewrite Hk. reflexivity.
    + unfold remove_keys in *. cbn [filter fst]. rewrite IH. reflexivity.
Qed.

Lemma remove_assign names k v (env : JsObject.t V) :
  In k names -> remove_keys names (JsObject.assign k v env) = remove_keys names env.
Proof.
  intros Hk. unfold JsObject.assign.
  destruct (JsObject.hasOwn k env); [apply remove_define, Hk|].
  destruct (String.eqb k "__proto__"); [reflexivity|apply remove_define, Hk].
Qed.

Lemma getOwn_remove names key (env : JsObject.t V) :
  ~ In key names -> JsObject.getOwn key (remove_keys names env) = JsObject.getOwn key env.
Proof.
  intros Hk. induction env as [|[k v] r IH]; [reflexivity|].
  cbn [remove_keys filter fst JsObject.getOwn].
  destruct (mem k names) eqn:E; cbn [negb].
  - apply mem_In in E. destruct (String.eqb k key) eqn:Ek; [|exact IH].
    apply String.eqb_eq in Ek. subst. contradiction.
  - cbn [JsObject.getOwn]. destruct (String.eqb k key); [reflexivity|exact IH].
Qed.

Lemma getOwn_define key k v (env : JsObject.t V) :
  key <> k -> JsObject.getOwn key (JsObject.define k v env) = JsObject.getOwn key env.
Proof.
  intros Hk. induction env as [|[k' v'] r IH].
  - cbn. destruct (String.eqb k key) eqn:E; [|reflexivity].
    apply String.eqb_eq in E. congruence.
  - cbn [JsObject.define]. destruct (String.eqb k' k) eqn:E.
    + apply String.eqb_eq in E. subst k'. cbn [JsObject.getOwn].
      destruct (String.eqb k key) eqn:E'; [|reflexivity].
      apply String.eqb_eq in E'. congruence.
    + cbn [JsObject.getOwn]. destruct (String.eqb k' key); [reflexivity|exact IH].
Qed.

Lemma getOwn_assign key k v (env : JsObject.t V) :
  key <> k -> JsObject.getOwn key (JsObject.assign k v env) = JsObject.getOwn key env.
Proof.
  intros Hk. unfold JsObject.assign.
  destruct (JsObject.hasOwn k env); [apply getOwn_define, Hk|].
  destruct (String.eqb k "__proto__"); [reflexivity|apply getOwn_define, Hk].
Qed.

Lemma remove_all_keys names (env : JsObject.t V) :
  (forall k, In k (JsObject.keys env) -> In k names) -> remove_keys names env = [].
Proof.
  induction env as [|[k v] r IH]; intros Hall; [reflexivity|].
  cbn [remove_keys filter fst].
  assert (Hk : mem k names = true) by (apply mem_In, Hall; left; reflexivity).
  rewrite Hk. apply IH. intros x Hx. apply Hall. right. exact Hx.
Qed.

End Maps.

Lemma remove_assign_all names nvs (env : JsObject.t string) :
  incl (map fst nvs) names ->
  remove_keys names (assign_all nvs env) = remove_keys names env.
Proof.
  revert env. induction nvs as [|[n v] r IH]; intros env Hin; [reflexivity|].
  cbn [assign_all fold_left fst snd]. fold (assign_all r (JsObject.assign n v env)).
  rewrite IH.
  - apply remove_assign. apply Hin. left. reflexivity.
  - intros x Hx. apply Hin. right. exact Hx.
Qed.

Lemma getOwn_assign_all key nvs (env : JsObject.t string) :
  ~ In key (map fst nvs) ->
  JsObject.getOwn key (assign_all nvs env) = JsObject.getOwn key env.
Proof.
  revert env. induction nvs as [|[n v] r IH]; intros env Hin; [reflexivity|].
  cbn [assign_all fold_left fst snd]. fold (assign_all r (JsObject.assign n v env)).
  rewrite IH.
  - apply getOwn_assign. intros ->. apply Hin. left. reflexivity.
  - intros Hx. apply Hin. right. exact Hx.
Qed.

(** The loop of [revoke] removes the named keys and no other. *)
Lemma revoke_loop_mapping names : forall (env : JsObject.t string) revoked,
  fst (CredentialService.revoke_loop names env revoked) = remove_keys names env.
Proof.
  induction names as [|n rest IH]; intros env revoked.
  - cbn. unfold remove_keys. induction env as [|kv r IHr]; [reflexivity|].
    cbn. f_equal. exact IHr.
  - cbn [CredentialService.revoke_loop].
    change (n :: rest) with ([n] ++ rest)%list. rewrite <- remove_remove.
    destruct (JsObject.has_in n env) eqn:E.
    + rewrite IH, delete_remove. reflexivity.
    + rewrite IH. f_equal.
      unfold JsObject.has_in in E. apply orb_false_iff in E. destruct E as [E _].
      unfold JsObject.hasOwn in E.
      clear IH. induction env as [|[k v] r IHr]; [reflexivity|].
      cbn [JsObject.getOwn] in E. cbn [remove_keys filter fst mem existsb].
      rewrite orb_false_r, String.eqb_sym.
      destruct (String.eqb n k) eqn:Ek.
      * rewrite String.eqb_sym, Ek in E. discriminate.
      * rewrite String.eqb_sym, Ek in E. cbn [negb]. f_equal. apply IHr, E.
Qed.

End EnvMapFacts.

Module ReconcilerFacts.

Import Source CredentialService ServiceStmt MonadFacts ServiceFacts GrantFacts.

Local Abbreviation list := Datatypes.list.

Lemma files_put p n w : files (put_file p n w) p = n.
Proof. cbn. rewrite String.eqb_refl. reflexivity. Qed.

Lemma writeFile_Ok p c w w' :
  fs.writeFile p c w = (Ok tt, w') -> w' = put_file p (File c) w.
Proof.
  unfold fs.writeFile. destruct (files w p); intros [= <-]; reflexivity.
Qed.

Lemma getEnvPath_run w : paths.getEnvPath w = (Ok (path.join (cwd w) ".env"), w).
Proof. reflexivity. Qed.

Section Methods.
Context `{AgeLibrary} `{YamlLibrary} `{DotenvLibrary}.

(** What a successful [grant] leaves at the path it returns. *)
Lemma grant_Ok names backup s granted p s1 :
  grant names backup s = (Ok (granted, p), s1) ->
  p = envPath s
  /\ exists nvs,
       map fst nvs = granted /\ incl granted names
       /\ files (world (snd s1)) p
          = File (stringifyEnv (EnvMap.assign_all nvs (mapping (envFile s)))).
Proof.
  unfold grant. intros Hg.
  apply bind_Ok in Hg. destruct Hg as ([] & sa & Hinit & Hg).
  apply (quiet_run _ _ _ _ quiet_ensureInitialized) in Hinit.
  destruct s as [t [w log]], sa as [ta [wa loga]].
  cbn [snd] in Hinit. injection Hinit as -> ->.
  apply bind_Ok in Hg. destruct Hg as (envp & sb & Hp & Hg).
  apply io_inv in Hp. destruct Hp as (w' & Hp & ->).
  rewrite getEnvPath_run in Hp. injection Hp as <- <-.
  apply bind_Ok in Hg. destruct Hg as (exists_ & sc & He & Hg).
  apply io_inv in He. destruct He as (w' & He & ->).
  apply bind_Ok in Hg. destruct Hg as (existingEnv & sd & Hx & Hg).
  apply bind_Ok in Hg. destruct Hg as (r & se & Hloop & Hg).
  apply bind_Ok in Hg. destruct Hg as ([] & sf & Hw & Hg).
  injection Hg as <- <- <-.
  apply grant_loop_Ok in Hloop. destruct Hloop as (_ & nvs & E1 & E2 & E3).
  destruct se as [te [we loge]].
  apply io_inv in Hw. destruct Hw as (w'' & Hw & ->).
  apply writeFile_Ok in Hw. subst w''.
  unfold envPath, envFile, envPath. cbn [snd world fst].
  split; [reflexivity|].
  exists nvs. cbn [app] in E2. rewrite E2. split; [reflexivity|]. split; [exact E3|].
  rewrite files_put, E1. do 2 f_equal.
  unfold fs.pathExists in He. unfold path.join in *.
  destruct (files w (cwd w ++ "/" ++ ".env")) as [|content|] eqn:Ef.
  - injection He as <- <-. injection Hx as <- _. reflexivity.
  - injection He as <- <-.
    apply bind_Ok in Hx. destruct Hx as (c & sx & Hc & Hx).
    apply io_inv in Hc. destruct Hc as (wx & Hc & ->).
    unfold fs.readFile in Hc. rewrite Ef in Hc. injection Hc as <- <-.
    apply bind_Ok in Hx. destruct Hx as ([] & sy & _ & Hx).
    injection Hx as <- _. reflexivity.
  - injection He as <- <-.
    apply bind_Ok in Hx. destruct Hx as (c & sx & Hc & Hx).
    apply io_inv in Hc. destruct Hc as (wx & Hc & ->).
    unfold fs.readFile in Hc. rewrite Ef in Hc. discriminate.
Qed.

(** What [revoke] does to an env document that exists. *)
Lemma revoke_run names s content :
  envFile s = File content ->
  exists revoked s1,
    revoke names s = (Ok (revoked, envPath s), s1)
    /\ fst s1 = fst s
    /\ world (snd s1)
       = put_file (envPath s)
           (File (stringifyEnv (EnvMap.remove_keys names (parseEnv content))))
           (world (snd s)).
Proof.
  destruct s as [t [w log]]. unfold envFile, envPath. cbn [snd world fst].
  intros Hf. unfold revoke.
  erewrite bind_run by (apply io_run; apply getEnvPath_run).
  erewrite bind_run.
  2:{ apply io_run. unfold fs.pathExists. unfold path.join in Hf.
      cbn [snd]. unfold path.join. rewrite Hf. reflexivity. }
  cbn [negb].
  erewrite bind_run.
  2:{ apply io_run. unfold fs.readFile, path.join in *. rewrite Hf. reflexivity. }
  erewrite bind_run.
  2:{ apply io_run. unfold fs.writeFile, path.join in *. rewrite Hf. reflexivity. }
  eexists. eexists. split; [reflexivity|]. split; [reflexivity|].
  cbn [snd world]. rewrite EnvMapFacts.revoke_loop_mapping. reflexivity.
Qed.

End Methods.

End ReconcilerFacts.

Module SteadyFacts.

Import Source CredentialService ServiceStmt MonadFacts ServiceFacts GrantFacts.

Local Abbreviation list := Datatypes.list.

Lemma keeps_readonly {A} (m : M World A) : readonly m -> keeps_cwd m.
Proof. intros Hm w. rewrite Hm. reflexivity. Qed.

Lemma keeps_writeFile p c : keeps_cwd (fs.writeFile p c).
Proof. intros w. unfold fs.writeFile. destruct (files w p); reflexivity. Qed.

Lemma keeps_bind {A B} (m : M World A) (k : A -> M World B) :
  keeps_cwd m -> (forall a, keeps_cwd (k a)) -> keeps_cwd (bind m k).
Proof.
  intros Hm Hk w. unfold bind. specialize (Hm w).
  destruct (m w) as [[a|e] w1]; cbn [snd] in *; [rewrite Hk|]; exact Hm.
Qed.

Lemma keeps_copyFile src dst : keeps_cwd (fs.copyFile src dst).
Proof.
  unfold fs.copyFile. apply keeps_bind.
  - apply keeps_readonly. readonly.
  - intros c. apply keeps_writeFile.
Qed.

Section Methods.
Context `{AgeLibrary} `{YamlLibrary} `{DotenvLibrary}.

Lemma steady_ret {A} (a : A) : steady (ret a).
Proof. intros s _. split; reflexivity. Qed.

Lemma steady_io {A} (m : M World A) : keeps_cwd m -> steady (io m).
Proof.
  intros Hm [t [w log]] _. unfold io. cbn [fst snd world calls].
  specialize (Hm w). destruct (m w) as [r w']. split; [reflexivity|exact Hm].
Qed.

Lemma steady_bind {A B} (m : M St A) (k : A -> M St B) :
  steady m -> (forall a, steady (k a)) -> steady (bind m k).
Proof.
  intros Hm Hk s Hc. unfold bind. destruct (Hm s Hc) as [H2 H3].
  destruct (m s) as [[a|e] s1]; cbn [snd] in *; [|auto].
  destruct (Hk a s1) as [H4 H5]; [rewrite H2; exact Hc|].
  split; congruence.
Qed.

Lemma steady_grant_loop names env granted : steady (grant_loop names env granted).
Proof.
  intros s Hc. split.
  - revert env granted s Hc. induction names as [|n r IH]; intros env granted s Hc;
      [reflexivity|].
    cbn [grant_loop]. unfold bind.
    destruct (reg (CredentialSourceRegistry.get n) s) as [[c|e] s1] eqn:E;
      apply reg_fst in E; [|exact E].
    destruct c; rewrite IH; congruence.
  - rewrite grant_loop_world; [reflexivity|exact Hc].
Qed.

Lemma steady_grant_rest names backup :
  steady
    (envPath <- io paths.getEnvPath ;;
     exists_ <- io (fs.pathExists envPath) ;;
     existingEnv <-
       (if exists_ then
          content <- io (fs.readFile envPath) ;;
          (match backup with
           | Some false => ret tt
           | _ => backupPath <- io paths.getEnvBackupPath ;;
                  io (fs.copyFile envPath backupPath)
           end) ;;
          ret (parseEnv content)
        else ret JsObject.empty) ;;
     r <- grant_loop names existingEnv [] ;;
     io (fs.writeFile envPath (stringifyEnv (fst r))) ;;
     ret (snd r, envPath)).
Proof.
  assert (Hb : keeps_cwd paths.getEnvBackupPath).
  { apply keeps_readonly. unfold paths.getEnvBackupPath. readonly. }
  repeat first
    [ apply steady_ret
    | apply steady_grant_loop
    | apply steady_io;
        first [ apply keeps_writeFile | apply keeps_copyFile | exact Hb
              | apply keeps_readonly; readonly ]
    | apply steady_bind; [|intro]
    | match goal with
      | |- steady (if ?b then _ else _) => destruct b
      | |- steady (match ?b with _ => _ end) => destruct b
      end ].
Qed.

Lemma grant_steady names backup s granted p s1 :
  consistent (fst s) ->
  grant names backup s = (Ok (granted, p), s1) ->
  consistent (fst s1) /\ cwd (world (snd s1)) = cwd (world (snd s)).
Proof.
  intros Hc Hg. unfold grant in Hg.
  apply bind_Ok in Hg. destruct Hg as ([] & sa & Hinit & Hg).
  destruct (ensureInitialized_Ok _ _ Hc Hinit) as (Hca & _ & Hsa).
  destruct (steady_grant_rest names backup sa Hca) as [E1 E2].
  rewrite Hg in E1, E2. cbn [snd] in E1, E2.
  rewrite E1, E2, Hsa. auto.
Qed.

End Methods.

End SteadyFacts.

(** C9.  A successful [grant] leaves at the env path the text made of one
    [KEY=value] line per entry of the final mapping (the mapping read from
    the prior document, with the granted names assigned), joined by line
    feeds and ended by one line feed; [revoke] on an existing document leaves
    the same for the mapping without the revoked names.  The text depends on
    the mapping only, so nothing of the comment lines and blank lines of the
    prior document remains; when every key is revoked the document is a
    single line feed. *)
Theorem env_document_rewritten `{AgeLibrary} `{YamlLibrary} `{DotenvLibrary}
    (s : CredentialService.St) (names : list string) :
  (forall backup granted p s1,
     CredentialService.grant names backup s = (Ok (granted, p), s1) ->
     p = ServiceStmt.envPath s
     /\ exists nvs,
          map fst nvs = granted
          /\ files (Source.world (snd s1)) p
             = File (ServiceStmt.document
                       (EnvMap.assign_all nvs (ServiceStmt.mapping (ServiceStmt.envFile s)))))
  /\ (forall content,
        ServiceStmt.envFile s = File content ->
        exists revoked s1,
          CredentialService.revoke names s = (Ok (revoked, ServiceStmt.envPath s), s1)
          /\ files (Source.world (snd s1)) (ServiceStmt.envPath s)
             = File (ServiceStmt.document
                       (EnvMap.remove_keys names (parseEnv content)))
          /\ ((forall k, In k (JsObject.keys (parseEnv content)) -> In k names) ->
              files (Source.world (snd s1)) (ServiceStmt.envPath s)
              = File (Str.str1 Str.LF))).
Proof.
  split.
  - intros backup granted p s1 Hg.
    destruct (ReconcilerFacts.grant_Ok _ _ _ _ _ _ Hg) as (Hp & nvs & E1 & _ & E3).
    split; [exact Hp|]. exists nvs. split; [exact E1|exact E3].
  - intros content Hf.
    destruct (ReconcilerFacts.revoke_run names s content Hf)
      as (revoked & s1 & Hr & _ & Hw).
    exists revoked, s1. split; [exact Hr|].
    rewrite Hw, ReconcilerFacts.files_put. split; [reflexivity|].
    intros Hall. rewrite (EnvMapFacts.remove_all_keys _ _ Hall). reflexivity.
Qed.

(** C5 (as amended).  [grant] and [revoke] leave the other keys of the env
    document alone.  A key of the prior document that is not among the
    requested names keeps its value through a grant; if the document the
    grant wrote reads back as the mapping it was written from, revoking the
    granted names leaves exactly the prior keys that were not granted, each
    with its prior value: a granted name that was already in the document
    is removed, not restored. *)
Theorem grant_revoke_frame `{AgeLibrary} `{YamlLibrary} `{DotenvLibrary}
    (s s1 : CredentialService.St) (names granted : list string)
    (backup : option bool) (content key value p : string) :
  ServiceStmt.consistent (fst s) ->
  ServiceStmt.envFile s = File content ->
  JsObject.getOwn key (parseEnv content) = Some value ->
  ~ In key names ->
  CredentialService.grant names backup s = (Ok (granted, p), s1) ->
  exists nvs,
    let after := EnvMap.assign_all nvs (parseEnv content) in
    map fst nvs = granted
    /\ ServiceStmt.envFile s1 = File (CredentialService.stringifyEnv after)
    /\ JsObject.getOwn key after = Some value
    /\ (parseEnv (CredentialService.stringifyEnv after) = after ->
        let remaining := EnvMap.remove_keys granted (parseEnv content) in
        exists revoked s2,
          CredentialService.revoke granted s1 = (Ok (revoked, p), s2)
          /\ ServiceStmt.envFile s2 = File (CredentialService.stringifyEnv remaining)
          /\ JsObject.getOwn key remaining = Some value
          /\ (forall k, In k (JsObject.keys remaining) <->
                        In k (JsObject.keys (parseEnv content)) /\ ~ In k granted)).
Proof.
  intros Hc Hf Hkey Hnot Hg.
  destruct (ReconcilerFacts.grant_Ok _ _ _ _ _ _ Hg) as (Hp & nvs & E1 & E2 & E3).
  destruct (SteadyFacts.grant_steady _ _ _ _ _ _ Hc Hg) as (Hc1 & Hcwd).
  assert (Hp1 : ServiceStmt.envPath s1 = p).
  { unfold ServiceStmt.envPath in *. rewrite Hcwd. symmetry. exact Hp. }
  rewrite Hf in E3. cbn [ServiceStmt.mapping] in E3.
  assert (Hnot' : ~ In key granted).
  { intros Hin. apply Hnot, E2, Hin. }
  exists nvs. cbn zeta. split; [exact E1|].
  split; [unfold ServiceStmt.envFile; rewrite Hp1; exact E3|].
  split.
  { rewrite EnvMapFacts.getOwn_assign_all; [exact Hkey|]. rewrite E1. exact Hnot'. }
  intros Hback.
  destruct (ReconcilerFacts.revoke_run granted s1
              (CredentialService.stringifyEnv (EnvMap.assign_all nvs (parseEnv content))))
    as (revoked & s2 & Hr & _ & Hw).
  { unfold ServiceStmt.envFile. rewrite Hp1. exact E3. }
  exists revoked, s2. rewrite Hp1 in Hr, Hw. split; [exact Hr|].
  rewrite Hback in Hw.
  rewrite EnvMapFacts.remove_assign_all in Hw by (rewrite E1; apply incl_refl).
  split.
  { unfold ServiceStmt.envFile, ServiceStmt.envPath. rewrite Hw.
    cbn [cwd put_file set_files]. fold (ServiceStmt.envPath s1). rewrite Hp1.
    cbn. rewrite String.eqb_refl. reflexivity. }
  split.
  { rewrite EnvMapFacts.getOwn_remove; [exact Hkey|exact Hnot']. }
  intros k. unfold JsObject.keys, EnvMap.remove_keys.
  rewrite !in_map_iff. split.
  - intros ([k' v'] & <- & Hin). apply filter_In in Hin. destruct Hin as [Hin Hm].
    cbn [fst] in *. split; [exists (k', v'); auto|].
    intros Hk. apply EnvMapFacts.mem_In in Hk. rewrite Hk in Hm. discriminate.
  - intros (([k' v'] & <- & Hin) & Hk). exists (k', v'). split; [reflexivity|].
    apply filter_In. split; [exact Hin|]. cbn [fst] in *.
    destruct (EnvMap.mem k' granted) eqn:E; [|reflexivity].
    apply EnvMapFacts.mem_In in E. contradiction.
Qed.

Lemma run_pair {S A} (m : M S A) (s : S) (r : Result A) :
  fst (m s) = r -> m s = (r, snd (m s)).
Proof. intros <-. destruct (m s). reflexivity. Qed.

Lemma readonly_pair {S A} (m : M S A) (s : S) (r : Result A) :
  Frame.readonly m -> fst (m s) = r -> m s = (r, s).
Proof. intros Hm <-. specialize (Hm s). destruct (m s). cbn in *. congruence. Qed.

Module EnvRuns.

Import Examples.

(** In the example, [BAZ] is granted over a document with a comment and a
    blank line, then revoked: two lines, then one, and no comment. *)
Lemma env_document_rewritten_witness :
  ServiceStmt.envFile ScenarioEnv.state0 = File ScenarioEnv.prior
  /\ ServiceStmt.envFile ScenarioEnv.state1
     = File (Scenario.lines ["FOO=bar"; "BAZ=new"])
  /\ exists revoked s2,
       CredentialService.revoke ["FOO"; "BAZ"] ScenarioEnv.state0
       = (Ok (revoked, "/proj/.env"), s2)
       /\ files (Source.world (snd s2)) "/proj/.env" = File (Str.str1 Str.LF).
Proof.
  destruct (env_document_rewritten ScenarioEnv.state0 ["BAZ"]) as [Hgrant _].
  destruct (env_document_rewritten ScenarioEnv.state0 ["FOO"; "BAZ"]) as [_ Hrevoke].
  split; [reflexivity|]. split.
  - destruct (Hgrant None ["BAZ"] "/proj/.env" ScenarioEnv.state1)
      as (_ & nvs & Hn & Hf).
    { apply run_pair. vm_compute. reflexivity. }
    vm_compute. reflexivity.
  - destruct (Hrevoke ScenarioEnv.prior eq_refl) as (revoked & s2 & Hr & _ & Hall).
    exists revoked, s2. split; [exact Hr|].
    apply Hall. vm_compute. tauto.
Defined.

Lemma append_inj_r (a b c : string) : a ++ c = b ++ c -> a = b.
Proof.
  intros E.
  assert (Hr : Str.rev (a ++ c) = Str.rev (b ++ c)) by congruence.
  assert (Hrev : forall x y, Str.rev (x ++ y) = Str.rev y ++ Str.rev x).
  { induction x as [|ch x IH]; intros y; simpl.
    - rewrite StrFacts.append_nil_r. reflexivity.
    - rewrite !StrFacts.rev_cons, IH, StrFacts.append_assoc. reflexivity. }
  rewrite !Hrev in Hr.
  assert (Hl : forall x y z, x ++ y = x ++ z -> y = z).
  { induction x as [|ch x IH]; simpl; intros y z Hx; [exact Hx|].
    injection Hx as Hx. exact (IH _ _ Hx). }
  apply Hl in Hr.
  rewrite <- (StrFacts.rev_involutive a), <- (StrFacts.rev_involutive b), Hr.
  reflexivity.
Qed.

(** In the example, [FOO] keeps its value through the grant of [BAZ] and
    its revocation. *)
Lemma grant_revoke_frame_witness :
  ServiceStmt.consistent (fst ScenarioEnv.state0)
  /\ ServiceStmt.envFile ScenarioEnv.state0 = File ScenarioEnv.prior
  /\ JsObject.getOwn "FOO" (parseEnv ScenarioEnv.prior) = Some "bar"
  /\ ~ In "FOO" ["BAZ"]
  /\ CredentialService.grant ["BAZ"] None ScenarioEnv.state0
     = (Ok (["BAZ"], "/proj/.env"), ScenarioEnv.state1)
  /\ ServiceStmt.envFile ScenarioEnv.state2 = File (Scenario.lines ["FOO=bar"]).
Proof.
  assert (Hc : ServiceStmt.consistent (fst ScenarioEnv.state0)).
  { left. repeat split. }
  assert (Hk : JsObject.getOwn "FOO" (parseEnv ScenarioEnv.prior) = Some "bar")
    by (vm_compute; reflexivity).
  assert (Hn : ~ In "FOO" ["BAZ"]) by (simpl; intuition discriminate).
  assert (Hg : CredentialService.grant ["BAZ"] None ScenarioEnv.state0
               = (Ok (["BAZ"], "/proj/.env"), ScenarioEnv.state1)).
  { apply run_pair. vm_compute. reflexivity. }
  repeat (split; [assumption || reflexivity|]).
  destruct (grant_revoke_frame ScenarioEnv.state0 ScenarioEnv.state1 ["BAZ"] ["BAZ"]
              None ScenarioEnv.prior "FOO" "bar" "/proj/.env" Hc eq_refl Hk Hn Hg)
    as (nvs & Hnames & Hf & _ & Hrev).
  destruct nvs as [|[n v] [|? ?]]; try discriminate Hnames.
  injection Hnames as ->.
  assert (Hv : v = "new").
  { assert (E : ServiceStmt.envFile ScenarioEnv.state1
                = File (Scenario.lines ["FOO=bar"; "BAZ=new"]))
      by (vm_compute; reflexivity).
    rewrite E in Hf. injection Hf as Hf.
    change (CredentialService.stringifyEnv
              (EnvMap.assign_all [("BAZ", v)] (parseEnv ScenarioEnv.prior)))
      with ("FOO=bar" ++ Str.str1 Str.LF ++ "BAZ="
              ++ CredentialService.quotedValue v ++ Str.str1 Str.LF) in Hf.
    cbn in Hf.
    apply (append_inj_r "new" (CredentialService.quotedValue v) (Str.str1 Str.LF)) in Hf.
    symmetry in Hf. apply (EnvFacts.quotedValue_bare v _ _ Hf). discriminate. }
  subst v.
  destruct Hrev as (revoked & s2 & Hr & Hf2 & _); [vm_compute; reflexivity|].
  unfold ScenarioEnv.state2. rewrite Hr. cbn [snd]. rewrite Hf2.
  vm_compute. reflexivity.
Defined.

(** C5, as stated, fails: when a granted name was already a key of the
    document, revoking the granted names does not bring back the prior
    keys.  The document held [FOO] and [BAZ]; after the grant of [BAZ] and
    its revocation it holds [FOO] alone. *)
Lemma grant_revoke_drops_prior_key :
  JsObject.getOwn "FOO" (parseEnv ScenarioEnv.prior) = Some "bar"
  /\ ~ In "FOO" ["BAZ"]
  /\ fst (CredentialService.grant ["BAZ"] None ScenarioEnv.state0)
     = Ok (["BAZ"], "/proj/.env")
  /\ fst (CredentialService.revoke ["BAZ"] ScenarioEnv.state1)
     = Ok (["BAZ"], "/proj/.env")
  /\ JsObject.keys (ServiceStmt.mapping (ServiceStmt.envFile ScenarioEnv.state0))
     = ["FOO"; "BAZ"]
  /\ ServiceStmt.mapping (ServiceStmt.envFile ScenarioEnv.state1)
     = [("FOO", "bar"); ("BAZ", "new")]
  /\ ServiceStmt.mapping (ServiceStmt.envFile ScenarioEnv.state2) = [("FOO", "bar")]
  /\ JsObject.keys (ServiceStmt.mapping (ServiceStmt.envFile ScenarioEnv.state2))
     <> JsObject.keys (ServiceStmt.mapping (ServiceStmt.envFile ScenarioEnv.state0)).
Proof.
  repeat (split; [vm_compute; (reflexivity || intuition discriminate)|]).
  vm_compute. discriminate.
Qed.

End EnvRuns.

(** ** Which vault the service works on *)

Module VaultFacts.

Import Source CredentialService ServiceStmt VaultStmt MonadFacts ServiceFacts.

Local Abbreviation list := Datatypes.list.

Lemma getLocalDir_run w : paths.getLocalDir w = (Ok (local_dir w), w).
Proof. reflexivity. Qed.

Lemma getGlobalDir_run w : paths.getGlobalDir w = (Ok (global_dir w), w).
Proof. reflexivity. Qed.

Lemma hasLocalVault_run w :
  vault_exists (local_dir w) w -> paths.hasLocalVault w = (Ok true, w).
Proof.
  unfold vault_exists, paths.hasLocalVault. intros Hv.
  erewrite bind_run by apply getLocalDir_run.
  unfold fs.pathExists. destruct (files w _); [contradiction| |]; reflexivity.
Qed.

Section Methods.
Context `{AgeLibrary} `{YamlLibrary} `{DotenvLibrary}.

Lemma useLocal_cases local config use_local :
  useLocal local config = Ok use_local ->
  match local with
  | Some b => use_local = b
  | None =>
      use_local = true <->
      config.vault_prop "defaultLocation" config = Ok (Some (JSON.VString "local"))
  end.
Proof.
  unfold useLocal. destruct local as [b|]; [intros [= <-]; reflexivity|].
  destruct (config.vault_prop "defaultLocation" config) as [[v|]|e];
    try discriminate.
  - destruct v; intros [= <-]; try (split; [discriminate|intros [= ]]).
    split.
    + intros E. apply String.eqb_eq in E. subst. reflexivity.
    + intros [= ->]. reflexivity.
  - intros [= <-]. split; discriminate.
Qed.

Lemma init_Ok local s s' :
  initialized (fst s) = false ->
  init local s = (Ok tt, s') ->
  exists config use_local,
    fst (config.loadConfig (world (snd s))) = Ok config
    /\ useLocal local config = Ok use_local
    /\ let w := world (snd s) in
       let source := vault_in (if use_local then local_dir w else global_dir w) in
       s' = (mkService
               (CredentialSourceRegistry.register (as_source source) (registry (fst s)))
               (Some source) true,
             snd s).
Proof.
  intros Hi. unfold init. destruct s as [t [w log]]. cbn [fst snd world] in *.
  intros Hrun.
  apply bind_Ok in Hrun. destruct Hrun as (self & s1 & Hself & Hrun).
  injection Hself as <- <-. cbn [fst] in Hrun. rewrite Hi in Hrun.
  apply bind_Ok in Hrun. destruct Hrun as (config & s1 & Hcfg & Hrun).
  apply io_inv in Hcfg. destruct Hcfg as (w1 & Hcfg & ->).
  pose proof (readonly_run _ _ _ _ readonly_loadConfig Hcfg). subst w1.
  apply bind_Ok in Hrun. destruct Hrun as (use_local & s2 & Hul & Hrun).
  injection Hul as Hul <-.
  apply bind_Ok in Hrun. destruct Hrun as (dir & s3 & Hdir & Hrun).
  apply io_inv in Hdir. destruct Hdir as (w3 & Hdir & ->).
  exists config, use_local. rewrite Hcfg. split; [reflexivity|]. split; [exact Hul|].
  cbn zeta. unfold update in Hrun. injection Hrun as <-. cbn [fst snd].
  destruct use_local.
  - rewrite getLocalDir_run in Hdir. injection Hdir as <- <-. reflexivity.
  - rewrite getGlobalDir_run in Hdir. injection Hdir as <- <-. reflexivity.
Qed.

Lemma getVaultPath_local s :
  vault_exists (local_dir (world (snd s))) (world (snd s)) ->
  fst (getVaultPath s) = Ok (local_dir (world (snd s))).
Proof.
  destruct s as [t [w log]]. cbn [snd world]. intros Hv.
  unfold getVaultPath.
  erewrite bind_run by (apply io_run, hasLocalVault_run, Hv).
  change (fst (io paths.getLocalDir (t, mkTraced w log)) = Ok (local_dir w)).
  erewrite io_run by apply getLocalDir_run. reflexivity.
Qed.

End Methods.

End VaultFacts.

(** C8 (as amended).  When a local vault exists, [getVaultPath] answers the
    local directory, whatever else exists.  The vault the operations work on
    is another matter: [init], on first use, builds and registers the local
    source from its [local] option, or without the option from the
    configuration: in the local directory when [vault.defaultLocation] is
    [local], in the global directory otherwise; which vaults exist on disk
    plays no part. *)
Theorem active_vault_resolution `{AgeLibrary} `{YamlLibrary} `{DotenvLibrary}
    (s s' : CredentialService.St) (local : option bool) :
  CredentialService.initialized (fst s) = false ->
  CredentialService.init local s = (Ok tt, s') ->
  let w := Source.world (snd s) in
  (VaultStmt.vault_exists (VaultStmt.local_dir w) w ->
   fst (CredentialService.getVaultPath s) = Ok (VaultStmt.local_dir w)
   /\ fst (CredentialService.getVaultPath s') = Ok (VaultStmt.local_dir w))
  /\ exists config use_local,
       fst (config.loadConfig w) = Ok config
       /\ match local with
          | Some b => use_local = b
          | None =>
              use_local = true <->
              config.vault_prop "defaultLocation" config
              = Ok (Some (JSON.VString "local"))
          end
       /\ let source :=
            VaultStmt.vault_in (if use_local then VaultStmt.local_dir w
                                else VaultStmt.global_dir w) in
          CredentialService.localSource (fst s') = Some source
          /\ CredentialService.registry (fst s')
             = CredentialSourceRegistry.register
                 (CredentialService.as_source source)
                 (CredentialService.registry (fst s))
          /\ snd s' = snd s.
Proof.
  intros Hi Hrun w.
  destruct (VaultFacts.init_Ok local s s' Hi Hrun) as (config & use_local & Hc & Hu & Hs).
  cbn zeta in Hs. split.
  - intros Hv. split; [apply VaultFacts.getVaultPath_local, Hv|].
    rewrite Hs. exact (VaultFacts.getVaultPath_local (_, snd s) Hv).
  - exists config, use_local. split; [exact Hc|].
    split; [apply (VaultFacts.useLocal_cases _ _ _ Hu)|].
    rewrite Hs. cbn. repeat split.
Qed.

Module VaultRuns.

Import Examples.

(** With both vaults on disk and no configuration file, the service
    reports the local directory and works on the global one. *)
Lemma active_vault_resolution_witness :
  CredentialService.initialized (fst ScenarioVaults.state0) = false
  /\ CredentialService.init None ScenarioVaults.state0
     = (Ok tt, snd (CredentialService.init None ScenarioVaults.state0))
  /\ fst (CredentialService.getVaultPath ScenarioVaults.state0) = Ok "/proj/.secretsage"
  /\ CredentialService.localSource
       (fst (snd (CredentialService.init None ScenarioVaults.state0)))
     = Some Scenario.global_source.
Proof.
  assert (Hrun : CredentialService.init None ScenarioVaults.state0
                 = (Ok tt, snd (CredentialService.init None ScenarioVaults.state0))).
  { apply run_pair. vm_compute. reflexivity. }
  split; [reflexivity|]. split; [exact Hrun|].
  destruct (active_vault_resolution ScenarioVaults.state0 _ None eq_refl Hrun)
    as (Hpath & config & use_local & Hc & Hu & Hsrc & _).
  split.
  - apply Hpath. vm_compute. discriminate.
  - rewrite Hsrc.
    assert (Hfalse : use_local = false).
    { destruct use_local; [|reflexivity].
      destruct Hu as [Hu _]. specialize (Hu eq_refl).
      vm_compute in Hc. injection Hc as <-. vm_compute in Hu. discriminate Hu. }
    subst use_local. reflexivity.
Defined.

(** C8, as stated, fails: with a local and a global vault on disk and the
    default configuration, [add] writes the credential into the global
    vault and leaves the local vault empty, while [getVaultPath] names the
    local directory. *)
Lemma add_goes_to_global_vault :
  fst (CredentialService.hasVault ScenarioVaults.state0) = Ok (true, true)
  /\ fst (CredentialService.add "API_KEY" "sk-test" ScenarioVaults.state0) = Ok tt
  /\ fst (CredentialService.getVaultPath ScenarioVaults.state1) = Ok "/proj/.secretsage"
  /\ files (Source.world (snd ScenarioVaults.state1)) "/proj/.secretsage/vault.json"
     = File "[]"
  /\ fst (LocalSource.get Scenario.local_source "API_KEY"
            (Source.world (snd ScenarioVaults.state1)))
     = Ok None
  /\ fst (LocalSource.get Scenario.global_source "API_KEY"
            (Source.world (snd ScenarioVaults.state1)))
     = Ok (Some (mkCredential "API_KEY" "sk-test" "local"
                   (Some (JSON.VObject
                            [("name", JSON.VString "API_KEY");
                             ("createdAt", JSON.VString "2025-12-01T10:20:30.123Z");
                             ("updatedAt", JSON.VString "2025-12-01T10:20:30.123Z")])))).
Proof.
  repeat (split; [vm_compute; reflexivity|]). vm_compute. reflexivity.
Qed.

End VaultRuns.

(** ** The vault store *)

Module VaultReadFacts.

Import JSON MonadFacts.

Local Abbreviation list := Datatypes.list.

Section Methods.
Context `{AgeLibrary}.
Variable ls : LocalSource.t.

(** A read of the vault never throws and changes nothing. *)
Lemma readVault_total w : exists v, LocalSource.readVault ls w = (Ok v, w).
Proof.
  unfold LocalSource.readVault, try_catch, bind, fs.pathExists, fs.readFile,
    lift_result, ret.
  destruct (files w (LocalSource.vaultPath ls)) as [|content|] eqn:Ef; cbn;
    rewrite ?Ef; cbn; try (eexists; reflexivity).
  destruct (Str.isEmpty (Str.trim content)); [eexists; reflexivity|].
  destruct (JSON.parse content); eexists; reflexivity.
Qed.

Lemma readVault_blank w content :
  files w (LocalSource.vaultPath ls) = File content ->
  Str.trim content = EmptyString ->
  LocalSource.readVault ls w = (Ok (VArray []), w).
Proof.
  intros Hf Ht.
  unfold LocalSource.readVault, try_catch, bind, fs.pathExists, fs.readFile.
  rewrite Hf. cbn. rewrite Hf. cbn. rewrite Ht. reflexivity.
Qed.

Lemma readVault_malformed w content e :
  files w (LocalSource.vaultPath ls) = File content ->
  JSON.parse content = Throw e ->
  LocalSource.readVault ls w = (Ok (VArray []), w).
Proof.
  intros Hf Hp.
  unfold LocalSource.readVault, try_catch, bind, fs.pathExists, fs.readFile.
  rewrite Hf. cbn. rewrite Hf. cbn.
  destruct (Str.isEmpty (Str.trim content)); [reflexivity|].
  unfold lift_result. rewrite Hp. reflexivity.
Qed.

Lemma readVault_parsed w content v :
  files w (LocalSource.vaultPath ls) = File content ->
  Str.isEmpty (Str.trim content) = false ->
  JSON.parse content = Ok v ->
  LocalSource.readVault ls w = (Ok v, w).
Proof.
  intros Hf Ht Hp.
  unfold LocalSource.readVault, try_catch, bind, fs.pathExists, fs.readFile.
  rewrite Hf. cbn. rewrite Hf. cbn. rewrite Ht.
  unfold lift_result. rewrite Hp. reflexivity.
Qed.

(** On a vault read as empty, [list] is empty and [get] finds nothing. *)
Lemma empty_vault w :
  LocalSource.readVault ls w = (Ok (VArray []), w) ->
  LocalSource.list ls w = (Ok [], w)
  /\ forall name, LocalSource.get ls name w = (Ok None, w).
Proof.
  intros Hr. split.
  - unfold LocalSource.list. erewrite bind_run by exact Hr. reflexivity.
  - intros name. unfold LocalSource.get. erewrite bind_run by exact Hr. reflexivity.
Qed.

End Methods.

End VaultReadFacts.

(** C10.  A vault file that exists and is empty, or holds white space only,
    is an empty vault: [list] returns the empty list and [get] returns
    [null] for every name, with no error and no effect. *)
Theorem blank_vault_is_empty `{AgeLibrary} (ls : LocalSource.t) (w : World)
    (content : string) :
  files w (LocalSource.vaultPath ls) = File content ->
  Stmt.blank content ->
  LocalSource.list ls w = (Ok [], w)
  /\ forall name, LocalSource.get ls name w = (Ok None, w).
Proof.
  intros Hf Hb. apply VaultReadFacts.empty_vault.
  apply (VaultReadFacts.readVault_blank ls w content Hf).
  apply StrFacts.trim_blank, Hb.
Qed.

(** C1 (as amended).  A vault file that exists and whose content is not
    JSON is read as an empty vault: [list] returns the empty list and [get]
    returns [null] for every name; no error is raised. *)
Theorem malformed_vault_reads_empty `{AgeLibrary} (ls : LocalSource.t) (w : World)
    (content : string) (e : exn) :
  files w (LocalSource.vaultPath ls) = File content ->
  JSON.parse content = Throw e ->
  LocalSource.list ls w = (Ok [], w)
  /\ forall name, LocalSource.get ls name w = (Ok None, w).
Proof.
  intros Hf Hp. apply VaultReadFacts.empty_vault.
  exact (VaultReadFacts.readVault_malformed ls w content e Hf Hp).
Qed.

Module VaultRuns1.

Import Examples.

(** A vault file of one space, a tab and a line feed. *)
Lemma blank_vault_is_empty_witness :
  let content := Str.bytes [32; 9; 10]%N in
  let w := put_file (LocalSource.vaultPath Scenario.global_source) (File content)
             (Scenario.project Absent) in
  Stmt.blank content
  /\ LocalSource.list Scenario.global_source w = (Ok [], w)
  /\ LocalSource.get Scenario.global_source "API_KEY" w = (Ok None, w).
Proof.
  intros content w.
  assert (Hb : Stmt.blank content).
  { repeat (eapply Stmt.blank_ws; [reflexivity|]). constructor. }
  split; [exact Hb|].
  destruct (blank_vault_is_empty Scenario.global_source w content eq_refl Hb)
    as [Hl Hg].
  split; [exact Hl|apply Hg].
Defined.

Lemma malformed_vault_reads_empty_witness :
  files ScenarioVault.corrupted (LocalSource.vaultPath Scenario.global_source)
  = File "{ not a record list"
  /\ JSON.parse "{ not a record list" = Throw SyntaxError
  /\ LocalSource.list Scenario.global_source ScenarioVault.corrupted
     = (Ok [], ScenarioVault.corrupted).
Proof.
  split; [reflexivity|]. split; [reflexivity|].
  apply (malformed_vault_reads_empty Scenario.global_source ScenarioVault.corrupted
           "{ not a record list" SyntaxError); reflexivity.
Defined.

(** C1, as stated, fails: the record file of a vault that held a credential
    is overwritten with text that is no record list; [list] and [get] then
    answer as for an empty vault, and nothing is raised. *)
Lemma corrupt_vault_goes_unnoticed :
  files ScenarioVault.corrupted (LocalSource.vaultPath Scenario.global_source)
  = File "{ not a record list"
  /\ fst (LocalSource.list Scenario.global_source ScenarioVault.corrupted) = Ok []
  /\ fst (LocalSource.get Scenario.global_source "API_KEY" ScenarioVault.corrupted)
     = Ok None
  /\ ~ exists e,
         fst (LocalSource.list Scenario.global_source ScenarioVault.corrupted)
         = Throw e.
Proof.
  split; [reflexivity|]. split; [reflexivity|]. split; [reflexivity|].
  intros [e He]. vm_compute in He. discriminate He.
Qed.

End VaultRuns1.

Module GetAllFacts.

Import JSON MonadFacts RecordStmt.

Local Abbreviation list := Datatypes.list.

Lemma map_result_first_throw {A B} (f : A -> Result B) before a after x :
  (forall y, In y before -> exists b, f y = Ok b) ->
  f a = Throw x ->
  LocalSource.map_result f (before ++ a :: after)%list = Throw x.
Proof.
  intros Hb Ha. induction before as [|y r IH]; cbn.
  - rewrite Ha. reflexivity.
  - destruct (Hb y (or_introl eq_refl)) as [b ->].
    rewrite IH; [reflexivity|]. intros z Hz. apply Hb. right. exact Hz.
Qed.

Lemma map_result_length {A B} (f : A -> Result B) l bs :
  LocalSource.map_result f l = Ok bs -> length bs = length l.
Proof.
  revert bs. induction l as [|a r IH]; cbn; intros bs.
  - intros [= <-]. reflexivity.
  - destruct (f a); [|discriminate].
    destruct (LocalSource.map_result f r); [|discriminate].
    intros [= <-]. cbn. f_equal. apply IH. reflexivity.
Qed.

Section Methods.
Context `{AgeLibrary}.

(** The loop of [getAll] stops at the first record that throws. *)
Lemma decrypt_all_spec key entries w :
  LocalSource.decrypt_all key entries w
  = (LocalSource.map_result (decrypted key) entries, w).
Proof.
  revert w. induction entries as [|entry rest IH]; intros w; [reflexivity|].
  cbn [LocalSource.decrypt_all LocalSource.map_result].
  unfold decrypted at 1.
  unfold bind, AgeProvider.decrypt, throw, ret, lift_result.
  destruct (LocalSource.encryptedValue entry) as [ciphertext|x]; [|reflexivity].
  destruct (age_decrypt key ciphertext) as [plaintext|x]; [|reflexivity].
  destruct (prop "name" entry) as [n|x]; [|reflexivity].
  destruct (prop "metadata" entry) as [m|x].
  2:{ destruct n as [[]|]; reflexivity. }
  destruct n as [[]|]; try reflexivity.
  rewrite IH.
  destruct (LocalSource.map_result _ rest); reflexivity.
Qed.

End Methods.

End GetAllFacts.

(** C3 (as amended).  [getAll] decrypts the records in the order of the
    vault and fails as a whole at the first record that does not decrypt,
    with the error of that record: no credential is returned and no name is
    reported.  It returns the credentials, one per record, only when every
    record decrypts. *)
Theorem getAll_all_or_nothing `{AgeLibrary} (ls : LocalSource.t) (w : World)
    (entries : list JSON.value) (key : string) :
  LocalSource.readVault ls w = (Ok (JSON.VArray entries), w) ->
  AgeProvider.loadIdentity (LocalSource.identityPath ls) w = (Ok key, w) ->
  (forall before entry after x,
     entries = (before ++ entry :: after)%list ->
     (forall y, In y before -> exists c, RecordStmt.decrypted key y = Ok c) ->
     RecordStmt.decrypted key entry = Throw x ->
     LocalSource.getAll ls w = (Throw x, w))
  /\ (forall credentials,
        fst (LocalSource.getAll ls w) = Ok credentials <->
        LocalSource.map_result (RecordStmt.decrypted key) entries = Ok credentials)
  /\ (forall credentials,
        fst (LocalSource.getAll ls w) = Ok credentials ->
        length credentials = length entries).
Proof.
  intros Hr Hk.
  assert (Hall : LocalSource.getAll ls w
                 = (LocalSource.map_result (RecordStmt.decrypted key) entries, w)).
  { unfold LocalSource.getAll.
    erewrite MonadFacts.bind_run by exact Hr.
    erewrite MonadFacts.bind_run by exact Hk.
    erewrite MonadFacts.bind_run by reflexivity.
    apply GetAllFacts.decrypt_all_spec. }
  rewrite Hall. cbn [fst]. split; [|split].
  - intros before entry after x -> Hb Hx.
    rewrite (GetAllFacts.map_result_first_throw _ _ _ _ _ Hb Hx). reflexivity.
  - intros credentials. reflexivity.
  - intros credentials. apply GetAllFacts.map_result_length.
Qed.

Module VaultRuns2.

Import Examples.

(** C3, as stated, fails.  The vault holds two records; the first decrypts
    with the identity on disk, the second does not.  [getAll] throws, and
    the credential of the first record is not produced, although [get]
    still decrypts it. *)
Lemma getAll_aborts_on_one_failure :
  fst (LocalSource.list Scenario.global_source ScenarioVault.mixed)
  = Ok [ mkMetadata "FIRST"
           [("name", JSON.VString "FIRST");
            ("createdAt", JSON.VString "2025-12-01T10:20:30.123Z");
            ("updatedAt", JSON.VString "2025-12-01T10:20:30.123Z")];
         mkMetadata "SECOND"
           [("name", JSON.VString "SECOND");
            ("createdAt", JSON.VString "2025-12-01T10:20:30.123Z");
            ("updatedAt", JSON.VString "2025-12-01T10:20:30.123Z")] ]
  /\ option_map cred_value
       (match fst (LocalSource.get Scenario.global_source "FIRST" ScenarioVault.mixed) with
        | Ok c => c
        | Throw _ => None
        end)
     = Some "one"
  /\ fst (LocalSource.get Scenario.global_source "SECOND" ScenarioVault.mixed)
     = Throw DecryptionError
  /\ fst (LocalSource.getAll Scenario.global_source ScenarioVault.mixed)
     = Throw DecryptionError.
Proof.
  repeat (split; [vm_compute; reflexivity|]). vm_compute. reflexivity.
Qed.

Lemma getAll_all_or_nothing_witness :
  exists entries first second,
    LocalSource.readVault Scenario.global_source ScenarioVault.mixed
    = (Ok (JSON.VArray entries), ScenarioVault.mixed)
    /\ AgeProvider.loadIdentity (LocalSource.identityPath Scenario.global_source)
         ScenarioVault.mixed
       = (Ok "AGE-SECRET-KEY-000007", ScenarioVault.mixed)
    /\ entries = [first; second]
    /\ LocalSource.getAll Scenario.global_source ScenarioVault.mixed
       = (Throw DecryptionError, ScenarioVault.mixed).
Proof.
  assert (Hfst : exists a b,
             fst (LocalSource.readVault Scenario.global_source ScenarioVault.mixed)
             = Ok (JSON.VArray [a; b])).
  { vm_compute. eexists. eexists. reflexivity. }
  destruct Hfst as (a & b & Hfst).
  exists [a; b], a, b.
  assert (Hv : LocalSource.readVault Scenario.global_source ScenarioVault.mixed
               = (Ok (JSON.VArray [a; b]), ScenarioVault.mixed)).
  { apply readonly_pair; [apply ReadFacts.readonly_readVault|exact Hfst]. }
  assert (Hk : AgeProvider.loadIdentity (LocalSource.identityPath Scenario.global_source)
                 ScenarioVault.mixed
               = (Ok "AGE-SECRET-KEY-000007", ScenarioVault.mixed)).
  { apply readonly_pair; [apply ReadFacts.readonly_loadIdentity|].
    vm_compute. reflexivity. }
  split; [exact Hv|]. split; [exact Hk|]. split; [reflexivity|].
  destruct (getAll_all_or_nothing Scenario.global_source ScenarioVault.mixed _ _ Hv Hk)
    as [Hfail _].
  vm_compute in Hfst. injection Hfst as <- <-.
  eapply (Hfail [_] _ [] DecryptionError).
  - reflexivity.
  - intros y [<-|[]]. eexists. vm_compute. reflexivity.
  - vm_compute. reflexivity.
Defined.

End VaultRuns2.

(** ** JSON: what is written reads back *)

Module JsonFacts.

Import Str JSON JsonStmt StrFacts.

Local Abbreviation list := Datatypes.list.

Lemma value_ind2 (P : value -> Prop) :
  P VNull -> (forall b, P (VBool b)) -> (forall n, P (VNumber n)) ->
  (forall s, P (VString s)) ->
  (forall l, Forall P l -> P (VArray l)) ->
  (forall ps, Forall (fun kv => P (snd kv)) ps -> P (VObject ps)) ->
  forall v, P v.
Proof.
  intros Hnull Hbool Hnum Hstr Harr Hobj.
  fix IH 1. intros [| b | n | s | l | ps].
  - exact Hnull.
  - apply Hbool.
  - apply Hnum.
  - apply Hstr.
  - apply Harr. induction l as [|x r IHl]; constructor; [apply IH|exact IHl].
  - apply Hobj. induction ps as [|[k x] r IHl]; constructor; [apply IH|exact IHl].
Qed.

Lemma length_append (a b : string) :
  String.length (a ++ b) = (String.length a + String.length b)%nat.
Proof. induction a; simpl; congruence. Qed.

(** *** White space *)

Lemma skip_ws_spaces ind s : spaces ind -> skip_ws (ind ++ s) = skip_ws s.
Proof.
  induction ind as [|c r IH]; simpl; [reflexivity|].
  intros [-> Hr]. cbn. apply IH, Hr.
Qed.

Lemma skip_ws_line ind s : spaces ind -> skip_ws (String LF ind ++ s) = skip_ws s.
Proof. intros Hs. cbn. apply skip_ws_spaces, Hs. Qed.

Lemma spaces_app a b : spaces a -> spaces b -> spaces (a ++ b).
Proof. induction a; simpl; [auto|]. intros [-> Ha] Hb. auto. Qed.

Lemma parse_value_skip fuel a s :
  skip_ws a = EmptyString -> parse_value fuel (a ++ s) = parse_value fuel s.
Proof.
  intros Ha.
  assert (Hs : skip_ws (a ++ s) = skip_ws s).
  { induction a as [|c r IH]; [reflexivity|]. simpl in *.
    destruct (is_ws c); [apply IH, Ha|discriminate]. }
  destruct fuel; [reflexivity|]. cbn [parse_value]. rewrite Hs. reflexivity.
Qed.

Lemma skip_ws_line_nil ind : spaces ind -> skip_ws (String LF ind) = EmptyString.
Proof.
  intros Hs. rewrite <- (append_nil_r (String LF ind)).
  rewrite skip_ws_line by exact Hs. reflexivity.
Qed.

(** *** String literals *)

Lemma parse_chars_step (c : ascii) (tail : string) :
  parse_chars None (escape_char c ++ tail)
  = prepend (str1 c) (parse_chars None tail).
Proof.
  destruct c as [[] [] [] [] [] [] [] []]; reflexivity.
Qed.

Lemma parse_chars_escape (s rest : string) :
  parse_chars None (escape s ++ String dquote rest) = Some (s, rest).
Proof.
  induction s as [|c r IH]; [reflexivity|].
  cbn [escape]. rewrite append_assoc, parse_chars_step, IH. reflexivity.
Qed.

Lemma parse_chars_quote (s rest : string) :
  parse_chars None (escape s ++ str1 dquote ++ rest) = Some (s, rest).
Proof. apply parse_chars_escape. Qed.

(** *** Heads *)

Lemma print_opens ind v : writable v -> opens (print ind v).
Proof.
  unfold opens. destruct v as [| [] | n | s | [|x l] | ps]; cbn [print writable];
    intros Hw; try contradiction;
    try (eexists; eexists; split; [reflexivity|repeat split]).
  destruct (JsObject.entries _);
    eexists; eexists; (split; [reflexivity|repeat split]).
Qed.

Lemma opens_app a b : opens a -> opens (a ++ b).
Proof.
  intros (c & t & -> & H). exists c, (t ++ b). split; [reflexivity|exact H].
Qed.

Lemma skip_ws_opens s : opens s -> skip_ws s = s.
Proof. intros (c & t & -> & Hc & _). cbn. rewrite Hc. reflexivity. Qed.

(** *** Objects without array indices *)

Lemma entries_plain {V} (o : JsObject.t V) :
  (forall k, In k (map fst o) -> JsObject.array_index k = None) ->
  JsObject.entries o = o.
Proof.
  intros Hk. unfold JsObject.entries.
  assert (Hi : JsObject.index_props o = []).
  { induction o as [|kv r IH]; [reflexivity|]. cbn [JsObject.index_props].
    rewrite (Hk (fst kv)) by (left; reflexivity).
    apply IH. intros k Hin. apply Hk. right. exact Hin. }
  rewrite Hi. cbn [map app]. unfold JsObject.named_props.
  induction o as [|kv r IH]; [reflexivity|]. cbn [filter].
  rewrite (Hk (fst kv)) by (left; reflexivity). f_equal.
  apply IH.
  - intros k Hin. apply Hk. right. exact Hin.
  - cbn [JsObject.index_props] in Hi.
    rewrite (Hk (fst kv)) in Hi by (left; reflexivity). exact Hi.
Qed.

Lemma define_fresh {V} k (v : V) (o : JsObject.t V) :
  ~ In k (map fst o) -> JsObject.define k v o = (o ++ [(k, v)])%list.
Proof.
  induction o as [|[k' v'] r IH]; intros Hk; [reflexivity|].
  cbn [JsObject.define app]. destruct (String.eqb k' k) eqn:E.
  - apply String.eqb_eq in E. subst. exfalso. apply Hk. left. reflexivity.
  - f_equal. apply IH. intros Hin. apply Hk. right. exact Hin.
Qed.

End JsonFacts.
(** ** JSON: the round trip of a document *)

Module JsonRoundTrip.

Import Str JSON JsonStmt StrFacts JsonFacts.

Local Abbreviation list := Datatypes.list.

Lemma parse_value_line fuel ind s :
  spaces ind -> parse_value fuel (String LF (ind ++ s)) = parse_value fuel s.
Proof.
  intros Hs. change (String LF (ind ++ s)) with (String LF ind ++ s).
  apply parse_value_skip, skip_ws_line_nil, Hs.
Qed.

Lemma skip_ws_line2 ind s :
  spaces ind -> skip_ws (String LF (ind ++ s)) = skip_ws s.
Proof. intros Hs. apply (skip_ws_line ind s Hs). Qed.

Lemma join_cons2 sp (x y : string) r :
  join sp (x :: y :: r) = x ++ sp ++ join sp (y :: r).
Proof. reflexivity. Qed.

Lemma parse_elements_items ind' ind rest (l : list value) :
  spaces ind' -> spaces ind -> l <> [] ->
  Forall reads_back l ->
  forall fuel, (cost_items l <= fuel)%nat ->
  parse_elements fuel
    (String LF (ind' ++ join (sep ind') (map (print ind') l)
                  ++ String LF (ind ++ "]" ++ rest)))
  = Some (l, rest).
Proof.
  intros Hi' Hi Hne Hall. induction Hall as [|x l' Hx Hl IH]; [contradiction|].
  intros fuel Hfuel. cbn [cost_items fold_right] in Hfuel.
  destruct fuel as [|m]; [lia|]. cbn [parse_elements].
  rewrite parse_value_line by exact Hi'.
  destruct l' as [|y l''].
  - cbn [map join]. rewrite Hx by (auto; lia).
    rewrite skip_ws_line2 by exact Hi. reflexivity.
  - cbn [map] in IH |- *. rewrite join_cons2, !append_assoc.
    rewrite Hx by (auto; lia). cbn [sep append skip_ws].
    change (is_ws ",") with false. cbv iota.
    change (Ascii.eqb "," ",") with true. cbv iota.
    rewrite IH; [reflexivity|discriminate|].
    fold (cost_items (y :: l'')) in Hfuel. lia.
Qed.

Lemma skip_ws_dquote t : skip_ws (String dquote t) = String dquote t.
Proof. reflexivity. Qed.

Lemma parse_value_space fuel s : parse_value fuel (String " " s) = parse_value fuel s.
Proof. apply (parse_value_skip fuel " " s). reflexivity. Qed.

Lemma parse_members_props ind' ind rest (ps : JsObject.t value) :
  spaces ind' -> spaces ind -> ps <> [] ->
  Forall (fun kv => reads_back (snd kv)) ps ->
  forall fuel acc,
    NoDup (map fst acc ++ map fst ps)%list ->
    (cost_props ps <= fuel)%nat ->
    parse_members fuel acc
      (String LF (ind' ++ join (sep ind')
                           (map (fun kv => quote (fst kv) ++ ": " ++ print ind' (snd kv)) ps)
                    ++ String LF (ind ++ "}" ++ rest)))
    = Some (VObject (acc ++ ps)%list, rest).
Proof.
  intros Hi' Hi Hne Hall. induction Hall as [|[k v] ps' Hv Hl IH]; [contradiction|].
  intros fuel acc Hnd Hfuel. cbn [cost_props fold_right snd] in Hfuel.
  destruct fuel as [|m]; [lia|]. cbn [parse_members].
  rewrite skip_ws_line2 by exact Hi'.
  assert (Hk : ~ In k (map fst acc)).
  { intros Hin. apply NoDup_remove_2 in Hnd. apply Hnd.
    apply in_or_app. left. exact Hin. }
  assert (Hnd' : NoDup (map fst (acc ++ [(k, v)]) ++ map fst ps')%list).
  { rewrite map_app, <- app_assoc. exact Hnd. }
  cbn [fst snd] in *.
  destruct ps' as [|p ps''].
  - cbn [map join fst snd]. unfold quote. cbn [append].
    rewrite skip_ws_dquote. rewrite Ascii.eqb_refl.
    rewrite !append_assoc, parse_chars_quote.
    cbn [append skip_ws]. change (is_ws ":") with false. cbv iota.
    change (Ascii.eqb ":" ":") with true. cbv iota.
    rewrite parse_value_space, Hv by (auto; lia).
    rewrite skip_ws_line2 by exact Hi. cbn.
    rewrite JsonFacts.define_fresh by exact Hk. reflexivity.
  - cbn [map fst snd] in IH |- *. rewrite join_cons2.
    unfold quote at 1. cbn [append].
    rewrite skip_ws_dquote. rewrite Ascii.eqb_refl.
    rewrite !append_assoc, parse_chars_quote.
    cbn [append skip_ws]. change (is_ws ":") with false. cbv iota.
    change (Ascii.eqb ":" ":") with true. cbv iota.
    rewrite parse_value_space, Hv by (auto; lia).
    cbn [sep append skip_ws].
    change (is_ws ",") with false. cbv iota.
    change (Ascii.eqb "," ",") with true. cbv iota.
    rewrite JsonFacts.define_fresh by exact Hk.
    rewrite IH; [rewrite <- app_assoc; reflexivity|discriminate|exact Hnd'|].
    fold (cost_props (p :: ps'')) in Hfuel. lia.
Qed.

Lemma fold_writable_Forall (l : list value) :
  fold_right (fun x acc => writable x /\ acc) True l <-> Forall writable l.
Proof.
  induction l as [|x r IH]; cbn; [split; auto|].
  rewrite IH. split; [intros []; constructor; auto|intros Hf; inversion Hf; auto].
Qed.

Lemma fold_writable_props (ps : JsObject.t value) :
  fold_right (fun kv acc => writable (snd kv) /\ acc) True ps
  <-> Forall (fun kv => writable (snd kv)) ps.
Proof.
  induction ps as [|x r IH]; cbn; [split; auto|].
  rewrite IH. split; [intros []; constructor; auto|intros Hf; inversion Hf; auto].
Qed.

Lemma Forall_both {A} (P Q : A -> Prop) l :
  Forall (fun x => P x -> Q x) l -> Forall P l -> Forall Q l.
Proof. induction 1; intros Hp; inversion Hp; constructor; auto. Qed.

Theorem print_parse v : writable v -> reads_back v.
Proof.
  induction v as [| b | n | s | l IH | ps IH] using value_ind2; intros Hw.
  - intros ind rest [|fuel] _ Hf; [cbn in Hf; lia|reflexivity].
  - intros ind rest [|fuel] _ Hf; [cbn in Hf; lia|]. destruct b; reflexivity.
  - destruct Hw.
  - intros ind rest [|fuel] _ Hf; [cbn in Hf; lia|].
    cbn [print]. unfold quote. cbn [append parse_value].
    rewrite skip_ws_dquote.
    change (Ascii.eqb dquote "{") with false.
    change (Ascii.eqb dquote "[") with false. cbv iota.
    rewrite Ascii.eqb_refl, !append_assoc, parse_chars_quote. reflexivity.
  - cbn [writable] in Hw. apply fold_writable_Forall in Hw.
    pose proof (Forall_both _ _ _ IH Hw) as Hall.
    intros ind rest [|fuel] Hi Hf; [cbn in Hf; lia|].
    destruct l as [|x l']; [reflexivity|].
    cbn [cost] in Hf. fold (cost_items (x :: l')) in Hf.
    assert (Hi' : spaces (ind ++ "  ")) by (apply spaces_app; cbn; auto).
    inversion Hw as [|? ? Hwx _]; subst.
    cbn [print]. remember (ind ++ "  ") as ind' eqn:Ei.
    destruct (print_opens ind' x Hwx) as (c & t & Hc & Hws & Hb & _).
    assert (Hj : opens (join (sep ind') (map (print ind') (x :: l'))
                        ++ String LF (ind ++ "]" ++ rest))).
    { apply opens_app. destruct l'; cbn [map join]; [|apply opens_app];
        apply print_opens, Hwx. }
    pose proof (skip_ws_opens _ Hj) as Hskip.
    destruct Hj as (c' & t' & Hj & _ & Hb' & _).
    cbn [parse_value append skip_ws]. rewrite !append_assoc.
    change (is_ws "[") with false. cbv iota.
    change (Ascii.eqb "[" "{") with false.
    change (Ascii.eqb "[" "[") with true. cbv iota.
    rewrite skip_ws_line2 by exact Hi'.
    repeat first [rewrite !append_assoc | progress cbn [append]].
    cbn [append] in Hskip, Hj. rewrite Hskip, Hj, Hb', <- Hj.
    rewrite (parse_elements_items ind' ind rest (x :: l'));
      auto; [discriminate|lia].
  - cbn [writable] in Hw. destruct Hw as (Hnd & Hkeys & Hw).
    apply fold_writable_props in Hw.
    pose proof (Forall_both _ _ _ IH Hw) as Hall.
    intros ind rest [|fuel] Hi Hf; [cbn in Hf; lia|].
    destruct ps as [|[k x] ps']; [reflexivity|].
    cbn [cost] in Hf. fold (cost_props ((k, x) :: ps')) in Hf.
    assert (Hi' : spaces (ind ++ "  ")) by (apply spaces_app; cbn; auto).
    assert (Hp : print ind (VObject ((k, x) :: ps'))
                 = "{" ++ String LF (ind ++ "  ")
                     ++ join (sep (ind ++ "  "))
                          (map (fun kv => quote (fst kv) ++ ": "
                                          ++ print (ind ++ "  ") (snd kv))
                             ((k, x) :: ps'))
                     ++ String LF ind ++ "}").
    { cbn [print]. rewrite entries_plain by (rewrite map_map; exact Hkeys).
      cbn [map]. rewrite map_map. reflexivity. }
    rewrite Hp. clear Hp.
    remember (ind ++ "  ") as ind' eqn:Ei.
    assert (Hj : exists t',
               join (sep ind')
                 (map (fun kv => quote (fst kv) ++ ": " ++ print ind' (snd kv))
                    ((k, x) :: ps'))
               ++ String LF (ind ++ "}" ++ rest)
               = String dquote t').
    { destruct ps'; cbn [map join]; unfold quote; cbn [append]; eexists; reflexivity. }
    destruct Hj as [t' Hj].
    cbn [parse_value append skip_ws].
    change (is_ws "{") with false. cbv iota.
    change (Ascii.eqb "{" "{") with true. cbv iota.
    repeat first [rewrite !append_assoc | progress cbn [append]].
    rewrite skip_ws_line2 by exact Hi'.
    cbn [append] in Hj. rewrite Hj. rewrite skip_ws_dquote.
    change (Ascii.eqb dquote "}") with false. cbv iota.
    rewrite <- Hj.
    rewrite (parse_members_props ind' ind rest ((k, x) :: ps') Hi' Hi) with (acc := []);
      auto; [discriminate|lia].
Qed.

Lemma length_join_items sp (f : value -> string) (l : list value) :
  (2 <= String.length sp)%nat ->
  Forall (fun v => (cost v <= String.length (f v))%nat) l ->
  (cost_items l <= String.length (join sp (map f l)) + 1)%nat.
Proof.
  intros Hsp Hall. induction Hall as [|x l' Hx Hl IH]; [cbn; lia|].
  cbn [cost_items fold_right]. fold (cost_items l').
  destruct l' as [|y r].
  - cbn [map join cost_items fold_right]. lia.
  - cbn [map] in IH |- *. rewrite join_cons2, !length_append. lia.
Qed.

Lemma length_join_props sp (f : string * value -> string) (ps : JsObject.t value) :
  (2 <= String.length sp)%nat ->
  Forall (fun kv => (cost (snd kv) <= String.length (f kv))%nat) ps ->
  (cost_props ps <= String.length (join sp (map f ps)) + 1)%nat.
Proof.
  intros Hsp Hall. induction Hall as [|x l' Hx Hl IH]; [cbn; lia|].
  cbn [cost_props fold_right]. fold (cost_props l').
  destruct l' as [|y r].
  - cbn [map join cost_props fold_right]. lia.
  - cbn [map] in IH |- *. rewrite join_cons2, !length_append. lia.
Qed.

Lemma length_sep ind : (2 <= String.length (sep ind))%nat.
Proof. cbn. lia. Qed.

Lemma cost_le_length v : writable v -> forall ind, (cost v <= String.length (print ind v))%nat.
Proof.
  induction v as [| b | n | s | l IH | ps IH] using value_ind2; intros Hw ind.
  - cbn. lia.
  - destruct b; cbn; lia.
  - destruct Hw.
  - cbn. lia.
  - cbn [writable] in Hw. apply fold_writable_Forall in Hw.
    pose proof (Forall_both _ _ _ IH Hw) as Hall.
    destruct l as [|x l']; [cbn; lia|].
    cbn [cost print]. fold (cost_items (x :: l')).
    pose proof (length_join_items (sep (ind ++ "  ")) (print (ind ++ "  ")) (x :: l')
                  (length_sep _)) as Hj.
    cbn [append String.length]. rewrite !length_append. cbn [String.length].
    assert (Hc : (cost_items (x :: l')
                  <= String.length (join (sep (ind ++ "  "))
                                      (map (print (ind ++ "  ")) (x :: l'))) + 1)%nat).
    { apply Hj. eapply Forall_impl; [|exact Hall]. cbn. intros a Ha. apply Ha. }
    revert Hc. generalize (cost_items (x :: l')).
    generalize (String.length
      (join (sep (ind ++ "  ")) (map (print (ind ++ "  ")) (x :: l')))).
    intros a b Hab. lia.
  - cbn [writable] in Hw. destruct Hw as (Hnd & Hkeys & Hw).
    apply fold_writable_props in Hw.
    pose proof (Forall_both _ _ _ IH Hw) as Hall.
    destruct ps as [|[k x] ps']; [cbn; lia|].
    assert (Hp : print ind (VObject ((k, x) :: ps'))
                 = "{" ++ String LF (ind ++ "  ")
                     ++ join (sep (ind ++ "  "))
                          (map (fun kv => quote (fst kv) ++ ": "
                                          ++ print (ind ++ "  ") (snd kv))
                             ((k, x) :: ps'))
                     ++ String LF ind ++ "}").
    { cbn [print]. rewrite entries_plain by (rewrite map_map; exact Hkeys).
      cbn [map]. rewrite map_map. reflexivity. }
    assert (Hc : (cost_props ((k, x) :: ps')
                  <= String.length
                       (join (sep (ind ++ "  "))
                          (map (fun kv => quote (fst kv) ++ ": "
                                          ++ print (ind ++ "  ") (snd kv))
                             ((k, x) :: ps'))) + 1)%nat).
    { apply length_join_props; [apply length_sep|].
      eapply Forall_impl; [|exact Hall]. cbn beta. intros a Ha.
      rewrite !length_append. specialize (Ha (ind ++ "  ")). lia. }
    rewrite Hp. cbn [cost]. fold (cost_props ((k, x) :: ps')).
    revert Hc. generalize (cost_props ((k, x) :: ps')).
    generalize (join (sep (ind ++ "  "))
         (map (fun kv => quote (fst kv) ++ ": " ++ print (ind ++ "  ") (snd kv))
            ((k, x) :: ps'))).
    intros body c Hc.
    cbn [append String.length]. rewrite !length_append. cbn [String.length].
    lia.
Qed.

(** What [JSON.stringify] writes, [JSON.parse] reads back. *)
Theorem parse_stringify v : writable v -> JSON.parse (JSON.stringify v) = Ok v.
Proof.
  intros Hw. unfold JSON.parse, JSON.stringify.
  pose proof (print_parse v Hw EmptyString EmptyString
                (S (S (String.length (print EmptyString v)))) I) as Hp.
  rewrite append_nil_r in Hp. rewrite Hp; [reflexivity|].
  pose proof (cost_le_length v Hw EmptyString). lia.
Qed.

End JsonRoundTrip.

(** ** The vault store: writing a name twice *)

Module StoreFacts.

Import Str JSON JsonStmt StoreStmt StrFacts JsonFacts JsonRoundTrip MonadFacts.

Local Abbreviation list := Datatypes.list.

Lemma named_entry name e n :
  entry_name e = Some n -> LocalSource.named name e = Ok (String.eqb n name).
Proof.
  unfold entry_name, LocalSource.named.
  destruct (prop "name" e) as [[[]|]|]; try discriminate.
  intros E. injection E as ->. reflexivity.
Qed.

Lemma entry_ok_named name e :
  entry_ok e ->
  exists n, entry_name e = Some n
            /\ LocalSource.named name e = Ok (String.eqb n name).
Proof.
  intros (n & md & Hn & _). exists n. split; [exact Hn|].
  apply named_entry, Hn.
Qed.

(** [findIndex] gives the first record of the name, or finds none. *)
Lemma findIndex_spec name es :
  Forall entry_ok es ->
  (LocalSource.findIndex name es = Ok None
   /\ ~ In (Some name) (map entry_name es))
  \/ (exists i, LocalSource.findIndex name es = Ok (Some i)
                /\ (i < length es)%nat
                /\ entry_name (nth i es VNull) = Some name).
Proof.
  induction 1 as [|e r He Hr IH].
  - left. split; [reflexivity|intros []].
  - destruct (entry_ok_named name e He) as (n & Hn & Hnamed).
    cbn [LocalSource.findIndex]. rewrite Hnamed.
    destruct (String.eqb_spec n name) as [E|Hne]; [subst n|].
    + right. exists O. cbn. split; [reflexivity|]. split; [lia|exact Hn].
    + destruct IH as [[Hf Hnot]|(i & Hf & Hi & Hnth)]; rewrite Hf.
      * left. split; [reflexivity|]. cbn. intros [E|Hin]; [|tauto].
        rewrite Hn in E. injection E as E. contradiction.
      * right. exists (S i). cbn. split; [reflexivity|]. split; [lia|exact Hnth].
Qed.

Lemma findIndex_replace name new es i :
  Forall entry_ok es ->
  LocalSource.findIndex name es = Ok (Some i) ->
  entry_name new = Some name ->
  LocalSource.findIndex name (LocalSource.replace_at i new es) = Ok (Some i)
  /\ nth i (LocalSource.replace_at i new es) VNull = new
  /\ map entry_name (LocalSource.replace_at i new es) = map entry_name es.
Proof.
  intros Hall. revert i. induction Hall as [|e r He Hr IH]; intros i Hf Hnew.
  - discriminate Hf.
  - destruct (entry_ok_named name e He) as (n & Hn & Hnamed).
    cbn [LocalSource.findIndex] in Hf. rewrite Hnamed in Hf.
    destruct (String.eqb_spec n name) as [E|Hne]; [subst n|].
    + injection Hf as <-. cbn. rewrite (named_entry _ _ _ Hnew), String.eqb_refl.
      rewrite Hn, Hnew. auto.
    + destruct (LocalSource.findIndex name r) as [[j|]|] eqn:Ef; try discriminate.
      injection Hf as <-. cbn. rewrite Hnamed.
      destruct (String.eqb_spec n name); [contradiction|].
      destruct (IH j eq_refl Hnew) as (H1 & H2 & H3).
      rewrite H1, H3. auto.
Qed.

Lemma findIndex_push name new es :
  Forall entry_ok es ->
  LocalSource.findIndex name es = Ok None ->
  entry_name new = Some name ->
  LocalSource.findIndex name (es ++ [new])%list = Ok (Some (length es))
  /\ nth (length es) (es ++ [new])%list VNull = new.
Proof.
  intros Hall. induction Hall as [|e r He Hr IH]; intros Hf Hnew.
  - cbn. rewrite (named_entry _ _ _ Hnew), String.eqb_refl. auto.
  - destruct (entry_ok_named name e He) as (n & Hn & Hnamed).
    cbn [LocalSource.findIndex] in Hf. rewrite Hnamed in Hf.
    cbn [app LocalSource.findIndex length nth]. rewrite Hnamed.
    destruct (String.eqb n name); [discriminate|].
    destruct (LocalSource.findIndex name r) as [[j|]|] eqn:Ef; try discriminate.
    destruct (IH eq_refl Hnew) as (H1 & H2). rewrite H1. auto.
Qed.

Lemma Forall_replace_at {P : value -> Prop} i new es :
  P new -> Forall P es -> Forall P (LocalSource.replace_at i new es).
Proof.
  intros Hn Hall. revert i. induction Hall as [|e r He Hr IH]; intros [|i]; cbn;
    constructor; auto.
Qed.

Lemma writable_nth i es :
  Forall writable es -> writable (nth i es VNull).
Proof.
  intros Hall. revert i. induction Hall as [|e r He Hr IH]; intros [|i]; cbn; auto.
Qed.

Lemma writable_getOwn k m v :
  writable (VObject m) -> JsObject.getOwn k m = Some v -> writable v.
Proof.
  cbn [writable]. intros (_ & _ & Hw). apply fold_writable_props in Hw.
  induction Hw as [|[k' x] r Hx Hr IH]; cbn; [discriminate|].
  destruct (String.eqb k' k); [intros E; injection E as <-; exact Hx|exact IH].
Qed.

Lemma writable_createdAt e v :
  writable e -> LocalSource.createdAt_of e = Some v -> writable v.
Proof.
  unfold LocalSource.createdAt_of. intros Hw.
  destruct e as [| | | | |props]; cbn [prop]; try discriminate.
  destruct (JsObject.getOwn "metadata" props) as [[| | | | |m]|] eqn:Em;
    try discriminate.
  intros Hc. eapply writable_getOwn; [|exact Hc].
  eapply writable_getOwn; [exact Hw|exact Em].
Qed.

(** *** The record [set] builds *)

Lemma newEntry_name name c created now :
  entry_name (LocalSource.newEntry name c created now None) = Some name.
Proof. reflexivity. Qed.

Lemma newEntry_listed name c created now :
  exists md,
    LocalSource.metadata_of (LocalSource.newEntry name c created now None) = Ok md
    /\ md_name md = name.
Proof. destruct created; eexists; split; reflexivity. Qed.

Lemma newEntry_ok name c created now :
  entry_ok (LocalSource.newEntry name c created now None).
Proof.
  destruct (newEntry_listed name c created now) as (md & Hm & Hn).
  exists name, md. auto using newEntry_name.
Qed.

Lemma newEntry_encrypted name c created now :
  LocalSource.encryptedValue (LocalSource.newEntry name c created now None) = Ok c.
Proof. reflexivity. Qed.

Lemma plain_keys (ks : list string) :
  forallb (fun k => match JsObject.array_index k with
                    | None => true | Some _ => false end) ks = true ->
  forall k, In k ks -> JsObject.array_index k = None.
Proof.
  rewrite forallb_forall. intros Hall k Hin. specialize (Hall k Hin).
  destruct (JsObject.array_index k); [discriminate|reflexivity].
Qed.

Ltac distinct_keys :=
  cbn [map fst LocalSource.drop_undefined flat_map snd app];
  repeat (constructor; [cbn [In]; intuition discriminate|]); constructor.

Lemma newEntry_writable name c created now :
  (forall v, created = Some v -> writable v) ->
  writable (LocalSource.newEntry name c created now None).
Proof.
  intros Hc. unfold LocalSource.newEntry. cbn [fold_left].
  split; [distinct_keys|].
  split; [apply plain_keys; reflexivity|].
  cbn [fold_right snd]. do 2 (split; [exact I|]). split; [|exact I].
  split; [destruct created; distinct_keys|].
  split; [destruct created; apply plain_keys; reflexivity|].
  destruct created as [v|]; cbn; auto using Hc.
Qed.

(** *** The records after [set] *)

Lemma NoDup_push {A} (x : A) l : NoDup l -> ~ In x l -> NoDup (l ++ [x])%list.
Proof.
  induction 1 as [|y r Hy Hr IH]; intros Hx; cbn.
  - constructor; [intros []|constructor].
  - constructor.
    + rewrite in_app_iff. cbn. intros [Hin|[E|[]]]; [tauto|].
      subst. apply Hx. left. reflexivity.
    + apply IH. intros Hin. apply Hx. right. exact Hin.
Qed.

Lemma stored_found name c now es :
  Forall entry_ok es ->
  exists i created,
    LocalSource.findIndex name (stored name c now es) = Ok (Some i)
    /\ nth i (stored name c now es) VNull
       = LocalSource.newEntry name c created now None
    /\ match LocalSource.findIndex name es with
       | Ok (Some j) => created = LocalSource.createdAt_of (nth j es VNull)
       | _ => created = Some (VString (Date.toISOString now))
       end.
Proof.
  intros Hall. unfold stored.
  destruct (findIndex_spec name es Hall) as [[Hf _]|(i & Hf & _ & _)]; rewrite Hf.
  - destruct (findIndex_push name
                (LocalSource.newEntry name c
                   (Some (VString (Date.toISOString now))) now None)
                es Hall Hf (newEntry_name _ _ _ _)) as (H1 & H2).
    eauto.
  - destruct (findIndex_replace name
                (LocalSource.newEntry name c
                   (LocalSource.createdAt_of (nth i es VNull)) now None)
                es i Hall Hf (newEntry_name _ _ _ _)) as (H1 & H2 & _).
    eauto.
Qed.

Lemma stored_ok name c now es :
  vault_ok es -> vault_ok (stored name c now es).
Proof.
  intros (Hw & Hall & Hnd). cbn [writable] in Hw. apply fold_writable_Forall in Hw.
  unfold vault_ok, stored. cbn [writable]. rewrite fold_writable_Forall.
  destruct (findIndex_spec name es Hall) as [[Hf Hnot]|(i & Hf & Hi & Hn)]; rewrite Hf.
  - split; [|split].
    + apply Forall_app. split; [exact Hw|]. constructor; [|constructor].
      apply newEntry_writable. intros v E. injection E as <-. exact I.
    + apply Forall_app. split; [exact Hall|]. constructor; [|constructor].
      apply newEntry_ok.
    + rewrite map_app. cbn [map]. rewrite newEntry_name.
      apply NoDup_push; assumption.
  - destruct (findIndex_replace name
                (LocalSource.newEntry name c
                   (LocalSource.createdAt_of (nth i es VNull)) now None)
                es i Hall Hf (newEntry_name _ _ _ _)) as (_ & _ & H3).
    split; [|split].
    + apply Forall_replace_at; [|exact Hw]. apply newEntry_writable.
      intros v E. eapply writable_createdAt; [|exact E]. apply writable_nth, Hw.
    + apply Forall_replace_at; [|exact Hall]. apply newEntry_ok.
    + rewrite H3. exact Hnd.
Qed.

End StoreFacts.
(** ** The vault store: what [set] leaves on disk *)

Module StoreRuns.

Import Str JSON JsonStmt StoreStmt StrFacts JsonFacts JsonRoundTrip MonadFacts
  StoreFacts.

Local Abbreviation list := Datatypes.list.

(** *** The text of a record list is not blank *)

Lemma trimStart_id s : ws_prefix s = None -> trimStart s = s.
Proof.
  unfold trimStart. intros Hs. destruct (String.length s); cbn; [reflexivity|].
  rewrite Hs. reflexivity.
Qed.

Lemma trimEnd_id s : ws_suffix_rev (rev s) = None -> trimEnd s = s.
Proof.
  unfold trimEnd. intros Hs. destruct (String.length s); cbn.
  - apply rev_involutive.
  - rewrite Hs. apply rev_involutive.
Qed.

Lemma ws_prefix_bracket r : ws_prefix (String "[" r) = None.
Proof.
  destruct r as [|b [|c r]]; try reflexivity.
Qed.

Lemma ws_suffix_bracket r : ws_suffix_rev (String "]" r) = None.
Proof.
  destruct r as [|b [|a r]]; unfold ws_suffix_rev.
  - reflexivity.
  - change (ws1 (code "]")) with false. cbn iota. unfold ws2.
    change (93 =? 160)%N with false. 
    change (code "]") with 93%N. rewrite andb_false_r. reflexivity.
  - change (ws1 (code "]")) with false. cbn iota. unfold ws2, ws3.
    change (code "]") with 93%N. cbn. rewrite !andb_false_r. reflexivity.
Qed.

Lemma trim_bracket r : isEmpty (trim (String "[" (r ++ "]"))) = false.
Proof.
  unfold trim. rewrite trimStart_id by apply ws_prefix_bracket.
  rewrite trimEnd_id; [reflexivity|].
  rewrite rev_cons. change "]" with (str1 "]"). rewrite rev_snoc.
  apply ws_suffix_bracket.
Qed.

Lemma array_text es : exists r, stringify (VArray es) = String "[" (r ++ "]").
Proof.
  unfold stringify. destruct es as [|x l].
  - exists EmptyString. reflexivity.
  - exists (String LF "  " ++ join (sep "  ") (map (print "  ") (x :: l)) ++ str1 LF).
    cbn [print]. cbn [append]. rewrite !append_assoc. reflexivity.
Qed.

Lemma array_text_not_blank es : isEmpty (trim (stringify (VArray es))) = false.
Proof. destruct (array_text es) as (r & ->). apply trim_bracket. Qed.

(** *** The methods on a well-kept vault *)

Lemma bind_lift {S A B} (a : A) (k : A -> M S B) s :
  bind (lift_result (Ok a)) k s = k a s.
Proof. reflexivity. Qed.

Lemma put_file_same p n w : files (put_file p n w) p = n.
Proof. cbn. rewrite String.eqb_refl. reflexivity. Qed.

Lemma put_file_other p q n w : p <> q -> files (put_file p n w) q = files w q.
Proof.
  intros Hne. cbn. destruct (String.eqb_spec q p); [subst; contradiction|reflexivity].
Qed.

Lemma loadIdentity_files `{AgeLibrary} p w w' k :
  files w' p = files w p ->
  AgeProvider.loadIdentity p w = (Ok k, w) ->
  AgeProvider.loadIdentity p w' = (Ok k, w').
Proof.
  unfold AgeProvider.loadIdentity, bind, fs.readFile. intros ->.
  destruct (files w p); try discriminate.
  destruct (AgeProvider.key_line _ _); cbn; [|discriminate].
  intros E. injection E as ->. reflexivity.
Qed.

Lemma loadRecipient_files `{AgeLibrary} p w w' k :
  files w' p = files w p ->
  AgeProvider.loadRecipient p w = (Ok k, w) ->
  AgeProvider.loadRecipient p w' = (Ok k, w').
Proof.
  unfold AgeProvider.loadRecipient, bind, fs.readFile. intros ->.
  destruct (files w p); try discriminate.
  destruct (AgeProvider.key_line _ _); cbn; [|discriminate].
  intros E. injection E as ->. reflexivity.
Qed.

Lemma records_named_once name (mds : list CredentialMetadata) :
  NoDup (map (fun md => Some (md_name md)) mds) ->
  In (Some name) (map (fun md => Some (md_name md)) mds) ->
  length (records_named name mds) = 1%nat.
Proof.
  unfold records_named.
  induction mds as [|md r IH]; cbn [map filter]; intros Hnd Hin; [destruct Hin|].
  inversion Hnd as [|x l Hx Hr]; subst.
  destruct (String.eqb_spec (md_name md) name) as [E|Hne].
  - cbn [length]. f_equal. rewrite E in Hx.
    clear - Hx. induction r as [|y r IH]; [reflexivity|].
    cbn [filter]. destruct (String.eqb_spec (md_name y) name) as [E|Hne].
    + exfalso. apply Hx. left. rewrite E. reflexivity.
    + apply IH. intros Hin. apply Hx. right. exact Hin.
  - apply IH; [exact Hr|]. destruct Hin as [E|Hin]; [|exact Hin].
    injection E as E. contradiction.
Qed.

Section Methods.
Context `{C : AgeContract}.
Variable ls : LocalSource.t.

Lemma readVault_written w es :
  files w (LocalSource.vaultPath ls) = File (stringify (VArray es)) ->
  writable (VArray es) ->
  LocalSource.readVault ls w = (Ok (VArray es), w).
Proof.
  intros Hf Hw. eapply VaultReadFacts.readVault_parsed; [exact Hf| |].
  - apply array_text_not_blank.
  - apply parse_stringify, Hw.
Qed.

Lemma keyed_files identity w w' :
  files w' (LocalSource.identityPath ls) = files w (LocalSource.identityPath ls) ->
  files w' (LocalSource.recipientPath ls) = files w (LocalSource.recipientPath ls) ->
  keyed ls identity w -> keyed ls identity w'.
Proof.
  intros Hi Hr [Ki Kr]. split.
  - eapply loadIdentity_files; eassumption.
  - eapply loadRecipient_files; eassumption.
Qed.

Lemma set_run w es identity name v :
  keyed ls identity w ->
  LocalSource.readVault ls w = (Ok (VArray es), w) ->
  Forall entry_ok es ->
  files w (LocalSource.vaultPath ls) <> Unreadable ->
  exists c,
    age_encrypt (age_identityToRecipient identity) (entropy w) v = Ok c
    /\ LocalSource.set ls name v None w
       = (Ok tt,
          put_file (LocalSource.vaultPath ls)
            (File (stringify (VArray (stored name c (clock w) es))))
            (set_entropy (N.succ (entropy w)) w)).
Proof.
  intros [_ Kr] Hr Hall Hf.
  destruct (age_encrypts identity (entropy w) v) as (c & Hc).
  exists c. split; [exact Hc|].
  unfold LocalSource.set.
  erewrite bind_run by exact Hr. erewrite bind_run by exact Kr.
  unfold AgeProvider.encrypt, AgeProvider.fresh_entropy.
  unfold bind. cbn [fst snd]. unfold lift_result at 1. rewrite Hc.
  cbn [LocalSource.as_array lift_result].
  unfold stored, LocalSource.writeVault, fs.ensureDir, fs.writeFile, Date.now, bind.
  destruct (findIndex_spec name es Hall) as [[Hx _]|(i & Hx & _ & _)]; rewrite Hx;
    cbn; destruct (files w (LocalSource.vaultPath ls)); try reflexivity;
    contradiction.
Qed.

Lemma get_run w es identity name c created now v i :
  keyed ls identity w ->
  LocalSource.readVault ls w = (Ok (VArray es), w) ->
  LocalSource.findIndex name es = Ok (Some i) ->
  nth i es VNull = LocalSource.newEntry name c created now None ->
  age_decrypt identity c = Ok v ->
  exists cr,
    LocalSource.get ls name w = (Ok (Some cr), w)
    /\ cred_value cr = v
    /\ createdAt cr = created
    /\ updatedAt cr = Some (VString (Date.toISOString now)).
Proof.
  intros [Ki _] Hr Hx Hn Hd.
  unfold LocalSource.get. erewrite bind_run by exact Hr.
  cbn [LocalSource.as_array]. rewrite bind_lift, Hx, bind_lift.
  erewrite bind_run by exact Ki. rewrite Hn, newEntry_encrypted, bind_lift.
  unfold AgeProvider.decrypt. rewrite Hd, bind_lift.
  eexists. split; [reflexivity|]. destruct created; repeat split.
Qed.

Lemma list_run w es :
  LocalSource.readVault ls w = (Ok (VArray es), w) ->
  Forall entry_ok es ->
  exists mds,
    LocalSource.list ls w = (Ok mds, w)
    /\ map (fun md => Some (md_name md)) mds = map entry_name es.
Proof.
  intros Hr Hall. unfold LocalSource.list. erewrite bind_run by exact Hr.
  cbn [LocalSource.as_array]. rewrite bind_lift.
  clear Hr. induction Hall as [|e r He Hrest IH].
  - exists []. split; reflexivity.
  - destruct He as (n & md & Hn & Hm & Hmd). destruct IH as (mds & Hl & Hnames).
    exists (md :: mds). cbn [LocalSource.map_result]. rewrite Hm.
    unfold lift_result in Hl.
    destruct (LocalSource.map_result LocalSource.metadata_of r) as [bs|x];
      [|discriminate].
    injection Hl as ->. split; [reflexivity|].
    cbn [map]. rewrite Hnames, Hmd, Hn. reflexivity.
Qed.

(** The world [set] leaves, seen at any later time. *)
Lemma written_world w es' identity n t :
  LocalSource.vaultPath ls <> LocalSource.identityPath ls ->
  LocalSource.vaultPath ls <> LocalSource.recipientPath ls ->
  keyed ls identity w ->
  vault_ok es' ->
  let w' := set_clock t
              (put_file (LocalSource.vaultPath ls) (File (stringify (VArray es')))
                 (set_entropy n w)) in
  keyed ls identity w'
  /\ files w' (LocalSource.vaultPath ls) <> Unreadable
  /\ LocalSource.readVault ls w' = (Ok (VArray es'), w').
Proof.
  intros Hi Hr Hk (Hw & _ & _) w'.
  assert (Hv : files w' (LocalSource.vaultPath ls) = File (stringify (VArray es')))
    by apply put_file_same.
  split; [|split].
  - apply (keyed_files identity w w'); [| |exact Hk].
    + apply (put_file_other _ _ _ (set_entropy n w) Hi).
    + apply (put_file_other _ _ _ (set_entropy n w) Hr).
  - rewrite Hv. discriminate.
  - apply readVault_written; assumption.
Qed.

(** One [set] on a well-kept vault: the record of the name afterwards. *)
Lemma set_step w es identity name v :
  LocalSource.vaultPath ls <> LocalSource.identityPath ls ->
  LocalSource.vaultPath ls <> LocalSource.recipientPath ls ->
  files w (LocalSource.vaultPath ls) <> Unreadable ->
  keyed ls identity w ->
  LocalSource.readVault ls w = (Ok (VArray es), w) ->
  vault_ok es ->
  exists c w1 created i,
    LocalSource.set ls name v None w = (Ok tt, w1)
    /\ vault_ok (stored name c (clock w) es)
    /\ LocalSource.findIndex name (stored name c (clock w) es) = Ok (Some i)
    /\ nth i (stored name c (clock w) es) VNull
       = LocalSource.newEntry name c created (clock w) None
    /\ (forall t,
          keyed ls identity (set_clock t w1)
          /\ files (set_clock t w1) (LocalSource.vaultPath ls) <> Unreadable
          /\ LocalSource.readVault ls (set_clock t w1)
             = (Ok (VArray (stored name c (clock w) es)), set_clock t w1)
          /\ exists cr,
               LocalSource.get ls name (set_clock t w1)
               = (Ok (Some cr), set_clock t w1)
               /\ cred_value cr = v
               /\ createdAt cr = created
               /\ updatedAt cr = Some (VString (Date.toISOString (clock w))))
    /\ match LocalSource.findIndex name es with
       | Ok (Some j) => created = LocalSource.createdAt_of (nth j es VNull)
       | _ => created = Some (VString (Date.toISOString (clock w)))
       end.
Proof.
  intros Hi Hr Hf Hk Hread Hok.
  destruct (set_run w es identity name v Hk Hread (proj1 (proj2 Hok)) Hf)
    as (c & Hc & Hset).
  pose proof (stored_ok name c (clock w) es Hok) as Hok'.
  destruct (stored_found name c (clock w) es (proj1 (proj2 Hok)))
    as (i & created & Hx & Hn & Hcreated).
  exists c. eexists. exists created, i.
  split; [exact Hset|]. split; [exact Hok'|]. split; [exact Hx|].
  split; [exact Hn|]. split; [|exact Hcreated].
  intros t.
  destruct (written_world w (stored name c (clock w) es) identity
              (N.succ (entropy w)) t Hi Hr Hk Hok') as (Hk' & Hf' & Hread').
  split; [exact Hk'|]. split; [exact Hf'|]. split; [exact Hread'|].
  eapply get_run; [exact Hk'|exact Hread'|exact Hx|exact Hn|].
  eapply age_roundtrip. exact Hc.
Qed.

End Methods.

End StoreRuns.

(** C2.  On a well-kept vault whose key files are in place, [set name v1]
    and, at any later time [t2], [set name v2] both succeed.  After them
    [list] reports exactly one record named [name], [get name] gives the
    value [v2], the [createdAt] of the record is the one it had after the
    first [set], and its [updatedAt] is the time of the second [set]. *)
Theorem set_twice_keeps_one_record `{C : AgeContract} (ls : LocalSource.t)
    (w0 : World) (es : list JSON.value) (identity name v1 v2 : string) (t2 : Z) :
  LocalSource.vaultPath ls <> LocalSource.identityPath ls ->
  LocalSource.vaultPath ls <> LocalSource.recipientPath ls ->
  files w0 (LocalSource.vaultPath ls) <> Unreadable ->
  StoreStmt.keyed ls identity w0 ->
  LocalSource.readVault ls w0 = (Ok (JSON.VArray es), w0) ->
  StoreStmt.vault_ok es ->
  exists w1 c1 w2 c2 mds,
    LocalSource.set ls name v1 None w0 = (Ok tt, w1)
    /\ LocalSource.get ls name w1 = (Ok (Some c1), w1)
    /\ cred_value c1 = v1
    /\ LocalSource.set ls name v2 None (set_clock t2 w1) = (Ok tt, w2)
    /\ LocalSource.list ls w2 = (Ok mds, w2)
    /\ length (StoreStmt.records_named name mds) = 1%nat
    /\ LocalSource.get ls name w2 = (Ok (Some c2), w2)
    /\ cred_value c2 = v2
    /\ StoreStmt.createdAt c2 = StoreStmt.createdAt c1
    /\ StoreStmt.updatedAt c2 = Some (JSON.VString (Date.toISOString t2))
    /\ (LocalSource.findIndex name es = Ok None ->
        StoreStmt.createdAt c1
        = Some (JSON.VString (Date.toISOString (clock w0)))).
Proof.
  intros Hi Hr Hf Hk Hread Hok.
  destruct (StoreRuns.set_step ls w0 es identity name v1 Hi Hr Hf Hk Hread Hok)
    as (e1 & w1 & created1 & i1 & Hset1 & Hok1 & Hx1 & Hn1 & Hafter1 & Hcreated1).
  destruct (Hafter1 t2) as (Hk1 & Hf1 & Hread1 & _).
  destruct (Hafter1 (clock w1)) as (_ & _ & _ & c1 & Hget1 & Hv1 & Hc1 & _).
  destruct (StoreRuns.set_step ls (set_clock t2 w1) _ identity name v2
              Hi Hr Hf1 Hk1 Hread1 Hok1)
    as (e2 & w2 & created2 & i2 & Hset2 & Hok2 & Hx2 & Hn2 & Hafter2 & Hcreated2).
  destruct (Hafter2 (clock w2)) as (_ & _ & Hread2 & c2 & Hget2 & Hv2 & Hc2 & Hu2).
  assert (Hw1 : set_clock (clock w1) w1 = w1) by (destruct w1; reflexivity).
  assert (Hw2 : set_clock (clock w2) w2 = w2) by (destruct w2; reflexivity).
  rewrite Hw1 in Hget1. rewrite Hw2 in Hread2, Hget2.
  destruct (StoreRuns.list_run ls w2 _ Hread2 (proj1 (proj2 Hok2)))
    as (mds & Hlist & Hnames).
  exists w1, c1, w2, c2, mds.
  repeat (split; [assumption|]).
  split; [|split; [assumption|split; [assumption|split; [|split; [exact Hu2|]]]]].
  - apply StoreRuns.records_named_once.
    + rewrite Hnames. exact (proj2 (proj2 Hok2)).
    + rewrite Hnames.
      destruct (StoreFacts.findIndex_spec name _ (proj1 (proj2 Hok2)))
        as [[Hnone _]|(j & Hj & Hlt & Hnamed)].
      * rewrite Hx2 in Hnone. discriminate.
      * rewrite <- Hnamed. apply in_map, nth_In, Hlt.
  - rewrite Hc2, Hc1. rewrite Hx1, Hn1 in Hcreated2. rewrite Hcreated2.
    destruct created1; reflexivity.
  - intros Hnew. rewrite Hnew in Hcreated1. rewrite Hc1. exact Hcreated1.
Qed.

Module StoreWitness.

Import Examples.

(** The toy encryption keeps the promise of the capability. *)
Lemma toy_contract : @AgeContract ToyAge.
Proof.
  split.
  - intros identity seed plaintext. eexists. reflexivity.
  - intros identity seed plaintext c E.
    change (Ok (toy_recipient identity ++ ":" ++ plaintext) = Ok c) in E.
    injection E as <-.
    change (toy_decrypt identity (toy_recipient identity ++ ":" ++ plaintext)
            = Ok plaintext).
    unfold toy_decrypt.
    rewrite <- StrFacts.append_assoc, StrFacts.strip_prefix_append. reflexivity.
Qed.

(** A global vault that holds one record already; [API_KEY] is set twice,
    a minute apart. *)
Lemma set_twice_keeps_one_record_witness :
  let ls := Scenario.global_source in
  let w0 := Scenario.holding ls "OTHER" "x"
              (Scenario.initialised ls (Scenario.project Absent)) in
  let es := StoreStmt.stored "OTHER" "age1000007:x" 1764584430123%Z [] in
  (LocalSource.readVault ls w0 = (Ok (JSON.VArray es), w0)
   /\ StoreStmt.vault_ok es)
  /\ exists w1 c1 w2 c2 mds,
       LocalSource.set ls "API_KEY" "one" None w0 = (Ok tt, w1)
       /\ LocalSource.get ls "API_KEY" w1 = (Ok (Some c1), w1)
       /\ cred_value c1 = "one"
       /\ LocalSource.set ls "API_KEY" "two" None (set_clock 1764584490123%Z w1)
          = (Ok tt, w2)
       /\ LocalSource.list ls w2 = (Ok mds, w2)
       /\ length (StoreStmt.records_named "API_KEY" mds) = 1%nat
       /\ LocalSource.get ls "API_KEY" w2 = (Ok (Some c2), w2)
       /\ cred_value c2 = "two"
       /\ StoreStmt.createdAt c2 = StoreStmt.createdAt c1
       /\ StoreStmt.updatedAt c2
          = Some (JSON.VString (Date.toISOString 1764584490123%Z))
       /\ (LocalSource.findIndex "API_KEY" es = Ok None ->
           StoreStmt.createdAt c1
           = Some (JSON.VString (Date.toISOString (clock w0)))).
Proof.
  intros ls w0 es.
  assert (Hv : LocalSource.readVault ls w0 = (Ok (JSON.VArray es), w0)).
  { apply readonly_pair; [apply ReadFacts.readonly_readVault|].
    vm_compute. reflexivity. }
  assert (Hok : StoreStmt.vault_ok es).
  { apply StoreFacts.stored_ok. split; [exact I|]. split; constructor. }
  split; [split; assumption|].
  apply (@set_twice_keeps_one_record ToyAge toy_contract ls w0 es
           "AGE-SECRET-KEY-000007" "API_KEY" "one" "two" 1764584490123%Z).
  - discriminate.
  - discriminate.
  - vm_compute. discriminate.
  - split; (apply readonly_pair;
            [first [apply ReadFacts.readonly_loadIdentity
                   |apply ReadFacts.readonly_loadRecipient]
            |vm_compute; reflexivity]).
  - exact Hv.
  - exact Hok.
Defined.

End StoreWitness.
(** ** The vault store: deleting a record *)

Module DeleteFacts.

Import Str JSON JsonStmt StoreStmt StoreMore StrFacts MonadFacts StoreFacts StoreRuns.

Local Abbreviation list := Datatypes.list.

Lemma Forall_remove_at {P : value -> Prop} i es :
  Forall P es -> Forall P (LocalSource.remove_at i es).
Proof.
  intros Hall. revert i. induction Hall as [|e r He Hr IH]; intros [|i]; cbn; auto.
Qed.

Lemma In_remove_at {A} (f : value -> A) x i es :
  In x (map f (LocalSource.remove_at i es)) -> In x (map f es).
Proof.
  revert i. induction es as [|e r IH]; intros [|i]; cbn; auto.
  intros [E|Hin]; eauto.
Qed.

Lemma NoDup_remove_at {A} (f : value -> A) i es :
  NoDup (map f es) -> NoDup (map f (LocalSource.remove_at i es)).
Proof.
  revert i. induction es as [|e r IH]; intros [|i] Hnd; cbn; auto;
    inversion Hnd as [|x l Hx Hl]; subst; auto.
  constructor; [|apply IH, Hl]. intros Hin. apply Hx. eapply In_remove_at, Hin.
Qed.

(** The records left when the record of [name] is taken out. *)
Lemma remove_at_found name es i :
  Forall entry_ok es -> NoDup (map entry_name es) ->
  LocalSource.findIndex name es = Ok (Some i) ->
  ~ In (Some name) (map entry_name (LocalSource.remove_at i es)).
Proof.
  intros Hall. revert i. induction Hall as [|e r He Hr IH]; intros i Hnd Hf.
  - discriminate Hf.
  - destruct (entry_ok_named name e He) as (n & Hn & Hnamed).
    cbn [LocalSource.findIndex] in Hf. rewrite Hnamed in Hf.
    inversion Hnd as [|x l Hx Hl]; subst.
    destruct (String.eqb_spec n name) as [E|Hne].
    + subst n. injection Hf as <-. cbn. rewrite <- Hn. exact Hx.
    + destruct (LocalSource.findIndex name r) as [[j|]|] eqn:Ef; try discriminate.
      injection Hf as <-. cbn. intros [E|Hin].
      * rewrite Hn in E. injection E as E. contradiction.
      * exact (IH j Hl eq_refl Hin).
Qed.

Lemma remove_at_ok es i : vault_ok es -> vault_ok (LocalSource.remove_at i es).
Proof.
  intros (Hw & Hall & Hnd). cbn [writable] in Hw.
  apply JsonRoundTrip.fold_writable_Forall in Hw.
  split; [|split].
  - cbn [writable]. apply JsonRoundTrip.fold_writable_Forall.
    apply Forall_remove_at, Hw.
  - apply Forall_remove_at, Hall.
  - apply NoDup_remove_at, Hnd.
Qed.

Lemma listed_names es mds :
  Forall entry_ok es ->
  LocalSource.map_result LocalSource.metadata_of es = Ok mds ->
  map (fun md => Some (md_name md)) mds = map entry_name es.
Proof.
  intros Hall. revert mds. induction Hall as [|e r He Hr IH]; intros mds Hm.
  - injection Hm as <-. reflexivity.
  - destruct He as (n & md & Hn & Hmd & Hname).
    cbn [LocalSource.map_result] in Hm. rewrite Hmd in Hm.
    destruct (LocalSource.map_result LocalSource.metadata_of r) as [bs|x];
      [|discriminate].
    injection Hm as <-. cbn [map]. rewrite (IH bs eq_refl), Hname, Hn. reflexivity.
Qed.

Lemma filter_all_other name mds :
  ~ In (Some name) (map (fun md => Some (md_name md)) mds) ->
  filter (other_than name) mds = mds.
Proof.
  induction mds as [|md r IH]; cbn [map filter]; intros Hnot; [reflexivity|].
  unfold other_than at 1.
  destruct (String.eqb_spec (md_name md) name) as [E|Hne].
  - exfalso. apply Hnot. left. rewrite E. reflexivity.
  - cbn. f_equal. apply IH. intros Hin. apply Hnot. right. exact Hin.
Qed.

Lemma listed_after_remove name es i mds :
  Forall entry_ok es -> NoDup (map entry_name es) ->
  LocalSource.findIndex name es = Ok (Some i) ->
  LocalSource.map_result LocalSource.metadata_of es = Ok mds ->
  LocalSource.map_result LocalSource.metadata_of (LocalSource.remove_at i es)
  = Ok (filter (other_than name) mds).
Proof.
  intros Hall. revert i mds.
  induction Hall as [|e r He Hr IH]; intros i mds Hnd Hf Hm.
  - discriminate Hf.
  - destruct He as (n & md & Hn & Hmd & Hname).
    pose proof (named_entry name e n Hn) as Hnamed.
    cbn [LocalSource.findIndex] in Hf. rewrite Hnamed in Hf.
    cbn [LocalSource.map_result] in Hm. rewrite Hmd in Hm.
    destruct (LocalSource.map_result LocalSource.metadata_of r) as [bs|x] eqn:Er;
      [|discriminate].
    injection Hm as <-.
    inversion Hnd as [|x l Hx Hl]; subst x l.
    cbn [filter]. unfold other_than at 1. rewrite Hname.
    destruct (String.eqb_spec n name) as [E|Hne].
    + injection Hf as <-. cbn [LocalSource.remove_at negb].
      rewrite filter_all_other; [exact Er|].
      rewrite (listed_names r bs Hr Er). rewrite <- E, <- Hn. exact Hx.
    + destruct (LocalSource.findIndex name r) as [[j|]|] eqn:Ef; try discriminate.
      injection Hf as <-. cbn [LocalSource.remove_at negb LocalSource.map_result].
      rewrite Hmd, (IH j bs Hl eq_refl eq_refl). reflexivity.
Qed.

Section Methods.
Context `{AgeLibrary}.
Variable ls : LocalSource.t.

(** [list] on a vault of well-formed records. *)
Lemma list_all w es :
  LocalSource.readVault ls w = (Ok (VArray es), w) ->
  Forall entry_ok es ->
  exists mds,
    LocalSource.map_result LocalSource.metadata_of es = Ok mds
    /\ LocalSource.list ls w = (Ok mds, w).
Proof.
  intros Hr Hall.
  assert (Hm : exists mds,
             LocalSource.map_result LocalSource.metadata_of es = Ok mds).
  { clear Hr. induction Hall as [|e r (n & md & _ & Hmd & _) Hrest IH].
    - exists []. reflexivity.
    - destruct IH as (bs & Hbs). exists (md :: bs).
      cbn [LocalSource.map_result]. rewrite Hmd, Hbs. reflexivity. }
  destruct Hm as (mds & Hm). exists mds. split; [exact Hm|].
  unfold LocalSource.list. erewrite bind_run by exact Hr.
  cbn [LocalSource.as_array]. rewrite bind_lift, Hm. reflexivity.
Qed.

Lemma get_missing w es name :
  LocalSource.readVault ls w = (Ok (VArray es), w) ->
  LocalSource.findIndex name es = Ok None ->
  LocalSource.get ls name w = (Ok None, w).
Proof.
  intros Hr Hx. unfold LocalSource.get. erewrite bind_run by exact Hr.
  cbn [LocalSource.as_array]. rewrite bind_lift, Hx, bind_lift. reflexivity.
Qed.

Lemma delete_missing w es name :
  LocalSource.readVault ls w = (Ok (VArray es), w) ->
  LocalSource.findIndex name es = Ok None ->
  LocalSource.delete ls name w = (Ok false, w).
Proof.
  intros Hr Hx. unfold LocalSource.delete. erewrite bind_run by exact Hr.
  cbn [LocalSource.as_array]. rewrite bind_lift, Hx, bind_lift. reflexivity.
Qed.

Lemma delete_found w es name i :
  LocalSource.readVault ls w = (Ok (VArray es), w) ->
  LocalSource.findIndex name es = Ok (Some i) ->
  files w (LocalSource.vaultPath ls) <> Unreadable ->
  LocalSource.delete ls name w
  = (Ok true,
     put_file (LocalSource.vaultPath ls)
       (File (stringify (VArray (LocalSource.remove_at i es)))) w).
Proof.
  intros Hr Hx Hf. unfold LocalSource.delete. erewrite bind_run by exact Hr.
  cbn [LocalSource.as_array]. rewrite bind_lift, Hx, bind_lift.
  unfold LocalSource.writeVault, fs.ensureDir, fs.writeFile, bind, ret.
  destruct (files w (LocalSource.vaultPath ls)); try reflexivity. contradiction.
Qed.

End Methods.

End DeleteFacts.

(** The scene of a vault with two records. *)

Module SceneFacts.

Import Examples.

(** A vault that holds [OTHER] and [API_KEY]. *)
Lemma two_records :
  let ls := Scenario.global_source in
  let w := ScenarioMore.two in
  LocalSource.readVault ls w = (Ok (JSON.VArray ScenarioMore.two_records), w)
  /\ StoreStmt.vault_ok ScenarioMore.two_records.
Proof.
  split.
  - apply readonly_pair; [apply ReadFacts.readonly_readVault|].
    vm_compute. reflexivity.
  - do 2 apply StoreFacts.stored_ok. split; [exact I|]. split; constructor.
Qed.

End SceneFacts.

(** X1.  On a well-kept vault, [delete name] answers [true] exactly when the
    vault lists the name.  It then rewrites the vault file only: [get name]
    finds nothing afterwards and [list] gives the former records without
    that one, in their order.  For a name the vault does not list, it
    answers [false] and writes nothing. *)
Theorem delete_removes_record `{AgeLibrary} (ls : LocalSource.t) (w : World)
    (es : list JSON.value) (name : string) :
  files w (LocalSource.vaultPath ls) <> Unreadable ->
  LocalSource.readVault ls w = (Ok (JSON.VArray es), w) ->
  StoreStmt.vault_ok es ->
  exists mds,
    LocalSource.list ls w = (Ok mds, w)
    /\ (In name (map md_name mds) ->
        exists w',
          LocalSource.delete ls name w = (Ok true, w')
          /\ LocalSource.get ls name w' = (Ok None, w')
          /\ LocalSource.list ls w'
             = (Ok (filter (StoreMore.other_than name) mds), w')
          /\ forall p, p <> LocalSource.vaultPath ls -> files w' p = files w p)
    /\ (~ In name (map md_name mds) ->
        LocalSource.delete ls name w = (Ok false, w)).
Proof.
  intros Hf Hr Hok. pose proof Hok as (Hw & Hall & Hnd).
  destruct (DeleteFacts.list_all ls w es Hr Hall) as (mds & Hm & Hl).
  pose proof (DeleteFacts.listed_names es mds Hall Hm) as Hnames.
  assert (Hin : forall n, In n (map md_name mds)
                          <-> In (Some n) (map StoreStmt.entry_name es)).
  { intros n. rewrite <- Hnames, !in_map_iff. split.
    - intros (md & E & Hmd). exists md. split; [congruence|exact Hmd].
    - intros (md & E & Hmd). exists md. split; [congruence|exact Hmd]. }
  exists mds. split; [exact Hl|]. split.
  - intros Hname. apply Hin in Hname.
    destruct (StoreFacts.findIndex_spec name es Hall)
      as [[_ Hnot]|(i & Hx & _ & _)]; [contradiction|].
    pose proof (DeleteFacts.remove_at_ok es i Hok) as Hok'.
    eexists. split; [exact (DeleteFacts.delete_found ls w es name i Hr Hx Hf)|].
    set (w' := put_file _ _ w).
    assert (Hr' : LocalSource.readVault ls w'
                  = (Ok (JSON.VArray (LocalSource.remove_at i es)), w')).
    { apply StoreRuns.readVault_written; [apply StoreRuns.put_file_same|].
      exact (proj1 Hok'). }
    split; [|split].
    + apply (DeleteFacts.get_missing ls w' _ name Hr').
      destruct (StoreFacts.findIndex_spec name _ (proj1 (proj2 Hok')))
        as [[Hnone _]|(j & _ & Hlt & Hnamed)]; [exact Hnone|].
      exfalso. apply (DeleteFacts.remove_at_found name es i Hall Hnd Hx).
      rewrite <- Hnamed. apply in_map, nth_In, Hlt.
    + unfold LocalSource.list. erewrite MonadFacts.bind_run by exact Hr'.
      cbn [LocalSource.as_array]. rewrite StoreRuns.bind_lift.
      rewrite (DeleteFacts.listed_after_remove name es i mds Hall Hnd Hx Hm).
      reflexivity.
    + intros p Hp. apply StoreRuns.put_file_other. congruence.
  - intros Hname. rewrite Hin in Hname.
    destruct (StoreFacts.findIndex_spec name es Hall)
      as [[Hx _]|(i & _ & Hlt & Hnamed)].
    + exact (DeleteFacts.delete_missing ls w es name Hr Hx).
    + exfalso. apply Hname. rewrite <- Hnamed. apply in_map, nth_In, Hlt.
Qed.

Module DeleteRuns.

Import Examples.

Lemma delete_removes_record_witness :
  let ls := Scenario.global_source in
  let w := ScenarioMore.two in
  files w (LocalSource.vaultPath ls) <> Unreadable
  /\ exists mds,
       LocalSource.list ls w = (Ok mds, w)
       /\ map md_name mds = ["OTHER"; "API_KEY"]
       /\ exists w',
            LocalSource.delete ls "API_KEY" w = (Ok true, w')
            /\ LocalSource.get ls "API_KEY" w' = (Ok None, w')
            /\ LocalSource.list ls w'
               = (Ok (filter (StoreMore.other_than "API_KEY") mds), w').
Proof.
  intros ls w.
  assert (Hf : files w (LocalSource.vaultPath ls) <> Unreadable)
    by (vm_compute; discriminate).
  split; [exact Hf|].
  destruct (@delete_removes_record ToyAge ls w _ "API_KEY" Hf
              (proj1 SceneFacts.two_records) (proj2 SceneFacts.two_records))
    as (mds & Hl & Hyes & _).
  assert (Hn : map md_name mds = ["OTHER"; "API_KEY"]).
  { assert (E : fst (LocalSource.list ls w) = Ok mds) by (rewrite Hl; reflexivity).
    vm_compute in E. injection E as <-. reflexivity. }
  exists mds. split; [exact Hl|]. split; [exact Hn|].
  destruct Hyes as (w' & Hd & Hg & Hl' & _).
  { rewrite Hn. right. left. reflexivity. }
  exists w'. auto.
Defined.

End DeleteRuns.
(** ** The vault store: what [set] leaves alone *)

Module SetFacts.

Import Str JSON JsonStmt StoreStmt StoreMore StrFacts MonadFacts StoreFacts StoreRuns.

Local Abbreviation list := Datatypes.list.

Lemma findIndex_other_replace name other new es i :
  Forall entry_ok es -> other <> name ->
  LocalSource.findIndex name es = Ok (Some i) ->
  entry_name new = Some name ->
  LocalSource.findIndex other (LocalSource.replace_at i new es)
  = LocalSource.findIndex other es
  /\ forall j, LocalSource.findIndex other es = Ok (Some j) ->
               nth j (LocalSource.replace_at i new es) VNull = nth j es VNull.
Proof.
  intros Hall Hne. revert i. induction Hall as [|e r He Hr IH]; intros i Hf Hnew.
  - discriminate Hf.
  - destruct He as (n & md & Hn & _ & _).
    pose proof (named_entry name e n Hn) as Hnamed.
    pose proof (named_entry other e n Hn) as Hother.
    cbn [LocalSource.findIndex] in Hf |- *. rewrite Hnamed in Hf. rewrite Hother.
    destruct (String.eqb_spec n name) as [E|Hn'].
    + injection Hf as <-. cbn [LocalSource.replace_at LocalSource.findIndex].
      rewrite (named_entry other new name Hnew).
      subst n. destruct (String.eqb_spec name other) as [E|_]; [congruence|].
      split; [reflexivity|].
      intros j Hj. destruct (LocalSource.findIndex other r) as [[k|]|];
        try discriminate. injection Hj as <-. reflexivity.
    + destruct (LocalSource.findIndex name r) as [[k|]|] eqn:Ef; try discriminate.
      injection Hf as <-. cbn [LocalSource.replace_at LocalSource.findIndex].
      rewrite Hother. destruct (IH k eq_refl Hnew) as (H1 & H2). rewrite H1.
      split; [reflexivity|].
      intros j Hj. destruct (String.eqb n other).
      * injection Hj as <-. reflexivity.
      * destruct (LocalSource.findIndex other r) as [[m|]|]; try discriminate.
        injection Hj as <-. cbn [nth]. apply H2. reflexivity.
Qed.

Lemma findIndex_other_push name other new es :
  Forall entry_ok es -> other <> name ->
  entry_name new = Some name ->
  LocalSource.findIndex other (es ++ [new])%list = LocalSource.findIndex other es
  /\ forall j, LocalSource.findIndex other es = Ok (Some j) ->
               nth j (es ++ [new])%list VNull = nth j es VNull.
Proof.
  intros Hall Hne Hnew. induction Hall as [|e r He Hr IH].
  - cbn. rewrite (named_entry other new name Hnew).
    destruct (String.eqb_spec name other) as [E|_]; [congruence|].
    split; [reflexivity|discriminate].
  - destruct He as (n & md & Hn & _ & _).
    pose proof (named_entry other e n Hn) as Hother.
    cbn [app LocalSource.findIndex]. rewrite Hother.
    destruct IH as (H1 & H2). rewrite H1. split; [reflexivity|].
    intros j Hj. destruct (String.eqb n other).
    + injection Hj as <-. reflexivity.
    + destruct (LocalSource.findIndex other r) as [[m|]|]; try discriminate.
      injection Hj as <-. cbn [nth]. apply H2. reflexivity.
Qed.

(** The record of another name stands where it stood. *)
Lemma stored_other name other c now es :
  Forall entry_ok es -> other <> name ->
  LocalSource.findIndex other (stored name c now es)
  = LocalSource.findIndex other es
  /\ forall j, LocalSource.findIndex other es = Ok (Some j) ->
               nth j (stored name c now es) VNull = nth j es VNull.
Proof.
  intros Hall Hne. unfold stored.
  destruct (findIndex_spec name es Hall) as [[Hf _]|(i & Hf & _ & _)]; rewrite Hf.
  - apply (findIndex_other_push name other _ es Hall Hne), newEntry_name.
  - apply (findIndex_other_replace name other _ es i Hall Hne Hf), newEntry_name.
Qed.

Lemma filter_push name (mds : list CredentialMetadata) md :
  md_name md = name ->
  filter (other_than name) (mds ++ [md])%list = filter (other_than name) mds.
Proof.
  intros E. rewrite filter_app. cbn. unfold other_than at 2.
  rewrite E, String.eqb_refl. cbn. apply app_nil_r.
Qed.

Lemma map_result_app {A B} (f : A -> Result B) l1 l2 b1 b2 :
  LocalSource.map_result f l1 = Ok b1 -> LocalSource.map_result f l2 = Ok b2 ->
  LocalSource.map_result f (l1 ++ l2)%list = Ok (b1 ++ b2)%list.
Proof.
  revert b1. induction l1 as [|a r IH]; intros b1 H1 H2.
  - injection H1 as <-. exact H2.
  - cbn [app LocalSource.map_result] in H1 |- *. destruct (f a); [|discriminate].
    destruct (LocalSource.map_result f r) as [bs|]; [|discriminate].
    injection H1 as <-. rewrite (IH bs eq_refl H2). reflexivity.
Qed.

(** The listing after [set]: the records of the other names are the same. *)
Lemma listed_after_stored name c now es mds :
  Forall entry_ok es ->
  LocalSource.map_result LocalSource.metadata_of es = Ok mds ->
  exists mds',
    LocalSource.map_result LocalSource.metadata_of (stored name c now es) = Ok mds'
    /\ filter (other_than name) mds' = filter (other_than name) mds.
Proof.
  intros Hall Hm. unfold stored.
  destruct (findIndex_spec name es Hall) as [[Hf _]|(i & Hf & _ & _)]; rewrite Hf.
  - destruct (newEntry_listed name c (Some (VString (Date.toISOString now))) now)
      as (md & Hmd & Hname).
    exists (mds ++ [md])%list. split.
    + apply map_result_app; [exact Hm|]. cbn [LocalSource.map_result].
      rewrite Hmd. reflexivity.
    + apply filter_push, Hname.
  - destruct (newEntry_listed name c
                (LocalSource.createdAt_of (nth i es VNull)) now) as (md & Hmd & Hname).
    set (new := LocalSource.newEntry name c _ now None) in *. clearbody new.
    clear - Hall Hm Hf Hmd Hname. revert i mds Hm Hf.
    induction Hall as [|e r He Hr IH]; intros i mds Hm Hf; [discriminate Hf|].
    destruct He as (n & md0 & Hn & Hmd0 & Hname0).
    pose proof (named_entry name e n Hn) as Hnamed.
    cbn [LocalSource.findIndex] in Hf. rewrite Hnamed in Hf.
    cbn [LocalSource.map_result] in Hm. rewrite Hmd0 in Hm.
    destruct (LocalSource.map_result LocalSource.metadata_of r) as [bs|x] eqn:Er;
      [|discriminate].
    injection Hm as <-.
    destruct (String.eqb_spec n name) as [E|Hne].
    + injection Hf as <-. exists (md :: bs).
      cbn [LocalSource.replace_at LocalSource.map_result]. rewrite Hmd, Er.
      split; [reflexivity|]. cbn [filter].
      assert (E1 : other_than name md = false)
        by (unfold other_than; rewrite Hname, String.eqb_refl; reflexivity).
      assert (E2 : other_than name md0 = false)
        by (unfold other_than; rewrite Hname0, E, String.eqb_refl; reflexivity).
      rewrite E1, E2. reflexivity.
    + destruct (LocalSource.findIndex name r) as [[j|]|] eqn:Ef; try discriminate.
      injection Hf as <-. destruct (IH j bs eq_refl eq_refl) as (bs' & H1 & H2).
      exists (md0 :: bs').
      cbn [LocalSource.replace_at LocalSource.map_result]. rewrite Hmd0, H1.
      split; [reflexivity|]. cbn [filter]. rewrite H2. reflexivity.
Qed.

Lemma fst_loadIdentity_files `{AgeLibrary} p w w' :
  files w' p = files w p ->
  fst (AgeProvider.loadIdentity p w') = fst (AgeProvider.loadIdentity p w).
Proof.
  unfold AgeProvider.loadIdentity, bind, fs.readFile. intros ->.
  destruct (files w p); try reflexivity.
  destruct (AgeProvider.key_line _ _); reflexivity.
Qed.

Section Methods.
Context `{AgeLibrary}.
Variable ls : LocalSource.t.

(** [set] with the recipient on file and an encryption that succeeds. *)
Lemma set_writes w es recipient name v c :
  AgeProvider.loadRecipient (LocalSource.recipientPath ls) w = (Ok recipient, w) ->
  age_encrypt recipient (entropy w) v = Ok c ->
  LocalSource.readVault ls w = (Ok (VArray es), w) ->
  Forall entry_ok es ->
  files w (LocalSource.vaultPath ls) <> Unreadable ->
  LocalSource.set ls name v None w
  = (Ok tt,
     put_file (LocalSource.vaultPath ls)
       (File (stringify (VArray (stored name c (clock w) es))))
       (set_entropy (N.succ (entropy w)) w)).
Proof.
  intros Kr Hc Hr Hall Hf.
  unfold LocalSource.set.
  erewrite bind_run by exact Hr. erewrite bind_run by exact Kr.
  unfold AgeProvider.encrypt, AgeProvider.fresh_entropy.
  unfold bind. cbn [fst snd]. unfold lift_result at 1. rewrite Hc.
  cbn [LocalSource.as_array lift_result].
  unfold stored, LocalSource.writeVault, fs.ensureDir, fs.writeFile, Date.now, bind.
  destruct (findIndex_spec name es Hall) as [[Hx _]|(i & Hx & _ & _)]; rewrite Hx;
    cbn; destruct (files w (LocalSource.vaultPath ls)); try reflexivity;
    contradiction.
Qed.

(** [get] sees the world through the vault and the identity file. *)
Lemma get_same w w' es es' name :
  LocalSource.readVault ls w = (Ok (VArray es), w) ->
  LocalSource.readVault ls w' = (Ok (VArray es'), w') ->
  LocalSource.findIndex name es' = LocalSource.findIndex name es ->
  (forall j, LocalSource.findIndex name es = Ok (Some j) ->
             nth j es' VNull = nth j es VNull) ->
  files w' (LocalSource.identityPath ls) = files w (LocalSource.identityPath ls) ->
  fst (LocalSource.get ls name w') = fst (LocalSource.get ls name w).
Proof.
  intros Hr Hr' Hx Hn Hi. unfold LocalSource.get.
  rewrite (bind_run _ _ _ _ _ Hr), (bind_run _ _ _ _ _ Hr').
  cbn [LocalSource.as_array]. rewrite !bind_lift, Hx.
  destruct (LocalSource.findIndex name es) as [[j|]|] eqn:Ef; try reflexivity.
  rewrite !bind_lift, (Hn j eq_refl).
  pose proof (fst_loadIdentity_files (LocalSource.identityPath ls) w w' Hi) as Hk.
  pose proof (ReadFacts.readonly_loadIdentity (LocalSource.identityPath ls) w) as R1.
  pose proof (ReadFacts.readonly_loadIdentity (LocalSource.identityPath ls) w') as R2.
  unfold bind at 1 5.
  destruct (AgeProvider.loadIdentity (LocalSource.identityPath ls) w) as [r1 v1].
  destruct (AgeProvider.loadIdentity (LocalSource.identityPath ls) w') as [r2 v2].
  cbn [fst snd] in *. subst r2 v1 v2. destruct r1 as [k|x]; [|reflexivity].
  unfold bind, lift_result, AgeProvider.decrypt.
  destruct (LocalSource.encryptedValue (nth j es VNull)) as [ct|]; [|reflexivity].
  cbn. destruct (age_decrypt k ct); [|reflexivity].
  cbn. destruct (prop "metadata" (nth j es VNull)); reflexivity.
Qed.

End Methods.

End SetFacts.

(** X2.  [set name v] on a well-kept vault, with the recipient on file and an
    encryption that succeeds, rewrites the vault file only and leaves the
    records of the other names as they were: [list] gives the same records
    for them, and [get] gives for every other name what it gave before. *)
Theorem set_keeps_other_records `{AgeLibrary} (ls : LocalSource.t) (w : World)
    (es : list JSON.value) (recipient name v c : string) :
  LocalSource.vaultPath ls <> LocalSource.identityPath ls ->
  files w (LocalSource.vaultPath ls) <> Unreadable ->
  AgeProvider.loadRecipient (LocalSource.recipientPath ls) w = (Ok recipient, w) ->
  age_encrypt recipient (entropy w) v = Ok c ->
  LocalSource.readVault ls w = (Ok (JSON.VArray es), w) ->
  StoreStmt.vault_ok es ->
  exists w' mds mds',
    LocalSource.set ls name v None w = (Ok tt, w')
    /\ LocalSource.list ls w = (Ok mds, w)
    /\ LocalSource.list ls w' = (Ok mds', w')
    /\ filter (StoreMore.other_than name) mds'
       = filter (StoreMore.other_than name) mds
    /\ (forall other, other <> name ->
          fst (LocalSource.get ls other w') = fst (LocalSource.get ls other w))
    /\ (forall p, p <> LocalSource.vaultPath ls -> files w' p = files w p).
Proof.
  intros Hi Hf Kr Hc Hr Hok. pose proof Hok as (Hw & Hall & Hnd).
  pose proof (SetFacts.set_writes ls w es recipient name v c Kr Hc Hr Hall Hf) as Hset.
  pose proof (StoreFacts.stored_ok name c (clock w) es Hok) as Hok'.
  destruct (DeleteFacts.list_all ls w es Hr Hall) as (mds & Hm & Hl).
  destruct (SetFacts.listed_after_stored name c (clock w) es mds Hall Hm)
    as (mds' & Hm' & Hsame).
  eexists. exists mds, mds'. split; [exact Hset|].
  set (w' := put_file _ _ _).
  assert (Hr' : LocalSource.readVault ls w'
                = (Ok (JSON.VArray (StoreStmt.stored name c (clock w) es)), w')).
  { apply StoreRuns.readVault_written; [apply StoreRuns.put_file_same|].
    exact (proj1 Hok'). }
  assert (Hfiles : forall p, p <> LocalSource.vaultPath ls -> files w' p = files w p).
  { intros p Hp. unfold w'. rewrite StoreRuns.put_file_other by congruence.
    reflexivity. }
  split; [exact Hl|]. split; [|split; [exact Hsame|split; [|exact Hfiles]]].
  - unfold LocalSource.list. erewrite MonadFacts.bind_run by exact Hr'.
    cbn [LocalSource.as_array]. rewrite StoreRuns.bind_lift, Hm'. reflexivity.
  - intros other Hne.
    destruct (SetFacts.stored_other name other c (clock w) es Hall Hne) as (H1 & H2).
    apply (SetFacts.get_same ls w w' es _ other Hr Hr' H1 H2).
    apply Hfiles. congruence.
Qed.

(** X3.  [set] needs the recipient only.  On a well-kept vault without an
    identity file, with the recipient on file and an encryption that
    succeeds, [set name v] stores the record: [list] reports the name once.
    [get name] then fails on the missing identity file. *)
Theorem set_needs_no_identity `{AgeLibrary} (ls : LocalSource.t) (w : World)
    (es : list JSON.value) (recipient name v c : string) :
  LocalSource.vaultPath ls <> LocalSource.identityPath ls ->
  files w (LocalSource.identityPath ls) = Absent ->
  files w (LocalSource.vaultPath ls) <> Unreadable ->
  AgeProvider.loadRecipient (LocalSource.recipientPath ls) w = (Ok recipient, w) ->
  age_encrypt recipient (entropy w) v = Ok c ->
  LocalSource.readVault ls w = (Ok (JSON.VArray es), w) ->
  StoreStmt.vault_ok es ->
  exists w' mds,
    LocalSource.set ls name v None w = (Ok tt, w')
    /\ LocalSource.list ls w' = (Ok mds, w')
    /\ length (StoreStmt.records_named name mds) = 1%nat
    /\ LocalSource.get ls name w'
       = (Throw (ENOENT (LocalSource.identityPath ls)), w').
Proof.
  intros Hi Ha Hf Kr Hc Hr Hok. pose proof Hok as (Hw & Hall & Hnd).
  pose proof (SetFacts.set_writes ls w es recipient name v c Kr Hc Hr Hall Hf) as Hset.
  pose proof (StoreFacts.stored_ok name c (clock w) es Hok) as Hok'.
  destruct (StoreFacts.stored_found name c (clock w) es Hall)
    as (i & created & Hx & Hn & _).
  eexists. set (w' := put_file _ _ _) in Hset.
  assert (Hr' : LocalSource.readVault ls w'
                = (Ok (JSON.VArray (StoreStmt.stored name c (clock w) es)), w')).
  { apply StoreRuns.readVault_written; [apply StoreRuns.put_file_same|].
    exact (proj1 Hok'). }
  destruct (StoreRuns.list_run ls w' _ Hr' (proj1 (proj2 Hok')))
    as (mds & Hl & Hnames).
  exists mds. split; [exact Hset|]. split; [exact Hl|]. split.
  - apply StoreRuns.records_named_once.
    + rewrite Hnames. exact (proj2 (proj2 Hok')).
    + rewrite Hnames.
      destruct (StoreFacts.findIndex_spec name _ (proj1 (proj2 Hok')))
        as [[Hnone _]|(j & _ & Hlt & Hnamed)].
      * rewrite Hx in Hnone. discriminate.
      * rewrite <- Hnamed. apply in_map, nth_In, Hlt.
  - unfold LocalSource.get. erewrite MonadFacts.bind_run by exact Hr'.
    cbn [LocalSource.as_array]. rewrite StoreRuns.bind_lift, Hx, StoreRuns.bind_lift.
    assert (Hk : files w' (LocalSource.identityPath ls) = Absent).
    { unfold w'. rewrite StoreRuns.put_file_other by exact Hi. exact Ha. }
    unfold AgeProvider.loadIdentity, fs.readFile, bind. rewrite Hk. reflexivity.
Qed.

Module SetRuns.

Import Examples.

Lemma set_keeps_other_records_witness :
  let ls := Scenario.global_source in
  let w := ScenarioMore.two in
  exists w' mds mds',
    LocalSource.set ls "API_KEY" "again" None w = (Ok tt, w')
    /\ LocalSource.list ls w = (Ok mds, w)
    /\ LocalSource.list ls w' = (Ok mds', w')
    /\ filter (StoreMore.other_than "API_KEY") mds'
       = filter (StoreMore.other_than "API_KEY") mds
    /\ fst (LocalSource.get ls "OTHER" w')
       = Ok (Some (mkCredential "OTHER" "x" "local"
                     (Some (JSON.VObject
                              [("name", JSON.VString "OTHER");
                               ("createdAt", JSON.VString "2025-12-01T10:20:30.123Z");
                               ("updatedAt", JSON.VString "2025-12-01T10:20:30.123Z")])))).
Proof.
  intros ls w.
  destruct (@set_keeps_other_records ToyAge ls w ScenarioMore.two_records
              "age1000007" "API_KEY" "again" "age1000007:again")
    as (w' & mds & mds' & Hset & Hl & Hl' & Hsame & Hget & _).
  - discriminate.
  - vm_compute. discriminate.
  - apply readonly_pair; [apply ReadFacts.readonly_loadRecipient|].
    vm_compute. reflexivity.
  - reflexivity.
  - exact (proj1 SceneFacts.two_records).
  - exact (proj2 SceneFacts.two_records).
  - exists w', mds, mds'. repeat (split; [assumption|]).
    rewrite (Hget "OTHER") by discriminate. vm_compute. reflexivity.
Defined.

Lemma set_needs_no_identity_witness :
  let ls := Scenario.global_source in
  let w := ScenarioMore.public_only in
  files w (LocalSource.identityPath ls) = Absent
  /\ exists w' mds,
       LocalSource.set ls "API_KEY" "one" None w = (Ok tt, w')
       /\ LocalSource.list ls w' = (Ok mds, w')
       /\ length (StoreStmt.records_named "API_KEY" mds) = 1%nat
       /\ LocalSource.get ls "API_KEY" w'
          = (Throw (ENOENT (LocalSource.identityPath ls)), w').
Proof.
  intros ls w. split; [reflexivity|].
  apply (@set_needs_no_identity ToyAge ls w [] "age1000007" "API_KEY" "one"
           "age1000007:one").
  - discriminate.
  - reflexivity.
  - vm_compute. discriminate.
  - apply readonly_pair; [apply ReadFacts.readonly_loadRecipient|].
    vm_compute. reflexivity.
  - reflexivity.
  - apply readonly_pair; [apply ReadFacts.readonly_readVault|].
    vm_compute. reflexivity.
  - split; [exact I|]. split; constructor.
Defined.

End SetRuns.
(** ** encryption/age.ts: the key files *)

Module KeyFileFacts.

Import Str JSON StoreStmt StoreMore StrFacts MonadFacts StoreRuns.

Local Abbreviation list := Datatypes.list.

Lemma ascii_eqb_sym (a b : ascii) : Ascii.eqb a b = Ascii.eqb b a.
Proof.
  destruct (Ascii.eqb_spec a b) as [->|Hne].
  - symmetry. apply Ascii.eqb_refl.
  - symmetry. apply Ascii.eqb_neq. congruence.
Qed.

Lemma includes_char_cons c a r :
  includes (String a r) (str1 c) = Ascii.eqb c a || includes r (str1 c).
Proof.
  cbn [includes startsWith str1]. destruct r; rewrite andb_true_r; reflexivity.
Qed.

Lemma includes_char_app c a b :
  includes (a ++ b) (str1 c) = includes a (str1 c) || includes b (str1 c).
Proof.
  induction a as [|x a IH].
  - cbn [append]. destruct b; reflexivity.
  - cbn [append]. rewrite !includes_char_cons, IH. apply orb_assoc.
Qed.

(** A text without the separator is one piece. *)
Lemma split_on_piece c s rest :
  includes s (str1 c) = false ->
  split_on c (s ++ String c rest) = s :: split_on c rest.
Proof.
  induction s as [|a s IH]; intros Hs.
  - cbn. rewrite Ascii.eqb_refl. reflexivity.
  - rewrite includes_char_cons in Hs. apply orb_false_iff in Hs as [Ha Hs].
    cbn [append split_on]. rewrite ascii_eqb_sym, Ha, (IH Hs). reflexivity.
Qed.

Lemma split_on_line c s rest :
  includes s (str1 c) = false ->
  split_on c (s ++ str1 c ++ rest) = s :: split_on c rest.
Proof. apply split_on_piece. Qed.

Lemma split_on_end c s :
  includes s (str1 c) = false -> split_on c (s ++ str1 c) = [s; ""].
Proof. intros Hs. apply (split_on_piece c s "" Hs). Qed.

Lemma split_on_last c s :
  includes s (str1 c) = false -> split_on c s = [s].
Proof.
  induction s as [|a s IH]; intros Hs; [reflexivity|].
  rewrite includes_char_cons in Hs. apply orb_false_iff in Hs as [Ha Hs].
  cbn [split_on]. rewrite ascii_eqb_sym, Ha, (IH Hs). reflexivity.
Qed.

(** *** A comment line is no key line *)

Lemma ws_prefix_hash r : ws_prefix (String "#" r) = None.
Proof. destruct r as [|b [|c r]]; reflexivity. Qed.

Lemma ws_suffix_keeps_hash u t :
  ws_suffix_rev (u ++ "#") = Some t -> exists u', t = u' ++ "#".
Proof.
  destruct u as [|a [|b [|c u]]]; unfold ws_suffix_rev; cbn [append].
  - cbn. discriminate.
  - destruct (ws1 (code a)).
    + intros E. injection E as <-. exists EmptyString. reflexivity.
    + cbn. discriminate.
  - destruct (ws1 (code a)).
    + intros E. injection E as <-. exists (str1 b). reflexivity.
    + destruct (ws2 (code b) (code a)).
      * intros E. injection E as <-. exists EmptyString. reflexivity.
      * cbn. discriminate.
  - destruct (ws1 (code a)).
    + intros E. injection E as <-. exists (String b (String c u)). reflexivity.
    + destruct (ws2 (code b) (code a)).
      * intros E. injection E as <-. exists (String c u). reflexivity.
      * destruct (ws3 (code c) (code b) (code a)); [|discriminate].
        intros E. injection E as <-. exists u. reflexivity.
Qed.

Lemma strip_keeps_hash fuel u :
  exists u', strip ws_suffix_rev fuel (u ++ "#") = u' ++ "#".
Proof.
  revert u. induction fuel as [|n IH]; intros u; cbn [strip]; [eauto|].
  destruct (ws_suffix_rev (u ++ "#")) as [t|] eqn:E; [|eauto].
  destruct (ws_suffix_keeps_hash u t E) as (u' & ->). apply IH.
Qed.

Lemma trim_hash r : exists r', trim (String "#" r) = String "#" r'.
Proof.
  unfold trim. rewrite StoreRuns.trimStart_id by apply ws_prefix_hash.
  unfold trimEnd. rewrite rev_cons. change (str1 "#") with "#".
  destruct (strip_keeps_hash (String.length (String "#" r)) (rev r)) as (u & ->).
  change "#" with (str1 "#"). rewrite rev_snoc. eauto.
Qed.

Lemma key_line_skip a tag r lines :
  Ascii.eqb a "#" = false ->
  AgeProvider.key_line (String a tag) (String "#" r :: lines)
  = AgeProvider.key_line (String a tag) lines.
Proof.
  intros Ha. cbn [AgeProvider.key_line].
  destruct (trim_hash r) as (r' & ->).
  cbn [startsWith]. rewrite Ha. reflexivity.
Qed.

Lemma key_line_hit tag key lines :
  key_text tag key -> AgeProvider.key_line tag (key :: lines) = Some key.
Proof.
  intros (Hs & Ht & _). cbn [AgeProvider.key_line]. rewrite Ht, Hs. reflexivity.
Qed.

(** *** A time stamp stands on one line *)

Lemma digit_char_no_LF d :
  (0 <= d < 10)%Z -> Ascii.eqb LF (Date.digit_char d) = false.
Proof.
  intros Hd.
  assert (E : (d = 0 \/ d = 1 \/ d = 2 \/ d = 3 \/ d = 4 \/ d = 5 \/ d = 6
               \/ d = 7 \/ d = 8 \/ d = 9)%Z) by lia.
  repeat destruct E as [E|E]; subst d; reflexivity.
Qed.

Lemma pad_no_LF width n : includes (Date.pad width n) (str1 LF) = false.
Proof.
  revert n. induction width as [|k IH]; intros n; [reflexivity|].
  cbn [Date.pad]. rewrite includes_char_app, IH.
  cbn [orb]. unfold str1 at 1. rewrite includes_char_cons.
  rewrite digit_char_no_LF; [reflexivity|].
  apply Z.mod_pos_bound. lia.
Qed.

Lemma year_no_LF y : includes (Date.year_string y) (str1 LF) = false.
Proof.
  unfold Date.year_string.
  destruct ((0 <=? y)%Z && (y <=? 9999)%Z); [apply pad_no_LF|].
  destruct (y <? 0)%Z; rewrite includes_char_app, pad_no_LF; reflexivity.
Qed.

Lemma toISOString_no_LF t : includes (Date.toISOString t) (str1 LF) = false.
Proof.
  unfold Date.toISOString. destruct (Date.civil _) as [[y m] d].
  repeat (rewrite includes_char_app;
          rewrite ?year_no_LF, ?pad_no_LF; cbn [orb]);
    reflexivity.
Qed.

(** *** Writing a key file and reading it back *)

Section Provider.
Context `{AgeLibrary}.

Lemma identity_lines now key :
  includes key (str1 LF) = false ->
  split_on LF ("# created: " ++ Date.toISOString now ++ AgeProvider.nl
               ++ "# SecretSage identity file" ++ AgeProvider.nl
               ++ "# public key: (run 'secretsage config --show' to see)"
               ++ AgeProvider.nl ++ key ++ AgeProvider.nl)
  = [ "# created: " ++ Date.toISOString now;
      "# SecretSage identity file";
      "# public key: (run 'secretsage config --show' to see)";
      key; "" ].
Proof.
  intros Hk. unfold AgeProvider.nl.
  rewrite <- (append_assoc "# created: ").
  rewrite split_on_line
    by (rewrite includes_char_app, toISOString_no_LF; reflexivity).
  rewrite split_on_line by reflexivity.
  rewrite split_on_line by reflexivity.
  rewrite split_on_end by exact Hk.
  reflexivity.
Qed.

Lemma recipient_lines key :
  includes key (str1 LF) = false ->
  split_on LF ("# SecretSage recipient (public key)" ++ AgeProvider.nl
               ++ "# Share this key to allow others to encrypt credentials for you"
               ++ AgeProvider.nl ++ key ++ AgeProvider.nl)
  = [ "# SecretSage recipient (public key)";
      "# Share this key to allow others to encrypt credentials for you";
      key; "" ].
Proof.
  intros Hk. unfold AgeProvider.nl.
  rewrite split_on_line by reflexivity.
  rewrite split_on_line by reflexivity.
  rewrite split_on_end by exact Hk.
  reflexivity.
Qed.

Lemma saveIdentity_run key p w :
  files w p <> Unreadable ->
  AgeProvider.saveIdentity key p w
  = (Ok tt,
     put_file p
       (File ("# created: " ++ Date.toISOString (clock w) ++ AgeProvider.nl
              ++ "# SecretSage identity file" ++ AgeProvider.nl
              ++ "# public key: (run 'secretsage config --show' to see)"
              ++ AgeProvider.nl ++ key ++ AgeProvider.nl)) w).
Proof.
  intros Hf. unfold AgeProvider.saveIdentity, fs.ensureDir, Date.now, fs.writeFile,
    bind, ret.
  destruct (files w p); try reflexivity. contradiction.
Qed.

Lemma saveRecipient_run key p w :
  files w p <> Unreadable ->
  AgeProvider.saveRecipient key p w
  = (Ok tt,
     put_file p
       (File ("# SecretSage recipient (public key)" ++ AgeProvider.nl
              ++ "# Share this key to allow others to encrypt credentials for you"
              ++ AgeProvider.nl ++ key ++ AgeProvider.nl)) w).
Proof.
  intros Hf. unfold AgeProvider.saveRecipient, fs.ensureDir, fs.writeFile, bind, ret.
  destruct (files w p); try reflexivity. contradiction.
Qed.

Lemma loadIdentity_saved key p now w :
  key_text "AGE-SECRET-KEY-" key ->
  files w p
  = File ("# created: " ++ Date.toISOString now ++ AgeProvider.nl
          ++ "# SecretSage identity file" ++ AgeProvider.nl
          ++ "# public key: (run 'secretsage config --show' to see)"
          ++ AgeProvider.nl ++ key ++ AgeProvider.nl) ->
  AgeProvider.loadIdentity p w = (Ok key, w).
Proof.
  intros Hk Hf. unfold AgeProvider.loadIdentity, fs.readFile, bind. rewrite Hf.
  rewrite identity_lines by apply Hk.
  change ("# created: " ++ Date.toISOString now)
    with (String "#" (" created: " ++ Date.toISOString now)).
  rewrite !key_line_skip by reflexivity.
  rewrite (key_line_hit _ _ _ Hk). reflexivity.
Qed.

Lemma loadRecipient_saved key p w :
  key_text "age1" key ->
  files w p
  = File ("# SecretSage recipient (public key)" ++ AgeProvider.nl
          ++ "# Share this key to allow others to encrypt credentials for you"
          ++ AgeProvider.nl ++ key ++ AgeProvider.nl) ->
  AgeProvider.loadRecipient p w = (Ok key, w).
Proof.
  intros Hk Hf. unfold AgeProvider.loadRecipient, fs.readFile, bind. rewrite Hf.
  rewrite recipient_lines by apply Hk.
  rewrite !key_line_skip by reflexivity.
  rewrite (key_line_hit _ _ _ Hk). reflexivity.
Qed.

End Provider.

End KeyFileFacts.

(** X4.  The key files read back what was saved.  For a private key that
    begins with [AGE-SECRET-KEY-], stands on one line and has no white space
    around it, [loadIdentity] after [saveIdentity] on a path that can be
    written returns that key, whatever the time stamp of the header; the
    same holds for a public key that begins with [age1], [saveRecipient]
    and [loadRecipient].  Each save writes its own file only. *)
Theorem key_files_round_trip (key p : string) (w : World) :
  files w p <> Unreadable ->
  (StoreMore.key_text "AGE-SECRET-KEY-" key ->
   exists w',
     AgeProvider.saveIdentity key p w = (Ok tt, w')
     /\ AgeProvider.loadIdentity p w' = (Ok key, w')
     /\ forall q, q <> p -> files w' q = files w q)
  /\ (StoreMore.key_text "age1" key ->
      exists w',
        AgeProvider.saveRecipient key p w = (Ok tt, w')
        /\ AgeProvider.loadRecipient p w' = (Ok key, w')
        /\ forall q, q <> p -> files w' q = files w q).
Proof.
  intros Hf. split; intros Hk; eexists; split.
  - apply KeyFileFacts.saveIdentity_run, Hf.
  - split.
    + eapply KeyFileFacts.loadIdentity_saved; [exact Hk|].
      apply StoreRuns.put_file_same.
    + intros q Hq. apply StoreRuns.put_file_other. congruence.
  - apply KeyFileFacts.saveRecipient_run, Hf.
  - split.
    + eapply KeyFileFacts.loadRecipient_saved; [exact Hk|].
      apply StoreRuns.put_file_same.
    + intros q Hq. apply StoreRuns.put_file_other. congruence.
Qed.

Module KeyFileRuns.

Lemma key_files_round_trip_witness :
  let w := Scenario.project Absent in
  (StoreMore.key_text "AGE-SECRET-KEY-" "AGE-SECRET-KEY-1QQQSZ"
   /\ exists w',
        AgeProvider.saveIdentity "AGE-SECRET-KEY-1QQQSZ" "/home/u/id.txt" w = (Ok tt, w')
        /\ AgeProvider.loadIdentity "/home/u/id.txt" w' = (Ok "AGE-SECRET-KEY-1QQQSZ", w'))
  /\ (StoreMore.key_text "age1" "age1qyqszqgp"
      /\ exists w',
           AgeProvider.saveRecipient "age1qyqszqgp" "/home/u/id.txt" w = (Ok tt, w')
           /\ AgeProvider.loadRecipient "/home/u/id.txt" w' = (Ok "age1qyqszqgp", w')).
Proof.
  intros w.
  assert (K1 : StoreMore.key_text "AGE-SECRET-KEY-" "AGE-SECRET-KEY-1QQQSZ")
    by (repeat split; vm_compute; reflexivity).
  assert (K2 : StoreMore.key_text "age1" "age1qyqszqgp")
    by (repeat split; vm_compute; reflexivity).
  assert (Hf : files w "/home/u/id.txt" <> Unreadable) by (vm_compute; discriminate).
  split.
  - split; [exact K1|].
    destruct (proj1 (key_files_round_trip "AGE-SECRET-KEY-1QQQSZ" "/home/u/id.txt" w Hf) K1)
      as (w' & Hs & Hl & _).
    exists w'. auto.
  - split; [exact K2|].
    destruct (proj2 (key_files_round_trip "age1qyqszqgp" "/home/u/id.txt" w Hf) K2)
      as (w' & Hs & Hl & _).
    exists w'. auto.
Defined.

End KeyFileRuns.
(** ** The vault store: a new vault *)

Module InitializeFacts.

Import Str JSON JsonStmt StoreStmt StoreMore StrFacts MonadFacts StoreRuns KeyFileFacts.

Local Abbreviation list := Datatypes.list.

Lemma put_file_readable p q n w :
  n <> Unreadable -> files w q <> Unreadable -> files (put_file p n w) q <> Unreadable.
Proof.
  intros Hn Hq. cbn. destruct (String.eqb q p); assumption.
Qed.

Section Methods.
Context `{AgeLibrary}.
Variable ls : LocalSource.t.

(** The text of the identity file [initialize] writes in [w]. *)
Lemma initialize_run w :
  files w (LocalSource.identityPath ls) <> Unreadable ->
  files w (LocalSource.recipientPath ls) <> Unreadable ->
  files w (LocalSource.vaultPath ls) <> Unreadable ->
  let identity := age_generateIdentity (entropy w) in
  let w1 := set_entropy (N.succ (entropy w)) w in
  let w2 :=
    put_file (LocalSource.identityPath ls)
      (File ("# created: " ++ Date.toISOString (clock w) ++ AgeProvider.nl
             ++ "# SecretSage identity file" ++ AgeProvider.nl
             ++ "# public key: (run 'secretsage config --show' to see)"
             ++ AgeProvider.nl ++ identity ++ AgeProvider.nl)) w1 in
  let w3 :=
    put_file (LocalSource.recipientPath ls)
      (File ("# SecretSage recipient (public key)" ++ AgeProvider.nl
             ++ "# Share this key to allow others to encrypt credentials for you"
             ++ AgeProvider.nl ++ age_identityToRecipient identity
             ++ AgeProvider.nl)) w2 in
  LocalSource.initialize ls w
  = (Ok tt, put_file (LocalSource.vaultPath ls) (File "[]") w3).
Proof.
  intros Hi Hr Hv identity w1 w2 w3.
  unfold LocalSource.initialize, AgeProvider.generateKeyPair,
    AgeProvider.fresh_entropy.
  unfold bind at 1. unfold bind at 1. cbn [ret fst snd].
  fold w1. fold identity.
  rewrite (bind_run _ _ _ _ _ (saveIdentity_run identity _ w1 Hi)).
  fold w2.
  assert (Hr2 : files w2 (LocalSource.recipientPath ls) <> Unreadable)
    by (apply put_file_readable; [discriminate|exact Hr]).
  rewrite (bind_run _ _ _ _ _ (saveRecipient_run _ _ w2 Hr2)).
  fold w3.
  assert (Hv3 : files w3 (LocalSource.vaultPath ls) <> Unreadable).
  { apply put_file_readable; [discriminate|].
    apply put_file_readable; [discriminate|exact Hv]. }
  unfold LocalSource.writeVault, fs.ensureDir, fs.writeFile, bind, ret.
  destruct (files w3 (LocalSource.vaultPath ls)); try reflexivity. contradiction.
Qed.

(** A credential [get] returns carries the name asked for. *)
Lemma get_Some w name c w' :
  LocalSource.get ls name w = (Ok (Some c), w') ->
  cred_name c = name /\ cred_source c = LocalSource.id.
Proof.
  unfold LocalSource.get, bind, lift_result, ret, throw, AgeProvider.decrypt.
  repeat match goal with
         | |- context [match ?x with _ => _ end] =>
             destruct x eqn:?; cbn; try discriminate
         | |- context [let (_, _) := ?x in _] =>
             destruct x eqn:?; cbn; try discriminate
         end.
  all: intros E; injection E as <- _; split; reflexivity.
Qed.

End Methods.

End InitializeFacts.

(** X5.  [initialize] makes a new, empty vault over whatever was there: when
    the three files of the source can be written, it succeeds, the source is
    available afterwards, [list] is empty and [get] finds no name, whatever
    the vault held before. *)
Theorem initialize_resets_vault `{AgeLibrary} (ls : LocalSource.t) (w : World) :
  files w (LocalSource.identityPath ls) <> Unreadable ->
  files w (LocalSource.recipientPath ls) <> Unreadable ->
  files w (LocalSource.vaultPath ls) <> Unreadable ->
  exists w',
    LocalSource.initialize ls w = (Ok tt, w')
    /\ files w' (LocalSource.vaultPath ls) = File "[]"
    /\ LocalSource.isAvailable ls w' = (Ok true, w')
    /\ LocalSource.list ls w' = (Ok [], w')
    /\ forall name, LocalSource.get ls name w' = (Ok None, w').
Proof.
  intros Hi Hr Hv. eexists.
  split; [exact (InitializeFacts.initialize_run ls w Hi Hr Hv)|].
  set (w' := put_file (LocalSource.vaultPath ls) _ _).
  assert (Hf : files w' (LocalSource.vaultPath ls) = File "[]")
    by apply StoreRuns.put_file_same.
  split; [exact Hf|]. split.
  - unfold LocalSource.isAvailable, try_catch, fs.pathExists.
    assert (Hid : files w' (LocalSource.identityPath ls) <> Absent).
    { unfold w'. cbn.
      destruct (String.eqb _ (LocalSource.vaultPath ls)); [discriminate|].
      destruct (String.eqb _ (LocalSource.recipientPath ls)); [discriminate|].
      rewrite String.eqb_refl. discriminate. }
    destruct (files w' (LocalSource.identityPath ls)); try reflexivity.
    contradiction.
  - apply VaultReadFacts.empty_vault.
    apply (StoreRuns.readVault_written ls w' [] Hf). exact I.
Qed.

(** X6.  A new vault works.  With three distinct files that can be written,
    an encryption library whose decryption inverts its encryption and whose
    keys come in the age text form, [initialize] followed by [set name v]
    and [get name] gives back [v]; [getPublicKey] gives the recipient of
    the identity that was generated. *)
Theorem new_vault_stores_and_returns `{C : AgeContract} (ls : LocalSource.t)
    (w : World) (name v : string) :
  let identity := age_generateIdentity (entropy w) in
  LocalSource.vaultPath ls <> LocalSource.identityPath ls ->
  LocalSource.vaultPath ls <> LocalSource.recipientPath ls ->
  LocalSource.identityPath ls <> LocalSource.recipientPath ls ->
  files w (LocalSource.identityPath ls) <> Unreadable ->
  files w (LocalSource.recipientPath ls) <> Unreadable ->
  files w (LocalSource.vaultPath ls) <> Unreadable ->
  StoreMore.key_text "AGE-SECRET-KEY-" identity ->
  StoreMore.key_text "age1" (age_identityToRecipient identity) ->
  exists w1 w2 c,
    LocalSource.initialize ls w = (Ok tt, w1)
    /\ LocalSource.getPublicKey ls w1 = (Ok (age_identityToRecipient identity), w1)
    /\ LocalSource.set ls name v None w1 = (Ok tt, w2)
    /\ LocalSource.get ls name w2 = (Ok (Some c), w2)
    /\ cred_name c = name
    /\ cred_value c = v.
Proof.
  intros identity Hvi Hvr Hir Hi Hr Hv Kid Krc.
  pose proof (InitializeFacts.initialize_run ls w Hi Hr Hv) as Hinit.
  cbv zeta in Hinit. fold identity in Hinit.
  match type of Hinit with _ = (_, ?x) => set (w1 := x) in * end.
  assert (Hkeyed : StoreStmt.keyed ls identity w1).
  { split.
    - eapply KeyFileFacts.loadIdentity_saved; [exact Kid|].
      unfold w1. rewrite StoreRuns.put_file_other by exact Hvi.
      rewrite StoreRuns.put_file_other by congruence.
      apply StoreRuns.put_file_same.
    - eapply KeyFileFacts.loadRecipient_saved; [exact Krc|].
      unfold w1. rewrite StoreRuns.put_file_other by exact Hvr.
      apply StoreRuns.put_file_same. }
  assert (Hf1 : files w1 (LocalSource.vaultPath ls) = File "[]")
    by apply StoreRuns.put_file_same.
  assert (Hread : LocalSource.readVault ls w1 = (Ok (JSON.VArray []), w1))
    by (apply (StoreRuns.readVault_written ls w1 [] Hf1); exact I).
  assert (Hok : StoreStmt.vault_ok []) by (split; [exact I|split; constructor]).
  assert (Hf : files w1 (LocalSource.vaultPath ls) <> Unreadable)
    by (rewrite Hf1; discriminate).
  destruct (StoreRuns.set_step ls w1 [] identity name v Hvi Hvr Hf Hkeyed Hread Hok)
    as (e & w2 & created & i & Hset & _ & _ & _ & Hafter & _).
  destruct (Hafter (clock w2)) as (_ & _ & _ & c & Hget & Hval & _).
  assert (Hw2 : set_clock (clock w2) w2 = w2) by (destruct w2; reflexivity).
  rewrite Hw2 in Hget.
  exists w1, w2, c. split; [exact Hinit|]. split; [exact (proj2 Hkeyed)|].
  split; [exact Hset|]. split; [exact Hget|]. split; [|exact Hval].
  exact (proj1 (InitializeFacts.get_Some ls w2 name c w2 Hget)).
Qed.

Module InitializeRuns.

Import Examples.

Lemma initialize_resets_vault_witness :
  let ls := Scenario.global_source in
  let w := ScenarioMore.two in
  fst (LocalSource.list ls w)
  = Ok [ mkMetadata "OTHER"
           [("name", JSON.VString "OTHER");
            ("createdAt", JSON.VString "2025-12-01T10:20:30.123Z");
            ("updatedAt", JSON.VString "2025-12-01T10:20:30.123Z")];
         mkMetadata "API_KEY"
           [("name", JSON.VString "API_KEY");
            ("createdAt", JSON.VString "2025-12-01T10:20:30.123Z");
            ("updatedAt", JSON.VString "2025-12-01T10:20:30.123Z")] ]
  /\ exists w',
       LocalSource.initialize ls w = (Ok tt, w')
       /\ files w' (LocalSource.vaultPath ls) = File "[]"
       /\ LocalSource.isAvailable ls w' = (Ok true, w')
       /\ LocalSource.list ls w' = (Ok [], w')
       /\ forall name, LocalSource.get ls name w' = (Ok None, w').
Proof.
  intros ls w. split; [vm_compute; reflexivity|].
  apply (@initialize_resets_vault ToyAge ls w); vm_compute; discriminate.
Defined.

Lemma new_vault_stores_and_returns_witness :
  let ls := Scenario.global_source in
  let w := Scenario.project Absent in
  StoreMore.key_text "AGE-SECRET-KEY-" (age_generateIdentity (entropy w))
  /\ StoreMore.key_text "age1"
       (age_identityToRecipient (age_generateIdentity (entropy w)))
  /\ exists w1 w2 c,
       LocalSource.initialize ls w = (Ok tt, w1)
       /\ LocalSource.getPublicKey ls w1 = (Ok "age1000007", w1)
       /\ LocalSource.set ls "API_KEY" "sk-test" None w1 = (Ok tt, w2)
       /\ LocalSource.get ls "API_KEY" w2 = (Ok (Some c), w2)
       /\ cred_name c = "API_KEY"
       /\ cred_value c = "sk-test".
Proof.
  intros ls w.
  assert (K1 : StoreMore.key_text "AGE-SECRET-KEY-" (age_generateIdentity (entropy w)))
    by (repeat split; vm_compute; reflexivity).
  assert (K2 : StoreMore.key_text "age1"
                 (age_identityToRecipient (age_generateIdentity (entropy w))))
    by (repeat split; vm_compute; reflexivity).
  split; [exact K1|]. split; [exact K2|].
  apply (@new_vault_stores_and_returns ToyAge StoreWitness.toy_contract ls w
           "API_KEY" "sk-test");
    solve [discriminate | vm_compute; discriminate | assumption].
Defined.

End InitializeRuns.
(** ** The registry: its map of sources *)

Module RegistryMapFacts.

Import Source CredentialSourceRegistry RegistryStmt RoutingStmt MonadFacts RegistryFacts.

Section Facts.
Context {W : Type}.

Local Abbreviation list := Datatypes.list.
Local Abbreviation source := (ICredentialSource W).
Local Abbreviation registry := (CredentialSourceRegistry.t W).

Lemma Map_set_keys k (v : source) (m : registry) :
  map fst (Map_set k v m)
  = if existsb (String.eqb k) (map fst m) then map fst m
    else (map fst m ++ [k])%list.
Proof.
  induction m as [|[k' v'] r IH]; [reflexivity|].
  cbn [Map_set map fst existsb].
  rewrite (String.eqb_sym k k').
  destruct (String.eqb k' k); [reflexivity|].
  cbn [map fst orb]. rewrite IH.
  destruct (existsb (String.eqb k) (map fst r)); reflexivity.
Qed.

Lemma existsb_eqb_In k (l : list string) :
  existsb (String.eqb k) l = true <-> In k l.
Proof.
  rewrite existsb_exists. split.
  - intros (x & Hx & E). apply String.eqb_eq in E. subst. exact Hx.
  - intros Hin. exists k. split; [exact Hin|apply String.eqb_refl].
Qed.

Lemma Map_set_In k (v : source) (m : registry) k' v' :
  In (k', v') (Map_set k v m) -> (k' = k /\ v' = v) \/ In (k', v') m.
Proof.
  induction m as [|[k0 v0] r IH]; cbn [Map_set].
  - intros [E|[]]. injection E as <- <-. auto.
  - destruct (String.eqb_spec k0 k) as [->|Hne]; cbn [In].
    + intros [E|Hin]; [injection E as <- <-; auto|auto].
    + intros [E|Hin]; [auto|]. destruct (IH Hin); auto.
Qed.

Lemma Map_get_set_same k (v : source) (m : registry) :
  Map_get k (Map_set k v m) = Some v.
Proof.
  induction m as [|[k' v'] r IH]; cbn [Map_set Map_get].
  - rewrite String.eqb_refl. reflexivity.
  - destruct (String.eqb k' k) eqn:E; cbn [Map_get]; rewrite E; auto.
Qed.

Lemma Map_get_set_other k k0 (v : source) (m : registry) :
  k0 <> k -> Map_get k0 (Map_set k v m) = Map_get k0 m.
Proof.
  intros Hne. induction m as [|[k' v'] r IH]; cbn [Map_set Map_get].
  - destruct (String.eqb_spec k k0); [congruence|reflexivity].
  - destruct (String.eqb_spec k' k) as [->|Hk]; cbn [Map_get].
    + destruct (String.eqb_spec k k0); [congruence|reflexivity].
    + rewrite IH. reflexivity.
Qed.

Lemma Map_delete_In k (m : registry) kv :
  In kv (Map_delete k m) -> In kv m.
Proof.
  induction m as [|[k' v'] r IH]; cbn [Map_delete]; [auto|].
  destruct (String.eqb k' k); cbn [In]; intuition.
Qed.

Lemma Map_delete_keys k (m : registry) x :
  In x (map fst (Map_delete k m)) -> In x (map fst m).
Proof.
  rewrite !in_map_iff. intros (kv & E & Hin). exists kv. split; [exact E|].
  eapply Map_delete_In, Hin.
Qed.

Lemma Map_delete_NoDup k (m : registry) :
  NoDup (map fst m) -> NoDup (map fst (Map_delete k m)).
Proof.
  induction m as [|[k' v'] r IH]; cbn [Map_delete map fst]; [auto|].
  intros Hnd. inversion Hnd as [|x l Hx Hl]; subst.
  destruct (String.eqb k' k); [exact Hl|].
  cbn [map fst]. constructor; [|apply IH, Hl].
  intros Hin. apply Hx. eapply Map_delete_keys, Hin.
Qed.

Lemma Map_get_None k (m : registry) :
  ~ In k (map fst m) -> Map_get k m = None.
Proof.
  induction m as [|[k' v'] r IH]; cbn [Map_get map fst In]; [reflexivity|].
  intros Hnot. destruct (String.eqb_spec k' k); [tauto|]. apply IH. tauto.
Qed.

Lemma Map_get_delete_same k (m : registry) :
  NoDup (map fst m) -> Map_get k (Map_delete k m) = None.
Proof.
  induction m as [|[k' v'] r IH]; cbn [Map_delete map fst]; [reflexivity|].
  intros Hnd. inversion Hnd as [|x l Hx Hl]; subst.
  destruct (String.eqb_spec k' k) as [->|Hne].
  - apply Map_get_None, Hx.
  - cbn [Map_get]. destruct (String.eqb_spec k' k); [contradiction|]. apply IH, Hl.
Qed.

Lemma Map_get_delete_other k k0 (m : registry) :
  k0 <> k -> Map_get k0 (Map_delete k m) = Map_get k0 m.
Proof.
  intros Hne. induction m as [|[k' v'] r IH]; cbn [Map_delete Map_get]; [reflexivity|].
  destruct (String.eqb_spec k' k) as [->|Hk]; cbn [Map_get].
  - destruct (String.eqb_spec k k0); [congruence|reflexivity].
  - rewrite IH. reflexivity.
Qed.

Lemma Map_get_In k (m : registry) v : Map_get k m = Some v -> In (k, v) m.
Proof.
  induction m as [|[k' v'] r IH]; cbn [Map_get]; [discriminate|].
  destruct (String.eqb_spec k' k) as [->|Hne].
  - intros E. injection E as <-. left. reflexivity.
  - intros E. right. apply IH, E.
Qed.

Lemma register_well_keyed (s : source) (reg : registry) :
  well_keyed reg -> well_keyed (register s reg).
Proof.
  intros [Hnd Hk]. unfold register. split.
  - rewrite Map_set_keys.
    destruct (existsb (String.eqb (id s)) (map fst reg)) eqn:E; [exact Hnd|].
    assert (Hnot : ~ In (id s) (map fst reg)).
    { intros Hin. apply existsb_eqb_In in Hin. congruence. }
    clear - Hnd Hnot. induction Hnd as [|x l Hx Hl IH]; cbn.
    + constructor; [intros []|constructor].
    + constructor.
      * rewrite in_app_iff. cbn. intros [Hin|[E|[]]]; [tauto|].
        subst. apply Hnot. left. reflexivity.
      * apply IH. intros Hin. apply Hnot. right. exact Hin.
  - intros k x Hin. apply Map_set_In in Hin as [[-> ->]|Hin]; [reflexivity|].
    apply Hk, Hin.
Qed.

Lemma unregister_well_keyed sid (reg : registry) :
  well_keyed reg -> well_keyed (unregister sid reg).
Proof.
  intros [Hnd Hk]. split.
  - apply Map_delete_NoDup, Hnd.
  - intros k x Hin. apply Hk. eapply Map_delete_In, Hin.
Qed.

(** *** The stable sort *)



End Facts.

End RegistryMapFacts.

(** X7.  The registry is a map from identifiers to sources.  On a registry
    built by [register], registering a source makes [getSource] answer it
    under its own identifier and leaves the other identifiers as they were;
    unregistering an identifier makes [getSource] answer nothing for it and
    leaves the others; both keep each identifier once, each source under its
    own identifier; and a source [getSource] answers is one of
    [getAllSources]. *)
Theorem registry_register_lookup {W : Type} (reg : CredentialSourceRegistry.t W)
    (s : Source.ICredentialSource W) (sid : string) :
  RegistryStmt.well_keyed reg ->
  RegistryStmt.well_keyed (CredentialSourceRegistry.register s reg)
  /\ CredentialSourceRegistry.getSource (Source.id s)
       (CredentialSourceRegistry.register s reg) = Some s
  /\ (sid <> Source.id s ->
      CredentialSourceRegistry.getSource sid (CredentialSourceRegistry.register s reg)
      = CredentialSourceRegistry.getSource sid reg)
  /\ RegistryStmt.well_keyed (CredentialSourceRegistry.unregister sid reg)
  /\ CredentialSourceRegistry.getSource sid
       (CredentialSourceRegistry.unregister sid reg) = None
  /\ (forall k, k <> sid ->
        CredentialSourceRegistry.getSource k
          (CredentialSourceRegistry.unregister sid reg)
        = CredentialSourceRegistry.getSource k reg)
  /\ (forall x, CredentialSourceRegistry.getSource sid reg = Some x ->
        Source.id x = sid /\ In x (CredentialSourceRegistry.getAllSources reg)).
Proof.
  intros Hwk. pose proof Hwk as [Hnd Hk].
  split; [apply RegistryMapFacts.register_well_keyed, Hwk|].
  split; [apply RegistryMapFacts.Map_get_set_same|].
  split; [intros Hne; apply RegistryMapFacts.Map_get_set_other, Hne|].
  split; [apply RegistryMapFacts.unregister_well_keyed, Hwk|].
  split; [apply RegistryMapFacts.Map_get_delete_same, Hnd|].
  split; [intros k Hne; apply RegistryMapFacts.Map_get_delete_other, Hne|].
  intros x Hx. apply RegistryMapFacts.Map_get_In in Hx. split.
  - symmetry. apply (Hk sid x Hx).
  - unfold CredentialSourceRegistry.getAllSources.
    change x with (snd (sid, x)). apply in_map, Hx.
Qed.

Lemma registry_register_lookup_witness :
  RegistryStmt.well_keyed Backends.both
  /\ CredentialSourceRegistry.getSource "archive" BackendsMore.with_archive
     = Some BackendsMore.archive
  /\ CredentialSourceRegistry.getSource "cloud" BackendsMore.with_archive
     = Some Backends.cloud
  /\ CredentialSourceRegistry.getSource "cloud"
       (CredentialSourceRegistry.unregister "cloud" Backends.both) = None.
Proof.
  split; [exact both_well_keyed|].
  destruct (registry_register_lookup Backends.both BackendsMore.archive "cloud"
              both_well_keyed) as (_ & H1 & H2 & _ & H3 & _).
  split; [exact H1|]. split; [|exact H3].
  unfold BackendsMore.with_archive. rewrite H2 by discriminate. reflexivity.
Defined.


(** ** The registry: where a call goes *)

Module RoutingFacts.

Import Source CredentialSourceRegistry RegistryStmt RoutingStmt MonadFacts.

Section Facts.
Context {W : Type}.

Local Abbreviation list := Datatypes.list.
Local Abbreviation source := (ICredentialSource W).
Local Abbreviation registry := (CredentialSourceRegistry.t W).

Lemma invoke_run {A} c (t : A -> bool) (m : M W A) tw r w' :
  m (world tw) = (r, w') ->
  invoke c t m tw = (r, mkTraced w' (calls tw ++ [(c, outcome t r)])%list).
Proof. unfold invoke. intros ->. reflexivity. Qed.

Lemma set_first_run name value (l : list source) tw :
  match find can_set l with
  | None =>
      set_first name value l tw
      = (Throw (Error "No writable credential source available"), tw)
  | Some s =>
      exists write,
        Source.set s = Some write
        /\ set_first name value l tw
           = invoke (CallSet (id s) name value) done (write name value) tw
  end.
Proof.
  induction l as [|x r IH]; [reflexivity|].
  cbn [find set_first]. unfold can_set at 1.
  destruct (Source.set x) as [write|] eqn:E; [|exact IH].
  exists write. split; [exact E|reflexivity].
Qed.

Lemma get_first_stops name (before : list source) s after e tw w' :
  (forall b, In b before -> Source.get b name (world tw) = (Ok None, world tw)) ->
  Source.get s name (world tw) = (Throw e, w') ->
  get_first name (before ++ s :: after)%list tw
  = (Throw e,
     mkTraced w'
       (calls tw ++ map (fun b => asking name b (Ok None)) before
        ++ [asking name s (Throw e)])%list).
Proof.
  revert tw. induction before as [|b r IH]; intros tw Hb Hs.
  - cbn [app get_first map]. unfold bind.
    rewrite (invoke_run _ _ _ _ _ _ Hs). reflexivity.
  - cbn [app get_first map]. unfold bind at 1.
    rewrite (invoke_run _ _ _ _ _ _ (Hb b (or_introl eq_refl))).
    cbn iota. rewrite IH.
    + cbn [calls world]. rewrite <- app_assoc. reflexivity.
    + intros x Hx. cbn [world]. apply Hb. right. exact Hx.
    + exact Hs.
Qed.

End Facts.

End RoutingFacts.

(** X9.  Without a source identifier, [set] writes to one source: the first
    of the available sources, in their priority order, that has a [set]
    method.  The answer is the answer of that one call, also when it throws:
    no other source is tried.  When no available source can write, [set]
    throws and calls none. *)
Theorem registry_set_first_writable {W : Type} (reg : CredentialSourceRegistry.t W)
    (tw tw1 : Source.Traced W) (name value : string) (sourceId : option string)
    (avail : list (Source.ICredentialSource W)) :
  CredentialSourceRegistry.given sourceId = None ->
  CredentialSourceRegistry.getAvailableSources reg tw = (Ok avail, tw1) ->
  match find RoutingStmt.can_set avail with
  | None =>
      CredentialSourceRegistry.set name value sourceId reg tw
      = (Throw (Error "No writable credential source available"), tw1)
  | Some s =>
      exists write r w',
        Source.set s = Some write
        /\ write name value (Source.world tw1) = (r, w')
        /\ CredentialSourceRegistry.set name value sourceId reg tw
           = (r, Source.mkTraced w'
                   (Source.calls tw1 ++ [RoutingStmt.writing name value s r])%list)
  end.
Proof.
  intros Hg Ha. unfold CredentialSourceRegistry.set. rewrite Hg.
  rewrite (MonadFacts.bind_run _ _ _ _ _ Ha).
  pose proof (RoutingFacts.set_first_run name value avail tw1) as Hrun.
  destruct (find RoutingStmt.can_set avail) as [s|]; [|exact Hrun].
  destruct Hrun as (write & Hw & Hrun).
  destruct (write name value (Source.world tw1)) as [r w'] eqn:E.
  exists write, r, w'. split; [exact Hw|]. split; [exact E|].
  rewrite Hrun. apply RoutingFacts.invoke_run, E.
Qed.

Lemma registry_set_first_writable_witness :
  exists avail tw1 tw2,
    CredentialSourceRegistry.getAvailableSources BackendsMore.with_archive
      (Source.mkTraced Backends.filled []) = (Ok avail, tw1)
    /\ map Source.id avail = ["archive"; "keychain"; "cloud"]
    /\ CredentialSourceRegistry.set "NEW" "v" None BackendsMore.with_archive
         (Source.mkTraced Backends.filled [])
       = (Ok tt, tw2)
    /\ Source.world tw2
       = ([("NEW", "v"); ("API_KEY", "from-keychain")],
          [("API_KEY", "from-cloud"); ("OTHER", "x")])
    /\ skipn 3 (Source.calls tw2)
       = [(Source.CallSet "keychain" "NEW" "v", Source.Returned true)].
Proof.
  destruct (CredentialSourceRegistry.getAvailableSources BackendsMore.with_archive
              (Source.mkTraced Backends.filled [])) as [r tw1] eqn:Ha.
  assert (Hr : r = Ok [BackendsMore.archive; Backends.keychain; Backends.cloud]).
  { apply (f_equal fst) in Ha. vm_compute in Ha. subst r. reflexivity. }
  subst r.
  assert (Hc : Source.calls tw1
               = [ (Source.CallIsAvailable "cloud", Source.Returned true);
                   (Source.CallIsAvailable "keychain", Source.Returned true);
                   (Source.CallIsAvailable "archive", Source.Returned true) ]
               /\ Source.world tw1 = Backends.filled).
  { apply (f_equal snd) in Ha. vm_compute in Ha. subst tw1. split; reflexivity. }
  destruct Hc as [Hc Hw].
  pose proof (registry_set_first_writable BackendsMore.with_archive _ tw1
                "NEW" "v" None _ eq_refl Ha) as Hset.
  cbn [find RoutingStmt.can_set] in Hset.
  change (RoutingStmt.can_set BackendsMore.archive) with false in Hset.
  change (RoutingStmt.can_set Backends.keychain) with true in Hset.
  cbn iota in Hset.
  destruct Hset as (write & r & w' & Hwrite & Hrun & Hset).
  injection Hwrite as <-. rewrite Hw in Hrun. vm_compute in Hrun.
  injection Hrun as <- <-.
  eexists. exists tw1. eexists. split; [reflexivity|]. split; [reflexivity|].
  split; [exact Hset|]. split; [reflexivity|].
  cbn [Source.calls]. rewrite Hc. reflexivity.
Defined.

(** X10.  With a source identifier, [set] and [delete] go to the source
    registered under it and to no other, without probing availability.  An
    identifier that is not registered, or a source without the method,
    makes them throw before any call: the record of calls is unchanged. *)
Theorem registry_targeted_call {W : Type} (reg : CredentialSourceRegistry.t W)
    (tw : Source.Traced W) (name value sid : string) :
  sid <> EmptyString ->
  (CredentialSourceRegistry.getSource sid reg = None ->
   CredentialSourceRegistry.set name value (Some sid) reg tw
   = (Throw (Error ("Source '" ++ sid ++ "' not found")), tw)
   /\ CredentialSourceRegistry.delete name (Some sid) reg tw
      = (Throw (Error ("Source '" ++ sid ++ "' not found")), tw))
  /\ (forall s,
        CredentialSourceRegistry.getSource sid reg = Some s ->
        (forall write r w',
           Source.set s = Some write ->
           write name value (Source.world tw) = (r, w') ->
           CredentialSourceRegistry.set name value (Some sid) reg tw
           = (r, Source.mkTraced w'
                   (Source.calls tw ++ [RoutingStmt.writing name value s r])%list))
        /\ (Source.set s = None ->
            CredentialSourceRegistry.set name value (Some sid) reg tw
            = (Throw (Error ("Source '" ++ sid ++ "' is read-only")), tw))
        /\ (forall remove r w',
              Source.delete s = Some remove ->
              remove name (Source.world tw) = (r, w') ->
              CredentialSourceRegistry.delete name (Some sid) reg tw
              = (r, Source.mkTraced w'
                      (Source.calls tw ++ [RoutingStmt.removal name s r])%list))
        /\ (Source.delete s = None ->
            CredentialSourceRegistry.delete name (Some sid) reg tw
            = (Throw (Error ("Source '" ++ sid ++ "' doesn't support deletion")), tw))).
Proof.
  intros Hsid.
  assert (Hg : CredentialSourceRegistry.given (Some sid) = Some sid)
    by (destruct sid; [contradiction|reflexivity]).
  assert (Hq : forall rest,
             "Source " ++ CredentialSourceRegistry.q sid ++ rest
             = "Source '" ++ sid ++ "'" ++ rest).
  { intros rest. unfold CredentialSourceRegistry.q.
    cbn [append]. rewrite StrFacts.append_assoc. reflexivity. }
  unfold CredentialSourceRegistry.set, CredentialSourceRegistry.delete,
    CredentialSourceRegistry.getSource.
  rewrite Hg. split.
  - intros ->. rewrite Hq. split; reflexivity.
  - intros s ->. repeat split.
    + intros write r w' -> Hrun. apply RoutingFacts.invoke_run, Hrun.
    + intros ->. rewrite Hq. reflexivity.
    + intros remove r w' -> Hrun. apply RoutingFacts.invoke_run, Hrun.
    + intros ->. rewrite Hq. reflexivity.
Qed.

Lemma registry_targeted_call_witness :
  CredentialSourceRegistry.getSource "offline" BackendsMore.with_offline
  = Some BackendsMore.offline
  /\ fst (Source.isAvailable BackendsMore.offline Backends.filled) = Ok false
  /\ CredentialSourceRegistry.set "NEW" "v" (Some "offline") BackendsMore.with_offline
       (Source.mkTraced Backends.filled [])
     = (Ok tt,
        Source.mkTraced
          ([("API_KEY", "from-keychain")],
           [("NEW", "v"); ("API_KEY", "from-cloud"); ("OTHER", "x")])
          [(Source.CallSet "offline" "NEW" "v", Source.Returned true)])
  /\ CredentialSourceRegistry.delete "API_KEY" (Some "nowhere") BackendsMore.with_offline
       (Source.mkTraced Backends.filled [])
     = (Throw (Error "Source 'nowhere' not found"), Source.mkTraced Backends.filled []).
Proof.
  split; [reflexivity|]. split; [reflexivity|]. split.
  - destruct (registry_targeted_call BackendsMore.with_offline
                (Source.mkTraced Backends.filled []) "NEW" "v" "offline")
      as (_ & Hknown); [discriminate|].
    destruct (Hknown BackendsMore.offline eq_refl) as (Hset & _).
    exact (Hset _ _ _ eq_refl eq_refl).
  - destruct (registry_targeted_call BackendsMore.with_offline
                (Source.mkTraced Backends.filled []) "API_KEY" "" "nowhere")
      as (Hunknown & _); [discriminate|].
    exact (proj2 (Hunknown eq_refl)).
Defined.

(** X11.  [get] does not isolate a failing source: when the available
    sources that come first in priority order answer null and the next one
    throws, [get] throws that error; the sources after it are not asked,
    whether or not they hold the name. *)
Theorem registry_get_stops_at_failure {W : Type} (reg : CredentialSourceRegistry.t W)
    (tw tw1 : Source.Traced W) (name : string)
    (before after : list (Source.ICredentialSource W))
    (s : Source.ICredentialSource W) (e : exn) (w' : W) :
  CredentialSourceRegistry.getAvailableSources reg tw
  = (Ok (before ++ s :: after)%list, tw1) ->
  (forall b, In b before ->
     Source.get b name (Source.world tw1) = (Ok None, Source.world tw1)) ->
  Source.get s name (Source.world tw1) = (Throw e, w') ->
  CredentialSourceRegistry.get name reg tw
  = (Throw e,
     Source.mkTraced w'
       (Source.calls tw1
        ++ map (fun b => RoutingStmt.asking name b (Ok None)) before
        ++ [RoutingStmt.asking name s (Throw e)])%list).
Proof.
  intros Ha Hb Hs. unfold CredentialSourceRegistry.get.
  rewrite (MonadFacts.bind_run _ _ _ _ _ Ha).
  apply RoutingFacts.get_first_stops; assumption.
Qed.

Lemma registry_get_stops_at_failure_witness :
  CredentialSourceRegistry.get "API_KEY" Backends.both
    (Source.mkTraced Backends.filled [])
  = (Ok (Some (mkCredential "API_KEY" "from-keychain" "keychain" None)),
     Source.mkTraced Backends.filled
       [ (Source.CallIsAvailable "cloud", Source.Returned true);
         (Source.CallIsAvailable "keychain", Source.Returned true);
         (Source.CallGet "keychain" "API_KEY", Source.Returned true) ])
  /\ CredentialSourceRegistry.get "API_KEY" BackendsMore.with_broken
       (Source.mkTraced Backends.filled [])
     = (Throw (Error "locked"),
        Source.mkTraced Backends.filled
          [ (Source.CallIsAvailable "cloud", Source.Returned true);
            (Source.CallIsAvailable "keychain", Source.Returned true);
            (Source.CallIsAvailable "broken", Source.Returned true);
            (Source.CallGet "broken" "API_KEY", Source.Threw) ]).
Proof.
  split; [reflexivity|].
  apply (registry_get_stops_at_failure BackendsMore.with_broken
           (Source.mkTraced Backends.filled [])
           (Source.mkTraced Backends.filled
              [ (Source.CallIsAvailable "cloud", Source.Returned true);
                (Source.CallIsAvailable "keychain", Source.Returned true);
                (Source.CallIsAvailable "broken", Source.Returned true) ])
           "API_KEY" [] [Backends.keychain; Backends.cloud] BackendsMore.broken
           (Error "locked") Backends.filled).
  - reflexivity.
  - intros b [].
  - reflexivity.
Defined.
(** ** The reconciler: what [revoke] and [grant] touch *)

Module ReconcilerMore.

Import Source CredentialService ServiceStmt ServiceMore MonadFacts ServiceFacts
  GrantFacts ReconcilerFacts.

Local Abbreviation list := Datatypes.list.

Lemma append_inj_l (a b c : string) : a ++ b = a ++ c -> b = c.
Proof. induction a as [|x a IH]; cbn; intros E; [exact E|]. injection E. exact IH. Qed.

Lemma backup_is_not_env w : backupPath w <> path.join (cwd w) ".env".
Proof.
  unfold backupPath, path.join. intros E.
  apply append_inj_l in E. discriminate E.
Qed.

Lemma getEnvBackupPath_run w : paths.getEnvBackupPath w = (Ok (backupPath w), w).
Proof. reflexivity. Qed.

Section Methods.
Context `{AgeLibrary} `{YamlLibrary} `{DotenvLibrary}.

(** [revoke], case by case on the env document. *)
Lemma revoke_cases names t w log :
  revoke names (t, mkTraced w log)
  = match files w (path.join (cwd w) ".env") with
    | Absent => (Ok ([], path.join (cwd w) ".env"), (t, mkTraced w log))
    | Unreadable =>
        (Throw (EIO (path.join (cwd w) ".env")), (t, mkTraced w log))
    | File content =>
        let r := revoke_loop names (parseEnv content) [] in
        (Ok (snd r, path.join (cwd w) ".env"),
         (t, mkTraced
               (put_file (path.join (cwd w) ".env")
                  (File (stringifyEnv (fst r))) w) log))
    end.
Proof.
  unfold revoke.
  rewrite (bind_run _ _ _ _ _ (io_run _ t w log _ _ (getEnvPath_run w))).
  set (p := path.join (cwd w) ".env").
  destruct (files w p) as [|content|] eqn:E.
  - assert (He : fs.pathExists p w = (Ok false, w))
      by (unfold fs.pathExists; rewrite E; reflexivity).
    rewrite (bind_run _ _ _ _ _ (io_run _ t w log _ _ He)). reflexivity.
  - assert (He : fs.pathExists p w = (Ok true, w))
      by (unfold fs.pathExists; rewrite E; reflexivity).
    rewrite (bind_run _ _ _ _ _ (io_run _ t w log _ _ He)). cbn [negb].
    assert (Hr : fs.readFile p w = (Ok content, w))
      by (unfold fs.readFile; rewrite E; reflexivity).
    rewrite (bind_run _ _ _ _ _ (io_run _ t w log _ _ Hr)).
    assert (Hw : forall text, fs.writeFile p text w = (Ok tt, put_file p (File text) w))
      by (intros text; unfold fs.writeFile; rewrite E; reflexivity).
    cbv zeta.
    rewrite (bind_run _ _ _ _ _ (io_run _ t w log _ _ (Hw _))). reflexivity.
  - assert (He : fs.pathExists p w = (Ok true, w))
      by (unfold fs.pathExists; rewrite E; reflexivity).
    rewrite (bind_run _ _ _ _ _ (io_run _ t w log _ _ He)). cbn [negb].
    assert (Hr : fs.readFile p w = (Throw (EIO p), w))
      by (unfold fs.readFile; rewrite E; reflexivity).
    unfold bind at 1. rewrite (io_run _ t w log _ _ Hr). reflexivity.
Qed.

(** The world [grant] leaves. *)
Lemma grant_world names backup s granted p s1 :
  consistent (fst s) ->
  grant names backup s = (Ok (granted, p), s1) ->
  let w := world (snd s) in
  exists text,
    world (snd s1)
    = put_file (envPath s) (File text)
        (match envFile s, backup with
         | File content, Some false => w
         | File content, _ => put_file (backupPath w) (File content) w
         | _, _ => w
         end).
Proof.
  intros Hcons Hg w. unfold grant in Hg.
  apply bind_Ok in Hg. destruct Hg as ([] & sa & Hinit & Hg).
  destruct (ensureInitialized_Ok _ _ Hcons Hinit) as (Hca & _ & Hsa).
  destruct s as [t [w0 log]], sa as [ta [wa loga]].
  cbn [snd world] in Hsa, w. injection Hsa as -> ->. subst w.
  apply bind_Ok in Hg. destruct Hg as (envp & sb & Hp & Hg).
  apply io_inv in Hp. destruct Hp as (w' & Hp & ->).
  rewrite getEnvPath_run in Hp. injection Hp as <- <-.
  apply bind_Ok in Hg. destruct Hg as (exists_ & sc & He & Hg).
  apply io_inv in He. destruct He as (w' & He & ->).
  apply bind_Ok in Hg. destruct Hg as (existingEnv & sd & Hx & Hg).
  apply bind_Ok in Hg. destruct Hg as (r & se & Hloop & Hg).
  apply bind_Ok in Hg. destruct Hg as ([] & sf & Hw & Hg).
  injection Hg as <- <- <-.
  assert (Hmid : fst sd = ta
                 /\ world (snd sd)
                    = match files w0 (path.join (cwd w0) ".env"), backup with
                      | File content, Some false => w0
                      | File content, _ => put_file (backupPath w0) (File content) w0
                      | _, _ => w0
                      end).
  { unfold fs.pathExists in He.
    destruct (files w0 (path.join (cwd w0) ".env")) as [|content|] eqn:Ef.
    - injection He as <- <-. injection Hx as _ <-. split; reflexivity.
    - injection He as <- <-.
      apply bind_Ok in Hx. destruct Hx as (c & sx & Hc & Hx).
      apply io_inv in Hc. destruct Hc as (wx & Hc & ->).
      unfold fs.readFile in Hc. rewrite Ef in Hc. injection Hc as <- <-.
      apply bind_Ok in Hx. destruct Hx as ([] & sy & Hb & Hx).
      injection Hx as _ <-.
      destruct backup as [[|]|].
      + apply bind_Ok in Hb. destruct Hb as (bp & sz & Hbp & Hb).
        apply io_inv in Hbp. destruct Hbp as (wz & Hbp & ->).
        rewrite getEnvBackupPath_run in Hbp. injection Hbp as <- <-.
        apply io_inv in Hb. destruct Hb as (wy & Hb & ->).
        unfold fs.copyFile, fs.readFile, bind in Hb. rewrite Ef in Hb.
        apply writeFile_Ok in Hb. subst wy. split; reflexivity.
      + injection Hb as <-. split; reflexivity.
      + apply bind_Ok in Hb. destruct Hb as (bp & sz & Hbp & Hb).
        apply io_inv in Hbp. destruct Hbp as (wz & Hbp & ->).
        rewrite getEnvBackupPath_run in Hbp. injection Hbp as <- <-.
        apply io_inv in Hb. destruct Hb as (wy & Hb & ->).
        unfold fs.copyFile, fs.readFile, bind in Hb. rewrite Ef in Hb.
        apply writeFile_Ok in Hb. subst wy. split; reflexivity.
    - injection He as <- <-.
      apply bind_Ok in Hx. destruct Hx as (c & sx & Hc & Hx).
      apply io_inv in Hc. destruct Hc as (wx & Hc & ->).
      unfold fs.readFile in Hc. rewrite Ef in Hc. discriminate. }
  destruct Hmid as (Hfst & Hmid).
  pose proof (grant_loop_world names existingEnv [] sd) as Hlw.
  rewrite Hloop in Hlw. cbn [snd] in Hlw.
  rewrite Hfst in Hlw. specialize (Hlw Hca).
  destruct se as [te [we loge]].
  apply io_inv in Hw. destruct Hw as (w'' & Hw & ->).
  apply writeFile_Ok in Hw. subst w''.
  cbn [snd world] in Hlw |- *. rewrite Hlw, Hmid.
  eexists. unfold envPath, envFile, envPath. cbn [snd world]. reflexivity.
Qed.

End Methods.

End ReconcilerMore.

(** X12.  [revoke] works on the env document alone: it leaves the service
    object as it is, calls no credential source and touches no other file.
    Without an env document it answers an empty list and writes nothing;
    an env document that cannot be read makes it throw. *)
Theorem revoke_needs_no_vault `{AgeLibrary} `{YamlLibrary} `{DotenvLibrary}
    (s : CredentialService.St) (names : list string) :
  let out := CredentialService.revoke names s in
  fst (snd out) = fst s
  /\ Source.calls (snd (snd out)) = Source.calls (snd s)
  /\ (forall q, q <> ServiceStmt.envPath s ->
        files (Source.world (snd (snd out))) q = files (Source.world (snd s)) q)
  /\ (ServiceStmt.envFile s = Absent -> out = (Ok ([], ServiceStmt.envPath s), s))
  /\ (ServiceStmt.envFile s = Unreadable ->
      out = (Throw (EIO (ServiceStmt.envPath s)), s)).
Proof.
  destruct s as [t [w log]]. cbv zeta.
  rewrite ReconcilerMore.revoke_cases.
  unfold ServiceStmt.envFile, ServiceStmt.envPath. cbn [snd fst Source.world].
  destruct (files w (path.join (cwd w) ".env")) as [|content|] eqn:E;
    cbn [fst snd Source.world Source.calls];
    repeat split; try reflexivity; try discriminate.
  intros q Hq. apply StoreRuns.put_file_other. congruence.
Qed.

(** X13.  [grant] backs the env document up before it rewrites it.  After a
    successful [grant] on an existing env document, unless the backup was
    declined, the file [.env.backup.<time>] holds the former text of the
    document, byte for byte.  No file but the env document and that backup
    is changed, and with the backup declined, or without a former document,
    no file but the env document. *)
Theorem grant_backs_up_env `{AgeLibrary} `{YamlLibrary} `{DotenvLibrary}
    (s s1 : CredentialService.St) (names granted : list string)
    (backup : option bool) (p : string) :
  ServiceStmt.consistent (fst s) ->
  CredentialService.grant names backup s = (Ok (granted, p), s1) ->
  let w := Source.world (snd s) in
  let w1 := Source.world (snd s1) in
  p = ServiceStmt.envPath s
  /\ (forall content,
        ServiceStmt.envFile s = File content -> backup <> Some false ->
        files w1 (ServiceMore.backupPath w) = File content)
  /\ (forall q, q <> p -> q <> ServiceMore.backupPath w -> files w1 q = files w q)
  /\ (backup = Some false \/ ServiceStmt.envFile s = Absent ->
      forall q, q <> p -> files w1 q = files w q).
Proof.
  intros Hc Hg w w1.
  destruct (ReconcilerFacts.grant_Ok _ _ _ _ _ _ Hg) as (Hp & _).
  destruct (ReconcilerMore.grant_world _ _ _ _ _ _ Hc Hg) as (text & Hw).
  fold w in Hw. fold w1 in Hw. subst p. split; [reflexivity|].
  assert (Hne : ServiceMore.backupPath w <> ServiceStmt.envPath s)
    by apply ReconcilerMore.backup_is_not_env.
  split; [|split].
  - intros content Hf Hb. rewrite Hw, Hf.
    rewrite StoreRuns.put_file_other by congruence.
    destruct backup as [[|]|]; try apply StoreRuns.put_file_same. congruence.
  - intros q Hq Hq'. rewrite Hw.
    rewrite StoreRuns.put_file_other by congruence.
    destruct (ServiceStmt.envFile s) as [|content|]; try reflexivity.
    destruct backup as [[|]|]; try reflexivity;
      apply StoreRuns.put_file_other; congruence.
  - intros Hcase q Hq. rewrite Hw.
    rewrite StoreRuns.put_file_other by congruence.
    destruct Hcase as [E | E]; rewrite E; [|reflexivity].
    destruct (ServiceStmt.envFile s); reflexivity.
Qed.

Module ReconcilerRuns.

Import Examples.

Lemma revoke_needs_no_vault_witness :
  let s := Scenario.start (Scenario.project Absent) in
  ServiceStmt.envFile s = Absent
  /\ CredentialService.revoke ["API_KEY"] s = (Ok ([], "/proj/.env"), s).
Proof.
  intros s. split; [reflexivity|].
  destruct (revoke_needs_no_vault s ["API_KEY"]) as (_ & _ & _ & Ha & _).
  exact (Ha eq_refl).
Defined.

Lemma grant_backs_up_env_witness :
  ServiceStmt.consistent (fst ScenarioEnv.state0)
  /\ CredentialService.grant ["BAZ"] None ScenarioEnv.state0
     = (Ok (["BAZ"], "/proj/.env"), ScenarioEnv.state1)
  /\ files (Source.world (snd ScenarioEnv.state1))
       "/proj/.env.backup.2025-12-01T10-20-30-123Z"
     = File ScenarioEnv.prior
  /\ files (Source.world (snd ScenarioEnv.state1)) "/proj/.env"
     = File (Scenario.lines ["FOO=bar"; "BAZ=new"]).
Proof.
  assert (Hc : ServiceStmt.consistent (fst ScenarioEnv.state0))
    by (left; repeat split).
  assert (Hg : CredentialService.grant ["BAZ"] None ScenarioEnv.state0
               = (Ok (["BAZ"], "/proj/.env"), ScenarioEnv.state1)).
  { unfold ScenarioEnv.state1. apply run_pair. vm_compute. reflexivity. }
  split; [exact Hc|]. split; [exact Hg|]. split; [|vm_compute; reflexivity].
  destruct (grant_backs_up_env _ _ _ _ _ _ Hc Hg) as (_ & Hb & _).
  apply (Hb ScenarioEnv.prior); [vm_compute; reflexivity|discriminate].
Defined.

End ReconcilerRuns.
(** ** The service: from [add] to [get] *)

Module ServiceRoutes.

Import Source CredentialService ServiceStmt VaultStmt StoreStmt MonadFacts
  ServiceFacts VaultFacts.

Local Abbreviation list := Datatypes.list.

Lemma vault_in_paths dir :
  LocalSource.vaultPath (vault_in dir) <> LocalSource.identityPath (vault_in dir)
  /\ LocalSource.vaultPath (vault_in dir) <> LocalSource.recipientPath (vault_in dir)
  /\ LocalSource.identityPath (vault_in dir)
     <> LocalSource.recipientPath (vault_in dir).
Proof.
  unfold vault_in, path.join. cbn.
  repeat split; intros E; apply ReconcilerMore.append_inj_l in E; discriminate E.
Qed.

Lemma hasLocalVault_none w :
  files w (path.join (local_dir w) "identity.txt") = Absent ->
  paths.hasLocalVault w = (Ok false, w).
Proof.
  intros Hv. unfold paths.hasLocalVault.
  erewrite bind_run by apply getLocalDir_run.
  unfold fs.pathExists. rewrite Hv. reflexivity.
Qed.

Section Methods.
Context `{AgeLibrary} `{YamlLibrary} `{DotenvLibrary}.

Lemma init_run local t w log config use_local :
  initialized t = false ->
  config.loadConfig w = (Ok config, w) ->
  useLocal local config = Ok use_local ->
  let source := vault_in (if use_local then local_dir w else global_dir w) in
  init local (t, mkTraced w log)
  = (Ok tt,
     (mkService (CredentialSourceRegistry.register (as_source source) (registry t))
        (Some source) true,
      mkTraced w log)).
Proof.
  intros Hi Hcfg Hul source. unfold init.
  unfold bind at 1, this. cbn [fst]. rewrite Hi.
  rewrite (bind_run _ _ _ _ _ (io_run _ t w log _ _ Hcfg)).
  unfold bind at 1, lift_result. rewrite Hul. cbn [ret].
  destruct use_local.
  - rewrite (bind_run _ _ _ _ _ (io_run _ t w log _ _ (getLocalDir_run w))).
    reflexivity.
  - rewrite (bind_run _ _ _ _ _ (io_run _ t w log _ _ (getGlobalDir_run w))).
    reflexivity.
Qed.

Lemma ensureInitialized_new s :
  initialized (fst s) = false -> ensureInitialized s = init None s.
Proof.
  intros Hi. unfold ensureInitialized, bind, this. rewrite Hi. reflexivity.
Qed.

Lemma ensureInitialized_done s :
  initialized (fst s) = true -> ensureInitialized s = (Ok tt, s).
Proof.
  intros Hi. unfold ensureInitialized, bind, this. rewrite Hi. reflexivity.
Qed.

Lemma isAvailable_keyed ls identity w :
  keyed ls identity w -> LocalSource.isAvailable ls w = (Ok true, w).
Proof.
  intros [Hk _]. unfold LocalSource.isAvailable, try_catch, fs.pathExists.
  unfold AgeProvider.loadIdentity, bind, fs.readFile in Hk.
  destruct (files w (LocalSource.identityPath ls)); [discriminate|reflexivity|discriminate].
Qed.

(** The available sources of a service whose one source is a keyed vault. *)
Lemma one_available ls identity w log :
  keyed ls identity w ->
  CredentialSourceRegistry.getAvailableSources
    [(LocalSource.id, as_source ls)] (mkTraced w log)
  = (Ok [as_source ls],
     mkTraced w (log ++ [(CallIsAvailable "local", Returned true)])%list).
Proof.
  intros Hk. pose proof (isAvailable_keyed ls identity w Hk) as Ha.
  rewrite RegistryFacts.getAvailableSources_run.
  - cbn [CredentialSourceRegistry.getAllSources map snd filter].
    unfold RegistryStmt.available, RegistryStmt.probed, RegistryStmt.available.
    cbn [isAvailable as_source]. rewrite Ha. reflexivity.
  - intros s [<-|[]]. exists true. exact Ha.
Qed.

End Methods.

End ServiceRoutes.

(** X14.  What you add you get back, through the service.  On a new service
    object, with a configuration that selects the directory of a well-kept
    vault with its key files, [add name v] initialises the service on that
    vault and stores the record, and [get name] then answers a credential
    of value [v].  Each of the two asks the one source whether it is
    available and makes one call to it. *)
Theorem service_add_then_get `{C : AgeContract} `{YamlLibrary} `{DotenvLibrary}
    (w : World) (log : list (Source.Call * Source.Outcome))
    (config : JsObject.t JSON.value) (use_local : bool)
    (es : list JSON.value) (identity name v : string) :
  let dir := if use_local then VaultStmt.local_dir w else VaultStmt.global_dir w in
  let ls := VaultStmt.vault_in dir in
  config.loadConfig w = (Ok config, w) ->
  CredentialService.useLocal None config = Ok use_local ->
  StoreStmt.keyed ls identity w ->
  files w (LocalSource.vaultPath ls) <> Unreadable ->
  LocalSource.readVault ls w = (Ok (JSON.VArray es), w) ->
  StoreStmt.vault_ok es ->
  exists s1 s2 c,
    CredentialService.add name v (CredentialService.new, Source.mkTraced w log)
    = (Ok tt, s1)
    /\ CredentialService.localSource (fst s1) = Some ls
    /\ CredentialService.get name s1 = (Ok (Some c), s2)
    /\ cred_value c = v
    /\ Source.calls (snd s2)
       = (log ++ [ (Source.CallIsAvailable "local", Source.Returned true);
                   (Source.CallSet "local" name v, Source.Returned true);
                   (Source.CallIsAvailable "local", Source.Returned true);
                   (Source.CallGet "local" name, Source.Returned true) ])%list.
Proof.
  intros dir ls Hcfg Hul Hk Hf Hread Hok.
  destruct (ServiceRoutes.vault_in_paths dir) as (Hvi & Hvr & _).
  destruct (StoreRuns.set_step ls w es identity name v Hvi Hvr Hf Hk Hread Hok)
    as (e & w1 & created & i & Hset & _ & _ & _ & Hafter & _).
  destruct (Hafter (clock w1)) as (Hk1 & _ & _ & c & Hget & Hval & _).
  assert (Hw1 : set_clock (clock w1) w1 = w1) by (destruct w1; reflexivity).
  rewrite Hw1 in Hk1, Hget.
  set (t1 := CredentialService.mkService
               [(LocalSource.id, CredentialService.as_source ls)] (Some ls) true).
  set (log1 := (log ++ [(Source.CallIsAvailable "local", Source.Returned true)]
                ++ [(Source.CallSet "local" name v, Source.Returned true)])%list).
  assert (Hadd : CredentialService.add name v
                   (CredentialService.new, Source.mkTraced w log)
                 = (Ok tt, (t1, Source.mkTraced w1 log1))).
  { unfold CredentialService.add.
    erewrite MonadFacts.bind_run.
    2:{ rewrite ServiceRoutes.ensureInitialized_new by reflexivity.
        apply (ServiceRoutes.init_run None CredentialService.new w log config
                 use_local eq_refl Hcfg Hul). }
    fold dir. fold ls.
    unfold CredentialService.reg. cbn [fst snd CredentialService.registry].
    change (CredentialSourceRegistry.register (CredentialService.as_source ls)
              (CredentialService.registry CredentialService.new))
      with [(LocalSource.id, CredentialService.as_source ls)].
    unfold CredentialSourceRegistry.set. cbn [CredentialSourceRegistry.given].
    rewrite (MonadFacts.bind_run _ _ _ _ _
               (ServiceRoutes.one_available ls identity w log Hk)).
    cbn [CredentialSourceRegistry.set_first Source.set CredentialService.as_source].
    erewrite RoutingFacts.invoke_run by exact Hset.
    unfold log1. rewrite app_assoc. reflexivity. }
  exists (t1, Source.mkTraced w1 log1). eexists. exists c.
  split; [exact Hadd|]. split; [reflexivity|]. split; [|split; [exact Hval|]].
  - unfold CredentialService.get.
    rewrite (MonadFacts.bind_run _ _ _ _ _
               (ServiceRoutes.ensureInitialized_done (t1, Source.mkTraced w1 log1)
                  eq_refl)).
    unfold CredentialService.reg. cbn [fst snd CredentialService.registry t1].
    unfold CredentialSourceRegistry.get.
    rewrite (MonadFacts.bind_run _ _ _ _ _
               (ServiceRoutes.one_available ls identity w1 log1 Hk1)).
    cbn [CredentialSourceRegistry.get_first Source.get CredentialService.as_source].
    unfold bind. erewrite RoutingFacts.invoke_run by exact Hget.
    reflexivity.
  - cbn [snd Source.calls]. unfold log1. rewrite <- !app_assoc. reflexivity.
Qed.

(** X15.  A custom vault directory is reported but not used.  Without a
    local vault and with a configuration whose [vault.defaultLocation] is
    [custom] and whose [vault.customPath] is a non-empty string,
    [getVaultPath] answers that string as it stands, while [init] sets the
    service up on the global vault directory. *)
Theorem custom_path_reported_not_used `{AgeLibrary} `{YamlLibrary} `{DotenvLibrary}
    (t : CredentialService.t) (w : World)
    (log : list (Source.Call * Source.Outcome))
    (config : JsObject.t JSON.value) (p : string) :
  CredentialService.initialized t = false ->
  files w (path.join (VaultStmt.local_dir w) "identity.txt") = Absent ->
  config.loadConfig w = (Ok config, w) ->
  config.vault_prop "defaultLocation" config = Ok (Some (JSON.VString "custom")) ->
  config.vault_prop "customPath" config = Ok (Some (JSON.VString p)) ->
  p <> EmptyString ->
  let s := (t, Source.mkTraced w log) in
  CredentialService.getVaultPath s = (Ok p, s)
  /\ exists s',
       CredentialService.init None s = (Ok tt, s')
       /\ CredentialService.localSource (fst s')
          = Some (VaultStmt.vault_in (VaultStmt.global_dir w)).
Proof.
  intros Hi Hl Hcfg Hloc Hcp Hp s. split.
  - unfold CredentialService.getVaultPath, s.
    rewrite (MonadFacts.bind_run _ _ _ _ _
               (ServiceFacts.io_run _ t w log _ _ (ServiceRoutes.hasLocalVault_none w Hl))).
    rewrite (MonadFacts.bind_run _ _ _ _ _ (ServiceFacts.io_run _ t w log _ _ Hcfg)).
    unfold CredentialService.customPath. rewrite Hloc. cbn [String.eqb Ascii.eqb].
    change (String.eqb "custom" "custom") with true. cbn iota. rewrite Hcp.
    destruct p as [|a p]; [contradiction|]. reflexivity.
  - eexists. split.
    + apply (ServiceRoutes.init_run None t w log config false Hi Hcfg).
      unfold CredentialService.useLocal. rewrite Hloc. reflexivity.
    + reflexivity.
Qed.

Module ServiceRuns.

Import Examples.

Lemma service_add_then_get_witness :
  let w := Scenario.initialised Scenario.global_source (Scenario.project Absent) in
  exists s1 s2 c,
    CredentialService.add "API_KEY" "sk-test" (CredentialService.new, Source.mkTraced w [])
    = (Ok tt, s1)
    /\ CredentialService.localSource (fst s1) = Some Scenario.global_source
    /\ CredentialService.get "API_KEY" s1 = (Ok (Some c), s2)
    /\ cred_value c = "sk-test"
    /\ Source.calls (snd s2)
       = [ (Source.CallIsAvailable "local", Source.Returned true);
           (Source.CallSet "local" "API_KEY" "sk-test", Source.Returned true);
           (Source.CallIsAvailable "local", Source.Returned true);
           (Source.CallGet "local" "API_KEY", Source.Returned true) ].
Proof.
  intros w.
  apply (@service_add_then_get ToyAge StoreWitness.toy_contract JsonYaml LineDotenv
           w [] config.getDefaultConfig false [] "AGE-SECRET-KEY-000007"
           "API_KEY" "sk-test").
  - apply readonly_pair; [apply MonadFacts.readonly_loadConfig|].
    vm_compute. reflexivity.
  - reflexivity.
  - split; (apply readonly_pair;
            [first [apply ReadFacts.readonly_loadIdentity
                   |apply ReadFacts.readonly_loadRecipient]
            |vm_compute; reflexivity]).
  - vm_compute. discriminate.
  - apply readonly_pair; [apply ReadFacts.readonly_readVault|].
    vm_compute. reflexivity.
  - split; [exact I|]. split; constructor.
Defined.

Lemma custom_path_reported_not_used_witness :
  let w := ScenarioConfig.with_custom in
  let s := Scenario.start w in
  CredentialService.getVaultPath s = (Ok "/mnt/vault", s)
  /\ exists s',
       CredentialService.init None s = (Ok tt, s')
       /\ CredentialService.localSource (fst s') = Some Scenario.global_source.
Proof.
  intros w s.
  assert (Hcfg : exists config,
             config.loadConfig w = (Ok config, w)
             /\ config.vault_prop "defaultLocation" config
                = Ok (Some (JSON.VString "custom"))
             /\ config.vault_prop "customPath" config
                = Ok (Some (JSON.VString "/mnt/vault"))).
  { eexists. split; [|split].
    - apply readonly_pair; [apply MonadFacts.readonly_loadConfig|].
      vm_compute. reflexivity.
    - reflexivity.
    - reflexivity. }
  destruct Hcfg as (config & Hcfg & Hloc & Hcp).
  apply (@custom_path_reported_not_used ToyAge JsonYaml LineDotenv
           CredentialService.new w [] config "/mnt/vault"
           eq_refl eq_refl Hcfg Hloc Hcp).
  discriminate.
Defined.

End ServiceRuns.
(** ** The configuration: layers *)

Module ConfigFacts.

Import JSON ConfigStmt MonadFacts.

Local Abbreviation list := Datatypes.list.











Section Loader.
Context `{YamlLibrary}.

Lemma readPartial_silent p w :
  silent (files w p) -> config.readPartial p w = (Ok [], w).
Proof.
  unfold silent, config.readPartial, bind, fs.pathExists, try_catch, fs.readFile,
    lift_result.
  destruct (files w p) as [|content|] eqn:E; intros Hs; cbn; rewrite ?E;
    try reflexivity.
  destruct Hs as [(e & ->)| ->]; reflexivity.
Qed.

Lemma readPartial_object p w content ps :
  files w p = File content -> yaml_parse content = Ok (VObject ps) ->
  config.readPartial p w = (Ok ps, w).
Proof.
  intros E Hp.
  unfold config.readPartial, bind, fs.pathExists, try_catch, fs.readFile,
    lift_result.
  rewrite E. cbn. rewrite E, Hp. reflexivity.
Qed.

End Loader.

End ConfigFacts.

(** X16.  A configuration file that is missing, cannot be read, is not a
    document of the YAML reader or is the empty document is passed over
    without an error: when both files are so, [loadConfig] answers the
    default configuration and changes nothing. *)
Theorem silent_config_gives_defaults `{YamlLibrary} (w : World) :
  ConfigStmt.silent (files w (path.join (VaultStmt.global_dir w) "config.yaml")) ->
  ConfigStmt.silent (files w (path.join (VaultStmt.local_dir w) "config.yaml")) ->
  config.loadConfig w = (Ok config.getDefaultConfig, w).
Proof.
  intros Hg Hl. unfold config.loadConfig.
  assert (Pg : paths.getConfigPath false w
               = (Ok (path.join (VaultStmt.global_dir w) "config.yaml"), w))
    by reflexivity.
  assert (Pl : paths.getConfigPath true w
               = (Ok (path.join (VaultStmt.local_dir w) "config.yaml"), w))
    by reflexivity.
  rewrite (MonadFacts.bind_run _ _ _ _ _ Pg).
  rewrite (MonadFacts.bind_run _ _ _ _ _ (ConfigFacts.readPartial_silent _ w Hg)).
  rewrite (MonadFacts.bind_run _ _ _ _ _ Pl).
  rewrite (MonadFacts.bind_run _ _ _ _ _ (ConfigFacts.readPartial_silent _ w Hl)).
  reflexivity.
Qed.


Module ConfigRuns.

Import Examples.

Lemma silent_config_gives_defaults_witness :
  let w := ScenarioConfig.damaged in
  files w "/home/u/.secretsage/config.yaml" = File "vault: ["
  /\ config.loadConfig w = (Ok config.getDefaultConfig, w).
Proof.
  intros w. split; [reflexivity|].
  apply (@silent_config_gives_defaults JsonYaml w).
  - left. eexists. vm_compute. reflexivity.
  - exact I.
Defined.


End ConfigRuns.
(** ** White space at the end of a text, line by line *)

Module LineFacts.

Import Str ServiceMore Gitignore StrFacts KeyFileFacts.

Local Abbreviation list := Datatypes.list.

Lemma split_on_nonempty c s : split_on c s <> [].
Proof.
  destruct s as [|a r]; cbn [split_on]; [discriminate|].
  destruct (Ascii.eqb a c); [discriminate|].
  destruct (split_on c r); discriminate.
Qed.

(** Splitting at a separator splits the list of pieces. *)
Lemma split_on_app c a b :
  split_on c (a ++ String c b) = (split_on c a ++ split_on c b)%list.
Proof.
  induction a as [|x a IH]; cbn [append split_on].
  - rewrite Ascii.eqb_refl. reflexivity.
  - destruct (Ascii.eqb x c); [rewrite IH; reflexivity|].
    rewrite IH. destruct (split_on c a) as [|y l] eqn:E; [|reflexivity].
    exfalso. exact (split_on_nonempty c a E).
Qed.

(** A text without the separator, put at the end, goes to the last piece. *)
Lemma split_on_snoc c s w :
  includes w (str1 c) = false ->
  split_on c (s ++ w)
  = (removelast (split_on c s) ++ [(last (split_on c s) EmptyString ++ w)%string])%list.
Proof.
  intros Hw. induction s as [|a r IH].
  - cbn [append split_on removelast last app]. apply split_on_last, Hw.
  - cbn [append split_on]. rewrite IH.
    destruct (split_on c r) as [|y l] eqn:E; [exfalso; exact (split_on_nonempty c r E)|].
    destruct (Ascii.eqb a c).
    + destruct l; reflexivity.
    + destruct l; reflexivity.
Qed.

Lemma length_rev s : String.length (rev s) = String.length s.
Proof.
  induction s as [|c s IH]; [reflexivity|].
  rewrite rev_cons, JsonFacts.length_append, IH. cbn. lia.
Qed.

Lemma rev_app a b : rev (a ++ b) = rev b ++ rev a.
Proof.
  induction a as [|c a IH]; cbn [append].
  - rewrite append_nil_r. reflexivity.
  - rewrite !rev_cons, IH, append_assoc. reflexivity.
Qed.

(** *** The bytes of a white space character *)

Ltac bools :=
  repeat match goal with
         | H : _ && _ = true |- _ => apply andb_true_iff in H; destruct H
         | H : _ || _ = true |- _ => apply orb_true_iff in H; destruct H
         | H : (_ =? _)%N = true |- _ => apply N.eqb_eq in H
         | H : (_ <=? _)%N = true |- _ => apply N.leb_le in H
         end.

Lemma ws1_bound a : ws1 a = true -> (a <= 32)%N.
Proof. unfold ws1. intros Hx. bools; lia. Qed.

Lemma ws2_bytes a b : ws2 a b = true -> (a = 194 /\ b = 160)%N.
Proof. unfold ws2. intros Hx. bools; lia. Qed.

Lemma ws3_bytes a b c :
  ws3 a b c = true ->
  (225 <= a /\ (b = 154 \/ b = 128 \/ b = 129 \/ b = 187) /\ 128 <= c <= 191)%N.
Proof. unfold ws3. intros Hx. bools; lia. Qed.

Lemma ws1_high a : (32 < a)%N -> ws1 a = false.
Proof.
  intros Ha. apply not_true_is_false. intros Hx. apply ws1_bound in Hx. lia.
Qed.

Lemma ws2_not a b : (a <> 194 \/ b <> 160)%N -> ws2 a b = false.
Proof.
  intros Ha. apply not_true_is_false. intros Hx. apply ws2_bytes in Hx. lia.
Qed.

Lemma ws3_not a b c :
  (a < 225 \/ (b <> 154 /\ b <> 128 /\ b <> 129 /\ b <> 187) \/ c < 128 \/ 191 < c)%N ->
  ws3 a b c = false.
Proof.
  intros Ha. apply not_true_is_false. intros Hx. apply ws3_bytes in Hx. lia.
Qed.

(** The three shapes of a white space character. *)
Lemma ws_char_cases w :
  ws_char w ->
  (exists x, w = String x EmptyString /\ ws1 (code x) = true)
  \/ (exists x y, w = String x (String y EmptyString)
                  /\ ws2 (code x) (code y) = true)
  \/ (exists x y z, w = String x (String y (String z EmptyString))
                    /\ ws3 (code x) (code y) (code z) = true).
Proof.
  unfold ws_char, ws_prefix. destruct w as [|x r]; [discriminate|].
  destruct (ws1 (code x)) eqn:E1.
  - intros E. injection E as ->. left. eauto.
  - destruct r as [|y r2]; [discriminate|].
    destruct (ws2 (code x) (code y)) eqn:E2.
    + intros E. injection E as ->. right. left. eauto.
    + destruct r2 as [|z r3]; [discriminate|].
      destruct (ws3 (code x) (code y) (code z)) eqn:E3; [|discriminate].
      intros E. injection E as ->. right. right. eauto.
Qed.

Lemma ws_char_1 x : ws1 (code x) = true -> ws_char (String x EmptyString).
Proof. intros E. unfold ws_char, ws_prefix. rewrite E. reflexivity. Qed.

Lemma ws_char_2 x y :
  ws2 (code x) (code y) = true -> ws_char (String x (String y EmptyString)).
Proof.
  intros E. unfold ws_char, ws_prefix. rewrite E.
  apply ws2_bytes in E as [Ex _]. rewrite ws1_high by lia. reflexivity.
Qed.

Lemma ws_char_3 x y z :
  ws3 (code x) (code y) (code z) = true ->
  ws_char (String x (String y (String z EmptyString))).
Proof.
  intros E. unfold ws_char, ws_prefix. rewrite E.
  apply ws3_bytes in E as (Ex & _ & _).
  rewrite ws1_high by lia. rewrite ws2_not by lia. reflexivity.
Qed.

(** White space at the head stays white space whatever follows. *)
Lemma ws_prefix_app s r w :
  ws_prefix s = Some r -> ws_prefix (s ++ w) = Some (r ++ w).
Proof.
  unfold ws_prefix. destruct s as [|a s1]; [discriminate|]. cbn [append].
  destruct (ws1 (code a)); [intros E; injection E as <-; reflexivity|].
  destruct s1 as [|b s2]; [discriminate|]. cbn [append].
  destruct (ws2 (code a) (code b)); [intros E; injection E as <-; reflexivity|].
  destruct s2 as [|c s3]; [discriminate|]. cbn [append].
  destruct (ws3 (code a) (code b) (code c)); [|discriminate].
  intros E. injection E as <-. reflexivity.
Qed.

(** What is no white space at the head stays so when a white space
    character is put at the end. *)
Lemma ws_prefix_app_None s w :
  s <> EmptyString -> ws_prefix s = None -> ws_char w ->
  ws_prefix (s ++ w) = None.
Proof.
  intros Hs Hn Hw. unfold ws_prefix in Hn |- *.
  destruct s as [|a s1]; [contradiction|]. cbn [append].
  destruct (ws1 (code a)) eqn:E1; [discriminate|].
  destruct s1 as [|b s2].
  - cbn [append].
    destruct (ws_char_cases w Hw)
      as [(x & -> & Hx)|[(x & y & -> & Hx)|(x & y & z & -> & Hx)]].
    + apply ws1_bound in Hx. rewrite ws2_not by lia. reflexivity.
    + apply ws2_bytes in Hx. rewrite ws2_not by lia. rewrite ws3_not by lia.
      reflexivity.
    + apply ws3_bytes in Hx. rewrite ws2_not by lia. rewrite ws3_not by lia.
      reflexivity.
  - cbn [append]. destruct (ws2 (code a) (code b)) eqn:E2; [discriminate|].
    destruct s2 as [|c s3].
    + cbn [append].
      destruct (ws_char_cases w Hw)
        as [(x & -> & Hx)|[(x & y & -> & Hx)|(x & y & z & -> & Hx)]].
      * apply ws1_bound in Hx. rewrite ws3_not by lia. reflexivity.
      * apply ws2_bytes in Hx. rewrite ws3_not by lia. reflexivity.
      * apply ws3_bytes in Hx. rewrite ws3_not by lia. reflexivity.
    + cbn [append]. destruct (ws3 (code a) (code b) (code c)); [discriminate|].
      reflexivity.
Qed.

(** A white space character at the end is what [trimEnd] takes first. *)
Lemma ws_suffix_rev_char w t :
  ws_char w -> ws_suffix_rev (rev w ++ t) = Some t.
Proof.
  intros Hw. unfold ws_suffix_rev.
  destruct (ws_char_cases w Hw)
    as [(x & -> & Hx)|[(x & y & -> & Hx)|(x & y & z & -> & Hx)]].
  - cbn. rewrite Hx. reflexivity.
  - cbn. rewrite Hx. apply ws2_bytes in Hx. rewrite ws1_high by lia. reflexivity.
  - cbn. rewrite Hx. apply ws3_bytes in Hx.
    rewrite ws1_high by lia. rewrite ws2_not by lia. reflexivity.
Qed.

(** What [trimEnd] takes is a white space character. *)
Lemma ws_suffix_rev_inv t t1 :
  ws_suffix_rev t = Some t1 -> exists w, ws_char w /\ t = rev w ++ t1.
Proof.
  unfold ws_suffix_rev. destruct t as [|c r]; [discriminate|].
  destruct (ws1 (code c)) eqn:E1.
  - intros E. injection E as <-. exists (String c EmptyString).
    split; [apply ws_char_1, E1|reflexivity].
  - destruct r as [|b r2]; [discriminate|].
    destruct (ws2 (code b) (code c)) eqn:E2.
    + intros E. injection E as <-. exists (String b (String c EmptyString)).
      split; [apply ws_char_2, E2|reflexivity].
    + destruct r2 as [|a r3]; [discriminate|].
      destruct (ws3 (code a) (code b) (code c)) eqn:E3; [|discriminate].
      intros E. injection E as <-.
      exists (String a (String b (String c EmptyString))).
      split; [apply ws_char_3, E3|reflexivity].
Qed.

Lemma ws_char_length w : ws_char w -> (1 <= String.length w <= 3)%nat.
Proof.
  intros Hw.
  destruct (ws_char_cases w Hw)
    as [(x & -> & _)|[(x & y & -> & _)|(x & y & z & -> & _)]]; cbn; lia.
Qed.

Lemma ws_suffix_shorter t t1 :
  ws_suffix_rev t = Some t1 -> (String.length t1 < String.length t)%nat.
Proof.
  intros E. apply ws_suffix_rev_inv in E as (w & Hw & ->).
  rewrite JsonFacts.length_append, length_rev.
  pose proof (ws_char_length w Hw). lia.
Qed.

(** Fuel beyond the length of the text changes nothing. *)
Lemma strip_fuel (step : string -> option string) :
  (forall s r, step s = Some r -> (String.length r < String.length s)%nat) ->
  forall n m s,
    (String.length s <= n)%nat -> (String.length s <= m)%nat ->
    strip step n s = strip step m s.
Proof.
  intros Hstep. induction n as [|n IH]; intros m s Hn Hm.
  - destruct s; [|cbn in Hn; lia]. destruct m; cbn [strip]; [reflexivity|].
    destruct (step EmptyString) as [r|] eqn:E; [|reflexivity].
    apply Hstep in E. cbn in E. lia.
  - destruct m as [|m].
    + destruct s; [|cbn in Hm; lia]. cbn [strip].
      destruct (step EmptyString) as [r|] eqn:E; [|reflexivity].
      apply Hstep in E. cbn in E. lia.
    + cbn [strip]. destruct (step s) as [r|] eqn:E; [|reflexivity].
      apply Hstep in E. apply IH; lia.
Qed.

(** *** Trimming a text with one more white space character at the end *)

Lemma trimEnd_char s w : ws_char w -> trimEnd (s ++ w) = trimEnd s.
Proof.
  intros Hw. unfold trimEnd. f_equal. rewrite rev_app.
  pose proof (ws_char_length w Hw) as Hl.
  rewrite JsonFacts.length_append.
  destruct (String.length s + String.length w)%nat as [|k] eqn:Ek; [lia|].
  cbn [strip]. rewrite (ws_suffix_rev_char w (rev s) Hw).
  apply (strip_fuel _ ws_suffix_shorter); rewrite length_rev; lia.
Qed.

Lemma strip_prefix_nil n : strip ws_prefix n EmptyString = EmptyString.
Proof. destruct n; reflexivity. Qed.

Lemma strip_prefix_char w : forall n s,
  ws_char w -> (String.length s <= n)%nat ->
  (strip ws_prefix n s = EmptyString ->
   strip ws_prefix (n + 3) (s ++ w) = EmptyString)
  /\ (strip ws_prefix n s <> EmptyString ->
      strip ws_prefix (n + 3) (s ++ w) = strip ws_prefix n s ++ w).
Proof.
  induction n as [|n IH]; intros s Hw Hn.
  - destruct s; [|cbn in Hn; lia]. split.
    + intros _. change (strip ws_prefix 3 w = EmptyString). cbn [strip].
      unfold ws_char in Hw. rewrite Hw. reflexivity.
    + intros Hne. contradiction.
  - cbn [strip Nat.add]. destruct (ws_prefix s) as [r|] eqn:E.
    + rewrite (ws_prefix_app s r w E).
      apply IH; [exact Hw|]. apply ws_prefix_shorter in E. lia.
    + split.
      * intros ->. cbn [append]. unfold ws_char in Hw. rewrite Hw.
        apply strip_prefix_nil.
      * intros Hne. rewrite (ws_prefix_app_None s w Hne E Hw). reflexivity.
Qed.

Lemma trimStart_fuel s n :
  (String.length s <= n)%nat -> strip ws_prefix n s = trimStart s.
Proof.
  intros Hn. unfold trimStart. apply (strip_fuel _ ws_prefix_shorter); lia.
Qed.

(** A line with one more white space character at the end trims alike. *)
Lemma trim_char s w : ws_char w -> trim (s ++ w) = trim s.
Proof.
  intros Hw. unfold trim.
  pose proof (ws_char_length w Hw) as Hl.
  destruct (strip_prefix_char w (String.length s) s Hw (Nat.le_refl _)) as [H0 H1].
  fold (trimStart s) in H0, H1.
  rewrite trimStart_fuel in H0, H1 by (rewrite JsonFacts.length_append; lia).
  destruct (trimStart s) as [|a r] eqn:E.
  - rewrite (H0 eq_refl). reflexivity.
  - rewrite H1 by discriminate. apply trimEnd_char, Hw.
Qed.

(** *** The trimmed lines of a text *)

Lemma removelast_In {A} (x : A) l : In x (removelast l) -> In x l.
Proof.
  induction l as [|y r IH]; [auto|]. cbn [removelast].
  destruct r; [intros []|]. intros [E|Hin]; [left; exact E|right; exact (IH Hin)].
Qed.

Lemma last_In {A} (l : list A) d : l <> [] -> In (last l d) l.
Proof.
  induction l as [|y r IH]; [contradiction|]. intros _. cbn [last].
  destruct r; [left; reflexivity|]. right. apply IH. discriminate.
Qed.

Lemma LF_is_ws : ws_char (str1 LF).
Proof. reflexivity. Qed.

Lemma ws_char_line w :
  ws_char w -> w = str1 LF \/ includes w (str1 LF) = false.
Proof.
  intros Hw.
  destruct (ws_char_cases w Hw)
    as [(x & -> & Hx)|[(x & y & -> & Hx)|(x & y & z & -> & Hx)]].
  - destruct (Ascii.eqb_spec LF x) as [<-|Hne]; [left; reflexivity|].
    right. rewrite includes_char_cons. apply Ascii.eqb_neq in Hne. rewrite Hne.
    reflexivity.
  - right. apply ws2_bytes in Hx as [Hx Hy].
    rewrite !includes_char_cons.
    destruct (Ascii.eqb_spec LF x) as [<-|_]; [discriminate Hx|].
    destruct (Ascii.eqb_spec LF y) as [<-|_]; [discriminate Hy|]. reflexivity.
  - right. apply ws3_bytes in Hx as (Hx & Hy & Hz).
    rewrite !includes_char_cons.
    destruct (Ascii.eqb_spec LF x) as [<-|_]; [cbn in Hx; lia|].
    destruct (Ascii.eqb_spec LF y) as [<-|_]; [cbn in Hy; lia|].
    destruct (Ascii.eqb_spec LF z) as [<-|_]; [cbn in Hz; lia|]. reflexivity.
Qed.

(** Taking a white space character from the end of a text loses no line
    that has something on it. *)
Lemma trimmed_lines_char s w e :
  ws_char w -> e <> EmptyString ->
  In e (trimmed_lines (s ++ w)) -> In e (trimmed_lines s).
Proof.
  intros Hw He. unfold trimmed_lines.
  destruct (ws_char_line w Hw) as [->|Hfree].
  - change (str1 LF) with (String LF EmptyString). rewrite split_on_app, map_app.
    rewrite in_app_iff. intros [Hin|[E|[]]]; [exact Hin|].
    exfalso. apply He. rewrite <- E. reflexivity.
  - rewrite (split_on_snoc LF s w Hfree), map_app, in_app_iff.
    intros [Hin|[E|[]]].
    + apply in_map_iff in Hin as (x & Ex & Hin). apply in_map_iff.
      exists x. split; [exact Ex|]. apply removelast_In, Hin.
    + rewrite (trim_char _ w Hw) in E. rewrite <- E. apply in_map.
      apply last_In, split_on_nonempty.
Qed.

Lemma trimmed_lines_strip e : forall n t,
  e <> EmptyString ->
  In e (trimmed_lines (rev t)) ->
  In e (trimmed_lines (rev (strip ws_suffix_rev n t))).
Proof.
  induction n as [|n IH]; intros t He Hin; [exact Hin|].
  cbn [strip]. destruct (ws_suffix_rev t) as [t1|] eqn:E; [|exact Hin].
  apply ws_suffix_rev_inv in E as (w & Hw & ->).
  apply IH; [exact He|].
  rewrite rev_app, rev_involutive in Hin.
  exact (trimmed_lines_char (rev t1) w e Hw He Hin).
Qed.

(** [trimEnd] loses no line that has something on it. *)
Lemma trimmed_lines_trimEnd s e :
  e <> EmptyString -> In e (trimmed_lines s) -> In e (trimmed_lines (trimEnd s)).
Proof.
  intros He Hin. unfold trimEnd. apply trimmed_lines_strip; [exact He|].
  rewrite rev_involutive. exact Hin.
Qed.

End LineFacts.

(** ** core/service.ts: the ignore file *)

Module GitignoreFacts.

Import Str ServiceMore Gitignore StrFacts MonadFacts LineFacts.

Local Abbreviation list := Datatypes.list.

Lemma Array_includes_In lines entry :
  Array_includes lines entry = true <-> In entry lines.
Proof. apply RegistryMapFacts.existsb_eqb_In. Qed.

Lemma additions_none content :
  (forall e, In e entriesToAdd -> In e (trimmed_lines content)) <->
  additions_for content = [].
Proof.
  unfold additions_for. split.
  - intros Hall. induction entriesToAdd as [|e r IH]; [reflexivity|].
    cbn [filter].
    rewrite (proj2 (Array_includes_In _ e) (Hall e (or_introl eq_refl))).
    cbn [negb]. apply IH. intros x Hx. apply Hall. right. exact Hx.
  - intros Hnil e He.
    apply Array_includes_In.
    destruct (Array_includes (trimmed_lines content) e) eqn:E; [reflexivity|].
    assert (Hin : In e (filter
                          (fun entry =>
                             negb (Array_includes (trimmed_lines content) entry))
                          entriesToAdd)).
    { apply filter_In. split; [exact He|]. rewrite E. reflexivity. }
    rewrite Hnil in Hin. destruct Hin.
Qed.

(** The text [updateGitignore] writes for [content]. *)
Lemma updateGitignore_run w :
  files w (gitignorePath w) <> Unreadable ->
  updateGitignore w
  = match additions_for (gitignore w) with
    | [] => (Ok false, w)
    | additions =>
        (Ok true,
         put_file (gitignorePath w)
           (File (trimEnd (gitignore w) ++ nl ++ nl ++ "# SecretSage" ++ nl
                  ++ join nl additions ++ nl)) w)
    end.
Proof.
  intros Hf. unfold updateGitignore, getGitignorePath, paths.read, bind, ret,
    fs.pathExists, gitignore.
  fold (gitignorePath w).
  destruct (files w (gitignorePath w)) as [|content|] eqn:E; [| |contradiction].
  - destruct (additions_for "") as [|a r] eqn:Ea; [reflexivity|].
    cbn [length Nat.eqb]. unfold fs.writeFile. rewrite E. reflexivity.
  - unfold fs.readFile. rewrite E.
    destruct (additions_for content) as [|a r] eqn:Ea; [reflexivity|].
    cbn [length Nat.eqb]. unfold fs.writeFile. rewrite E. reflexivity.
Qed.

(** Every entry is a line of the text written. *)
Lemma entries_after content e :
  let additions := additions_for content in
  In e entriesToAdd ->
  In e (trimmed_lines
          (trimEnd content ++ nl ++ nl ++ "# SecretSage" ++ nl
           ++ join nl additions ++ nl)).
Proof.
  intros additions He.
  assert (Hne : e <> EmptyString).
  { destruct He as [<-|[<-|[<-|[]]]]; discriminate. }
  unfold trimmed_lines at 1.
  change (trimEnd content ++ nl ++ ?x) with (trimEnd content ++ String LF x).
  rewrite split_on_app, map_app, in_app_iff.
  destruct (Array_includes (trimmed_lines content) e) eqn:E.
  - left. apply Array_includes_In in E.
    exact (trimmed_lines_trimEnd content e Hne E).
  - right. subst additions. unfold additions_for. cbn [entriesToAdd filter].
    destruct (Array_includes (trimmed_lines content) ".env") eqn:E1;
      destruct (Array_includes (trimmed_lines content) ".env.*") eqn:E2;
      destruct (Array_includes (trimmed_lines content) ".secretsage/") eqn:E3;
      cbn [negb];
      destruct He as [<-|[<-|[<-|[]]]]; try congruence;
      vm_compute; tauto.
Qed.

End GitignoreFacts.

(** X18.  [updateGitignore] is idempotent.  On an ignore file that can be
    written (or is missing), it answers [false] and writes nothing exactly
    when [.env], [.env.*] and [.secretsage/] are each a line of the file,
    white space around them apart.  Otherwise it rewrites the ignore file,
    and that file only; afterwards all three are lines of it, lines that
    were there before included, so that a second call answers [false] and
    writes nothing. *)
Theorem updateGitignore_idempotent (w : World) :
  files w (ServiceMore.gitignorePath w) <> Unreadable ->
  exists changed w1,
    Gitignore.updateGitignore w = (Ok changed, w1)
    /\ (changed = false <->
        forall e, In e Gitignore.entriesToAdd ->
                  In e (Gitignore.trimmed_lines (ServiceMore.gitignore w)))
    /\ (changed = false -> w1 = w)
    /\ (forall q, q <> ServiceMore.gitignorePath w -> files w1 q = files w q)
    /\ (forall e, In e Gitignore.entriesToAdd ->
                  In e (Gitignore.trimmed_lines (ServiceMore.gitignore w1)))
    /\ Gitignore.updateGitignore w1 = (Ok false, w1).
Proof.
  intros Hf. pose proof (GitignoreFacts.updateGitignore_run w Hf) as Hrun.
  destruct (Gitignore.additions_for (ServiceMore.gitignore w)) as [|a r] eqn:Ea.
  - pose proof (proj2 (GitignoreFacts.additions_none _) Ea) as Hall.
    exists false, w. split; [exact Hrun|]. split; [tauto|]. split; [reflexivity|].
    split; [reflexivity|]. split; [exact Hall|exact Hrun].
  - eexists. eexists. split; [exact Hrun|].
    set (w1 := put_file _ _ w).
    assert (Hg : ServiceMore.gitignore w1
                 = Str.trimEnd (ServiceMore.gitignore w) ++ Gitignore.nl
                   ++ Gitignore.nl ++ "# SecretSage" ++ Gitignore.nl
                   ++ Str.join Gitignore.nl
                        (Gitignore.additions_for (ServiceMore.gitignore w))
                   ++ Gitignore.nl).
    { unfold ServiceMore.gitignore at 1.
      change (ServiceMore.gitignorePath w1) with (ServiceMore.gitignorePath w).
      unfold w1. rewrite StoreRuns.put_file_same, Ea. reflexivity. }
    assert (Hall : forall e, In e Gitignore.entriesToAdd ->
                             In e (Gitignore.trimmed_lines (ServiceMore.gitignore w1))).
    { intros e He. rewrite Hg. apply GitignoreFacts.entries_after, He. }
    split; [|split; [discriminate|split; [|split; [exact Hall|]]]].
    + split; [discriminate|]. intros Hbefore.
      apply (proj1 (GitignoreFacts.additions_none _)) in Hbefore. congruence.
    + intros q Hq. apply StoreRuns.put_file_other. congruence.
    + rewrite GitignoreFacts.updateGitignore_run.
      * apply (proj1 (GitignoreFacts.additions_none _)) in Hall. rewrite Hall.
        reflexivity.
      * change (ServiceMore.gitignorePath w1) with (ServiceMore.gitignorePath w).
        unfold w1. rewrite StoreRuns.put_file_same. discriminate.
Qed.

Lemma updateGitignore_idempotent_witness :
  let w := ScenarioIgnore.tracked in
  files w (ServiceMore.gitignorePath w) <> Unreadable
  /\ exists w1,
       Gitignore.updateGitignore w = (Ok true, w1)
       /\ ServiceMore.gitignore w1
          = Scenario.lines ["node_modules"; "  .env"; ""; "# SecretSage";
                            ".env.*"; ".secretsage/"]
       /\ Gitignore.updateGitignore w1 = (Ok false, w1).
Proof.
  intros w.
  assert (Hf : files w (ServiceMore.gitignorePath w) <> Unreadable)
    by (vm_compute; discriminate).
  split; [exact Hf|].
  destruct (updateGitignore_idempotent w Hf)
    as (changed & w1 & Hrun & _ & _ & _ & _ & Hagain).
  assert (Hc : changed = true /\ ServiceMore.gitignore w1
               = Scenario.lines ["node_modules"; "  .env"; ""; "# SecretSage";
                                 ".env.*"; ".secretsage/"]).
  { assert (E1 : fst (Gitignore.updateGitignore w) = Ok changed)
      by (rewrite Hrun; reflexivity).
    assert (E2 : snd (Gitignore.updateGitignore w) = w1)
      by (rewrite Hrun; reflexivity).
    vm_compute in E1. injection E1 as <-. split; [reflexivity|].
    rewrite <- E2. vm_compute. reflexivity. }
  destruct Hc as [-> Hg]. exists w1. auto.
Defined.
(** ** The reconciler: the values [grant] writes *)

Module TraceFacts.

Import Source CredentialSourceRegistry Trace MonadFacts.

Section Facts.
Context {W : Type}.

Local Abbreviation list := Datatypes.list.
Local Abbreviation source := (ICredentialSource W).

Lemma appending_ret {A} (a : A) : appending (@ret (Traced W) A a).
Proof. intros w log. cbn. rewrite app_nil_r. reflexivity. Qed.

Lemma appending_invoke {A} c (t : A -> bool) (m : M W A) : appending (invoke c t m).
Proof. intros w log. unfold invoke. cbn [world calls]. destruct (m w). reflexivity. Qed.

Lemma appending_bind {A B} (m : M (Traced W) A) (k : A -> M (Traced W) B) :
  appending m -> (forall a, appending (k a)) -> appending (bind m k).
Proof.
  intros Hm Hk w log. unfold bind. rewrite (Hm w log).
  destruct (m (mkTraced w [])) as [[a|e] [w1 l1]]; cbn [world calls].
  - rewrite (Hk a w1 (log ++ l1)%list), (Hk a w1 l1).
    destruct (k a (mkTraced w1 [])) as [r [w2 l2]]. cbn [world calls].
    rewrite app_assoc. reflexivity.
  - reflexivity.
Qed.

Lemma appending_probe (l : list source) : appending (probe l).
Proof.
  induction l as [|s r IH]; cbn [probe]; [apply appending_ret|].
  apply appending_bind; [apply appending_invoke|]. intros ok.
  apply appending_bind; [exact IH|]. intros available. apply appending_ret.
Qed.

Lemma appending_get_first name (l : list source) : appending (get_first name l).
Proof.
  induction l as [|s r IH]; cbn [get_first]; [apply appending_ret|].
  apply appending_bind; [apply appending_invoke|]. intros [c|];
    [apply appending_ret|exact IH].
Qed.

Lemma appending_get name (reg : CredentialSourceRegistry.t W) :
  appending (CredentialSourceRegistry.get name reg).
Proof.
  unfold CredentialSourceRegistry.get, getAvailableSources.
  apply appending_bind.
  - apply appending_bind; [apply appending_probe|]. intros a. apply appending_ret.
  - intros l. apply appending_get_first.
Qed.

(** The answer of [get] does not depend on the calls recorded before. *)
Lemma get_answer name (reg : CredentialSourceRegistry.t W) w log :
  fst (CredentialSourceRegistry.get name reg (mkTraced w log))
  = fst (CredentialSourceRegistry.get name reg (mkTraced w [])).
Proof.
  rewrite (appending_get name reg w log).
  destruct (CredentialSourceRegistry.get name reg (mkTraced w [])) as [r tw].
  reflexivity.
Qed.

End Facts.

End TraceFacts.

Module GrantValues.

Import Source CredentialService ServiceStmt ServiceMore GrantStmt MonadFacts
  ServiceFacts GrantFacts ReconcilerFacts.

Local Abbreviation list := Datatypes.list.

Lemma assign_all_app nvs1 nvs2 env :
  EnvMap.assign_all (nvs1 ++ nvs2)%list env
  = EnvMap.assign_all nvs2 (EnvMap.assign_all nvs1 env).
Proof. unfold EnvMap.assign_all. apply fold_left_app. Qed.

Section Methods.
Context `{AgeLibrary} `{YamlLibrary} `{DotenvLibrary}.

(** The loop of [grant] assigns what the registry resolves. *)
Lemma grant_loop_values names : forall env granted s r s',
  consistent (fst s) ->
  grant_loop names env granted s = (Ok r, s') ->
  let found := resolved (registry (fst s)) (world (snd s)) in
  fst r = EnvMap.assign_all (found_values found names) env
  /\ snd r = (granted ++ found_names found names)%list.
Proof.
  induction names as [|name rest IH]; intros env granted s r s' Hc Hr found.
  - injection Hr as <- <-. cbn. rewrite app_nil_r. split; reflexivity.
  - cbn [grant_loop] in Hr.
    apply bind_Ok in Hr. destruct Hr as (cred & s1 & Hg & Hr).
    assert (Hfound : found name = cred).
    { unfold found, resolved. destruct s as [t [w log]]. cbn [fst snd world].
      rewrite <- (TraceFacts.get_answer name (registry t) w log).
      unfold reg in Hg. cbn [fst snd] in Hg.
      destruct (CredentialSourceRegistry.get name (registry t) (mkTraced w log))
        as [r0 tw0].
      injection Hg as -> _. reflexivity. }
    pose proof (reg_get_world name s Hc) as Hw. rewrite Hg in Hw. cbn [snd] in Hw.
    pose proof (reg_fst _ _ _ _ Hg) as Hf.
    assert (Hc1 : consistent (fst s1)) by (rewrite Hf; exact Hc).
    assert (Hsame : resolved (registry (fst s1)) (world (snd s1)) = found)
      by (unfold found; rewrite Hf, Hw; reflexivity).
    cbn [found_values found_names flat_map filter]. rewrite Hfound.
    destruct cred as [c|].
    + destruct (IH _ _ _ _ _ Hc1 Hr) as (E1 & E2). rewrite Hsame in E1, E2.
      split.
      * rewrite E1. fold (found_values found rest). rewrite assign_all_app.
        reflexivity.
      * rewrite E2, <- app_assoc. reflexivity.
    + destruct (IH _ _ _ _ _ Hc1 Hr) as (E1 & E2). rewrite Hsame in E1, E2.
      split; [exact E1|exact E2].
Qed.

(** [grant], step by step. *)
Lemma grant_steps names backup s granted p s1 :
  consistent (fst s) ->
  grant names backup s = (Ok (granted, p), s1) ->
  exists sd r se,
    consistent (fst sd)
    /\ world (snd sd) = lookup_world s backup
    /\ grant_loop names (mapping (envFile s)) [] sd = (Ok r, se)
    /\ granted = snd r
    /\ fst s1 = fst sd
    /\ files (world (snd s1)) p = File (stringifyEnv (fst r)).
Proof.
  intros Hcons Hg. unfold grant in Hg.
  apply bind_Ok in Hg. destruct Hg as ([] & sa & Hinit & Hg).
  destruct (ensureInitialized_Ok _ _ Hcons Hinit) as (Hca & _ & Hsa).
  destruct s as [t [w0 log]], sa as [ta [wa loga]].
  cbn [snd world] in Hsa. injection Hsa as -> ->.
  apply bind_Ok in Hg. destruct Hg as (envp & sb & Hp & Hg).
  apply io_inv in Hp. destruct Hp as (w' & Hp & ->).
  rewrite getEnvPath_run in Hp. injection Hp as <- <-.
  apply bind_Ok in Hg. destruct Hg as (exists_ & sc & He & Hg).
  apply io_inv in He. destruct He as (w' & He & ->).
  apply bind_Ok in Hg. destruct Hg as (existingEnv & sd & Hx & Hg).
  apply bind_Ok in Hg. destruct Hg as (r & se & Hloop & Hg).
  apply bind_Ok in Hg. destruct Hg as ([] & sf & Hw & Hg).
  injection Hg as <- <- <-.
  assert (Hmid : fst sd = ta
                 /\ world (snd sd) = lookup_world (t, mkTraced w0 log) backup
                 /\ existingEnv = mapping (envFile (t, mkTraced w0 log))).
  { unfold lookup_world, envFile, envPath, mapping. cbn [snd world].
    unfold fs.pathExists in He.
    destruct (files w0 (path.join (cwd w0) ".env")) as [|content|] eqn:Ef.
    - injection He as <- <-. injection Hx as <- <-. repeat split.
    - injection He as <- <-.
      apply bind_Ok in Hx. destruct Hx as (c & sx & Hc & Hx).
      apply io_inv in Hc. destruct Hc as (wx & Hc & ->).
      unfold fs.readFile in Hc. rewrite Ef in Hc. injection Hc as <- <-.
      apply bind_Ok in Hx. destruct Hx as ([] & sy & Hb & Hx).
      injection Hx as <- <-.
      destruct backup as [[|]|].
      + apply bind_Ok in Hb. destruct Hb as (bp & sz & Hbp & Hb).
        apply io_inv in Hbp. destruct Hbp as (wz & Hbp & ->).
        rewrite ReconcilerMore.getEnvBackupPath_run in Hbp. injection Hbp as <- <-.
        apply io_inv in Hb. destruct Hb as (wy & Hb & ->).
        unfold fs.copyFile, fs.readFile, bind in Hb. rewrite Ef in Hb.
        apply writeFile_Ok in Hb. subst wy. repeat split.
      + injection Hb as <-. repeat split.
      + apply bind_Ok in Hb. destruct Hb as (bp & sz & Hbp & Hb).
        apply io_inv in Hbp. destruct Hbp as (wz & Hbp & ->).
        rewrite ReconcilerMore.getEnvBackupPath_run in Hbp. injection Hbp as <- <-.
        apply io_inv in Hb. destruct Hb as (wy & Hb & ->).
        unfold fs.copyFile, fs.readFile, bind in Hb. rewrite Ef in Hb.
        apply writeFile_Ok in Hb. subst wy. repeat split.
    - injection He as <- <-.
      apply bind_Ok in Hx. destruct Hx as (c & sx & Hc & Hx).
      apply io_inv in Hc. destruct Hc as (wx & Hc & ->).
      unfold fs.readFile in Hc. rewrite Ef in Hc. discriminate. }
  destruct Hmid as (Hfst & Hmid & Henv). subst existingEnv.
  exists sd, r, se.
  split; [rewrite Hfst; exact Hca|]. split; [exact Hmid|]. split; [exact Hloop|].
  split; [reflexivity|].
  destruct (grant_loop_Ok _ _ _ _ _ _ Hloop) as (Hse & _).
  destruct se as [te [we loge]].
  apply io_inv in Hw. destruct Hw as (w'' & Hw & ->).
  apply writeFile_Ok in Hw. subst w''.
  cbn [fst snd world] in *. split; [exact Hse|]. apply files_put.
Qed.

End Methods.

End GrantValues.

(** X19.  [grant] writes what the registry resolves.  After a successful
    [grant], the names granted are the requested names the registry answers
    a credential for, in the order of the request, and the env document is
    the text of the former mapping with each of them assigned the value of
    its credential in turn.  The credentials are looked up after the backup
    is made and before the document is rewritten; a name with no credential
    is passed over. *)
Theorem grant_writes_resolved_values `{AgeLibrary} `{YamlLibrary} `{DotenvLibrary}
    (s s1 : CredentialService.St) (names granted : list string)
    (backup : option bool) (p : string) :
  ServiceStmt.consistent (fst s) ->
  CredentialService.grant names backup s = (Ok (granted, p), s1) ->
  let found :=
    GrantStmt.resolved (CredentialService.registry (fst s1))
      (GrantStmt.lookup_world s backup) in
  granted = GrantStmt.found_names found names
  /\ files (Source.world (snd s1)) p
     = File (CredentialService.stringifyEnv
               (EnvMap.assign_all (GrantStmt.found_values found names)
                  (ServiceStmt.mapping (ServiceStmt.envFile s)))).
Proof.
  intros Hc Hg found.
  destruct (GrantValues.grant_steps _ _ _ _ _ _ Hc Hg)
    as (sd & r & se & Hcd & Hw & Hloop & Hgr & Hfst & Hfile).
  destruct (GrantValues.grant_loop_values _ _ _ _ _ _ Hcd Hloop) as (E1 & E2).
  rewrite Hw, <- Hfst in E1, E2. fold found in E1, E2.
  split; [rewrite Hgr; exact E2|]. rewrite Hfile, E1. reflexivity.
Qed.

Module GrantRuns.

Import Examples.

Lemma grant_writes_resolved_values_witness :
  ServiceStmt.consistent (fst ScenarioEnv.state0)
  /\ CredentialService.grant ["MISSING"; "BAZ"] None ScenarioEnv.state0
     = (Ok (["BAZ"], "/proj/.env"),
        snd (CredentialService.grant ["MISSING"; "BAZ"] None ScenarioEnv.state0))
  /\ files (Source.world
              (snd (snd (CredentialService.grant ["MISSING"; "BAZ"] None
                           ScenarioEnv.state0)))) "/proj/.env"
     = File (Scenario.lines ["FOO=bar"; "BAZ=new"]).
Proof.
  assert (Hc : ServiceStmt.consistent (fst ScenarioEnv.state0))
    by (left; repeat split).
  assert (Hg : CredentialService.grant ["MISSING"; "BAZ"] None ScenarioEnv.state0
               = (Ok (["BAZ"], "/proj/.env"),
                  snd (CredentialService.grant ["MISSING"; "BAZ"] None
                         ScenarioEnv.state0))).
  { apply run_pair. vm_compute. reflexivity. }
  split; [exact Hc|]. split; [exact Hg|].
  destruct (grant_writes_resolved_values _ _ _ _ _ _ Hc Hg) as (_ & Hfile).
  rewrite Hfile. vm_compute. reflexivity.
Defined.

End GrantRuns.

(** ** The service: setting a vault up *)

(** X20.  [initializeVault] without a custom path makes the vault in the
    local directory when asked to, in the global one otherwise, and answers
    the public key of the identity it generated together with that
    directory.  It keeps the new source in the service object but neither
    registers it nor marks the service initialised: the registry and the
    flag are as before. *)
Theorem initializeVault_does_not_register
    `{AgeLibrary} `{PathLibrary} `{YamlLibrary} `{DotenvLibrary}
    (t : CredentialService.t) (w : World)
    (log : list (Source.Call * Source.Outcome)) (local : option bool) :
  let dir := match local with
             | Some true => VaultStmt.local_dir w
             | _ => VaultStmt.global_dir w
             end in
  let ls := VaultStmt.vault_in dir in
  let recipient := age_identityToRecipient (age_generateIdentity (entropy w)) in
  files w (LocalSource.identityPath ls) <> Unreadable ->
  files w (LocalSource.recipientPath ls) <> Unreadable ->
  files w (LocalSource.vaultPath ls) <> Unreadable ->
  StoreMore.key_text "age1" recipient ->
  exists w1,
    LocalSource.initialize ls w = (Ok tt, w1)
    /\ VaultSetup.initializeVault local None (t, Source.mkTraced w log)
       = (Ok (recipient, dir),
          (CredentialService.mkService (CredentialService.registry t) (Some ls)
             (CredentialService.initialized t),
           Source.mkTraced w1 log))
    /\ VaultStmt.vault_exists dir w1
    /\ files w1 (LocalSource.vaultPath ls) = File "[]".
Proof.
  intros dir ls recipient Hi Hr Hv Hk.
  pose proof (InitializeFacts.initialize_run ls w Hi Hr Hv) as Hinit.
  cbv zeta in Hinit.
  match type of Hinit with _ = (_, ?x) => set (w1 := x) in * end.
  destruct (ServiceRoutes.vault_in_paths dir) as (Hvi & Hvr & Hir).
  assert (Hpk : LocalSource.getPublicKey ls w1 = (Ok recipient, w1)).
  { unfold LocalSource.getPublicKey.
    eapply KeyFileFacts.loadRecipient_saved; [exact Hk|].
    unfold w1. rewrite StoreRuns.put_file_other by exact Hvr.
    apply StoreRuns.put_file_same. }
  exists w1. split; [exact Hinit|]. split; [|split].
  - unfold VaultSetup.initializeVault.
    assert (Hdir : VaultSetup.vaultDir local None w = (Ok dir, w))
      by (destruct local as [[|]|]; reflexivity).
    rewrite (MonadFacts.bind_run _ _ _ _ _ (ServiceFacts.io_run _ t w log _ _ Hdir)).
    fold ls. unfold bind at 1, CredentialService.update. cbn [fst snd].
    rewrite (MonadFacts.bind_run _ _ _ _ _
               (ServiceFacts.io_run _ _ w log _ _ Hinit)).
    rewrite (MonadFacts.bind_run _ _ _ _ _
               (ServiceFacts.io_run _ _ w1 log _ _ Hpk)).
    reflexivity.
  - unfold VaultStmt.vault_exists.
    change (path.join dir "identity.txt") with (LocalSource.identityPath ls).
    unfold w1. rewrite StoreRuns.put_file_other by exact Hvi.
    rewrite StoreRuns.put_file_other
      by (intros E; apply Hir; symmetry; exact E).
    rewrite StoreRuns.put_file_same. discriminate.
  - apply StoreRuns.put_file_same.
Qed.

Module SetupRuns.

Import Examples.

(** No reading of custom paths is needed for the scene. *)
Lemma initializeVault_does_not_register_witness :
  let w := Scenario.project Absent in
  let paths_as_given : PathLibrary :=
    {| path_resolve := fun _ p => p; path_join := fun a b => a ++ b |} in
  exists w1,
    @VaultSetup.initializeVault ToyAge paths_as_given (Some true) None
      (Scenario.start w)
    = (Ok ("age1000007", "/proj/.secretsage"),
       (CredentialService.mkService [] (Some Scenario.local_source) false,
        Source.mkTraced w1 []))
    /\ fst (CredentialService.hasVault (CredentialService.new, Source.mkTraced w1 []))
       = Ok (true, false).
Proof.
  intros w paths_as_given.
  destruct (@initializeVault_does_not_register ToyAge paths_as_given JsonYaml
              LineDotenv CredentialService.new w [] (Some true))
    as (w1 & Hinit & Hrun & _ & _).
  - vm_compute. discriminate.
  - vm_compute. discriminate.
  - vm_compute. discriminate.
  - repeat split; vm_compute; reflexivity.
  - exists w1. split; [exact Hrun|].
    pose proof (f_equal snd Hinit) as E. cbn [snd] in E.
    rewrite <- E. vm_compute. reflexivity.
Defined.

End SetupRuns.
(** ** The reconciler: the names [revoke] reports *)

Module RevokeNames.

Import Source CredentialService ServiceStmt MonadFacts ServiceFacts.

Local Abbreviation list := Datatypes.list.

Lemma loop_acc names : forall (env : JsObject.t string) acc,
  snd (revoke_loop names env acc) = (acc ++ snd (revoke_loop names env []))%list.
Proof.
  induction names as [|n rest IH]; intros env acc; cbn [revoke_loop].
  - cbn. rewrite app_nil_r. reflexivity.
  - destruct (JsObject.has_in n env).
    + rewrite IH, (IH _ ([] ++ [n])%list), app_assoc. reflexivity.
    + apply IH.
Qed.

Lemma hasOwn_delete_same k (env : JsObject.t string) :
  JsObject.hasOwn k (JsObject.delete k env) = false.
Proof.
  unfold JsObject.hasOwn.
  induction env as [|[k' v] r IH]; [reflexivity|].
  cbn [JsObject.delete]. destruct (String.eqb k' k) eqn:E; [exact IH|].
  cbn [JsObject.getOwn]. rewrite E. exact IH.
Qed.

Lemma has_in_delete_other n k (env : JsObject.t string) :
  n <> k -> JsObject.has_in n (JsObject.delete k env) = JsObject.has_in n env.
Proof.
  intros Hne. unfold JsObject.has_in, JsObject.hasOwn.
  rewrite EnvMapFacts.delete_remove, EnvMapFacts.getOwn_remove; [reflexivity|].
  intros [E | []]. apply Hne. symmetry. exact E.
Qed.

Lemma loop_In names : forall (env : JsObject.t string) n,
  In n (snd (revoke_loop names env []))
  <-> In n names /\ JsObject.has_in n env = true.
Proof.
  induction names as [|k rest IH]; intros env n; cbn [revoke_loop].
  - cbn. tauto.
  - destruct (JsObject.has_in k env) eqn:Ek.
    + rewrite loop_acc. cbn [app In]. rewrite IH. split.
      * intros [E | [Hin Hn]]; [subst n; split; [left; reflexivity|exact Ek]|].
        split; [right; exact Hin|].
        destruct (string_dec n k) as [E | Hne]; [subst n; exact Ek|].
        rewrite <- (has_in_delete_other n k env Hne). exact Hn.
      * intros [[E | Hin] Hn]; [left; exact E|].
        destruct (string_dec n k) as [E | Hne]; [left; symmetry; exact E|].
        right. split; [exact Hin|].
        rewrite (has_in_delete_other n k env Hne). exact Hn.
    + rewrite IH. split.
      * intros [Hin Hn]. split; [right; exact Hin|exact Hn].
      * intros [[E | Hin] Hn]; [subst n; congruence|split; assumption].
Qed.

Lemma loop_inherited names n : forall (env : JsObject.t string),
  JsObject.inherited n = true ->
  count_occ string_dec (snd (revoke_loop names env [])) n
  = count_occ string_dec names n.
Proof.
  intros env Hn. revert env.
  induction names as [|k rest IH]; intros env; cbn [revoke_loop]; [reflexivity|].
  destruct (string_dec k n) as [E | Hne].
  - subst k. unfold JsObject.has_in at 1. rewrite Hn, orb_true_r.
    rewrite loop_acc. cbn [app]. rewrite !count_occ_cons_eq by reflexivity.
    f_equal. apply IH.
  - rewrite (count_occ_cons_neq _ _ Hne).
    destruct (JsObject.has_in k env); [|apply IH].
    rewrite loop_acc. cbn [app]. rewrite (count_occ_cons_neq _ _ Hne). apply IH.
Qed.

Lemma loop_own_once names n : forall (env : JsObject.t string),
  JsObject.inherited n = false ->
  count_occ string_dec (snd (revoke_loop names env [])) n <= 1.
Proof.
  intros env Hn. revert env.
  induction names as [|k rest IH]; intros env; cbn [revoke_loop]; [cbn; lia|].
  destruct (JsObject.has_in k env) eqn:Ek; [|apply IH].
  rewrite loop_acc. cbn [app].
  destruct (string_dec k n) as [E | Hne].
  - subst k. rewrite count_occ_cons_eq by reflexivity.
    assert (Hout : ~ In n (snd (revoke_loop rest (JsObject.delete n env) []))).
    { rewrite loop_In. intros [_ Hin]. unfold JsObject.has_in in Hin.
      rewrite hasOwn_delete_same, Hn in Hin. discriminate Hin. }
    apply (count_occ_not_In string_dec) in Hout. rewrite Hout. lia.
  - rewrite (count_occ_cons_neq _ _ Hne). apply IH.
Qed.

End RevokeNames.

(** X21.  On an env document that can be read, [revoke] reports as revoked
    the requested names that the [in] operator finds in the parsed document.
    A name the document holds is reported once however
    often it is requested; a name every object inherits, such as
    [toString], is reported each time it is requested, whether or not the
    document holds it. *)
Theorem revoke_reports_names_found `{DotenvLibrary}
    (names : list string) (t : CredentialService.t) (w : World)
    (log : list (Source.Call * Source.Outcome)) (content : string) :
  files w (path.join (cwd w) ".env") = File content ->
  exists revoked s1,
    CredentialService.revoke names (t, Source.mkTraced w log)
    = (Ok (revoked, path.join (cwd w) ".env"), s1)
    /\ (forall n, In n revoked
                  <-> In n names /\ JsObject.has_in n (parseEnv content) = true)
    /\ (forall n, JsObject.inherited n = true ->
                  count_occ string_dec revoked n = count_occ string_dec names n)
    /\ (forall n, JsObject.inherited n = false ->
                  count_occ string_dec revoked n <= 1).
Proof.
  intros Hf. rewrite ReconcilerMore.revoke_cases, Hf. cbv zeta.
  eexists. eexists. split; [reflexivity|]. split; [|split].
  - intros n. apply RevokeNames.loop_In.
  - intros n. apply RevokeNames.loop_inherited.
  - intros n. apply RevokeNames.loop_own_once.
Qed.

Module RevokeRuns.

Import Examples.

(** The document holds [FOO] only; [FOO] is asked for twice and [toString]
    twice. *)
Lemma revoke_reports_names_found_witness :
  let w := put_file "/proj/.env" (File ("FOO=bar" ++ Str.str1 Str.LF))
             (Scenario.project Absent) in
  exists revoked s1,
    @CredentialService.revoke LineDotenv
      ["FOO"; "toString"; "FOO"; "toString"] (Scenario.start w)
    = (Ok (revoked, "/proj/.env"), s1)
    /\ revoked = ["FOO"; "toString"; "toString"]
    /\ count_occ string_dec revoked "toString" = 2
    /\ count_occ string_dec revoked "FOO" <= 1.
Proof.
  intros w.
  destruct (@revoke_reports_names_found LineDotenv
              ["FOO"; "toString"; "FOO"; "toString"] CredentialService.new w []
              ("FOO=bar" ++ Str.str1 Str.LF) eq_refl)
    as (revoked & s1 & Hrun & _ & Hproto & Hown).
  exists revoked, s1. split; [exact Hrun|]. split; [|split].
  - pose proof (f_equal (fun r => fst r) Hrun) as E.
    vm_compute in E. injection E as E. symmetry. exact E.
  - rewrite (Hproto "toString" eq_refl). reflexivity.
  - apply (Hown "FOO" eq_refl).
Defined.

End RevokeRuns.
(** ** The service where no vault was set up *)

Module NoVault.

Import Source CredentialService ServiceStmt VaultStmt StoreStmt MonadFacts
  ServiceFacts VaultFacts ServiceRoutes.

Local Abbreviation list := Datatypes.list.

Section Methods.
Context `{AgeLibrary} `{YamlLibrary} `{DotenvLibrary}.

Lemma isAvailable_absent ls w :
  files w (LocalSource.identityPath ls) = Absent ->
  LocalSource.isAvailable ls w = (Ok false, w).
Proof.
  intros Hf. unfold LocalSource.isAvailable, try_catch, fs.pathExists.
  rewrite Hf. reflexivity.
Qed.

Lemma none_available ls w log :
  files w (LocalSource.identityPath ls) = Absent ->
  CredentialSourceRegistry.getAvailableSources
    [(LocalSource.id, as_source ls)] (mkTraced w log)
  = (Ok [], mkTraced w (log ++ [(CallIsAvailable "local", Returned false)])%list).
Proof.
  intros Hf. pose proof (isAvailable_absent ls w Hf) as Ha.
  rewrite RegistryFacts.getAvailableSources_run.
  - cbn [CredentialSourceRegistry.getAllSources map snd filter].
    unfold RegistryStmt.available, RegistryStmt.probed, RegistryStmt.available.
    cbn [isAvailable as_source]. rewrite Ha. reflexivity.
  - intros s [E | []]. subst s. exists false. exact Ha.
Qed.

Lemma getAll_absent ls w :
  files w (LocalSource.identityPath ls) = Absent ->
  LocalSource.getAll ls w = (Throw (ENOENT (LocalSource.identityPath ls)), w).
Proof.
  intros Hf. unfold LocalSource.getAll.
  destruct (VaultReadFacts.readVault_total ls w) as [v Hv].
  rewrite (bind_run _ _ _ _ _ Hv).
  unfold bind at 1, AgeProvider.loadIdentity, bind, fs.readFile.
  rewrite Hf. reflexivity.
Qed.

End Methods.

End NoVault.

(** X22.  The service where no vault was set up.  On a new service object
    whose configuration selects a directory with no identity file, the one
    source is asked once whether it is available and answers no: [list]
    returns the empty list, [get] returns null and [delete] returns false,
    without an error; [add] throws that no writable source is available, and
    [getAll], which reads the vault directly, throws on the missing identity
    file.  None of them changes a file. *)
Theorem service_without_vault `{AgeLibrary} `{YamlLibrary}
    (w : World) (log : list (Source.Call * Source.Outcome))
    (config : JsObject.t JSON.value) (use_local : bool) (name v : string) :
  let dir := if use_local then VaultStmt.local_dir w else VaultStmt.global_dir w in
  let ls := VaultStmt.vault_in dir in
  let s := (CredentialService.new, Source.mkTraced w log) in
  let t1 := CredentialService.mkService
              [(LocalSource.id, CredentialService.as_source ls)] (Some ls) true in
  let asked := (log ++ [(Source.CallIsAvailable "local", Source.Returned false)])%list in
  config.loadConfig w = (Ok config, w) ->
  CredentialService.useLocal None config = Ok use_local ->
  files w (LocalSource.identityPath ls) = Absent ->
  CredentialService.list s = (Ok [], (t1, Source.mkTraced w asked))
  /\ CredentialService.get name s = (Ok None, (t1, Source.mkTraced w asked))
  /\ CredentialService.delete name s = (Ok false, (t1, Source.mkTraced w asked))
  /\ CredentialService.add name v s
     = (Throw (Error "No writable credential source available"),
        (t1, Source.mkTraced w asked))
  /\ CredentialService.getAll s
     = (Throw (ENOENT (LocalSource.identityPath ls)), (t1, Source.mkTraced w log)).
Proof.
  intros dir ls s t1 asked Hcfg Hul Hf.
  assert (Hinit : CredentialService.ensureInitialized s = (Ok tt, (t1, Source.mkTraced w log))).
  { unfold s. rewrite ServiceRoutes.ensureInitialized_new by reflexivity.
    exact (ServiceRoutes.init_run None CredentialService.new w log config use_local
             eq_refl Hcfg Hul). }
  pose proof (NoVault.none_available ls w log Hf) as Hav.
  repeat split.
  - unfold CredentialService.list. rewrite (MonadFacts.bind_run _ _ _ _ _ Hinit).
    unfold CredentialService.reg, CredentialSourceRegistry.list.
    cbn [fst snd CredentialService.registry t1].
    unfold t1 at 1. cbn [CredentialService.registry].
    rewrite (MonadFacts.bind_run _ _ _ _ _ Hav). reflexivity.
  - unfold CredentialService.get. rewrite (MonadFacts.bind_run _ _ _ _ _ Hinit).
    unfold CredentialService.reg, CredentialSourceRegistry.get.
    cbn [fst snd]. unfold t1 at 1. cbn [CredentialService.registry].
    rewrite (MonadFacts.bind_run _ _ _ _ _ Hav). reflexivity.
  - unfold CredentialService.delete. rewrite (MonadFacts.bind_run _ _ _ _ _ Hinit).
    unfold CredentialService.reg, CredentialSourceRegistry.delete.
    cbn [fst snd CredentialSourceRegistry.given]. unfold t1 at 1.
    cbn [CredentialService.registry].
    rewrite (MonadFacts.bind_run _ _ _ _ _ Hav). reflexivity.
  - unfold CredentialService.add. rewrite (MonadFacts.bind_run _ _ _ _ _ Hinit).
    unfold CredentialService.reg, CredentialSourceRegistry.set.
    cbn [fst snd CredentialSourceRegistry.given]. unfold t1 at 1.
    cbn [CredentialService.registry].
    rewrite (MonadFacts.bind_run _ _ _ _ _ Hav). reflexivity.
  - unfold CredentialService.getAll. rewrite (MonadFacts.bind_run _ _ _ _ _ Hinit).
    unfold bind at 1, CredentialService.this. cbn [fst]. unfold t1 at 1.
    cbn [CredentialService.localSource].
    apply ServiceFacts.io_run. apply NoVault.getAll_absent. exact Hf.
Qed.

Module NoVaultRuns.

Import Examples.

(** A project with no vault anywhere and no configuration file. *)
Lemma service_without_vault_witness :
  let w := Scenario.project Absent in
  fst (@CredentialService.list ToyAge JsonYaml (Scenario.start w)) = Ok []
  /\ fst (@CredentialService.add ToyAge JsonYaml "FOO" "bar" (Scenario.start w))
     = Throw (Error "No writable credential source available")
  /\ fst (@CredentialService.getAll ToyAge JsonYaml (Scenario.start w))
     = Throw (ENOENT "/home/u/.secretsage/identity.txt").
Proof.
  intros w.
  assert (Hcfg : @config.loadConfig JsonYaml w = (Ok config.getDefaultConfig, w)).
  { apply readonly_pair; [apply MonadFacts.readonly_loadConfig|].
    vm_compute. reflexivity. }
  destruct (@service_without_vault ToyAge JsonYaml w []
              config.getDefaultConfig false "FOO" "bar" Hcfg eq_refl eq_refl)
    as (Hl & _ & _ & Ha & Hg).
  split; [|split].
  - exact (f_equal (fun r => fst r) Hl).
  - exact (f_equal (fun r => fst r) Ha).
  - exact (f_equal (fun r => fst r) Hg).
Defined.

End NoVaultRuns.
